(** * MitoGraph (Z-adaptive): the numerical core, embedded and verified

    A shallow embedding of the routines of [MitoGraph.cxx] that turn an
    intensity volume into a tubularity field, binarize it, and measure the
    resulting skeleton.

    Conventions of the embedding:
    - a C++ [double] is a real number ([R]), and a division whose divisor
      is zero is an explicit error of the model ([DivisionByZero]) wherever
      a routine can reach one.  Rounding is written out ([ToFloat],
      [ToDouble]) where the outcome of a test or of a cast hangs on it: the
      Frobenius norms kept in single precision and the noise floors they
      are compared with, the rescaling whose quotient is cast to an
      integer, and the width statistics, whose square root has an argument
      that can round below zero (NaN).  Infinities are not modelled;
    - an [int] is an integer; the 32-bit arithmetic of the id routines is
      written out in [Int32];
    - a [vtkDataArray] with one component is a [list R], read with
      [GetTuple1] and written with [SetTuple1];
    - a loop keeps its shape: [for (id = N; id--;)] is [for_down N],
      [for (i = 0; i < n; i++)] is [for_up n], and the loop body is a
      function from the loop variable and the state to the new state;
    - what VTK does ([vtkMath::Diagonalize3x3], Gaussian smoothing, cell
      links) is either a section variable or a small model named as such. *)

From Stdlib Require Import String Reals Lra Lia List ZArith Bool Arith PeanoNat.
Import ListNotations.

Open Scope R_scope.

(** ** Loops *)

(** [for (id = n; id--;) body(id)]: the body runs at n-1, n-2, ..., 0. *)
Fixpoint for_down {St : Type} (n : nat) (body : nat -> St -> St) (s : St) : St :=
  match n with
  | O => s
  | S k => for_down k body (body k s)
  end.

(** [for (i = 0; i < n; i++) body(i)]: the body runs at 0, 1, ..., n-1. *)
Definition for_up {St : Type} (n : nat) (body : nat -> St -> St) (s : St) : St :=
  fold_left (fun acc i => body i acc) (seq 0 n) s.

(** [for (i = lo; i < hi; i++) body(i)]. *)
Definition for_range {St : Type} (lo hi : nat) (body : nat -> St -> St) (s : St) : St :=
  fold_left (fun acc i => body i acc) (seq lo (hi - lo)) s.

(** ** Scalar arrays *)

Definition DataArray := list R.

Definition GetTuple1 (a : DataArray) (id : nat) : R := nth id a 0.

(** [a -> SetTuple1(id, v)].  VTK does no bounds check; every write of the
    embedded routines is in range, and out of range the model leaves the
    array as it is. *)
Fixpoint SetTuple1 (a : DataArray) (id : nat) (v : R) : DataArray :=
  match a, id with
  | [], _ => []
  | _ :: t, O => v :: t
  | h :: t, S k => h :: SetTuple1 t k v
  end.

(** [a -> SetNumberOfTuples(N); a -> FillComponent(0, v)]. *)
Definition FillComponent (N : nat) (v : R) : DataArray := repeat v N.

(** The upper end of [a -> GetRange(range)], i.e. [range[1]]: the largest
    entry.  (For an array without entries VTK reports a sentinel; no routine
    below reads it in that case, and the model gives 0.) *)
Definition RangeMax (a : DataArray) : R :=
  match a with
  | [] => 0
  | h :: t => fold_left Rmax t h
  end.

(** The lower end, [range[0]]. *)
Definition RangeMin (a : DataArray) : R :=
  match a with
  | [] => 0
  | h :: t => fold_left Rmin t h
  end.

(** ** Comparisons of doubles, as booleans *)

Definition Rltb (a b : R) : bool := if Rlt_dec a b then true else false.
Definition Rleb (a b : R) : bool := if Rle_dec a b then true else false.
Definition Rgtb (a b : R) : bool := Rltb b a.

(** ** Voxel grids *)

(** The scalar types of a [vtkImageData] that the code distinguishes. *)
Inductive ScalarType :=
| VTK_UNSIGNED_CHAR
| VTK_UNSIGNED_SHORT
| VTK_FLOAT
| VTK_DOUBLE.

Record ImageData := mkImage {
  Dim : nat * nat * nat;
  GetScalarType : ScalarType;
  Scalars : DataArray
}.

Definition DimX (im : ImageData) : nat := fst (fst (Dim im)).
Definition DimY (im : ImageData) : nat := snd (fst (Dim im)).
Definition DimZ (im : ImageData) : nat := snd (Dim im).

(** [Image -> GetNumberOfPoints()]. *)
Definition GetNumberOfPoints (im : ImageData) : nat :=
  (DimX im * DimY im * DimZ im)%nat.

(** [GetId(x,y,z,Dim)]: x + y*Dim[0] + z*Dim[0]*Dim[1], the index of a
    voxel in the arrays of a grid.  The routine computes it in 32-bit
    [int]; the machine arithmetic, and the size up to which it gives this
    index, are in [Int32] below. *)
Definition GetId (x y z : nat) (dim : nat * nat * nat) : nat :=
  let '(dx, dy, _) := dim in (x + y * dx + z * dx * dy)%nat.

(** ** Sorting an eigenvalue triple *)

Definition Triple := (R * R * R)%type.

(** [Swap] exchanges two cells; [Sort] is three compare-and-swap steps on
    the cells (l1,l2), (l2,l3), (l1,l2). *)
Definition Sort (t : Triple) : Triple :=
  let '(l1, l2, l3) := t in
  let '(l1, l2) := if Rgtb (Rabs l1) (Rabs l2) then (l2, l1) else (l1, l2) in
  let '(l2, l3) := if Rgtb (Rabs l2) (Rabs l3) then (l3, l2) else (l2, l3) in
  let '(l1, l2) := if Rgtb (Rabs l1) (Rabs l2) then (l2, l1) else (l1, l2) in
  (l1, l2, l3).

(** The order an [EigenTriple] is kept in. *)
Definition abs_sorted (t : Triple) : Prop :=
  let '(l1, l2, l3) := t in Rabs l1 <= Rabs l2 /\ Rabs l2 <= Rabs l3.

(** ** Frobenius norm *)

Definition Mat3 := nat -> nat -> R.

Definition FrobeniusNorm (M : Mat3) : R :=
  sqrt (for_down 3 (fun i f => for_down 3 (fun j f => f + M i j * M i j) f) 0).

(** ** Narrowing to a binary floating-point format *)

(** The integer nearest to a real, ties to the even one. *)
Definition RoundNearestEven (r : R) : Z :=
  let f := Int_part r in
  let d := r - IZR f in
  if Rlt_dec d (1 / 2) then f
  else if Rlt_dec (1 / 2) d then (f + 1)%Z
  else if Z.even f then f else (f + 1)%Z.

(** The exponent of the binade of [x], not below the least exponent
    [emin] of the format (below it the numbers are subnormal). *)
Definition BinaryExponent (emin : Z) (x : R) : Z :=
  Z.max (Int_part (ln (Rabs x) / ln 2)) emin.

(** Rounding to nearest, ties to even, in the format with [prec] bits of
    significand and least exponent [emin].  The format is not bounded
    above here: a value beyond the largest finite number of the format
    (an infinity in the program) is out of the model. *)
Definition RoundBinary (prec emin : Z) (x : R) : R :=
  let ulp := powerRZ 2 (BinaryExponent emin x - prec + 1) in
  IZR (RoundNearestEven (x / ulp)) * ulp.

(** Storing a double into a [vtkFloatArray]: IEEE binary32. *)
Definition ToFloat (x : R) : R := RoundBinary 24 (-126) x.

(** The result of one double operation whose exact value is [x]: IEEE
    binary64.  Where a routine is written with it, every operation is
    rounded on its own (no fused multiply-add, no extended precision). *)
Definition ToDouble (x : R) : R := RoundBinary 53 (-1022) x.

(** ** Hessian eigenvalues (GetHessianEigenvaluesDiscrete) *)

(** The six second partials of the smoothed image, one array each, as
    lines 1633-1654 leave them (Gaussian smoothing by VTK, then
    [GetImageDerivativeDiscrete] twice). *)
Record HessianField := mkHessianField {
  Dxx : DataArray; Dyy : DataArray; Dzz : DataArray;
  Dxy : DataArray; Dxz : DataArray; Dyz : DataArray
}.

(** The matrix [H] that the loop body fills at voxel [id]. *)
Definition HessianAt (D : HessianField) (id : nat) : Mat3 :=
  fun i j =>
    match i, j with
    | 0%nat, 0%nat => GetTuple1 (Dxx D) id
    | 0%nat, 1%nat => GetTuple1 (Dxy D) id
    | 0%nat, 2%nat => GetTuple1 (Dxz D) id
    | 1%nat, 0%nat => GetTuple1 (Dxy D) id
    | 1%nat, 1%nat => GetTuple1 (Dyy D) id
    | 1%nat, 2%nat => GetTuple1 (Dyz D) id
    | 2%nat, 0%nat => GetTuple1 (Dxz D) id
    | 2%nat, 1%nat => GetTuple1 (Dyz D) id
    | 2%nat, 2%nat => GetTuple1 (Dzz D) id
    | _, _ => 0
    end.

(** The arrays the two loops of the estimator write. *)
Record EigenState := mkEigenState {
  L1 : DataArray; L2 : DataArray; L3 : DataArray; Fro : DataArray
}.

Definition EigenTripleAt (st : EigenState) (id : nat) : Triple :=
  (GetTuple1 (L1 st) id, GetTuple1 (L2 st) id, GetTuple1 (L3 st) id).

Definition ZeroTriple (st : EigenState) (id : nat) : EigenState :=
  mkEigenState (SetTuple1 (L1 st) id 0) (SetTuple1 (L2 st) id 0)
               (SetTuple1 (L3 st) id 0) (Fro st).

Section HessianEigenvalues.

(** [vtkMath::Diagonalize3x3(H, Eva, Eve)]: the eigenvalues [Eva] of a
      symmetric matrix.  Nothing is assumed about it. *)
Variable Diagonalize3x3 : Mat3 -> Triple.

(** Lines 1657-1666: eigenvalues of one voxel. *)
Definition VoxelEigenvalues (H : Mat3) : Triple :=
    if Rltb (H 0%nat 0%nat + H 1%nat 1%nat + H 2%nat 2%nat) 0
    then Sort (Diagonalize3x3 H)
    else (0, 0, 0).

(** Body of the first loop (lines 1656-1671).  [L1], [L2], [L3] are
      double arrays; [Fro] is a [vtkFloatArray] (line 1642), so the norm
      is narrowed to single precision when it is stored. *)
Definition EigenBody (D : HessianField) (id : nat) (st : EigenState) : EigenState :=
    let H := HessianAt D id in
    let frobnorm := FrobeniusNorm H in
    let '(l1, l2, l3) := VoxelEigenvalues H in
    mkEigenState (SetTuple1 (L1 st) id l1) (SetTuple1 (L2 st) id l2)
                 (SetTuple1 (L3 st) id l3) (SetTuple1 (Fro st) id (ToFloat frobnorm)).

(** The state after the first loop.  [Fro] is allocated with N tuples and
      every one of them is written by the loop. *)
Definition EigenPass (N : nat) (D : HessianField) (l1 l2 l3 : DataArray) : EigenState :=
    for_down N (EigenBody D) (mkEigenState l1 l2 l3 (FillComponent N 0)).

(** Lines 1672-1674: [ftresh = sqrt(frobenius_norm_range[1])], the root,
      a double, of the largest single-precision value held by [Fro]. *)
Definition NoiseFloor (st : EigenState) : R := ToDouble (sqrt (RangeMax (Fro st))).

(** The value [Fro] holds for a voxel once the first loop has run: what
      the second loop compares with the floor. *)
Definition StoredNorm (N : nat) (D : HessianField) (l1 l2 l3 : DataArray)
             (id : nat) : R :=
    GetTuple1 (Fro (EigenPass N D l1 l2 l3)) id.

(** Body of the second loop (lines 1676-1682). *)
Definition FloorBody (ftresh : R) (id : nat) (st : EigenState) : EigenState :=
    if Rltb (GetTuple1 (Fro st) id) ftresh then ZeroTriple st id else st.

(** Lines 1656-1682 as a whole. *)
Definition HessianEigenLoops (N : nat) (D : HessianField) (l1 l2 l3 : DataArray)
    : EigenState :=
    let st := EigenPass N D l1 l2 l3 in
    for_down N (FloorBody (NoiseFloor st)) st.

(** The global noise floor the estimator uses on a Hessian field. *)
Definition HessianNoiseFloor (N : nat) (D : HessianField) (l1 l2 l3 : DataArray) : R :=
    NoiseFloor (EigenPass N D l1 l2 l3).

End HessianEigenvalues.


(** ** Block-adaptive Hessian eigenvalues
       (GetHessianEigenvaluesDiscreteZDependentThreshold) *)

(** [GetX], [GetY], [GetZ]: the coordinates of the id-th point. *)
Definition GetX (id : nat) (dim : nat * nat * nat) : nat :=
  let '(dx, _, _) := dim in (id mod dx)%nat.

Definition GetY (id : nat) (dim : nat * nat * nat) : nat :=
  let '(dx, dy, _) := dim in ((id mod (dx * dy)) / dx)%nat.

Definition GetZ (id : nat) (dim : nat * nat * nat) : nat :=
  let '(dx, dy, _) := dim in (id / (dx * dy))%nat.

(** The neighbour offsets; the first six are the 6-neighbourhood. *)
Definition ssdx_sort : list Z :=
  [ 0;-1; 0; 1; 0; 0;-1; 0; 1; 0;-1; 1; 1;-1;-1; 0; 1; 0;-1; 1; 1;-1;-1; 1; 1;-1]%Z.
Definition ssdy_sort : list Z :=
  [ 0; 0;-1; 0; 1; 0; 0;-1; 0; 1;-1;-1; 1; 1; 0;-1; 0; 1;-1;-1; 1; 1;-1;-1; 1; 1]%Z.
Definition ssdz_sort : list Z :=
  [-1; 0; 0; 0; 0; 1;-1;-1;-1;-1; 0; 0; 0; 0; 1; 1; 1; 1;-1;-1;-1;-1; 1; 1; 1; 1]%Z.

(** A coordinate moved by an offset of the tables. *)
Definition Shift (x : nat) (d : Z) : nat := Z.to_nat (Z.of_nat x + d).

(** The cast [(int) r] of a double: truncation towards zero. *)
Definition truncate (r : R) : Z :=
  if Rle_dec 0 r then Int_part r else (- Int_part (- r))%Z.

(** [int((1.0*nblks*x)/Dim[0])]: the block a coordinate falls into. *)
Definition BlockOf (nblks x d : nat) : nat :=
  Z.to_nat (truncate ((1 * INR nblks * INR x) / INR d)).

(** The table [FThresh[qx][qy][z]]. *)
Definition FThreshTable := nat -> nat -> nat -> R.

Definition SetFThresh (F : FThreshTable) (qx qy z : nat) (v : R) : FThreshTable :=
  fun a b c => if ((a =? qx) && (b =? qy) && (c =? z))%nat then v else F a b c.

Record AdaptiveState := mkAdaptiveState {
  Eig : EigenState;
  FThresh : FThreshTable
}.

Section AdaptiveHessianEigenvalues.

Variable Diagonalize3x3 : Mat3 -> Triple.
Variable nblks : nat.
Variable dim : nat * nat * nat.

Definition VoxelBlockX (id : nat) : nat := BlockOf nblks (GetX id dim) (fst (fst dim)).
Definition VoxelBlockY (id : nat) : nat := BlockOf nblks (GetY id dim) (snd (fst dim)).

(** Body of the first loop (lines 1744-1763): the eigenvalues as in the
      global variant, and the running maximum of the block of the voxel. *)
Definition AdaptiveEigenBody (D : HessianField) (id : nat) (st : AdaptiveState)
    : AdaptiveState :=
    let frobnorm := FrobeniusNorm (HessianAt D id) in
    let qx := VoxelBlockX id in
    let qy := VoxelBlockY id in
    let z := GetZ id dim in
    let F := FThresh st in
    mkAdaptiveState
      (EigenBody Diagonalize3x3 D id (Eig st))
      (SetFThresh F qx qy z (if Rgtb frobnorm (F qx qy z) then frobnorm else F qx qy z)).

(** Lines 1765-1771: every entry of the table is replaced by its root,
      a double. *)
Definition SqrtFThresh (F : FThreshTable) : FThreshTable :=
    for_down (snd dim) (fun z F =>
      for_down nblks (fun x F =>
        for_down nblks (fun y F => SetFThresh F x y z (ToDouble (sqrt (F x y z)))) F) F) F.

(** Lines 1783-1789: the mean of [Fro] over the six neighbours of an
      interior voxel, summed and divided in doubles, 0 on the boundary.
      ([x < Dim[0]-1] is written [x + 1 < Dim[0]], the same test on
      integers.) *)
Definition NeighbourFrobenius (fro : DataArray) (x y z : nat) : R :=
    let '(dx, dy, dz) := dim in
    if ((0 <? x) && (x + 1 <? dx) && (0 <? y) && (y + 1 <? dy)
        && (0 <? z) && (z + 1 <? dz))%nat
    then
      ToDouble
        (for_up 6 (fun j acc =>
           ToDouble (acc + GetTuple1 fro (GetId (Shift x (nth j ssdx_sort 0%Z))
                                                (Shift y (nth j ssdy_sort 0%Z))
                                                (Shift z (nth j ssdz_sort 0%Z)) dim))) 0
         / 6)
    else 0.

(** Body of the last loop (lines 1779-1795). *)
Definition AdaptiveFloorBody (F : FThreshTable) (id : nat) (st : EigenState)
    : EigenState :=
    let x := GetX id dim in
    let y := GetY id dim in
    let z := GetZ id dim in
    let frobneigh := NeighbourFrobenius (Fro st) x y z in
    if Rltb frobneigh (F (VoxelBlockX id) (VoxelBlockY id) z)
    then ZeroTriple st id
    else st.

(** Lines 1744-1795 as a whole. *)
Definition AdaptiveHessianEigenLoops (N : nat) (D : HessianField)
             (l1 l2 l3 : DataArray) : EigenState :=
    let st := for_down N (AdaptiveEigenBody D)
                (mkAdaptiveState (mkEigenState l1 l2 l3 (FillComponent N 0))
                                 (fun _ _ _ => 0)) in
    let F := SqrtFThresh (FThresh st) in
    for_down N (AdaptiveFloorBody F) (Eig st).

End AdaptiveHessianEigenvalues.

(** ** Vesselness (GetVesselness) *)

(** Lines 1818-1823 and 1837-1853: the response of one voxel. *)
Definition VesselnessResponse (l1 l2 l3 : R) : R :=
  let c := 500 in
  let beta := 0.5 in
  let alpha := 0.5 in
  let std := 2 * c * c in
  let rbd := 2 * beta * beta in
  let rad := 2 * alpha * alpha in
  if Rltb l2 0 && Rltb l3 0 then
    let ra := Rabs l2 / Rabs l3 in
    let ran := - ra * ra in
    let rb := Rabs l1 / sqrt (l2 * l3) in
    let rbn := - rb * rb in
    let st := sqrt (l1 * l1 + l2 * l2 + l3 * l3) in
    let stn := - st * st in
    (1 - exp (ran / rad)) * exp (rbn / rbd) * (1 - exp (stn / std))
  else 0.

(** Body of the loop of lines 1833-1854: [L1] receives the response. *)
Definition VesselnessBody (id : nat) (st : EigenState) : EigenState :=
  let l1 := GetTuple1 (L1 st) id in
  let l2 := GetTuple1 (L2 st) id in
  let l3 := GetTuple1 (L3 st) id in
  mkEigenState (SetTuple1 (L1 st) id (VesselnessResponse l1 l2 l3))
               (L2 st) (L3 st) (Fro st).

(** The part of the run configuration ([_mitoObject]) the filter reads. *)
Record MitoObject := mkMitoObject {
  _binary_input : bool;
  _adaptive_threshold : bool;
  _z_adaptive : bool;
  _z_block_size : nat;
  _nblks : nat;
  _sigmai : R;
  _sigmaf : R;
  _nsigma : Z;
  _dsigma : R
}.

Section Vesselness.

Variable Diagonalize3x3 : Mat3 -> Triple.

(** Lines 1624-1654 of either estimator: the image smoothed by VTK at
      scale sigma, then differentiated twice. *)
Variable SmoothedHessian : R -> ImageData -> HessianField.

Definition GetHessianEigenvaluesDiscrete (sigma : R) (Image : ImageData)
             (l1 l2 l3 : DataArray) : EigenState :=
    HessianEigenLoops Diagonalize3x3 (GetNumberOfPoints Image)
                      (SmoothedHessian sigma Image) l1 l2 l3.

Definition GetHessianEigenvaluesDiscreteZDependentThreshold
             (sigma : R) (Image : ImageData) (l1 l2 l3 : DataArray)
             (mito : MitoObject) : EigenState :=
    AdaptiveHessianEigenLoops Diagonalize3x3 (_nblks mito) (Dim Image)
                              (GetNumberOfPoints Image)
                              (SmoothedHessian sigma Image) l1 l2 l3.

(** The eigenvalue arrays the vesselness loop reads. *)
Definition HessianStage (sigma : R) (Image : ImageData) (l1 l2 l3 : DataArray)
             (mito : MitoObject) : EigenState :=
    if _adaptive_threshold mito
    then GetHessianEigenvaluesDiscreteZDependentThreshold sigma Image l1 l2 l3 mito
    else GetHessianEigenvaluesDiscrete sigma Image l1 l2 l3.

(** [GetVesselness]: the three arrays after the call; the first one
      carries the vesselness. *)
Definition GetVesselness (sigma : R) (Image : ImageData) (l1 l2 l3 : DataArray)
             (mito : MitoObject) : EigenState :=
    for_down (GetNumberOfPoints Image) VesselnessBody
             (HessianStage sigma Image l1 l2 l3 mito).

End Vesselness.

(** ** Multiscale fusion (main, line 2698; MultiscaleVesselness, lines 2247-2280) *)

(** The scale step that [main] stores in [_dsigma] before any file is
    processed. *)
Definition ScaleStep (sigmai sigmaf : R) (nsigma : Z) : R :=
  if (1 <? nsigma)%Z then (sigmaf - sigmai) / IZR (nsigma - 1) else sigmaf.

Definition ConfigureScales (mito : MitoObject) : MitoObject :=
  mkMitoObject (_binary_input mito) (_adaptive_threshold mito)
               (_z_adaptive mito) (_z_block_size mito) (_nblks mito)
               (_sigmai mito) (_sigmaf mito) (_nsigma mito)
               (ScaleStep (_sigmai mito) (_sigmaf mito) (_nsigma mito)).

(** Body of the loop of lines 2271-2277: the running maximum. *)
Definition FuseBody (aux1 : DataArray) (id : nat) (vsss : DataArray) : DataArray :=
  let vn := GetTuple1 aux1 id in
  let vo := GetTuple1 vsss id in
  if Rgtb vn vo then SetTuple1 vsss id vn else vsss.

(** What the loop over the scales carries: the three work arrays, the fused
    field, and (a ghost of the model) the scales run so far. *)
Record FusionState := mkFusionState {
  AUX1 : DataArray; AUX2 : DataArray; AUX3 : DataArray;
  VSSS : DataArray;
  ScalesRun : list R
}.

Section Multiscale.

Variable Diagonalize3x3 : Mat3 -> Triple.
Variable SmoothedHessian : R -> ImageData -> HessianField.

(** One pass of the loop body (lines 2269-2277) at scale sigma. *)
Definition ScaleBody (Image : ImageData) (mito : MitoObject) (sigma : R)
           (st : FusionState) : FusionState :=
  let e := GetVesselness Diagonalize3x3 SmoothedHessian sigma Image
                         (AUX1 st) (AUX2 st) (AUX3 st) mito in
  mkFusionState (L1 e) (L2 e) (L3 e)
                (for_down (GetNumberOfPoints Image) (FuseBody (L1 e)) (VSSS st))
                (ScalesRun st ++ [sigma]).

(** [for (sigma = _sigmai; sigma <= _sigmaf + 0.5*_dsigma; sigma += _dsigma)].
    The loop need not end (a step that is not positive); the model counts
    the passes against [fuel] and answers [None] when it runs out. *)
Fixpoint ScaleLoop (fuel : nat) (Image : ImageData) (mito : MitoObject)
         (sigma : R) (st : FusionState) : option FusionState :=
  match fuel with
  | O => None
  | S fuel' =>
      if Rleb sigma (_sigmaf mito + 0.5 * _dsigma mito)
      then ScaleLoop fuel' Image mito (sigma + _dsigma mito)
                     (ScaleBody Image mito sigma st)
      else Some st
  end.

(** Lines 2247-2280: the work arrays and the fused field start at 0. *)
Definition MultiscaleFusion (fuel : nat) (Image : ImageData) (mito : MitoObject)
  : option FusionState :=
  let N := GetNumberOfPoints Image in
  ScaleLoop fuel Image mito (_sigmai mito)
            (mkFusionState (FillComponent N 0) (FillComponent N 0)
                           (FillComponent N 0) (FillComponent N 0) []).

(** The single-scale response field at scale sigma. *)
Definition ScaleResponse (Image : ImageData) (mito : MitoObject) (sigma : R)
  : DataArray :=
  let N := GetNumberOfPoints Image in
  L1 (GetVesselness Diagonalize3x3 SmoothedHessian sigma Image
                    (FillComponent N 0) (FillComponent N 0) (FillComponent N 0) mito).

End Multiscale.

(** The evenly spaced scales [start, start + step, ..., start + (n-1)*step]. *)
Definition EvenlySpaced (start step : R) (n : nat) : list R :=
  map (fun k => start + INR k * step) (seq 0 n).

(** ** Divisions that can fail *)

(** The result of a routine whose divisions are checked: its value, or the
    report that a divisor was zero. *)
Inductive Checked (A : Type) : Type :=
| Ok (a : A)
| DivisionByZero.

Arguments Ok {A} a.
Arguments DivisionByZero {A}.

Definition bind {A B : Type} (c : Checked A) (k : A -> Checked B) : Checked B :=
  match c with
  | Ok a => k a
  | DivisionByZero => DivisionByZero
  end.

Notation "x <- c ;; k" := (bind c (fun x => k))
  (at level 61, c at next level, right associativity).

(** [x / y] on doubles, where a zero divisor is reported. *)
Definition checked_div (x y : R) : Checked R :=
  if Req_dec_T y 0 then DivisionByZero else Ok (x / y).

(** A descending loop whose body can fail. *)
Definition for_down_checked {St : Type} (n : nat) (body : nat -> St -> Checked St)
           (s : St) : Checked St :=
  for_down n (fun id c => s' <- c ;; body id s') (Ok s).

(** ** Fixed-threshold binarization (BinarizeAndConvertDoubleToChar) *)

(** What a [vtkUnsignedCharArray] keeps of an integer. *)
Definition ToUnsignedChar (z : Z) : R := IZR (z mod 256).

(** The image [Image8]: a shallow copy of the input whose scalars are the
    array of unsigned chars. *)
Definition WithCharScalars (Image : ImageData) (ScalarsChar : DataArray) : ImageData :=
  mkImage (Dim Image) VTK_UNSIGNED_CHAR ScalarsChar.

(** Body of the loop of lines 953-960. *)
Definition ThresholdBody (ScalarsDouble : DataArray) (threshold : R)
           (id : nat) (ScalarsChar : DataArray) : DataArray :=
  let x := GetTuple1 ScalarsDouble id in
  if Rleb x threshold
  then SetTuple1 ScalarsChar id 0
  else SetTuple1 ScalarsChar id 255.

(** Body of the loop of lines 962-965.  The cast [(int)] is applied to the
    double the expression [255*(x-range[0])/(range[1]-range[0])] evaluates
    to, so each of its four operations is rounded to a double, in the
    order the expression is parsed: the two differences, the product, the
    quotient. *)
Definition RescaleBody (ScalarsDouble : DataArray) (range0 range1 : R)
           (id : nat) (ScalarsChar : DataArray) : Checked DataArray :=
  let x := GetTuple1 ScalarsDouble id in
  let product := ToDouble (255 * ToDouble (x - range0)) in
  q <- checked_div product (ToDouble (range1 - range0)) ;;
  Ok (SetTuple1 ScalarsChar id (ToUnsignedChar (truncate (ToDouble q)))).

Definition BinarizeAndConvertDoubleToChar (Image : ImageData) (threshold : R)
  : Checked ImageData :=
  let ScalarsDouble := Scalars Image in
  let N := length ScalarsDouble in
  let range0 := RangeMin ScalarsDouble in
  let range1 := RangeMax ScalarsDouble in
  let ScalarsChar := FillComponent N 0 in
  if Rgtb threshold 0 then
    Ok (WithCharScalars Image
          (for_down N (ThresholdBody ScalarsDouble threshold) ScalarsChar))
  else
    out <- for_down_checked N (RescaleBody ScalarsDouble range0 range1) ScalarsChar ;;
    Ok (WithCharScalars Image out).

(** A grid that holds only the two values of a binary image. *)
Definition IsBinary (a : DataArray) : Prop :=
  forall v, In v a -> v = 0 \/ v = 255.

(** ** Per-plane adaptive binarization (BinarizeAndConvertDoubleToCharZAdaptive) *)

(** The limits of [<cfloat>]: the largest finite double and the smallest
    positive normal double. *)
Definition DBL_MAX : R := (2 - / 2 ^ 52) * 2 ^ 1023.
Definition DBL_MIN : R := / 2 ^ 1022.

(** An ascending loop whose body can fail. *)
Definition for_up_checked {St : Type} (n : nat) (body : nat -> St -> Checked St)
           (s : St) : Checked St :=
  for_up n (fun i c => s' <- c ;; body i s') (Ok s).

(** [Image -> FindPoint(point)] at integer coordinates, for the origin
    (0,0,0) the pipeline sets (line 2214) and unit spacing: the id of the
    voxel. *)
Definition FindPoint (Image : ImageData) (x y z : nat) : nat :=
  GetId x y z (Dim Image).

(** The running sum, minimum and maximum of the first pass over a plane. *)
Record PlaneStats := mkPlaneStats {
  stat_sum : R; stat_min : R; stat_max : R
}.

(** Lines 1003-1005. *)
Definition StatsBody (val : R) (st : PlaneStats) : PlaneStats :=
  mkPlaneStats (stat_sum st + val)
               (if Rltb val (stat_min st) then val else stat_min st)
               (if Rgtb val (stat_max st) then val else stat_max st).

(** First pass (lines 993-1007). *)
Definition PlaneFirstPass (Image : ImageData) (z : nat) : PlaneStats :=
  for_up (DimX Image) (fun x st =>
    for_up (DimY Image) (fun y st =>
      StatsBody (GetTuple1 (Scalars Image) (FindPoint Image x y z)) st) st)
    (mkPlaneStats 0 DBL_MAX DBL_MIN).

(** Second pass (lines 1011-1019). *)
Definition PlaneVarSum (Image : ImageData) (z : nat) (z_mean : R) : R :=
  for_up (DimX Image) (fun x var_sum =>
    for_up (DimY Image) (fun y var_sum =>
      let val := GetTuple1 (Scalars Image) (FindPoint Image x y z) in
      var_sum + (val - z_mean) * (val - z_mean)) var_sum) 0.

(** Lines 1024-1028. *)
Definition PlaneThreshold (z_mean z_std z_min z_max base_threshold : R) : R :=
  let z_threshold := z_mean + (z_std * base_threshold * 2) in
  let z_threshold := if Rgtb z_threshold z_max then z_max * 0.8 else z_threshold in
  let z_threshold :=
    if Rltb z_threshold z_min then z_min + (z_max - z_min) * 0.1 else z_threshold in
  z_threshold.

(** Lines 1033-1045. *)
Definition PlaneApply (Image : ImageData) (z : nat) (z_threshold : R)
           (ScalarsChar : DataArray) : DataArray :=
  for_up (DimX Image) (fun x out =>
    for_up (DimY Image) (fun y out =>
      let id := FindPoint Image x y z in
      let val := GetTuple1 (Scalars Image) id in
      if Rleb val z_threshold then SetTuple1 out id 0 else SetTuple1 out id 255)
    out) ScalarsChar.

(** The threshold of plane z, when no division fails. *)
Definition ZPlaneThreshold (Image : ImageData) (base_threshold : R) (z : nat)
  : Checked R :=
  let st := PlaneFirstPass Image z in
  let z_pixels := INR (DimX Image * DimY Image) in
  z_mean <- checked_div (stat_sum st) z_pixels ;;
  q <- checked_div (PlaneVarSum Image z z_mean) z_pixels ;;
  let z_std := sqrt q in
  Ok (PlaneThreshold z_mean z_std (stat_min st) (stat_max st) base_threshold).

(** Body of the loop over the planes (lines 990-1046). *)
Definition ZPlaneBody (Image : ImageData) (base_threshold : R) (z : nat)
           (ScalarsChar : DataArray) : Checked DataArray :=
  z_threshold <- ZPlaneThreshold Image base_threshold z ;;
  Ok (PlaneApply Image z z_threshold ScalarsChar).

Definition BinarizeAndConvertDoubleToCharZAdaptive (Image : ImageData)
           (base_threshold : R) : Checked ImageData :=
  let N := length (Scalars Image) in
  out <- for_up_checked (DimZ Image) (ZPlaneBody Image base_threshold)
                        (FillComponent N 0) ;;
  Ok (WithCharScalars Image out).

(** *** The statistics of a plane, as the specification words them *)

(** The values of plane z. *)
Definition PlaneValues (Image : ImageData) (z : nat) : list R :=
  map (fun p => GetTuple1 (Scalars Image) (GetId (fst p) (snd p) z (Dim Image)))
      (list_prod (seq 0 (DimX Image)) (seq 0 (DimY Image))).

Definition Sum (l : list R) : R := fold_right Rplus 0 l.

(** The mean. *)
Definition Mean (l : list R) : R := Sum l / INR (length l).

(** The (population) standard deviation. *)
Definition StdDev (l : list R) : R :=
  sqrt (Sum (map (fun v => (v - Mean l) ^ 2) l) / INR (length l)).

(** "threshold = mu + 2 base sigma, clamped into [min + 0.1 range, 0.8 max]". *)
Definition SpecClampedThreshold (l : list R) (base : R) : R :=
  let lo := RangeMin l + 0.1 * (RangeMax l - RangeMin l) in
  let hi := 0.8 * RangeMax l in
  let t := Mean l + 2 * base * StdDev l in
  Rmax lo (Rmin hi t).

(** What the code does with the threshold instead: it is replaced by
    0.8 max when it exceeds the plane maximum, then by min + 0.1 range when
    it is below the plane minimum, and is otherwise left as it is. *)
Definition AdjustedThreshold (l : list R) (base : R) : R :=
  let t := Mean l + 2 * base * StdDev l in
  let t := if Rlt_dec (RangeMax l) t then 0.8 * RangeMax l else t in
  if Rlt_dec t (RangeMin l) then RangeMin l + 0.1 * (RangeMax l - RangeMin l) else t.

(** ** Per-block conservative binarization
       (BinarizeAndConvertDoubleToCharZAdaptiveConservative) *)

(** First pass over the planes of a block (lines 1083-1095). *)
Definition BlockFirstPass (Image : ImageData) (z_start z_end : nat) : PlaneStats :=
  for_range z_start z_end (fun z st =>
    for_up (DimX Image) (fun x st =>
      for_up (DimY Image) (fun y st =>
        StatsBody (GetTuple1 (Scalars Image) (FindPoint Image x y z)) st) st) st)
    (mkPlaneStats 0 DBL_MAX DBL_MIN).

(** Second pass (lines 1099-1109). *)
Definition BlockVarSum (Image : ImageData) (z_start z_end : nat) (block_mean : R) : R :=
  for_range z_start z_end (fun z var_sum =>
    for_up (DimX Image) (fun x var_sum =>
      for_up (DimY Image) (fun y var_sum =>
        let val := GetTuple1 (Scalars Image) (FindPoint Image x y z) in
        var_sum + (val - block_mean) * (val - block_mean)) var_sum) var_sum) 0.

(** Lines 1115-1182: the threshold of a block from its statistics. *)
Definition ConservativeThreshold (global_range0 global_range1 base_threshold : R)
           (block_mean block_std block_min block_max : R) : Checked R :=
  let block_range := block_max - block_min in
  let block_range := if Rltb block_range 1e-6 then 1 else block_range in
  brightness_factor <- checked_div (block_mean - block_min) block_range ;;
  cv <- (if Rgtb block_mean 0 then checked_div block_std block_mean else Ok 0) ;;
  let is_very_dark_region :=
    Rltb block_mean ((global_range1 - global_range0) * 0.1)
    || Rltb brightness_factor 0.2 in
  let adaptive_threshold :=
    if is_very_dark_region then
      let t := block_mean + (block_std * base_threshold * 2) in
      let t := if Rltb block_mean ((global_range1 - global_range0) * 0.05)
               then block_mean + (block_std * base_threshold * 1.5) else t in
      let dark_min_threshold := block_min + (block_range * 0.01) in
      if Rltb t dark_min_threshold then dark_min_threshold else t
    else
      let user_threshold_mapped := block_min + (block_range * base_threshold) in
      let adaptive_adjustment :=
        if Rgtb cv 0.5 then block_std * 0.2
        else if Rltb cv 0.3 then - block_std * 0.1
        else 0 in
      let adaptive_adjustment :=
        if Rltb brightness_factor 0.5
        then adaptive_adjustment - block_std * 0.1 else adaptive_adjustment in
      user_threshold_mapped + adaptive_adjustment in
  let min_threshold :=
    if is_very_dark_region then block_min + (block_range * 0.01)
    else block_min + (block_range * (base_threshold * 0.3)) in
  let max_threshold :=
    if is_very_dark_region then block_mean + (block_std * 3)
    else block_min + (block_range * (base_threshold * 3)) in
  let adaptive_threshold :=
    if Rltb adaptive_threshold min_threshold then min_threshold else adaptive_threshold in
  let adaptive_threshold :=
    if Rgtb adaptive_threshold max_threshold then max_threshold else adaptive_threshold in
  Ok adaptive_threshold.

(** Lines 1187-1201. *)
Definition BlockApply (Image : ImageData) (z_start z_end : nat) (adaptive_threshold : R)
           (ScalarsChar : DataArray) : DataArray :=
  for_range z_start z_end (fun z out =>
    for_up (DimX Image) (fun x out =>
      for_up (DimY Image) (fun y out =>
        let id := FindPoint Image x y z in
        let val := GetTuple1 (Scalars Image) id in
        if Rleb val adaptive_threshold
        then SetTuple1 out id 0 else SetTuple1 out id 255) out) out) ScalarsChar.

(** One pass of the loop over the blocks (lines 1076-1201). *)
Definition BlockBody (Image : ImageData) (base_threshold : R) (z_block_size : nat)
           (z_start : nat) (ScalarsChar : DataArray) : Checked DataArray :=
  let global_range0 := RangeMin (Scalars Image) in
  let global_range1 := RangeMax (Scalars Image) in
  let z_end := if (z_start + z_block_size <? DimZ Image)%nat
               then (z_start + z_block_size)%nat else DimZ Image in
  let st := BlockFirstPass Image z_start z_end in
  let block_pixels := INR (DimX Image * DimY Image * (z_end - z_start)) in
  block_mean <- checked_div (stat_sum st) block_pixels ;;
  q <- checked_div (BlockVarSum Image z_start z_end block_mean) block_pixels ;;
  let block_std := sqrt q in
  adaptive_threshold <- ConservativeThreshold global_range0 global_range1 base_threshold
                          block_mean block_std (stat_min st) (stat_max st) ;;
  Ok (BlockApply Image z_start z_end adaptive_threshold ScalarsChar).

(** [for (z_start = 0; z_start < Dim[2]; z_start += z_block_size)].  With a
    block size of 0 the loop does not end; the model counts the passes
    against [fuel] and answers [None] when it runs out. *)
Fixpoint BlockLoop (fuel : nat) (Image : ImageData) (base_threshold : R)
         (z_block_size : nat) (z_start : nat) (ScalarsChar : DataArray)
  : option (Checked DataArray) :=
  match fuel with
  | O => None
  | S fuel' =>
      if (z_start <? DimZ Image)%nat then
        match BlockBody Image base_threshold z_block_size z_start ScalarsChar with
        | Ok out => BlockLoop fuel' Image base_threshold z_block_size
                              (z_start + z_block_size) out
        | DivisionByZero => Some DivisionByZero
        end
      else Some (Ok ScalarsChar)
  end.

Definition BinarizeAndConvertDoubleToCharZAdaptiveConservative
           (fuel : nat) (Image : ImageData) (base_threshold : R) (z_block_size : nat)
  : option (Checked ImageData) :=
  let N := length (Scalars Image) in
  match BlockLoop fuel Image base_threshold z_block_size 0 (FillComponent N 0) with
  | Some (Ok out) => Some (Ok (WithCharScalars Image out))
  | Some DivisionByZero => Some DivisionByZero
  | None => None
  end.

(** ** Skeletons *)

Definition Point3 := (R * R * R)%type.

(** A skeleton ([vtkPolyData]): its points, its cells (each a polyline, the
    ordered ids of its points), and its named per-point arrays. *)
Record PolyData := mkPolyData {
  Points : list Point3;
  Cells : list (list nat);
  PointData : list (string * DataArray)
}.

Definition GetPoint (pd : PolyData) (id : nat) : Point3 := nth id (Points pd) (0, 0, 0).

Definition GetCell (pd : PolyData) (edge : nat) : list nat := nth edge (Cells pd) [].

(** [cell -> GetPointId(n)]. *)
Definition GetPointId (cell : list nat) (n : nat) : nat := nth n cell 0%nat.

(** [GetPointData() -> GetArray(name)]. *)
Fixpoint FindArray (arrays : list (string * DataArray)) (name : string) : DataArray :=
  match arrays with
  | [] => []
  | (n, a) :: rest => if String.eqb n name then a else FindArray rest name
  end.

Definition GetArray (pd : PolyData) (name : string) : DataArray :=
  FindArray (PointData pd) name.

(** [GetPointData() -> AddArray(a)]: an array of the same name is replaced. *)
Definition AddArray (pd : PolyData) (name : string) (a : DataArray) : PolyData :=
  mkPolyData (Points pd) (Cells pd)
             (filter (fun na => negb (String.eqb (fst na) name)) (PointData pd)
              ++ [(name, a)]).

(** The distance of two points as both routines compute it:
    [sqrt(pow(r2[0]-r1[0],2)+pow(r2[1]-r1[1],2)+pow(r2[2]-r1[2],2))]. *)
Definition SegmentLength (r1 r2 : Point3) : R :=
  let '(x1, y1, z1) := r1 in
  let '(x2, y2, z2) := r2 in
  sqrt ((x2 - x1) ^ 2 + (y2 - y1) ^ 2 + (z2 - z1) ^ 2).

(** ** Tubule length (EstimateTubuleLength) *)

(** Lines 1980-1986: the length of one edge. *)
Definition EdgeLength (Skeleton : PolyData) (edge : nat) : R :=
  let cell := GetCell Skeleton edge in
  for_range 1 (length cell) (fun n len =>
    let r1 := GetPoint Skeleton (GetPointId cell (n - 1)) in
    let r2 := GetPoint Skeleton (GetPointId cell n) in
    let h := SegmentLength r1 r2 in
    len + h) 0.

(** Body of the loop over the edges (lines 1979-1990). *)
Definition LengthBody (Skeleton : PolyData) (edge : nat) (Length : DataArray)
  : DataArray :=
  let cell := GetCell Skeleton edge in
  let len := EdgeLength Skeleton edge in
  for_up (length cell) (fun n Length => SetTuple1 Length (GetPointId cell n) len) Length.

Definition EstimateTubuleLength (Skeleton : PolyData) : PolyData :=
  let N := length (Points Skeleton) in
  let Length := for_down (length (Cells Skeleton)) (LengthBody Skeleton)
                         (FillComponent N 0) in
  AddArray Skeleton "Length" Length.

(** ** Volume from length and width (GetVolumeFromSkeletonLengthAndWidth) *)

(** An [attribute] of the report: a name and a value. *)
Definition attribute := (string * R)%type.

(** The two accumulators of the routine: [volume] and [length]. *)
Record VolumeState := mkVolumeState { volume : R; total_length : R }.

(** Body of the inner loop (lines 2040-2046). *)
Definition VolumeBody (pd : PolyData) (edge n : nat) (st : VolumeState) : VolumeState :=
  let cell := GetCell pd edge in
  let r1 := GetPoint pd (GetPointId cell (n - 1)) in
  let r2 := GetPoint pd (GetPointId cell n) in
  let R1 := 0.5 * GetTuple1 (GetArray pd "Width") (GetPointId cell (n - 1)) in
  let R2 := 0.5 * GetTuple1 (GetArray pd "Width") (GetPointId cell n) in
  let h := SegmentLength r1 r2 in
  mkVolumeState (volume st + 3.141592 / 3 * h * (R1 * R1 + R2 * R2 + R1 * R2))
                (total_length st + h).

(** Lines 2036-2048. *)
Definition VolumeLoops (pd : PolyData) : VolumeState :=
  for_down (length (Cells pd)) (fun edge st =>
    for_range 1 (length (GetCell pd edge)) (VolumeBody pd edge) st)
    (mkVolumeState 0 0).

(** The routine appends two attributes to the report; [_rad] is the global
    tubule radius (0.150 unless [-rad] sets it). *)
Definition GetVolumeFromSkeletonLengthAndWidth (pd : PolyData) (_rad : R)
           (attributes : list attribute) : list attribute :=
  let st := VolumeLoops pd in
  let newAtt_1 := ("Total length (um)"%string, total_length st) in
  let newAtt_2 := ("Volume from length (um3)"%string,
                   total_length st * (acos (-1) * _rad ^ 2)) in
  (attributes ++ [newAtt_1]) ++ [newAtt_2].

(** A skeleton that is one straight edge between two points, both of
    width w. *)
Definition TwoPointSkeleton (p q : Point3) (w : R) : PolyData :=
  mkPolyData [p; q] [[0%nat; 1%nat]] [("Width"%string, [w; w])].

(** ** Fragment repair (ConnectSkeletonFragments) *)

(** [BuildLinks] and [GetPointCells] of VTK: the cells that use a point,
    once for every place the point takes in a cell. *)
Definition GetPointCells (pd : PolyData) (pointId : nat) : list nat :=
  flat_map (fun c => repeat c (count_occ Nat.eq_dec (GetCell pd c) pointId))
           (seq 0 (length (Cells pd))).

(** Lines 1346-1352: at how many of those cells the point is the first or
    the last point. *)
Definition Degree (pd : PolyData) (pointId : nat) : nat :=
  let cellIds := GetPointCells pd pointId in
  for_up (length cellIds) (fun i degree =>
    let cell := GetCell pd (nth i cellIds 0%nat) in
    if ((GetPointId cell 0 =? pointId) || (GetPointId cell (length cell - 1) =? pointId))%nat
    then S degree else degree) 0%nat.

(** Lines 1341-1357: the points of degree 1, in ascending order. *)
Definition FindEndpoints (pd : PolyData) : list nat :=
  for_up (length (Points pd)) (fun pointId endpoints =>
    if (Degree pd pointId =? 1)%nat then endpoints ++ [pointId] else endpoints) [].

(** Lines 1376-1380. *)
Definition EuclideanDistance (p1 p2 : Point3) : R :=
  let '(a0, a1, a2) := p1 in
  let '(b0, b1, b2) := p2 in
  sqrt ((a0 - b0) * (a0 - b0) + (a1 - b1) * (a1 - b1) + (a2 - b2) * (a2 - b2)).

(** Body of the inner loop (lines 1368-1393); [already_connected] is the
    constant [false] of the source. *)
Definition ConnectionBody (pd : PolyData) (max_gap_distance : R)
           (endpoints : list nat) (i j : nat) (connections_to_add : list (nat * nat))
  : list (nat * nat) :=
  let point1 := nth i endpoints 0%nat in
  let point2 := nth j endpoints 0%nat in
  let distance := EuclideanDistance (GetPoint pd point1) (GetPoint pd point2) in
  if Rleb distance max_gap_distance && Rgtb distance 0.1 then
    let already_connected := false in
    if negb already_connected
    then connections_to_add ++ [(point1, point2)]
    else connections_to_add
  else connections_to_add.

(** Lines 1364-1395. *)
Definition ConnectionsToAdd (pd : PolyData) (max_gap_distance : R) : list (nat * nat) :=
  let endpoints := FindEndpoints pd in
  for_up (length endpoints) (fun i acc =>
    for_range (i + 1) (length endpoints)
              (ConnectionBody pd max_gap_distance endpoints i) acc) [].

(** The line cell of a connection. *)
Definition LineOf (connection : nat * nat) : list nat :=
  [fst connection; snd connection].

(** Lines 1401-1424: the old cells, then one line per connection; points
    and point data are those of the input. *)
Definition ConnectSkeletonFragments (Skeleton : PolyData) (max_gap_distance : R)
  : PolyData :=
  let connections_to_add := ConnectionsToAdd Skeleton max_gap_distance in
  mkPolyData (Points Skeleton)
             (Cells Skeleton ++ map LineOf connections_to_add)
             (PointData Skeleton).

(** What every pair marked for connection satisfies. *)
Definition Connectable (pd : PolyData) (max_gap_distance : R) (c : nat * nat) : Prop :=
  In (fst c) (FindEndpoints pd) /\ In (snd c) (FindEndpoints pd) /\
  EuclideanDistance (GetPoint pd (fst c)) (GetPoint pd (snd c)) <= max_gap_distance /\
  EuclideanDistance (GetPoint pd (fst c)) (GetPoint pd (snd c)) > 0.1.

(** ** Normalization to 8 bit (Convert16To8bit) *)

(** Body of the loop of lines 641-645; the cast [(unsigned char) y]
    truncates.  The scalars of a 16-bit image are integers below 2^16, for
    which the cast of the rounded quotient is the cast of the exact one
    (lemma [Convert16_rounding_is_harmless]), so the quotient is the exact
    one here. *)
Definition Convert16Body (ScalarsShort : DataArray) (range0 range1 : R)
           (id : nat) (ScalarsChar : DataArray) : Checked DataArray :=
  let x := GetTuple1 ScalarsShort id in
  y <- checked_div (255 * (x - range0)) (range1 - range0) ;;
  Ok (SetTuple1 ScalarsChar id (ToUnsignedChar (truncate y))).

(** The result is a pointer: [None] is the [NULL] of the last branch. *)
Definition Convert16To8bit (Image : ImageData) : Checked (option ImageData) :=
  match GetScalarType Image with
  | VTK_UNSIGNED_CHAR => Ok (Some Image)
  | VTK_UNSIGNED_SHORT =>
      let ScalarsShort := Scalars Image in
      let N := length ScalarsShort in
      let range0 := RangeMin ScalarsShort in
      let range1 := RangeMax ScalarsShort in
      ScalarsChar <- for_down_checked N (Convert16Body ScalarsShort range0 range1)
                                      (FillComponent N 0) ;;
      Ok (Some (WithCharScalars Image ScalarsChar))
  | _ => Ok None
  end.

(** ** The orchestrator after loading (MultiscaleVesselness, from line 2216) *)

(** What a run shows, in order.  A member call through a NULL [Image] is
    a dereference of the null pointer: the behaviour of the program is
    undefined from that point, and the trace ends with it. *)
Inductive PipelineEvent :=
| NullDereference (member : string)
| Printf (msg : string)
| Stage (name : string)
| Return (code : Z).

(** The statements the orchestrator is made of between normalization and
    the first stage. *)
Inductive Statement :=
| CallMember (member : string)    (** [... = Image -> member();] *)
| IfNullPrintf (msg : string)     (** [if (!Image) printf(msg);] *)
| RunStage (name : string)
| ReturnCode (code : Z).          (** [return code;] *)

Definition IsNull (Image : option ImageData) : bool :=
  match Image with
  | Some _ => false
  | None => true
  end.

(** The trace of a list of statements on a pointer that is NULL or not. *)
Fixpoint Exec (null : bool) (prog : list Statement) : list PipelineEvent :=
  match prog with
  | [] => []
  | CallMember member :: rest =>
      if null then [NullDereference member] else Exec null rest
  | IfNullPrintf msg :: rest =>
      (if null then [Printf msg] else []) ++ Exec null rest
  | RunStage name :: rest => Stage name :: Exec null rest
  | ReturnCode code :: _ => [Return code]
  end.

(** Lines 2226-2269 and 2380-2388, up to the first stage that follows
    normalization: [Dim = Image -> GetDimensions();] (line 2226), the test
    of line 2236, whose branch is the [printf] alone, without a [return],
    [N = Image -> GetNumberOfPoints();] (line 2240), then the stage the
    run configuration selects. *)
Definition OrchestratorTail (mito : MitoObject) : list Statement :=
  [ CallMember "GetDimensions";
    IfNullPrintf "Format not supported.";
    CallMember "GetNumberOfPoints";
    RunStage (if negb (_binary_input mito)
              then "VESSELNESS"
              else "CREATING SURFACE POLYDATA") ].

(** The same lines from the test of line 2236 on. *)
Definition FromNullTest (mito : MitoObject) : list Statement :=
  skipn 1 (OrchestratorTail mito).

Section Orchestrator.

(** [Convert16To8bitZAdaptiveGentle], the normalization of the z-adaptive
    runs. *)
Variable Convert16To8bitZAdaptiveGentle : ImageData -> nat -> Checked (option ImageData).

(** Lines 2218-2224. *)
Definition NormalizationStage (mito : MitoObject) (Image : ImageData)
  : Checked (option ImageData) :=
  if _z_adaptive mito
  then Convert16To8bitZAdaptiveGentle Image (_z_block_size mito)
  else Convert16To8bit Image.

Definition AfterNormalization (mito : MitoObject) (Image : option ImageData)
  : list PipelineEvent :=
  Exec (IsNull Image) (OrchestratorTail mito).

Definition MultiscaleVesselnessFlow (mito : MitoObject) (Image : ImageData)
  : Checked (list PipelineEvent) :=
  normalized <- NormalizationStage mito Image ;;
  Ok (AfterNormalization mito normalized).

End Orchestrator.

(** Lines 2711-2713 of [main], for one file: [MultiscaleVesselness(...)] is
    a statement of its own, so the code it returns is not read, and
    [DumpResults] and [ExportConfigFile] follow whatever it is.  A run that
    has dereferenced the null pointer does not come back. *)
Definition MainPerFile (orchestrator : list PipelineEvent) : list PipelineEvent :=
  match last orchestrator (Return 0) with
  | NullDereference _ => orchestrator
  | _ => orchestrator ++ [Stage "DumpResults"; Stage "ExportConfigFile"]
  end.

(** ** The noise floor as the specification words it *)

(** The largest value of [f] over the voxels [0 .. N-1]. *)
Definition MaxOverVoxels (N : nat) (f : nat -> R) : R :=
  RangeMax (map f (seq 0 N)).

(** "The square root of the maximum squared Frobenius norm over the whole
    volume". *)
Definition SpecNoiseFloor (N : nat) (D : HessianField) : R :=
  sqrt (MaxOverVoxels N (fun id => Rsqr (FrobeniusNorm (HessianAt D id)))).

(** ** Sample inputs *)

(** The diagonal of a matrix: the eigenvalues of a diagonal matrix. *)
Definition DiagonalOf (M : Mat3) : Triple := (M 0%nat 0%nat, M 1%nat 1%nat, M 2%nat 2%nat).

(** A one-voxel Hessian field with the single non-zero entry [Dxx = -4]. *)
Definition SampleField : HessianField :=
  mkHessianField [-4] [0] [0] [0] [0] [0].

(** A one-voxel Hessian field with [Dxx = -3] and [Dyy = -4]: two negative
    eigenvalues, the signature of a bright tube. *)
Definition TubeField : HessianField :=
  mkHessianField [-3] [-4] [0] [0] [0] [0].

(** A two-voxel Hessian field with [Dxx = -4] and [Dxx = -1]: Frobenius
    norms 4 and 1, noise floor 2. *)
Definition TwoVoxelField : HessianField :=
  mkHessianField [-4; -1] [0; 0] [0; 0] [0; 0] [0; 0] [0; 0].

(** A two-voxel Hessian field whose norms, 1/2 and 1/4, are below 1. *)
Definition FaintField : HessianField :=
  mkHessianField [-(1/2); -(1/4)] [0; 0] [0; 0] [0; 0] [0; 0] [0; 0].

Definition SampleImage : ImageData := mkImage (1, 1, 1)%nat VTK_UNSIGNED_CHAR [10].

(** The configuration [main] starts from. *)
Definition SampleMito : MitoObject := mkMitoObject false false false 8 3 1 1.5 6 0.1.


(** A one-voxel volume of 32-bit floats: neither 8-bit nor 16-bit unsigned. *)
Definition FloatImage : ImageData := mkImage (1, 1, 1)%nat VTK_FLOAT [0.5].

(** A tubularity field without any response: two voxels, both 0. *)
Definition FlatImage : ImageData := mkImage (2, 1, 1)%nat VTK_DOUBLE [0; 0].

(** A binary image of four voxels. *)
Definition BinaryImage : ImageData := mkImage (2, 2, 1)%nat VTK_DOUBLE [0; 255; 255; 0].

(** One plane of 2 x 2 voxels with the values 1, 9, 1, 9. *)
Definition StripedImage : ImageData := mkImage (2, 2, 1)%nat VTK_DOUBLE [1; 9; 1; 9].

(** * Further routines of the file *)

From Stdlib Require Import Permutation Ascii.

(** ** Ids and coordinates as the machine computes them *)

(** The routines of lines 194-218 take and return [int], 32 bits wide, and
    the sum of [GetId] is evaluated in [int] before it is widened to
    [vtkIdType].  Overflow of [int] is undefined in C++; the model gives it
    the wrap-around of two's complement.  [GetId], [GetX], [GetY] and
    [GetZ] on [nat] above are what these routines compute as long as
    nothing overflows, and that is how the loops use them to address the
    arrays. *)
Module Int32.

Local Open Scope Z_scope.

(** The value of an [int] expression whose exact value is [z]. *)
Definition wrap (z : Z) : Z := (z + 2 ^ 31) mod 2 ^ 32 - 2 ^ 31.

Definition add (a b : Z) : Z := wrap (a + b).
Definition sub (a b : Z) : Z := wrap (a - b).
Definition mul (a b : Z) : Z := wrap (a * b).

Definition Dims := (Z * Z * Z)%type.

(** [(int)(id % (vtkIdType)Dim[0])]: the remainder is taken in
    [vtkIdType], 64 bits wide, and narrowed. *)
Definition GetX (id : Z) (dim : Dims) : Z :=
  let '(d0, _, _) := dim in wrap (Z.rem id d0).

(** [(int)((id % (vtkIdType)(Dim[0]*Dim[1])) / (vtkIdType)Dim[0])]: the
    product is an [int] product. *)
Definition GetY (id : Z) (dim : Dims) : Z :=
  let '(d0, d1, _) := dim in wrap (Z.quot (Z.rem id (mul d0 d1)) d0).

Definition GetZ (id : Z) (dim : Dims) : Z :=
  let '(d0, d1, _) := dim in wrap (Z.quot id (mul d0 d1)).

(** [(vtkIdType)(x+y*Dim[0]+z*Dim[0]*Dim[1])], every operation in [int]. *)
Definition GetId (x y z : Z) (dim : Dims) : Z :=
  let '(d0, d1, _) := dim in
  add (add x (mul y d0)) (mul (mul z d0) d1).

(** [ceil(0.5*d)] for a dimension d. *)
Definition HalfUp (d : Z) : Z := (d + 1) / 2.

(** One coordinate of [GetReflectedId]: with r = ceil(0.5*d), the shift s is
    -r when x - (r - 0.5) < 0, that is when x < r, and d - r otherwise; the
    coordinate becomes x - s. *)
Definition ReflectCoordinate (x d : Z) : Z :=
  let r := HalfUp d in
  let s := if x <? r then wrap (- r) else sub d r in
  sub x s.

Definition GetReflectedId (x y z : Z) (dim : Dims) : Z :=
  let '(d0, d1, d2) := dim in
  GetId (ReflectCoordinate x d0) (ReflectCoordinate y d1) (ReflectCoordinate z d2) dim.

End Int32.

(** ** The rescaling of the fixed-threshold policy, value by value *)

(** The double that the cast of line 964 is applied to for a voxel of
    value [x], as [RescaleBody] computes it. *)
Definition RescaledDouble (x range0 range1 : R) : R :=
  ToDouble (ToDouble (255 * ToDouble (x - range0)) / ToDouble (range1 - range0)).

(** The double nearest to 0.55: 4953959590107546 / 2^53. *)
Definition NearestTo055 : R := 4953959590107546 / 9007199254740992.

(** A two-voxel tubularity field with the values 0 and [NearestTo055]. *)
Definition FractionImage : ImageData :=
  mkImage (2, 1, 1)%nat VTK_DOUBLE [0; NearestTo055].

(** ** Triples as lists: what a sort may not change *)

Definition TripleList (t : Triple) : list R :=
  let '(l1, l2, l3) := t in [l1; l2; l3].

(** ** Frobenius norm, written out *)

(** The sum of the squares of the nine entries. *)
Definition SumOfSquares (M : Mat3) : R :=
  M 0%nat 0%nat * M 0%nat 0%nat + M 0%nat 1%nat * M 0%nat 1%nat
  + M 0%nat 2%nat * M 0%nat 2%nat + M 1%nat 0%nat * M 1%nat 0%nat
  + M 1%nat 1%nat * M 1%nat 1%nat + M 1%nat 2%nat * M 1%nat 2%nat
  + M 2%nat 0%nat * M 2%nat 0%nat + M 2%nat 1%nat * M 2%nat 1%nat
  + M 2%nat 2%nat * M 2%nat 2%nat.


(** ** Independent normalization of each plane (Convert16To8bitZAdaptive) *)

(** Lines 684-692: the running minimum and maximum of plane z. *)
Definition PlaneMinMax (Image : ImageData) (z : nat) : R * R :=
  for_up (DimX Image) (fun x mm =>
    for_up (DimY Image) (fun y mm =>
      let val := GetTuple1 (Scalars Image) (GetId x y z (Dim Image)) in
      let z_min := if Rltb val (fst mm) then val else fst mm in
      let z_max := if Rgtb val (snd mm) then val else snd mm in
      (z_min, z_max)) mm) (DBL_MAX, DBL_MIN).

(** Lines 697-718: the plane is rescaled to its own range, or set to
    middle gray when that range is not positive. *)
Definition NormalizePlane (Image : ImageData) (z : nat) (ScalarsChar : DataArray)
  : DataArray :=
  let '(z_min, z_max) := PlaneMinMax Image z in
  let z_range := z_max - z_min in
  if Rgtb z_range 0 then
    for_up (DimX Image) (fun x out =>
      for_up (DimY Image) (fun y out =>
        let id := FindPoint Image x y z in
        let val := GetTuple1 (Scalars Image) id in
        let normalized := 255 * (val - z_min) / z_range in
        SetTuple1 out id (ToUnsignedChar (truncate normalized))) out) ScalarsChar
  else
    for_up (DimX Image) (fun x out =>
      for_up (DimY Image) (fun y out =>
        let id := FindPoint Image x y z in
        SetTuple1 out id 128) out) ScalarsChar.

Definition Convert16To8bitZAdaptive (Image : ImageData) : option ImageData :=
  match GetScalarType Image with
  | VTK_UNSIGNED_CHAR => Some Image
  | VTK_UNSIGNED_SHORT =>
      let N := length (Scalars Image) in
      Some (WithCharScalars Image
              (for_up (DimZ Image) (NormalizePlane Image) (FillComponent N 0)))
  | _ => None
  end.

(** What the voxel [id] of plane z receives. *)
Definition NormalizedValue (Image : ImageData) (z : nat) (id : nat) : R :=
  let z_min := fst (PlaneMinMax Image z) in
  let z_max := snd (PlaneMinMax Image z) in
  if Rgtb (z_max - z_min) 0
  then ToUnsignedChar (truncate (255 * (GetTuple1 (Scalars Image) id - z_min)
                                 / (z_max - z_min)))
  else 128.

(** ** Discrete derivative (GetImageDerivativeDiscrete) *)

(** The state of the loops: the locals [f1] and [f2], which keep their
    value from one pass to the next, and the output array.  The ints of the
    source are natural numbers here: with fewer than two voxels along the
    direction the source reads [Image] at an id outside the grid, and the
    theorems below ask for two. *)
Definition DerivativeState := (R * R * DataArray)%type.

(** Lines 1545-1559. *)
Definition DerivativeBodyX (Image : DataArray) (dim : nat * nat * nat)
           (i j k : nat) (st : DerivativeState) : DerivativeState :=
  let dim0 := fst (fst dim) in
  let '(f1, f2, Derivative) := st in
  let '(f1, f2) :=
    if (i =? 0)%nat
    then (GetTuple1 Image (GetId 1 j k dim), GetTuple1 Image (GetId 0 j k dim))
    else (f1, f2) in
  let '(f1, f2) :=
    if (i =? dim0 - 1)%nat
    then (GetTuple1 Image (GetId (dim0 - 1) j k dim),
          GetTuple1 Image (GetId (dim0 - 2) j k dim))
    else (f1, f2) in
  let '(f1, f2) :=
    if ((0 <? i) && (i <? dim0 - 1))%nat
    then (GetTuple1 Image (GetId (i + 1) j k dim) / 2,
          GetTuple1 Image (GetId (i - 1) j k dim) / 2)
    else (f1, f2) in
  let d := f1 - f2 in
  (f1, f2, SetTuple1 Derivative (GetId i j k dim) d).

(** Lines 1569-1583. *)
Definition DerivativeBodyY (Image : DataArray) (dim : nat * nat * nat)
           (i j k : nat) (st : DerivativeState) : DerivativeState :=
  let dim1 := snd (fst dim) in
  let '(f1, f2, Derivative) := st in
  let '(f1, f2) :=
    if (j =? 0)%nat
    then (GetTuple1 Image (GetId i 1 k dim), GetTuple1 Image (GetId i 0 k dim))
    else (f1, f2) in
  let '(f1, f2) :=
    if (j =? dim1 - 1)%nat
    then (GetTuple1 Image (GetId i (dim1 - 1) k dim),
          GetTuple1 Image (GetId i (dim1 - 2) k dim))
    else (f1, f2) in
  let '(f1, f2) :=
    if ((0 <? j) && (j <? dim1 - 1))%nat
    then (GetTuple1 Image (GetId i (j + 1) k dim) / 2,
          GetTuple1 Image (GetId i (j - 1) k dim) / 2)
    else (f1, f2) in
  let d := f1 - f2 in
  (f1, f2, SetTuple1 Derivative (GetId i j k dim) d).

(** Lines 1593-1607. *)
Definition DerivativeBodyZ (Image : DataArray) (dim : nat * nat * nat)
           (i j k : nat) (st : DerivativeState) : DerivativeState :=
  let dim2 := snd dim in
  let '(f1, f2, Derivative) := st in
  let '(f1, f2) :=
    if (k =? 0)%nat
    then (GetTuple1 Image (GetId i j 1 dim), GetTuple1 Image (GetId i j 0 dim))
    else (f1, f2) in
  let '(f1, f2) :=
    if (k =? dim2 - 1)%nat
    then (GetTuple1 Image (GetId i j (dim2 - 1) dim),
          GetTuple1 Image (GetId i j (dim2 - 2) dim))
    else (f1, f2) in
  let '(f1, f2) :=
    if ((0 <? k) && (k <? dim2 - 1))%nat
    then (GetTuple1 Image (GetId i j (k + 1) dim) / 2,
          GetTuple1 Image (GetId i j (k - 1) dim) / 2)
    else (f1, f2) in
  let d := f1 - f2 in
  (f1, f2, SetTuple1 Derivative (GetId i j k dim) d).

(** The three nested loops every direction uses:
    [for (i = dim[0]; i--;) for (j = dim[1]; j--;) for (k = dim[2]; k--;)]. *)
Definition DerivativeLoops (dim : nat * nat * nat)
           (body : nat -> nat -> nat -> DerivativeState -> DerivativeState)
           (st : DerivativeState) : DerivativeState :=
  for_down (fst (fst dim)) (fun i st =>
    for_down (snd (fst dim)) (fun j st =>
      for_down (snd dim) (fun k st => body i j k st) st) st) st.

(** The routine; [f1] and [f2] start without a value in the source and
    are assigned before their first use, the model starts them at 0. *)
Definition GetImageDerivativeDiscrete (Image : DataArray) (dim : nat * nat * nat)
           (direction : Ascii.ascii) (Derivative : DataArray) : DataArray :=
  let st : DerivativeState := (0, 0, Derivative) in
  let st := if Ascii.eqb direction "x"%char
            then DerivativeLoops dim (DerivativeBodyX Image dim) st else st in
  let st := if Ascii.eqb direction "y"%char
            then DerivativeLoops dim (DerivativeBodyY Image dim) st else st in
  let st := if Ascii.eqb direction "z"%char
            then DerivativeLoops dim (DerivativeBodyZ Image dim) st else st in
  snd st.

(** The difference the routine stores at position c of a line of d voxels,
    where [at_ c'] is the id of the voxel at position c' of that line: one
    sided at both ends, half of the centred one in between. *)
Definition DifferenceAlong (Image : DataArray) (d c : nat) (at_ : nat -> nat) : R :=
  if (c =? 0)%nat then GetTuple1 Image (at_ 1%nat) - GetTuple1 Image (at_ 0%nat)
  else if (c =? d - 1)%nat
       then GetTuple1 Image (at_ (d - 1)%nat) - GetTuple1 Image (at_ (d - 2)%nat)
       else GetTuple1 Image (at_ (c + 1)%nat) / 2 - GetTuple1 Image (at_ (c - 1)%nat) / 2.

(** ** The Hessian of the smoothed image (GetHessianEigenvaluesDiscrete,
       lines 1633-1654) *)

(** The nine calls of the derivative on the scalars [ImageG] of the
    smoothed image; each output array is allocated with N tuples and
    written at every voxel. *)
Definition DiscreteHessian (ImageG : DataArray) (dim : nat * nat * nat) : HessianField :=
  let N := (fst (fst dim) * snd (fst dim) * snd dim)%nat in
  let Dx := GetImageDerivativeDiscrete ImageG dim "x"%char (FillComponent N 0) in
  let Dy := GetImageDerivativeDiscrete ImageG dim "y"%char (FillComponent N 0) in
  let Dz := GetImageDerivativeDiscrete ImageG dim "z"%char (FillComponent N 0) in
  let Dxx := GetImageDerivativeDiscrete Dx dim "x"%char (FillComponent N 0) in
  let Dyy := GetImageDerivativeDiscrete Dy dim "y"%char (FillComponent N 0) in
  let Dzz := GetImageDerivativeDiscrete Dz dim "z"%char (FillComponent N 0) in
  let Dxy := GetImageDerivativeDiscrete Dy dim "x"%char (FillComponent N 0) in
  let Dxz := GetImageDerivativeDiscrete Dz dim "x"%char (FillComponent N 0) in
  let Dyz := GetImageDerivativeDiscrete Dz dim "y"%char (FillComponent N 0) in
  mkHessianField Dxx Dyy Dzz Dxy Dxz Dyz.

(** ** Removal of small components (MultiscaleVesselness, lines 2319-2335) *)

(** Body of the loop of lines 2327-2334.  [Volume] holds the labels that
    [LabelConnectedComponents] wrote (component n has label -n) and [CSz]
    the sizes of the components. *)
Definition ComponentFilterBody (Volume : DataArray) (CSz : list Z)
           (min_component_size : Z) (id : nat) (Scalars : DataArray) : DataArray :=
  let cluster := truncate (GetTuple1 Volume id) in
  if (cluster <? 0)%Z then
    if (nth (Z.to_nat (- cluster - 1)) CSz 0%Z <=? min_component_size)%Z
    then SetTuple1 Scalars id 0
    else Scalars
  else Scalars.

(** Lines 2319-2335: the loop runs when there is more than one component
    and smart filtering is on. *)
Definition RemoveSmallComponents (ncc : Z) (_smart_component_filtering : bool)
           (Volume : DataArray) (CSz : list Z) (min_component_size : Z)
           (Scalars : DataArray) : DataArray :=
  if ((1 <? ncc)%Z && _smart_component_filtering)%bool
  then for_down (length Scalars) (ComponentFilterBody Volume CSz min_component_size) Scalars
  else Scalars.

(** Whether voxel [id] belongs to a component of at most the given size. *)
Definition InSmallComponent (Volume : DataArray) (CSz : list Z)
           (min_component_size : Z) (id : nat) : bool :=
  let cluster := truncate (GetTuple1 Volume id) in
  ((cluster <? 0)%Z
   && (nth (Z.to_nat (- cluster - 1)) CSz 0%Z <=? min_component_size)%Z)%bool.

(** ** Divergence filter (GetDivergenceFilter) *)

(** The tables of lines 1872-1875. *)
Definition Dx : list Z := [1; -1; 0; 0; 0; 0]%Z.
Definition Dy : list Z := [0; 0; 1; -1; 0; 0]%Z.
Definition Dz : list Z := [0; 0; 0; 0; 1; -1]%Z.
Definition MI (j c : nat) : Z :=
  nth c (nth j [[1; 0; 0]; [0; 1; 0]; [0; 0; 1]]%Z []) 0%Z.

(** Lines 1890-1891: [V[i][j]] before it is normalized, [s] being the
    distance of the six probes. *)
Definition DivergenceV (Scalars : DataArray) (dim : nat * nat * nat)
           (x y z : nat) (s : Z) (i j : nat) : R :=
  GetTuple1 Scalars (GetId (Shift x (s * nth i Dx 0 + MI j 0)%Z)
                           (Shift y (s * nth i Dy 0 + MI j 1)%Z)
                           (Shift z (s * nth i Dz 0 + MI j 2)%Z) dim)
  - GetTuple1 Scalars (GetId (Shift x (s * nth i Dx 0 - MI j 0)%Z)
                             (Shift y (s * nth i Dy 0 - MI j 1)%Z)
                             (Shift z (s * nth i Dz 0 - MI j 2)%Z) dim).

(** Lines 1889-1895: row i of [V], divided by its norm unless that is 0. *)
Definition DivergenceRow (Scalars : DataArray) (dim : nat * nat * nat)
           (x y z : nat) (s : Z) (i : nat) : R * R * R :=
  let V0 := DivergenceV Scalars dim x y z s i 0 in
  let V1 := DivergenceV Scalars dim x y z s i 1 in
  let V2 := DivergenceV Scalars dim x y z s i 2 in
  let norm := sqrt (V0 ^ 2 + V1 ^ 2 + V2 ^ 2) in
  if Req_dec_T norm 0 then (V0, V1, V2) else (V0 / norm, V1 / norm, V2 / norm).

(** Lines 1885-1899: the value of one voxel.  The array [V] outlives the
    pass over a voxel in the source, but every entry is written before it is
    read. *)
Definition DivergenceAt (Scalars : DataArray) (dim : nat * nat * nat)
           (x y z : nat) (s : Z) : R :=
  if Req_dec_T (GetTuple1 Scalars (GetId x y z dim)) 0 then 0
  else
    let V := DivergenceRow Scalars dim x y z s in
    let v := (fst (fst (V 0%nat)) - fst (fst (V 1%nat)))
             + (snd (fst (V 2%nat)) - snd (fst (V 3%nat)))
             + (snd (V 4%nat) - snd (V 5%nat)) in
    if Rltb v 0 then - v / 6 else 0.

(** The routine: [Div] starts at 0, the voxels at least s+1 = 3 away from
    every face are visited, and [Div] replaces the scalars. *)
Definition GetDivergenceFilter (dim : nat * nat * nat) (Scalars : DataArray)
  : DataArray :=
  let s := 2%nat in
  let Div := FillComponent (length Scalars) 0 in
  for_range (s + 1) (snd dim - s - 1) (fun z Div =>
    for_range (s + 1) (snd (fst dim) - s - 1) (fun y Div =>
      for_range (s + 1) (fst (fst dim) - s - 1) (fun x Div =>
        SetTuple1 Div (GetId x y z dim) (DivergenceAt Scalars dim x y z (Z.of_nat s)))
        Div) Div) Div.

(** A 7 x 7 x 7 field that falls off linearly from its centre (3, 3, 3):
    10 - |x-3| - |y-3| - |z-3|. *)
Definition PeakValue (x y z : nat) : R :=
  10 - IZR (Z.abs (Z.of_nat x - 3) + Z.abs (Z.of_nat y - 3) + Z.abs (Z.of_nat z - 3)).

Definition PeakField : DataArray :=
  map (fun id => PeakValue (GetX id (7, 7, 7)%nat) (GetY id (7, 7, 7)%nat)
                           (GetZ id (7, 7, 7)%nat))
      (seq 0 343).

(** ** Structural connectivity enhancement (EnhanceStructuralConnectivity) *)

(** The three accumulators of the scan of the 26 neighbours. *)
Record NeighbourState := mkNeighbourState {
  max_neighbor : R; neighbor_sum : R; strong_neighbors : nat
}.

(** Lines 1265-1273: one neighbour. *)
Definition NeighbourBody (OriginalScalars : DataArray) (dim : nat * nat * nat)
           (x y z : nat) (dz dy dx : Z) (st : NeighbourState) : NeighbourState :=
  if ((dx =? 0) && (dy =? 0) && (dz =? 0))%Z then st
  else
    let neighbor_id := GetId (Shift x dx) (Shift y dy) (Shift z dz) dim in
    let neighbor_val := GetTuple1 OriginalScalars neighbor_id in
    mkNeighbourState
      (if Rgtb neighbor_val (max_neighbor st) then neighbor_val else max_neighbor st)
      (neighbor_sum st + neighbor_val)
      (if Rgtb neighbor_val 0.1 then S (strong_neighbors st) else strong_neighbors st).

(** Lines 1257-1275: [for (dz = -1; dz <= 1; dz++)] and so on. *)
Definition NeighbourScan (OriginalScalars : DataArray) (dim : nat * nat * nat)
           (x y z : nat) : NeighbourState :=
  fold_left (fun st dz =>
    fold_left (fun st dy =>
      fold_left (fun st dx => NeighbourBody OriginalScalars dim x y z dz dy dx st)
                [-1; 0; 1]%Z st)
      [-1; 0; 1]%Z st)
    [-1; 0; 1]%Z (mkNeighbourState 0 0 0).

(** Lines 1277-1296: the value of a voxel away from the faces. *)
Definition EnhancedValue (original_val smooth1_val smooth2_val : R)
           (st : NeighbourState) : R :=
  let neighbor_avg := neighbor_sum st / 26 in
  let enhanced_val := original_val * 0.7 + smooth1_val * 0.2 + smooth2_val * 0.1 in
  let enhanced_val :=
    if Rltb original_val 0.05 && (4 <=? strong_neighbors st)%nat
       && Rgtb (max_neighbor st) 0.15
    then neighbor_avg * 0.6 + smooth2_val * 0.4 else enhanced_val in
  let enhanced_val :=
    if Rgtb smooth2_val (original_val * 1.5) && Rgtb smooth2_val 0.08
    then original_val * 0.4 + smooth2_val * 0.6 else enhanced_val in
  let enhanced_val :=
    if Rgtb original_val 0.2
    then original_val * 0.9 + smooth1_val * 0.1 else enhanced_val in
  enhanced_val.

Section Connectivity.

(** [vtkImageGaussianSmooth] with the given standard deviations: the
    scalars of its output.  Nothing is assumed about it. *)
Variable GaussianSmooth : R -> R -> R -> ImageData -> DataArray.

(** Lines 1243-1300: the voxels away from the faces. *)
Definition EnhanceInterior (Image : ImageData) (SmoothedScalars1 SmoothedScalars2 : DataArray)
           (EnhancedScalars : DataArray) : DataArray :=
  let OriginalScalars := Scalars Image in
  for_range 1 (DimZ Image - 1) (fun z out =>
    for_range 1 (DimY Image - 1) (fun y out =>
      for_range 1 (DimX Image - 1) (fun x out =>
        let id := FindPoint Image x y z in
        let original_val := GetTuple1 OriginalScalars id in
        let smooth1_val := GetTuple1 SmoothedScalars1 id in
        let smooth2_val := GetTuple1 SmoothedScalars2 id in
        let st := NeighbourScan OriginalScalars (Dim Image) x y z in
        SetTuple1 out id (EnhancedValue original_val smooth1_val smooth2_val st))
        out) out) EnhancedScalars.

(** Lines 1303-1314: the voxels of the faces keep their value. *)
Definition EnhanceBoundary (Image : ImageData) (EnhancedScalars : DataArray)
  : DataArray :=
  let OriginalScalars := Scalars Image in
  for_up (DimZ Image) (fun z out =>
    for_up (DimY Image) (fun y out =>
      for_up (DimX Image) (fun x out =>
        if ((x =? 0) || (x =? DimX Image - 1) || (y =? 0) || (y =? DimY Image - 1)
            || (z =? 0) || (z =? DimZ Image - 1))%nat
        then
          let id := FindPoint Image x y z in
          let original_val := GetTuple1 OriginalScalars id in
          SetTuple1 out id original_val
        else out) out) out) EnhancedScalars.

(** The routine; the new scalars are an array of doubles. *)
Definition EnhanceStructuralConnectivity (Image : ImageData) (sigma : R) : ImageData :=
  let N := length (Scalars Image) in
  let SmoothedScalars1 := GaussianSmooth sigma sigma (sigma * 0.3) Image in
  let SmoothedScalars2 := GaussianSmooth (sigma * 1.8) (sigma * 1.8) (sigma * 0.6) Image in
  let EnhancedScalars := FillComponent N 0 in
  let EnhancedScalars :=
    EnhanceInterior Image SmoothedScalars1 SmoothedScalars2 EnhancedScalars in
  let EnhancedScalars := EnhanceBoundary Image EnhancedScalars in
  mkImage (Dim Image) VTK_DOUBLE EnhancedScalars.

End Connectivity.

(** ** Gentle z-adaptive normalization (Convert16To8bitZAdaptiveGentle) *)

(** Body of the loop of lines 853-857: the global normalization. *)
Definition GentleGlobalBody (ScalarsShort : DataArray) (global_scale global_range0 : R)
           (id : nat) (ScalarsChar : DataArray) : DataArray :=
  let val := GetTuple1 ScalarsShort id in
  let normalized := global_scale * (val - global_range0) in
  SetTuple1 ScalarsChar id (ToUnsignedChar (truncate normalized)).

(** Lines 865-882: sum, minimum and maximum of the 8-bit values of a block;
    the minimum starts at 255 and the maximum at 0. *)
Definition GentleStats (Image : ImageData) (ScalarsChar : DataArray)
           (z_start z_end : nat) : PlaneStats :=
  for_range z_start z_end (fun z st =>
    for_up (DimX Image) (fun x st =>
      for_up (DimY Image) (fun y st =>
        StatsBody (GetTuple1 ScalarsChar (FindPoint Image x y z)) st) st) st)
    (mkPlaneStats 0 255 0).

(** Lines 889-900. *)
Definition EnhancementFactor (block_mean : R) : R :=
  if Rltb block_mean 20 then 3
  else if Rltb block_mean 50 then 2.5
  else if Rltb block_mean 100 then 1.5
  else if Rltb block_mean 150 then 1.2
  else 1.1.

(** Lines 910-918: the new value of a voxel of the block. *)
Definition GentleEnhanced (block_mean enhancement_factor val : R) : R :=
  let enhanced := block_mean + enhancement_factor * (val - block_mean) in
  let enhanced := if Rltb enhanced 0 then 0 else enhanced in
  let enhanced := if Rgtb enhanced 255 then 255 else enhanced in
  ToUnsignedChar (truncate enhanced).

(** Lines 903-921: the array is read and written in place. *)
Definition GentleEnhance (Image : ImageData) (z_start z_end : nat)
           (block_mean enhancement_factor : R) (ScalarsChar : DataArray) : DataArray :=
  for_range z_start z_end (fun z out =>
    for_up (DimX Image) (fun x out =>
      for_up (DimY Image) (fun y out =>
        let id := FindPoint Image x y z in
        let val := GetTuple1 out id in
        SetTuple1 out id (GentleEnhanced block_mean enhancement_factor val)) out) out)
    ScalarsChar.

(** One pass of the loop over the blocks (lines 861-925). *)
Definition GentleBlockBody (Image : ImageData) (block_size : nat) (z_start : nat)
           (ScalarsChar : DataArray) : Checked DataArray :=
  let z_end := if (z_start + block_size <? DimZ Image)%nat
               then (z_start + block_size)%nat else DimZ Image in
  let st := GentleStats Image ScalarsChar z_start z_end in
  let block_pixels := (DimX Image * DimY Image * (z_end - z_start))%nat in
  block_mean <- checked_div (stat_sum st) (INR block_pixels) ;;
  let block_range := stat_max st - stat_min st in
  if Rgtb block_range 0
  then Ok (GentleEnhance Image z_start z_end block_mean (EnhancementFactor block_mean)
                         ScalarsChar)
  else Ok ScalarsChar.

(** [for (z_start = 0; z_start < Dim[2]; z_start += block_size)], counted
    against [fuel] as the loop of the conservative policy. *)
Fixpoint GentleBlockLoop (fuel : nat) (Image : ImageData) (block_size : nat)
         (z_start : nat) (ScalarsChar : DataArray) : option (Checked DataArray) :=
  match fuel with
  | O => None
  | S fuel' =>
      if (z_start <? DimZ Image)%nat then
        match GentleBlockBody Image block_size z_start ScalarsChar with
        | Ok out => GentleBlockLoop fuel' Image block_size (z_start + block_size) out
        | DivisionByZero => Some DivisionByZero
        end
      else Some (Ok ScalarsChar)
  end.

(** The routine.  ([GetRange] of an array without tuples is a sentinel in
    VTK and 0 in this model; the theorems below are about arrays with
    tuples.) *)
Definition Convert16To8bitZAdaptiveGentle (fuel : nat) (Image : ImageData)
           (block_size : nat) : option (Checked (option ImageData)) :=
  match GetScalarType Image with
  | VTK_UNSIGNED_CHAR => Some (Ok (Some Image))
  | VTK_UNSIGNED_SHORT =>
      let ScalarsShort := Scalars Image in
      let N := length ScalarsShort in
      let global_range0 := RangeMin ScalarsShort in
      let global_range1 := RangeMax ScalarsShort in
      match checked_div 255 (global_range1 - global_range0) with
      | DivisionByZero => Some DivisionByZero
      | Ok global_scale =>
          let ScalarsChar :=
            for_up N (GentleGlobalBody ScalarsShort global_scale global_range0)
                   (FillComponent N 0) in
          match GentleBlockLoop fuel Image block_size 0 ScalarsChar with
          | Some (Ok out) => Some (Ok (Some (WithCharScalars Image out)))
          | Some DivisionByZero => Some DivisionByZero
          | None => None
          end
      end
  | _ => Some (Ok None)
  end.

(** An array of unsigned chars: every value is an integer of [0, 255]. *)
Definition IsByteArray (a : DataArray) : Prop :=
  forall v, In v a -> exists n, (0 <= n <= 255)%Z /\ v = IZR n.

(** ** Maximum projection (ExportMaxProjection) *)

(** Lines 316-320: the largest value of the column (x, y), from 0. *)
Definition ColumnMax (Image : ImageData) (x y : nat) : R :=
  for_down (DimZ Image) (fun z vproj =>
    let v := GetTuple1 (Scalars Image) (GetId x y z (Dim Image)) in
    if Rgtb v vproj then v else vproj) 0.

(** Lines 303-326: the image [MaxP] that the routine hands to the PNG
    writer; writing the file is not modelled. *)
Definition MaxProjection (Image : ImageData) : ImageData :=
  let dimP := (DimX Image, DimY Image, 1%nat) in
  let N := (DimX Image * DimY Image)%nat in
  let MaxPArray :=
    for_down (DimX Image) (fun x MaxPArray =>
      for_down (DimY Image) (fun y MaxPArray =>
        let vproj := ColumnMax Image x y in
        SetTuple1 MaxPArray (GetId x y 0 dimP) (ToUnsignedChar (truncate vproj)))
        MaxPArray) (FillComponent N 0) in
  mkImage dimP VTK_UNSIGNED_CHAR MaxPArray.

(** ** Tubule width (EstimateTubuleWidth) *)




(** [pow(a - b, 2)]. *)
Definition SquaredDifference (a b : R) : R :=
  let d := ToDouble (a - b) in
  ToDouble (d * d).



Section TubuleWidth.

(** [Tree -> FindClosestNPoints(n, r, List)] on the k-d tree of the
    surface: the ids of n points of the surface.  Nothing is assumed about
    it. *)
Variable FindClosestNPoints : nat -> Point3 -> PolyData -> list nat.






End TubuleWidth.

(** ** Sample inputs *)

(** A 16-bit image of two voxels. *)
Definition ShortImage : ImageData := mkImage (2, 1, 1)%nat VTK_UNSIGNED_SHORT [100; 300].

(** Two edges that share their first point: 0 - 1 of length 1 and 0 - 2 of
    length 2. *)
Definition ForkSkeleton : PolyData :=
  mkPolyData [(0, 0, 0); (1, 0, 0); (0, 2, 0)] [[0%nat; 1%nat]; [0%nat; 2%nat]] [].

(** A grid of 2 x 2 x 2 voxels whose value is 3 x + 5 y + 7 z + 1. *)
Definition RampImage : DataArray := [1; 4; 6; 9; 8; 11; 13; 16].

(** A grid of 3 x 3 x 3 voxels, all 0 but the centre. *)
Definition DotImage : ImageData :=
  mkImage (3, 3, 3)%nat VTK_DOUBLE
          [0; 0; 0; 0; 0; 0; 0; 0; 0;
           0; 0; 0; 0; 1; 0; 0; 0; 0;
           0; 0; 0; 0; 0; 0; 0; 0; 0].

(** A smoothing that changes nothing. *)
Definition NoSmoothing (sx sy sz : R) (Image : ImageData) : DataArray := Scalars Image.




(** ** Facts about loops and arrays *)

(** The invariant rule of a descending loop: [P k] is what holds once the
    body has run at every index from [n-1] down to [k]. *)
Lemma for_down_inv {St : Type} (P : nat -> St -> Prop) (body : nat -> St -> St) :
  forall (n : nat) (s : St),
    P n s ->
    (forall k s', (k < n)%nat -> P (S k) s' -> P k (body k s')) ->
    P 0%nat (for_down n body s).
Proof.
  induction n as [|n IH]; intros s Hn Hstep; simpl; [exact Hn|].
  apply IH.
  - apply Hstep; [lia | exact Hn].
  - intros k s' Hk. apply Hstep. lia.
Qed.

(** The invariant rule of an ascending loop over [lo .. lo+n-1]. *)
Lemma fold_seq_inv {St : Type} (P : nat -> St -> Prop) (body : nat -> St -> St) :
  forall (n lo : nat) (s : St),
    P lo s ->
    (forall k s', (lo <= k < lo + n)%nat -> P k s' -> P (S k) (body k s')) ->
    P (lo + n)%nat (fold_left (fun acc i => body i acc) (seq lo n) s).
Proof.
  induction n as [|n IH]; intros lo s H0 Hstep; simpl.
  - rewrite Nat.add_0_r. exact H0.
  - replace (lo + S n)%nat with (S lo + n)%nat by lia.
    apply IH.
    + apply Hstep; [lia | exact H0].
    + intros k s' Hk. apply Hstep. lia.
Qed.

Lemma for_up_inv {St : Type} (P : nat -> St -> Prop) (body : nat -> St -> St) :
  forall (n : nat) (s : St),
    P 0%nat s ->
    (forall k s', (k < n)%nat -> P k s' -> P (S k) (body k s')) ->
    P n (for_up n body s).
Proof.
  intros n s H0 Hstep. unfold for_up.
  apply (fold_seq_inv P body n 0%nat s H0).
  intros k s' Hk. apply Hstep. lia.
Qed.

Lemma SetTuple1_length (a : DataArray) :
  forall id v, length (SetTuple1 a id v) = length a.
Proof.
  induction a as [|h t IH]; intros [|k] v; simpl; auto.
Qed.

Lemma GetTuple1_SetTuple1_eq (a : DataArray) :
  forall id v, (id < length a)%nat -> GetTuple1 (SetTuple1 a id v) id = v.
Proof.
  unfold GetTuple1.
  induction a as [|h t IH]; intros [|k] v Hlt; simpl in *; try lia; auto.
  apply IH. lia.
Qed.

Lemma GetTuple1_SetTuple1_neq (a : DataArray) :
  forall id id' v, id <> id' -> GetTuple1 (SetTuple1 a id v) id' = GetTuple1 a id'.
Proof.
  unfold GetTuple1.
  induction a as [|h t IH]; intros [|k] [|k'] v Hne; simpl; auto; try congruence.
Qed.

Lemma GetTuple1_out_of_range (a : DataArray) (id : nat) :
  (length a <= id)%nat -> GetTuple1 a id = 0.
Proof. intros H. unfold GetTuple1. apply nth_overflow. exact H. Qed.

Lemma FillComponent_length (N : nat) (v : R) : length (FillComponent N v) = N.
Proof. apply repeat_length. Qed.

Lemma GetTuple1_FillComponent (N : nat) (v : R) (id : nat) :
  (id < N)%nat -> GetTuple1 (FillComponent N v) id = v.
Proof.
  intros H. unfold GetTuple1, FillComponent. apply nth_repeat_lt. exact H.
Qed.

Lemma GetTuple1_map_seq (f : nat -> R) (N id : nat) :
  (id < N)%nat -> GetTuple1 (map f (seq 0 N)) id = f id.
Proof.
  intros Hid. unfold GetTuple1.
  rewrite (nth_indep _ 0 (f 0%nat)) by (rewrite length_map, length_seq; exact Hid).
  rewrite (map_nth f (seq 0 N) 0%nat id). rewrite seq_nth by exact Hid. reflexivity.
Qed.

(** An array is determined by its length and its entries. *)
Lemma DataArray_ext (a b : DataArray) :
  length a = length b ->
  (forall id, (id < length a)%nat -> GetTuple1 a id = GetTuple1 b id) ->
  a = b.
Proof.
  intros Hlen Hnth. apply (nth_ext a b 0 0 Hlen). exact Hnth.
Qed.

(** [RangeMax] is the largest entry of a non-empty array. *)
Lemma fold_left_Rmax_ge (l : list R) :
  forall h, h <= fold_left Rmax l h /\ (forall x, In x l -> x <= fold_left Rmax l h).
Proof.
  induction l as [|y l IH]; intros h; simpl.
  - split; [lra | tauto].
  - destruct (IH (Rmax h y)) as [H1 H2]. split.
    + pose proof (Rmax_l h y). lra.
    + intros x [Hx | Hx].
      * subst. pose proof (Rmax_r h x). lra.
      * apply H2. exact Hx.
Qed.

Lemma fold_left_Rmax_in (l : list R) :
  forall h, fold_left Rmax l h = h \/ In (fold_left Rmax l h) l.
Proof.
  induction l as [|y l IH]; intros h; simpl; [left; reflexivity|].
  destruct (IH (Rmax h y)) as [H | H].
  - rewrite H. unfold Rmax. destruct (Rle_dec h y); auto.
  - right. right. exact H.
Qed.

Lemma RangeMax_upper (a : DataArray) (x : R) : In x a -> x <= RangeMax a.
Proof.
  destruct a as [|h t]; simpl; [tauto|].
  destruct (fold_left_Rmax_ge t h) as [H1 H2].
  intros [Hx | Hx]; [subst; exact H1 | apply H2; exact Hx].
Qed.

Lemma RangeMax_in (a : DataArray) : a <> [] -> In (RangeMax a) a.
Proof.
  destruct a as [|h t]; [congruence|]. intros _. simpl.
  destruct (fold_left_Rmax_in t h) as [H | H]; [left; symmetry; exact H | right; exact H].
Qed.

(** ** Facts about the eigenvalue sort *)

Lemma Rltb_true (a b : R) : Rltb a b = true <-> a < b.
Proof. unfold Rltb. destruct (Rlt_dec a b); split; intros; try discriminate; tauto. Qed.

Lemma Rltb_false (a b : R) : Rltb a b = false <-> b <= a.
Proof.
  unfold Rltb. destruct (Rlt_dec a b); split; intros; try discriminate; try lra; auto.
Qed.

Lemma Rleb_true (a b : R) : Rleb a b = true <-> a <= b.
Proof. unfold Rleb. destruct (Rle_dec a b); split; intros; try discriminate; tauto. Qed.

Lemma Rleb_false (a b : R) : Rleb a b = false <-> b < a.
Proof.
  unfold Rleb. destruct (Rle_dec a b); split; intros; try discriminate; try lra; auto.
Qed.

Lemma Sort_abs_sorted (t : Triple) : abs_sorted (Sort t).
Proof.
  destruct t as [[l1 l2] l3]. unfold Sort, abs_sorted, Rgtb, Rltb.
  repeat match goal with
         | |- context [Rlt_dec ?a ?b] => destruct (Rlt_dec a b); simpl
         end; lra.
Qed.

Lemma zero_abs_sorted : abs_sorted (0, 0, 0).
Proof. unfold abs_sorted. split; lra. Qed.

(** ** Rounding to single and double precision *)

Lemma Int_part_IZR (n : Z) : Int_part (IZR n) = n.
Proof. symmetry. apply Int_part_spec. lra. Qed.

Lemma RoundNearestEven_between (r : R) (n : Z) :
  IZR n - 1 / 2 < r < IZR n + 1 / 2 -> RoundNearestEven r = n.
Proof.
  intros [Hlo Hhi]. unfold RoundNearestEven.
  destruct (base_Int_part r) as [Hle Hgt].
  set (f := Int_part r) in *.
  destruct (Rlt_dec (r - IZR f) (1 / 2)) as [Hd | Hd].
  - assert (H1 : IZR (n - 1) < IZR f) by (rewrite minus_IZR; lra).
    assert (H2 : IZR f < IZR (n + 1)) by (rewrite plus_IZR; lra).
    apply lt_IZR in H1. apply lt_IZR in H2. lia.
  - assert (Hge : 1 / 2 <= r - IZR f) by lra.
    assert (H1 : IZR (n - 2) < IZR f) by (rewrite minus_IZR; lra).
    assert (H2 : IZR f < IZR n) by lra.
    apply lt_IZR in H1. apply lt_IZR in H2.
    assert (E : f = (n - 1)%Z) by lia.
    destruct (Rlt_dec (1 / 2) (r - IZR f)) as [Hd' | Hd']; [lia|].
    exfalso. rewrite E, minus_IZR in Hge, Hd'. lra.
Qed.

Lemma RoundNearestEven_IZR (n : Z) : RoundNearestEven (IZR n) = n.
Proof. apply RoundNearestEven_between. lra. Qed.

Lemma RoundNearestEven_nonneg (r : R) : 0 <= r -> (0 <= RoundNearestEven r)%Z.
Proof.
  intros Hr. unfold RoundNearestEven.
  destruct (base_Int_part r) as [Hle Hgt].
  assert (H0 : (0 <= Int_part r)%Z).
  { assert (H : IZR (-1) < IZR (Int_part r)) by lra. apply lt_IZR in H. lia. }
  destruct (Rlt_dec _ _); [exact H0|].
  destruct (Rlt_dec _ _); [lia|]. destruct (Z.even _); lia.
Qed.

Lemma ln_powerRZ_2 (n : Z) : ln (powerRZ 2 n) = IZR n * ln 2.
Proof. rewrite powerRZ_Rpower by lra. apply ln_Rpower. Qed.

Lemma ln_2_pos : 0 < ln 2.
Proof. pose proof ln_lt_2. lra. Qed.

(** The binade of a number between two consecutive powers of 2. *)
Lemma log2_floor (x : R) (e : Z) :
  powerRZ 2 e <= Rabs x < powerRZ 2 (e + 1) ->
  Int_part (ln (Rabs x) / ln 2) = e.
Proof.
  intros [Hlo Hhi]. symmetry. apply Int_part_spec.
  pose proof ln_2_pos as H2.
  assert (Hp : 0 < powerRZ 2 e) by (apply powerRZ_lt; lra).
  assert (Hx : 0 < Rabs x) by lra.
  assert (H1 : IZR e * ln 2 <= ln (Rabs x)).
  { rewrite <- ln_powerRZ_2. destruct Hlo as [Hlo | Hlo].
    - left. apply ln_increasing; assumption.
    - rewrite Hlo. lra. }
  assert (H3 : ln (Rabs x) < IZR (e + 1) * ln 2).
  { rewrite <- ln_powerRZ_2. apply ln_increasing; assumption. }
  rewrite plus_IZR in H3.
  assert (Hq : ln (Rabs x) / ln 2 * ln 2 = ln (Rabs x)) by (field; lra).
  split.
  - apply (Rmult_lt_reg_r (ln 2)); [exact H2|].
    unfold Rminus. rewrite Rmult_plus_distr_r, Hq. lra.
  - apply (Rmult_le_reg_r (ln 2)); [exact H2|]. rewrite Hq. exact H1.
Qed.

Lemma log2_floor_below (x : R) (n : Z) :
  0 < Rabs x < powerRZ 2 n -> (Int_part (ln (Rabs x) / ln 2) < n)%Z.
Proof.
  intros [Hx Hhi]. pose proof ln_2_pos as H2.
  assert (H3 : ln (Rabs x) < IZR n * ln 2).
  { rewrite <- ln_powerRZ_2. apply ln_increasing; assumption. }
  destruct (base_Int_part (ln (Rabs x) / ln 2)) as [Hle _].
  assert (Hq : ln (Rabs x) / ln 2 < IZR n).
  { apply (Rmult_lt_reg_r (ln 2)); [exact H2|].
    replace (ln (Rabs x) / ln 2 * ln 2) with (ln (Rabs x)) by (field; lra). exact H3. }
  apply lt_IZR. lra.
Qed.

Lemma BinaryExponent_spec (emin e : Z) (x : R) :
  (emin <= e)%Z -> powerRZ 2 e <= Rabs x < powerRZ 2 (e + 1) ->
  BinaryExponent emin x = e.
Proof.
  intros He Hx. unfold BinaryExponent. rewrite (log2_floor x e Hx). lia.
Qed.

Lemma RoundBinary_0 (prec emin : Z) : RoundBinary prec emin 0 = 0.
Proof.
  unfold RoundBinary. cbv zeta. unfold Rdiv. rewrite Rmult_0_l.
  rewrite (RoundNearestEven_IZR 0). lra.
Qed.

Lemma RoundBinary_nonneg (prec emin : Z) (x : R) :
  0 <= x -> 0 <= RoundBinary prec emin x.
Proof.
  intros Hx. unfold RoundBinary. cbv zeta.
  set (ulp := powerRZ 2 _).
  assert (Hu : 0 < ulp) by (apply powerRZ_lt; lra).
  apply Rmult_le_pos; [|lra]. apply IZR_le. apply RoundNearestEven_nonneg.
  apply Rmult_le_pos; [exact Hx | left; apply Rinv_0_lt_compat; exact Hu].
Qed.

Lemma powerRZ_2_split (a b : Z) : powerRZ 2 a = powerRZ 2 (a - b) * powerRZ 2 b.
Proof. rewrite <- powerRZ_add by lra. f_equal. lia. Qed.

Lemma powerRZ_2_IZR (j : Z) : (0 <= j)%Z -> powerRZ 2 j = IZR (2 ^ j).
Proof.
  intros Hj. rewrite <- (Z2Nat.id j Hj) at 1. rewrite <- pow_powerRZ.
  rewrite pow_IZR. rewrite Z2Nat.id by exact Hj. reflexivity.
Qed.

Lemma powerRZ_2_neg (p : positive) : powerRZ 2 (Z.neg p) = / IZR (2 ^ Z.pos p).
Proof.
  change (Z.neg p) with (- Z.pos p)%Z.
  rewrite powerRZ_neg', powerRZ_2_IZR by lia. reflexivity.
Qed.

(** A number with a significand of at most prec bits and an exponent the
    format has is not changed. *)
Lemma RoundBinary_exact (prec emin m k : Z) :
  (Z.abs m < 2 ^ prec)%Z -> (0 < prec)%Z -> (emin - prec + 1 <= k)%Z ->
  RoundBinary prec emin (IZR m * powerRZ 2 k) = IZR m * powerRZ 2 k.
Proof.
  intros Hm Hp Hk.
  destruct (Z.eq_dec m 0) as [-> | Hm0].
  { rewrite Rmult_0_l. apply RoundBinary_0. }
  unfold RoundBinary. cbv zeta.
  set (x := IZR m * powerRZ 2 k).
  assert (Hk2 : 0 < powerRZ 2 k) by (apply powerRZ_lt; lra).
  assert (Habs : Rabs x = IZR (Z.abs m) * powerRZ 2 k).
  { unfold x. rewrite Rabs_mult, (Rabs_pos_eq (powerRZ 2 k)) by lra.
    rewrite <- abs_IZR. reflexivity. }
  assert (Hx : 0 < Rabs x < powerRZ 2 (prec + k)).
  { rewrite Habs. split.
    - apply Rmult_lt_0_compat; [|exact Hk2]. apply IZR_lt. lia.
    - rewrite powerRZ_add by lra. apply Rmult_lt_compat_r; [exact Hk2|].
      rewrite powerRZ_2_IZR by lia. apply IZR_lt. exact Hm. }
  pose proof (log2_floor_below x (prec + k) Hx) as He.
  set (e := BinaryExponent emin x).
  assert (Hj : (0 <= k - (e - prec + 1))%Z).
  { unfold e, BinaryExponent. lia. }
  set (j := (k - (e - prec + 1))%Z) in *.
  assert (Hu : 0 < powerRZ 2 (e - prec + 1)) by (apply powerRZ_lt; lra).
  assert (Hsplit : powerRZ 2 k = powerRZ 2 j * powerRZ 2 (e - prec + 1)).
  { unfold j. apply powerRZ_2_split. }
  assert (Hq : x / powerRZ 2 (e - prec + 1) = IZR (m * 2 ^ j)).
  { unfold x. rewrite Hsplit, mult_IZR, <- powerRZ_2_IZR by exact Hj. field. lra. }
  rewrite Hq, RoundNearestEven_IZR, mult_IZR, <- powerRZ_2_IZR by exact Hj.
  unfold x. rewrite Hsplit. ring.
Qed.

(** The value of a rounding, from the binade of the number and the
    integer nearest to its significand. *)
Lemma RoundBinary_eval (prec emin e n : Z) (x : R) :
  (emin <= e)%Z -> powerRZ 2 e <= Rabs x < powerRZ 2 (e + 1) ->
  IZR n - 1 / 2 < x / powerRZ 2 (e - prec + 1) < IZR n + 1 / 2 ->
  RoundBinary prec emin x = IZR n * powerRZ 2 (e - prec + 1).
Proof.
  intros He Hx Hn. unfold RoundBinary. cbv zeta.
  rewrite (BinaryExponent_spec emin e x He Hx).
  rewrite (RoundNearestEven_between _ n Hn). reflexivity.
Qed.

Lemma RoundNearestEven_le (r : R) (n : Z) : r <= IZR n -> (RoundNearestEven r <= n)%Z.
Proof.
  intros Hr. unfold RoundNearestEven.
  destruct (base_Int_part r) as [Hle Hgt].
  set (f := Int_part r) in *.
  assert (Hf : (f <= n)%Z) by (apply le_IZR; lra).
  destruct (Rlt_dec (r - IZR f) (1 / 2)) as [Hd | Hd]; [exact Hf|].
  assert (Hlt : (f < n)%Z).
  { apply lt_IZR. lra. }
  destruct (Rlt_dec (1 / 2) (r - IZR f)); [lia|]. destruct (Z.even f); lia.
Qed.

Lemma RoundNearestEven_ge (r : R) (n : Z) : IZR n <= r -> (n <= RoundNearestEven r)%Z.
Proof.
  intros Hr. unfold RoundNearestEven.
  destruct (base_Int_part r) as [Hle Hgt].
  set (f := Int_part r) in *.
  assert (Hf : (n <= f)%Z).
  { assert (H : IZR (n - 1) < IZR f) by (rewrite minus_IZR; lra).
    apply lt_IZR in H. lia. }
  destruct (Rlt_dec (r - IZR f) (1 / 2)); [exact Hf|].
  destruct (Rlt_dec (1 / 2) (r - IZR f)); [lia|]. destruct (Z.even f); lia.
Qed.

(** A positive number is at least the power of 2 of its binade. *)
Lemma log2_floor_lower (x : R) :
  0 < x -> powerRZ 2 (Int_part (ln x / ln 2)) <= x.
Proof.
  intros Hx. pose proof ln_2_pos as H2.
  destruct (base_Int_part (ln x / ln 2)) as [Hle _].
  set (e := Int_part (ln x / ln 2)) in *.
  assert (H1 : IZR e * ln 2 <= ln x).
  { apply (Rmult_le_compat_r (ln 2)) in Hle; [|lra].
    replace (ln x / ln 2 * ln 2) with (ln x) in Hle by (field; lra). exact Hle. }
  rewrite powerRZ_Rpower by lra. unfold Rpower.
  rewrite <- (exp_ln x Hx) at 1.
  destruct H1 as [H1 | H1]; [left; apply exp_increasing; exact H1 | rewrite H1; lra].
Qed.

Lemma log2_floor_upper (x : R) :
  0 < x -> x < powerRZ 2 (Int_part (ln x / ln 2) + 1).
Proof.
  intros Hx. pose proof ln_2_pos as H2.
  destruct (base_Int_part (ln x / ln 2)) as [_ Hgt].
  set (e := Int_part (ln x / ln 2)) in *.
  assert (H1 : ln x < IZR (e + 1) * ln 2).
  { rewrite plus_IZR.
    assert (H : ln x / ln 2 < IZR e + 1) by lra.
    apply (Rmult_lt_compat_r (ln 2)) in H; [|lra].
    replace (ln x / ln 2 * ln 2) with (ln x) in H by (field; lra). exact H. }
  rewrite powerRZ_Rpower by lra. unfold Rpower.
  rewrite <- (exp_ln x Hx) at 1. apply exp_increasing. exact H1.
Qed.

(** Where the binade of a positive number is above the least one, the
    number is at least its power of 2. *)
Lemma BinaryExponent_lower (emin : Z) (x : R) :
  0 < x -> (emin < BinaryExponent emin x)%Z -> powerRZ 2 (BinaryExponent emin x) <= x.
Proof.
  intros Hx He. unfold BinaryExponent in *. rewrite Rabs_pos_eq in * by lra.
  replace (Z.max (Int_part (ln x / ln 2)) emin) with (Int_part (ln x / ln 2)) in * by lia.
  apply log2_floor_lower. exact Hx.
Qed.

Lemma powerRZ_2_le (a b : Z) : (a <= b)%Z -> powerRZ 2 a <= powerRZ 2 b.
Proof.
  intros Hab. replace b with (a + (b - a))%Z by lia.
  rewrite powerRZ_add by lra. rewrite (powerRZ_2_IZR (b - a)) by lia.
  assert (Hp : 0 < powerRZ 2 a) by (apply powerRZ_lt; lra).
  assert (H1 : 1 <= IZR (2 ^ (b - a))).
  { apply IZR_le. pose proof (Z.pow_pos_nonneg 2 (b - a) ltac:(lia) ltac:(lia)). lia. }
  nra.
Qed.

Lemma BinaryExponent_upper (emin : Z) (x : R) :
  0 < x -> x < powerRZ 2 (BinaryExponent emin x + 1).
Proof.
  intros Hx. unfold BinaryExponent. rewrite Rabs_pos_eq by lra.
  apply Rlt_le_trans with (powerRZ 2 (Int_part (ln x / ln 2) + 1));
    [apply log2_floor_upper; exact Hx|].
  apply powerRZ_2_le. lia.
Qed.

Lemma BinaryExponent_ge (emin : Z) (x : R) : (emin <= BinaryExponent emin x)%Z.
Proof. unfold BinaryExponent. lia. Qed.

(** A number of the format [m * 2^k] as a multiple of a coarser or equal
    unit [2^u]. *)
Lemma on_grid (m k u : Z) :
  (u <= k)%Z -> IZR m * powerRZ 2 k / powerRZ 2 u = IZR (m * 2 ^ (k - u)).
Proof.
  intros Hu. rewrite mult_IZR, <- powerRZ_2_IZR by lia.
  rewrite (powerRZ_2_split k u).
  assert (Hp : 0 < powerRZ 2 u) by (apply powerRZ_lt; lra).
  field. lra.
Qed.

(** A positive number below a number of the format is rounded to at most
    that number. *)
Lemma RoundBinary_le (prec emin m k : Z) (x : R) :
  (0 < prec)%Z -> (Z.abs m < 2 ^ prec)%Z -> (emin - prec + 1 <= k)%Z ->
  0 < x <= IZR m * powerRZ 2 k ->
  RoundBinary prec emin x <= IZR m * powerRZ 2 k.
Proof.
  intros Hp Hm Hk [Hx Hxy]. unfold RoundBinary. cbv zeta.
  set (e := BinaryExponent emin x).
  set (u := (e - prec + 1)%Z).
  assert (Hu : 0 < powerRZ 2 u) by (apply powerRZ_lt; lra).
  assert (Hk2 : 0 < powerRZ 2 k) by (apply powerRZ_lt; lra).
  destruct (Z.le_gt_cases u k) as [Huk | Huk].
  - assert (Hq : x / powerRZ 2 u <= IZR (m * 2 ^ (k - u))).
    { rewrite <- on_grid by exact Huk. unfold Rdiv.
      apply Rmult_le_compat_r; [left; apply Rinv_0_lt_compat; exact Hu | exact Hxy]. }
    apply RoundNearestEven_le in Hq. apply IZR_le in Hq.
    apply (Rmult_le_compat_r (powerRZ 2 u)) in Hq; [|lra].
    rewrite <- on_grid in Hq by exact Huk.
    replace (IZR m * powerRZ 2 k / powerRZ 2 u * powerRZ 2 u)
      with (IZR m * powerRZ 2 k) in Hq by (field; lra).
    exact Hq.
  - exfalso.
    assert (He : (emin < e)%Z) by (unfold u in Huk; lia).
    pose proof (BinaryExponent_lower emin x Hx He) as Hlow. fold e in Hlow.
    assert (Hy : IZR m * powerRZ 2 k < powerRZ 2 e).
    { apply Rlt_le_trans with (powerRZ 2 (prec + k)).
      - rewrite powerRZ_add by lra. apply Rmult_lt_compat_r; [exact Hk2|].
        rewrite powerRZ_2_IZR by lia. apply IZR_lt. lia.
      - apply powerRZ_2_le. unfold u in Huk. lia. }
    lra.
Qed.

(** A positive number above a number of the format is rounded to at least
    that number. *)
Lemma RoundBinary_ge (prec emin m k : Z) (x : R) :
  (0 < prec)%Z -> (Z.abs m < 2 ^ prec)%Z -> (emin - prec + 1 <= k)%Z ->
  0 < x -> IZR m * powerRZ 2 k <= x ->
  IZR m * powerRZ 2 k <= RoundBinary prec emin x.
Proof.
  intros Hp Hm Hk Hx Hxy. unfold RoundBinary. cbv zeta.
  set (e := BinaryExponent emin x).
  set (u := (e - prec + 1)%Z).
  assert (Hu : 0 < powerRZ 2 u) by (apply powerRZ_lt; lra).
  assert (Hk2 : 0 < powerRZ 2 k) by (apply powerRZ_lt; lra).
  destruct (Z.le_gt_cases u k) as [Huk | Huk].
  - assert (Hq : IZR (m * 2 ^ (k - u)) <= x / powerRZ 2 u).
    { rewrite <- on_grid by exact Huk. unfold Rdiv.
      apply Rmult_le_compat_r; [left; apply Rinv_0_lt_compat; exact Hu | exact Hxy]. }
    apply RoundNearestEven_ge in Hq. apply IZR_le in Hq.
    apply (Rmult_le_compat_r (powerRZ 2 u)) in Hq; [|lra].
    rewrite <- on_grid in Hq by exact Huk.
    replace (IZR m * powerRZ 2 k / powerRZ 2 u * powerRZ 2 u)
      with (IZR m * powerRZ 2 k) in Hq by (field; lra).
    exact Hq.
  - assert (He : (emin < e)%Z) by (unfold u in Huk; lia).
    pose proof (BinaryExponent_lower emin x Hx He) as Hlow. fold e in Hlow.
    assert (Hy : IZR m * powerRZ 2 k < powerRZ 2 e).
    { apply Rlt_le_trans with (powerRZ 2 (prec + k)).
      - rewrite powerRZ_add by lra. apply Rmult_lt_compat_r; [exact Hk2|].
        rewrite powerRZ_2_IZR by lia. apply IZR_lt. lia.
      - apply powerRZ_2_le. unfold u in Huk. lia. }
    assert (Hq : IZR (1 * 2 ^ (e - u)) <= x / powerRZ 2 u).
    { rewrite <- on_grid by (unfold u; lia). rewrite Rmult_1_l. unfold Rdiv.
      apply Rmult_le_compat_r; [left; apply Rinv_0_lt_compat; exact Hu | exact Hlow]. }
    apply RoundNearestEven_ge in Hq. apply IZR_le in Hq.
    apply (Rmult_le_compat_r (powerRZ 2 u)) in Hq; [|lra].
    rewrite <- on_grid in Hq by (unfold u; lia).
    replace (IZR 1 * powerRZ 2 e / powerRZ 2 u * powerRZ 2 u)
      with (powerRZ 2 e) in Hq by (field; lra).
    lra.
Qed.

(** What rounding gives is a number of the format: an integer of at most
    prec bits (2^prec itself when the rounding carries) times a power of 2
    the format has. *)
Lemma RoundBinary_format (prec emin : Z) (x : R) :
  (0 < prec)%Z -> 0 <= x ->
  exists m k, RoundBinary prec emin x = IZR m * powerRZ 2 k /\
              (0 <= m <= 2 ^ prec)%Z /\ (emin - prec + 1 <= k)%Z.
Proof.
  intros Hp Hx.
  destruct (Rle_lt_or_eq_dec 0 x Hx) as [Hpos | <-].
  2:{ exists 0%Z, (emin - prec + 1)%Z. rewrite RoundBinary_0.
      split; [lra|]. split; [|lia].
      pose proof (Z.pow_pos_nonneg 2 prec ltac:(lia) ltac:(lia)). lia. }
  unfold RoundBinary. cbv zeta.
  set (e := BinaryExponent emin x).
  set (u := (e - prec + 1)%Z).
  assert (Hu : 0 < powerRZ 2 u) by (apply powerRZ_lt; lra).
  exists (RoundNearestEven (x / powerRZ 2 u)), u.
  split; [reflexivity|]. split.
  - split.
    + apply RoundNearestEven_nonneg.
      apply Rmult_le_pos; [lra | left; apply Rinv_0_lt_compat; exact Hu].
    + apply RoundNearestEven_le.
      pose proof (BinaryExponent_upper emin x Hpos) as Hup. fold e in Hup.
      rewrite <- (Z.mul_1_l (2 ^ prec)).
      replace prec with (e + 1 - u)%Z at 1 by (unfold u; lia).
      rewrite <- on_grid by (unfold u; lia). rewrite Rmult_1_l. unfold Rdiv.
      apply Rmult_le_compat_r; [left; apply Rinv_0_lt_compat; exact Hu | lra].
  - pose proof (BinaryExponent_ge emin x). unfold u. fold e in H. lia.
Qed.

Lemma ToFloat_exact (m k : Z) :
  (Z.abs m < 2 ^ 24)%Z -> (-149 <= k)%Z ->
  ToFloat (IZR m * powerRZ 2 k) = IZR m * powerRZ 2 k.
Proof. intros Hm Hk. apply RoundBinary_exact; lia. Qed.

Lemma ToDouble_exact (m k : Z) :
  (Z.abs m < 2 ^ 53)%Z -> (-1074 <= k)%Z ->
  ToDouble (IZR m * powerRZ 2 k) = IZR m * powerRZ 2 k.
Proof. intros Hm Hk. apply RoundBinary_exact; lia. Qed.

(** Integers of at most 24 bits are single-precision numbers. *)
Lemma ToFloat_IZR (m : Z) : (Z.abs m < 2 ^ 24)%Z -> ToFloat (IZR m) = IZR m.
Proof.
  intros Hm. rewrite <- (Rmult_1_r (IZR m)).
  change 1 with (powerRZ 2 0). apply ToFloat_exact; [exact Hm | lia].
Qed.

(** Integers of at most 53 bits are doubles. *)
Lemma ToDouble_IZR (m : Z) : (Z.abs m < 2 ^ 53)%Z -> ToDouble (IZR m) = IZR m.
Proof.
  intros Hm. rewrite <- (Rmult_1_r (IZR m)).
  change 1 with (powerRZ 2 0). apply ToDouble_exact; [exact Hm | lia].
Qed.

Lemma ToDouble_0 : ToDouble 0 = 0.
Proof. apply RoundBinary_0. Qed.

Lemma ToFloat_0 : ToFloat 0 = 0.
Proof. apply RoundBinary_0. Qed.

Lemma ToFloat_nonneg (x : R) : 0 <= x -> 0 <= ToFloat x.
Proof. apply RoundBinary_nonneg. Qed.

(** ** The Hessian estimator *)

Lemma VoxelEigenvalues_abs_sorted (diag : Mat3 -> Triple) (H : Mat3) :
  abs_sorted (VoxelEigenvalues diag H).
Proof.
  unfold VoxelEigenvalues.
  destruct (Rltb _ 0); [apply Sort_abs_sorted | apply zero_abs_sorted].
Qed.

(** After the first loop [Fro] holds the Frobenius norm of every voxel,
    in single precision. *)
Lemma EigenPass_Fro (diag : Mat3 -> Triple) (N : nat) (D : HessianField)
      (l1 l2 l3 : DataArray) :
  length (Fro (EigenPass diag N D l1 l2 l3)) = N /\
  forall id, (id < N)%nat ->
    GetTuple1 (Fro (EigenPass diag N D l1 l2 l3)) id
    = ToFloat (FrobeniusNorm (HessianAt D id)).
Proof.
  unfold EigenPass.
  assert (HP : length (Fro (for_down N (EigenBody diag D)
                          (mkEigenState l1 l2 l3 (FillComponent N 0)))) = N /\
               forall id, (0 <= id < N)%nat ->
                 GetTuple1 (Fro (for_down N (EigenBody diag D)
                          (mkEigenState l1 l2 l3 (FillComponent N 0)))) id
                 = ToFloat (FrobeniusNorm (HessianAt D id))).
  { apply (for_down_inv (fun (k : nat) (st : EigenState) =>
               length (Fro st) = N /\
               forall id, (k <= id < N)%nat ->
                 GetTuple1 (Fro st) id = ToFloat (FrobeniusNorm (HessianAt D id)))).
    - split; simpl; [apply FillComponent_length | intros id Hid; lia].
    - intros k st Hk [Hlen Hval]. unfold EigenBody.
      destruct (VoxelEigenvalues diag (HessianAt D k)) as [[e1 e2] e3]. simpl.
      split; [rewrite SetTuple1_length; exact Hlen|].
      intros id Hid. destruct (Nat.eq_dec k id) as [-> | Hne].
      + apply GetTuple1_SetTuple1_eq. lia.
      + rewrite GetTuple1_SetTuple1_neq by exact Hne. apply Hval. lia. }
  destruct HP as [Hlen Hval]. split; [exact Hlen|].
  intros id Hid. apply Hval. lia.
Qed.

(** After the first loop the three eigenvalue arrays hold, at every voxel,
    the triple computed for that voxel. *)
Lemma EigenPass_triples (diag : Mat3 -> Triple) (N : nat) (D : HessianField)
      (l1 l2 l3 : DataArray) :
  length l1 = N -> length l2 = N -> length l3 = N ->
  (length (L1 (EigenPass diag N D l1 l2 l3)) = N /\
   length (L2 (EigenPass diag N D l1 l2 l3)) = N /\
   length (L3 (EigenPass diag N D l1 l2 l3)) = N) /\
  forall id, (id < N)%nat ->
    EigenTripleAt (EigenPass diag N D l1 l2 l3) id
    = VoxelEigenvalues diag (HessianAt D id).
Proof.
  intros H1 H2 H3. unfold EigenPass.
  set (out := for_down N (EigenBody diag D)
                          (mkEigenState l1 l2 l3 (FillComponent N 0))).
  assert (HP : (length (L1 out) = N /\ length (L2 out) = N /\ length (L3 out) = N) /\
               forall id, (0 <= id < N)%nat ->
                 EigenTripleAt out id = VoxelEigenvalues diag (HessianAt D id)).
  { apply (for_down_inv (fun (k : nat) (st : EigenState) =>
               (length (L1 st) = N /\ length (L2 st) = N /\ length (L3 st) = N) /\
               forall id, (k <= id < N)%nat ->
                 EigenTripleAt st id = VoxelEigenvalues diag (HessianAt D id))).
    - split; simpl; [auto | intros id Hid; lia].
    - intros k st Hk [(Ha & Hb & Hc) Hval]. unfold EigenBody, EigenTripleAt in *.
      destruct (VoxelEigenvalues diag (HessianAt D k)) as [[e1 e2] e3] eqn:E. simpl.
      split; [rewrite !SetTuple1_length; auto|].
      intros id Hid. destruct (Nat.eq_dec k id) as [<- | Hne].
      + rewrite !GetTuple1_SetTuple1_eq by lia. symmetry. exact E.
      + rewrite !GetTuple1_SetTuple1_neq by exact Hne. apply Hval. lia. }
  destruct HP as [Hlen Hval]. split; [exact Hlen|].
  intros id Hid. apply Hval. lia.
Qed.

(** A loop whose body either leaves the state or zeroes the triple of its
    voxel keeps every triple in order. *)
Lemma ZeroingLoop_abs_sorted (body : nat -> EigenState -> EigenState)
      (N : nat) (st : EigenState) :
  (forall id s, body id s = s \/ body id s = ZeroTriple s id) ->
  length (L1 st) = length (L2 st) -> length (L2 st) = length (L3 st) ->
  (forall id, abs_sorted (EigenTripleAt st id)) ->
  forall id, abs_sorted (EigenTripleAt (for_down N body st) id).
Proof.
  intros Hbody H12 H23 Hs.
  set (out := for_down N body st).
  assert (HP : length (L1 out) = length (L2 out) /\ length (L2 out) = length (L3 out) /\
               forall id, abs_sorted (EigenTripleAt out id)).
  { apply (for_down_inv (fun (k : nat) (s : EigenState) =>
                  length (L1 s) = length (L2 s) /\ length (L2 s) = length (L3 s) /\
                  forall id, abs_sorted (EigenTripleAt s id))); [auto|].
    intros k s Hk (Ha & Hb & Hc).
    destruct (Hbody k s) as [-> | ->]; [auto|].
    unfold ZeroTriple, EigenTripleAt in *. simpl.
    split; [rewrite !SetTuple1_length; exact Ha|].
    split; [rewrite !SetTuple1_length; exact Hb|].
    intros id. destruct (Nat.eq_dec k id) as [<- | Hne].
    - destruct (Nat.lt_ge_cases k (length (L1 s))) as [Hin | Hout].
      + rewrite !GetTuple1_SetTuple1_eq by lia. apply zero_abs_sorted.
      + rewrite !GetTuple1_out_of_range by (rewrite SetTuple1_length; lia).
        apply zero_abs_sorted.
    - rewrite !GetTuple1_SetTuple1_neq by exact Hne. apply Hc. }
  apply HP.
Qed.

Lemma FloorBody_zeroing (ftresh : R) (id : nat) (s : EigenState) :
  FloorBody ftresh id s = s \/ FloorBody ftresh id s = ZeroTriple s id.
Proof. unfold FloorBody. destruct (Rltb _ ftresh); auto. Qed.

Lemma AdaptiveFloorBody_zeroing (nblks : nat) (dim : nat * nat * nat)
      (F : FThreshTable) (id : nat) (s : EigenState) :
  AdaptiveFloorBody nblks dim F id s = s \/
  AdaptiveFloorBody nblks dim F id s = ZeroTriple s id.
Proof. unfold AdaptiveFloorBody. destruct (Rltb _ _); auto. Qed.

(** The first loop of the block-adaptive variant computes the same four
    arrays as the first loop of the global variant. *)
Lemma AdaptiveEigenPass_Eig (diag : Mat3 -> Triple) (nblks : nat)
      (dim : nat * nat * nat) (D : HessianField) :
  forall (N : nat) (st : AdaptiveState),
    Eig (for_down N (AdaptiveEigenBody diag nblks dim D) st)
    = for_down N (EigenBody diag D) (Eig st).
Proof.
  induction N as [|N IH]; intros st; simpl; [reflexivity|].
  rewrite IH. reflexivity.
Qed.

Lemma EigenPass_abs_sorted (diag : Mat3 -> Triple) (N : nat) (D : HessianField)
      (l1 l2 l3 : DataArray) :
  length l1 = N -> length l2 = N -> length l3 = N ->
  forall id, abs_sorted (EigenTripleAt (EigenPass diag N D l1 l2 l3) id).
Proof.
  intros H1 H2 H3 id.
  destruct (EigenPass_triples diag N D l1 l2 l3 H1 H2 H3) as [(Ha & Hb & Hc) Hval].
  destruct (Nat.lt_ge_cases id N) as [Hin | Hout].
  - rewrite Hval by exact Hin. apply VoxelEigenvalues_abs_sorted.
  - unfold EigenTripleAt. rewrite !GetTuple1_out_of_range by lia.
    apply zero_abs_sorted.
Qed.

Lemma GetTuple1_SetTuple1_zero (a : DataArray) (id : nat) :
  GetTuple1 (SetTuple1 a id 0) id = 0.
Proof.
  destruct (Nat.lt_ge_cases id (length a)) as [Hin | Hout].
  - apply GetTuple1_SetTuple1_eq. exact Hin.
  - apply GetTuple1_out_of_range. rewrite SetTuple1_length. exact Hout.
Qed.

(** Where [Fro] is below the floor, the zeroing loop leaves zeros. *)
Lemma FloorLoop_zeroes (ftresh : R) (N : nat) (st : EigenState) (id : nat) :
  (id < N)%nat ->
  GetTuple1 (Fro st) id < ftresh ->
  EigenTripleAt (for_down N (FloorBody ftresh) st) id = (0, 0, 0).
Proof.
  intros HidN Hlt.
  set (out := for_down N (FloorBody ftresh) st).
  assert (HP : Fro out = Fro st /\
               ((0 <= id)%nat -> EigenTripleAt out id = (0, 0, 0))).
  { apply (for_down_inv (fun (k : nat) (s : EigenState) =>
                  Fro s = Fro st /\
                  ((k <= id)%nat -> EigenTripleAt s id = (0, 0, 0))));
      [split; auto; lia|].
    intros k s Hk (HF & Hz). unfold FloorBody.
    destruct (Rltb (GetTuple1 (Fro s) k) ftresh) eqn:E.
    - unfold ZeroTriple, EigenTripleAt in *. simpl. split; [exact HF|].
      intros Hle. destruct (Nat.eq_dec k id) as [<- | Hne].
      + rewrite !GetTuple1_SetTuple1_zero. reflexivity.
      + rewrite !GetTuple1_SetTuple1_neq by exact Hne. apply Hz. lia.
    - split; [exact HF|]. intros Hle.
      destruct (Nat.eq_dec k id) as [<- | Hne]; [|apply Hz; lia].
      rewrite HF in E. apply Rltb_false in E. lra. }
  destruct HP as (_ & Hz). apply Hz. lia.
Qed.

(** The array [Fro] after the first loop, as a list. *)
Lemma EigenPass_Fro_map (diag : Mat3 -> Triple) (N : nat) (D : HessianField)
      (l1 l2 l3 : DataArray) :
  Fro (EigenPass diag N D l1 l2 l3)
  = map (fun id => ToFloat (FrobeniusNorm (HessianAt D id))) (seq 0 N).
Proof.
  destruct (EigenPass_Fro diag N D l1 l2 l3) as [Hlen Hval].
  apply DataArray_ext.
  - rewrite Hlen, length_map, length_seq. reflexivity.
  - intros id Hid. rewrite Hlen in Hid. rewrite Hval by exact Hid.
    rewrite GetTuple1_map_seq by exact Hid. reflexivity.
Qed.

(** Each of the three compare-and-swap steps of [Sort] exchanges two
    cells or leaves them. *)
Lemma Sort_permutation (t : Triple) :
  Permutation (TripleList (Sort t)) (TripleList t).
Proof.
  destruct t as [[l1 l2] l3].
  unfold Sort, Rgtb, Rltb, TripleList.
  repeat match goal with
         | |- context [Rlt_dec ?a ?b] => destruct (Rlt_dec a b); simpl
         end;
    try apply Permutation_refl;
    try (apply perm_swap);
    try (apply perm_skip; apply perm_swap);
    try (eapply perm_trans; [apply perm_swap | apply perm_skip; apply perm_swap]);
    try (eapply perm_trans; [apply perm_skip; apply perm_swap | apply perm_swap]);
    try (eapply perm_trans;
         [apply perm_swap
         | eapply perm_trans; [apply perm_skip; apply perm_swap | apply perm_swap]]).
Qed.

(** A loop whose body either leaves the state or zeroes the triple of its
    voxel leaves, at every voxel, the triple it found or zeros. *)
Lemma ZeroingLoop_cases (body : nat -> EigenState -> EigenState)
      (N : nat) (st : EigenState) :
  (forall id s, body id s = s \/ body id s = ZeroTriple s id) ->
  forall id,
    EigenTripleAt (for_down N body st) id = EigenTripleAt st id \/
    EigenTripleAt (for_down N body st) id = (0, 0, 0).
Proof.
  intros Hbody.
  apply (for_down_inv (fun (k : nat) (s : EigenState) =>
            forall id, EigenTripleAt s id = EigenTripleAt st id \/
                       EigenTripleAt s id = (0, 0, 0))); [auto|].
  intros k s Hk IH id.
  destruct (Hbody k s) as [-> | ->]; [apply IH|].
  unfold ZeroTriple, EigenTripleAt in *. simpl.
  destruct (Nat.eq_dec k id) as [<- | Hne].
  - right. rewrite !GetTuple1_SetTuple1_zero. reflexivity.
  - rewrite !GetTuple1_SetTuple1_neq by exact Hne. apply IH.
Qed.

(** The trace of the Hessian, as line 1662 adds it up. *)
Lemma VoxelEigenvalues_cases (diag : Mat3 -> Triple) (H : Mat3) :
  (H 0%nat 0%nat + H 1%nat 1%nat + H 2%nat 2%nat < 0 ->
   VoxelEigenvalues diag H = Sort (diag H)) /\
  (0 <= H 0%nat 0%nat + H 1%nat 1%nat + H 2%nat 2%nat ->
   VoxelEigenvalues diag H = (0, 0, 0)).
Proof.
  unfold VoxelEigenvalues. split; intros Ht.
  - rewrite (proj2 (Rltb_true _ 0)) by exact Ht. reflexivity.
  - rewrite (proj2 (Rltb_false _ 0)) by exact Ht. reflexivity.
Qed.

(** What either estimator leaves at a voxel: zeros, or the sorted output
    of the diagonalization of the Hessian of that voxel. *)
Lemma HessianStage_cases (diag : Mat3 -> Triple)
      (smooth : R -> ImageData -> HessianField)
      (sigma : R) (Image : ImageData) (l1 l2 l3 : DataArray) (mito : MitoObject) :
  length l1 = GetNumberOfPoints Image ->
  length l2 = GetNumberOfPoints Image ->
  length l3 = GetNumberOfPoints Image ->
  forall id, (id < GetNumberOfPoints Image)%nat ->
    let H := HessianAt (smooth sigma Image) id in
    let stored := EigenTripleAt (HessianStage diag smooth sigma Image l1 l2 l3 mito) id in
    stored = (0, 0, 0) \/
    (H 0%nat 0%nat + H 1%nat 1%nat + H 2%nat 2%nat < 0 /\ stored = Sort (diag H)).
Proof.
  intros H1 H2 H3 id Hid. cbv zeta.
  set (N := GetNumberOfPoints Image) in *.
  set (D := smooth sigma Image).
  destruct (EigenPass_triples diag N D l1 l2 l3 H1 H2 H3) as [_ Hval].
  assert (Hpass : EigenTripleAt (EigenPass diag N D l1 l2 l3) id = (0, 0, 0) \/
                  (HessianAt D id 0%nat 0%nat + HessianAt D id 1%nat 1%nat
                   + HessianAt D id 2%nat 2%nat < 0 /\
                   EigenTripleAt (EigenPass diag N D l1 l2 l3) id
                   = Sort (diag (HessianAt D id)))).
  { rewrite (Hval id Hid).
    destruct (VoxelEigenvalues_cases diag (HessianAt D id)) as [Hneg Hpos].
    destruct (Rlt_dec (HessianAt D id 0%nat 0%nat + HessianAt D id 1%nat 1%nat
                       + HessianAt D id 2%nat 2%nat) 0) as [Ht | Ht].
    - right. split; [exact Ht | apply Hneg; exact Ht].
    - left. apply Hpos. lra. }
  assert (Hloop : forall body,
             (forall i s, body i s = s \/ body i s = ZeroTriple s i) ->
             EigenTripleAt (for_down N body (EigenPass diag N D l1 l2 l3)) id = (0, 0, 0) \/
             (HessianAt D id 0%nat 0%nat + HessianAt D id 1%nat 1%nat
              + HessianAt D id 2%nat 2%nat < 0 /\
              EigenTripleAt (for_down N body (EigenPass diag N D l1 l2 l3)) id
              = Sort (diag (HessianAt D id)))).
  { intros body Hbody.
    destruct (ZeroingLoop_cases body N (EigenPass diag N D l1 l2 l3) Hbody id)
      as [E | E]; rewrite E; [exact Hpass | left; reflexivity]. }
  unfold HessianStage. destruct (_adaptive_threshold mito).
  - unfold GetHessianEigenvaluesDiscreteZDependentThreshold, AdaptiveHessianEigenLoops.
    fold N D. rewrite AdaptiveEigenPass_Eig. simpl Eig.
    fold (EigenPass diag N D l1 l2 l3).
    apply Hloop. apply AdaptiveFloorBody_zeroing.
  - unfold GetHessianEigenvaluesDiscrete, HessianEigenLoops. fold N D.
    apply Hloop. apply FloorBody_zeroing.
Qed.

(** ** Claims on the Hessian estimator *)

(** C8. After Hessian-based filtering, in the global and in the
    block-adaptive variant, the triple stored at every voxel is in ascending
    order of absolute value: |l1| <= |l2| <= |l3|.  The sorting routine
    establishes that order on every triple of reals and only reorders the
    three values it is given; the branch taken when the trace is not
    negative stores zeros; the noise-floor loop only replaces triples by
    zeros.  So the triple stored at a voxel is (0,0,0), or the trace is
    negative and the triple is the output of the diagonalization of the
    Hessian of that voxel, reordered. *)
Theorem C8_eigen_triples_abs_sorted :
  forall (diag : Mat3 -> Triple) (smooth : R -> ImageData -> HessianField)
         (sigma : R) (Image : ImageData) (l1 l2 l3 : DataArray) (mito : MitoObject),
    length l1 = GetNumberOfPoints Image ->
    length l2 = GetNumberOfPoints Image ->
    length l3 = GetNumberOfPoints Image ->
    (forall t, abs_sorted (Sort t) /\
               Permutation (TripleList (Sort t)) (TripleList t)) /\
    (forall H, abs_sorted (VoxelEigenvalues diag H) /\
               (H 0%nat 0%nat + H 1%nat 1%nat + H 2%nat 2%nat < 0 ->
                VoxelEigenvalues diag H = Sort (diag H)) /\
               (0 <= H 0%nat 0%nat + H 1%nat 1%nat + H 2%nat 2%nat ->
                VoxelEigenvalues diag H = (0, 0, 0))) /\
    (forall id,
        abs_sorted (EigenTripleAt (HessianStage diag smooth sigma Image l1 l2 l3 mito) id)) /\
    (forall id, (id < GetNumberOfPoints Image)%nat ->
        let H := HessianAt (smooth sigma Image) id in
        let stored :=
          EigenTripleAt (HessianStage diag smooth sigma Image l1 l2 l3 mito) id in
        stored = (0, 0, 0) \/
        (H 0%nat 0%nat + H 1%nat 1%nat + H 2%nat 2%nat < 0 /\
         stored = Sort (diag H) /\
         Permutation (TripleList stored) (TripleList (diag H)))).
Proof.
  intros diag smooth sigma Image l1 l2 l3 mito H1 H2 H3.
  split; [intros t; split; [apply Sort_abs_sorted | apply Sort_permutation]|].
  split.
  { intros H. split; [apply VoxelEigenvalues_abs_sorted|].
    apply VoxelEigenvalues_cases. }
  split.
  - set (N := GetNumberOfPoints Image) in *.
    set (D := smooth sigma Image).
    destruct (EigenPass_triples diag N D l1 l2 l3 H1 H2 H3) as [(Ha & Hb & Hc) _].
    unfold HessianStage. destruct (_adaptive_threshold mito).
    + unfold GetHessianEigenvaluesDiscreteZDependentThreshold, AdaptiveHessianEigenLoops.
      fold N D. rewrite AdaptiveEigenPass_Eig. simpl Eig.
      fold (EigenPass diag N D l1 l2 l3).
      apply ZeroingLoop_abs_sorted.
      * apply AdaptiveFloorBody_zeroing.
      * congruence.
      * congruence.
      * apply EigenPass_abs_sorted; assumption.
    + unfold GetHessianEigenvaluesDiscrete, HessianEigenLoops. fold N D.
      apply ZeroingLoop_abs_sorted.
      * apply FloorBody_zeroing.
      * congruence.
      * congruence.
      * apply EigenPass_abs_sorted; assumption.
  - intros id Hid. cbv zeta.
    destruct (HessianStage_cases diag smooth sigma Image l1 l2 l3 mito H1 H2 H3 id Hid)
      as [E | [Ht E]]; [left; exact E | right].
    split; [exact Ht|]. split; [exact E|].
    rewrite E. apply Sort_permutation.
Qed.

(** C2 (as the code has it).  The first loop of the global estimator stores
    the Frobenius norm of every voxel in single precision; the noise floor
    is the square root, a double, of the largest stored norm of the volume
    (of the norm itself, not of its square), and every voxel whose stored
    norm is below the floor ends with the three eigenvalues at zero. *)
Theorem C2_noise_floor_is_sqrt_of_max_norm :
  forall (diag : Mat3 -> Triple) (N : nat) (D : HessianField) (l1 l2 l3 : DataArray),
    (0 < N)%nat ->
    (forall id, (id < N)%nat ->
       StoredNorm diag N D l1 l2 l3 id = ToFloat (FrobeniusNorm (HessianAt D id))) /\
    (exists id0, (id0 < N)%nat /\
       HessianNoiseFloor diag N D l1 l2 l3
       = ToDouble (sqrt (StoredNorm diag N D l1 l2 l3 id0)) /\
       forall id, (id < N)%nat ->
         StoredNorm diag N D l1 l2 l3 id <= StoredNorm diag N D l1 l2 l3 id0) /\
    (forall id, (id < N)%nat ->
       StoredNorm diag N D l1 l2 l3 id < HessianNoiseFloor diag N D l1 l2 l3 ->
       EigenTripleAt (HessianEigenLoops diag N D l1 l2 l3) id = (0, 0, 0)).
Proof.
  intros diag N D l1 l2 l3 HN.
  destruct (EigenPass_Fro diag N D l1 l2 l3) as [Hlen Hval].
  split; [exact Hval|]. split.
  - unfold HessianNoiseFloor, NoiseFloor, StoredNorm.
    set (fro := Fro (EigenPass diag N D l1 l2 l3)) in *.
    assert (Hne : fro <> []).
    { intros E. rewrite E in Hlen. simpl in Hlen. lia. }
    pose proof (RangeMax_in fro Hne) as Hin.
    apply (In_nth fro (RangeMax fro) 0) in Hin.
    destruct Hin as (id0 & Hid0 & Hnth). rewrite Hlen in Hid0.
    exists id0. split; [exact Hid0|]. unfold GetTuple1. rewrite Hnth.
    split; [reflexivity|].
    intros id Hid. apply RangeMax_upper. apply nth_In. rewrite Hlen. exact Hid.
  - intros id Hid Hlt. unfold HessianEigenLoops.
    apply FloorLoop_zeroes; [exact Hid | exact Hlt].
Qed.

Lemma sqrt_of_square (x y : R) : 0 <= y -> x = y * y -> sqrt x = y.
Proof. intros Hy ->. apply sqrt_square. exact Hy. Qed.

Lemma SampleField_norm : FrobeniusNorm (HessianAt SampleField 0) = 4.
Proof.
  unfold FrobeniusNorm. simpl. unfold GetTuple1. simpl.
  apply sqrt_of_square; lra.
Qed.

Lemma ToFloat_4 : ToFloat 4 = 4.
Proof. apply (ToFloat_IZR 4). reflexivity. Qed.

Lemma ToFloat_1 : ToFloat 1 = 1.
Proof. apply (ToFloat_IZR 1). reflexivity. Qed.

Lemma ToFloat_5 : ToFloat 5 = 5.
Proof. apply (ToFloat_IZR 5). reflexivity. Qed.

Lemma ToDouble_2 : ToDouble 2 = 2.
Proof. apply (ToDouble_IZR 2). reflexivity. Qed.

Lemma sqrt_4 : sqrt 4 = 2.
Proof. apply sqrt_of_square; lra. Qed.

Lemma TwoVoxelField_norms :
  FrobeniusNorm (HessianAt TwoVoxelField 0) = 4 /\
  FrobeniusNorm (HessianAt TwoVoxelField 1) = 1.
Proof.
  split; unfold FrobeniusNorm; simpl; unfold GetTuple1; simpl;
    apply sqrt_of_square; lra.
Qed.

(** On [TwoVoxelField] the stored norms are 4 and 1 and the floor is 2. *)
Lemma TwoVoxelField_floor :
  StoredNorm DiagonalOf 2 TwoVoxelField [0; 0] [0; 0] [0; 0] 0 = 4 /\
  StoredNorm DiagonalOf 2 TwoVoxelField [0; 0] [0; 0] [0; 0] 1 = 1 /\
  HessianNoiseFloor DiagonalOf 2 TwoVoxelField [0; 0] [0; 0] [0; 0] = 2.
Proof.
  destruct TwoVoxelField_norms as [E0 E1].
  unfold StoredNorm, HessianNoiseFloor, NoiseFloor.
  rewrite EigenPass_Fro_map. simpl map. rewrite E0, E1, ToFloat_4, ToFloat_1.
  split; [reflexivity|]. split; [reflexivity|].
  simpl. unfold Rmax. destruct (Rle_dec 4 1) as [H | H]; [lra|].
  rewrite sqrt_4. apply ToDouble_2.
Qed.

(** C2, witness: on [TwoVoxelField] the floor is 2; the voxel of stored
    norm 1 is below it and ends with zeros. *)
Lemma C2_noise_floor_witness :
  (0 < 2)%nat /\
  HessianNoiseFloor DiagonalOf 2 TwoVoxelField [0; 0] [0; 0] [0; 0] = 2 /\
  StoredNorm DiagonalOf 2 TwoVoxelField [0; 0] [0; 0] [0; 0] 1 = 1 /\
  EigenTripleAt (HessianEigenLoops DiagonalOf 2 TwoVoxelField [0; 0] [0; 0] [0; 0]) 1
  = (0, 0, 0).
Proof.
  destruct TwoVoxelField_floor as (_ & E1 & Efloor).
  split; [lia|]. split; [exact Efloor|]. split; [exact E1|].
  apply (proj2 (proj2 (C2_noise_floor_is_sqrt_of_max_norm DiagonalOf 2 TwoVoxelField
                         [0; 0] [0; 0] [0; 0] Nat.lt_0_2)) 1%nat).
  - lia.
  - rewrite E1, Efloor. lra.
Defined.

(** C2 as stated fails: on [SampleField] the largest Frobenius norm is 4,
    the code's floor is sqrt 4 = 2, and the square root of the largest
    squared norm is 4. *)
Lemma C2_counterexample :
  HessianNoiseFloor DiagonalOf 1 SampleField [0] [0] [0] = 2 /\
  SpecNoiseFloor 1 SampleField = 4 /\
  HessianNoiseFloor DiagonalOf 1 SampleField [0] [0] [0]
  <> SpecNoiseFloor 1 SampleField.
Proof.
  assert (Hcode : HessianNoiseFloor DiagonalOf 1 SampleField [0] [0] [0] = 2).
  { unfold HessianNoiseFloor, NoiseFloor. rewrite EigenPass_Fro_map.
    simpl. rewrite SampleField_norm, ToFloat_4, sqrt_4. apply ToDouble_2. }
  assert (Hspec : SpecNoiseFloor 1 SampleField = 4).
  { unfold SpecNoiseFloor, MaxOverVoxels. simpl. rewrite SampleField_norm.
    unfold Rsqr. apply sqrt_of_square; lra. }
  split; [exact Hcode|]. split; [exact Hspec|].
  rewrite Hcode, Hspec. lra.
Qed.

(** C8, witness: the one-voxel image over [TubeField], whose Hessian has
    the diagonal (-3, -4, 0) and a negative trace. *)
Lemma C8_eigen_triples_witness :
  (length [0] = GetNumberOfPoints SampleImage /\
   length [0] = GetNumberOfPoints SampleImage /\
   length [0] = GetNumberOfPoints SampleImage) /\
  ((forall t, abs_sorted (Sort t) /\
              Permutation (TripleList (Sort t)) (TripleList t)) /\
   (forall H, abs_sorted (VoxelEigenvalues DiagonalOf H) /\
              (H 0%nat 0%nat + H 1%nat 1%nat + H 2%nat 2%nat < 0 ->
               VoxelEigenvalues DiagonalOf H = Sort (DiagonalOf H)) /\
              (0 <= H 0%nat 0%nat + H 1%nat 1%nat + H 2%nat 2%nat ->
               VoxelEigenvalues DiagonalOf H = (0, 0, 0))) /\
   (forall id,
       abs_sorted (EigenTripleAt
                     (HessianStage DiagonalOf (fun _ _ => TubeField) 1
                                   SampleImage [0] [0] [0] SampleMito) id)) /\
   (forall id, (id < GetNumberOfPoints SampleImage)%nat ->
       let H := HessianAt TubeField id in
       let stored :=
         EigenTripleAt (HessianStage DiagonalOf (fun _ _ => TubeField) 1
                                     SampleImage [0] [0] [0] SampleMito) id in
       stored = (0, 0, 0) \/
       (H 0%nat 0%nat + H 1%nat 1%nat + H 2%nat 2%nat < 0 /\
        stored = Sort (DiagonalOf H) /\
        Permutation (TripleList stored) (TripleList (DiagonalOf H))))).
Proof.
  split; [repeat split|].
  apply (C8_eigen_triples_abs_sorted DiagonalOf (fun _ _ => TubeField) 1
           SampleImage [0] [0] [0] SampleMito); reflexivity.
Defined.

(** ** Vesselness *)

Lemma ZeroTriple_lengths (s : EigenState) (id : nat) :
  length (L1 (ZeroTriple s id)) = length (L1 s) /\
  length (L2 (ZeroTriple s id)) = length (L2 s) /\
  length (L3 (ZeroTriple s id)) = length (L3 s).
Proof. unfold ZeroTriple. simpl. rewrite !SetTuple1_length. auto. Qed.

Lemma ZeroingLoop_lengths (body : nat -> EigenState -> EigenState)
      (N : nat) (st : EigenState) :
  (forall id s, body id s = s \/ body id s = ZeroTriple s id) ->
  length (L1 (for_down N body st)) = length (L1 st) /\
  length (L2 (for_down N body st)) = length (L2 st) /\
  length (L3 (for_down N body st)) = length (L3 st).
Proof.
  intros Hbody.
  apply (for_down_inv (fun (k : nat) (s : EigenState) =>
            length (L1 s) = length (L1 st) /\
            length (L2 s) = length (L2 st) /\
            length (L3 s) = length (L3 st))); [auto|].
  intros k s Hk (Ha & Hb & Hc).
  destruct (Hbody k s) as [-> | ->]; [auto|].
  destruct (ZeroTriple_lengths s k) as (Ea & Eb & Ec).
  rewrite Ea, Eb, Ec. auto.
Qed.

Lemma HessianStage_lengths (diag : Mat3 -> Triple)
      (smooth : R -> ImageData -> HessianField)
      (sigma : R) (Image : ImageData) (l1 l2 l3 : DataArray) (mito : MitoObject) :
  length l1 = GetNumberOfPoints Image ->
  length l2 = GetNumberOfPoints Image ->
  length l3 = GetNumberOfPoints Image ->
  length (L1 (HessianStage diag smooth sigma Image l1 l2 l3 mito)) = GetNumberOfPoints Image /\
  length (L2 (HessianStage diag smooth sigma Image l1 l2 l3 mito)) = GetNumberOfPoints Image /\
  length (L3 (HessianStage diag smooth sigma Image l1 l2 l3 mito)) = GetNumberOfPoints Image.
Proof.
  intros H1 H2 H3.
  set (N := GetNumberOfPoints Image) in *.
  set (D := smooth sigma Image).
  destruct (EigenPass_triples diag N D l1 l2 l3 H1 H2 H3) as [(Ha & Hb & Hc) _].
  unfold HessianStage. destruct (_adaptive_threshold mito).
  - unfold GetHessianEigenvaluesDiscreteZDependentThreshold, AdaptiveHessianEigenLoops.
    fold N D. rewrite AdaptiveEigenPass_Eig. simpl Eig. fold (EigenPass diag N D l1 l2 l3).
    destruct (ZeroingLoop_lengths
                (AdaptiveFloorBody (_nblks mito) (Dim Image)
                   (SqrtFThresh (_nblks mito) (Dim Image)
                      (FThresh (for_down N (AdaptiveEigenBody diag (_nblks mito) (Dim Image) D)
                         (mkAdaptiveState (mkEigenState l1 l2 l3 (FillComponent N 0))
                                          (fun _ _ _ => 0))))))
                N (EigenPass diag N D l1 l2 l3)
                (AdaptiveFloorBody_zeroing _ _ _)) as (Ea & Eb & Ec).
    rewrite Ea, Eb, Ec. auto.
  - unfold GetHessianEigenvaluesDiscrete, HessianEigenLoops. fold N D.
    destruct (ZeroingLoop_lengths
                (FloorBody (NoiseFloor (EigenPass diag N D l1 l2 l3)))
                N (EigenPass diag N D l1 l2 l3) (FloorBody_zeroing _)) as (Ea & Eb & Ec).
    rewrite Ea, Eb, Ec. auto.
Qed.

(** The vesselness loop writes the response of every voxel into the first
    array and leaves the other two. *)
Lemma VesselnessLoop_spec (N : nat) (st : EigenState) :
  (N <= length (L1 st))%nat ->
  L2 (for_down N VesselnessBody st) = L2 st /\
  L3 (for_down N VesselnessBody st) = L3 st /\
  forall id, (id < N)%nat ->
    GetTuple1 (L1 (for_down N VesselnessBody st)) id
    = VesselnessResponse (GetTuple1 (L1 st) id) (GetTuple1 (L2 st) id)
                         (GetTuple1 (L3 st) id).
Proof.
  intros Hlen.
  set (out := for_down N VesselnessBody st).
  assert (HP : (L2 out = L2 st /\ L3 out = L3 st /\ length (L1 out) = length (L1 st)) /\
               (forall id, (0 <= id < N)%nat ->
                  GetTuple1 (L1 out) id
                  = VesselnessResponse (GetTuple1 (L1 st) id) (GetTuple1 (L2 st) id)
                                       (GetTuple1 (L3 st) id)) /\
               (forall id, (id < 0)%nat -> GetTuple1 (L1 out) id = GetTuple1 (L1 st) id)).
  { apply (for_down_inv (fun (k : nat) (s : EigenState) =>
               (L2 s = L2 st /\ L3 s = L3 st /\ length (L1 s) = length (L1 st)) /\
               (forall id, (k <= id < N)%nat ->
                  GetTuple1 (L1 s) id
                  = VesselnessResponse (GetTuple1 (L1 st) id) (GetTuple1 (L2 st) id)
                                       (GetTuple1 (L3 st) id)) /\
               (forall id, (id < k)%nat -> GetTuple1 (L1 s) id = GetTuple1 (L1 st) id))).
    - repeat split; auto. intros id Hid. lia.
    - intros k s Hk ((E2 & E3 & EL) & Hdone & Htodo). unfold VesselnessBody. simpl.
      split; [rewrite SetTuple1_length; auto|]. split.
      + intros id Hid. destruct (Nat.eq_dec k id) as [<- | Hne].
        * rewrite GetTuple1_SetTuple1_eq by lia.
          rewrite E2, E3, (Htodo k) by lia. reflexivity.
        * rewrite GetTuple1_SetTuple1_neq by exact Hne. apply Hdone. lia.
      + intros id Hid. rewrite GetTuple1_SetTuple1_neq by lia. apply Htodo. lia. }
  destruct HP as ((E2 & E3 & _) & Hdone & _).
  split; [exact E2|]. split; [exact E3|].
  intros id Hid. apply Hdone. lia.
Qed.

(** The response of a voxel, in the shape of the formula. *)
Lemma VesselnessResponse_formula (l1 l2 l3 : R) :
  (l2 < 0 -> l3 < 0 ->
   VesselnessResponse l1 l2 l3
   = (1 - exp (- (Rabs l2 / Rabs l3) ^ 2 / (2 * 0.5 ^ 2)))
     * exp (- (Rabs l1 / sqrt (l2 * l3)) ^ 2 / (2 * 0.5 ^ 2))
     * (1 - exp (- (sqrt (l1 ^ 2 + l2 ^ 2 + l3 ^ 2)) ^ 2 / (2 * 500 ^ 2)))) /\
  (l2 >= 0 \/ l3 >= 0 -> VesselnessResponse l1 l2 l3 = 0).
Proof.
  unfold VesselnessResponse. split.
  - intros H2 H3.
    rewrite (proj2 (Rltb_true l2 0) H2), (proj2 (Rltb_true l3 0) H3). simpl andb. cbv iota.
    replace (l1 ^ 2 + l2 ^ 2 + l3 ^ 2) with (l1 * l1 + l2 * l2 + l3 * l3) by ring.
    set (ra := Rabs l2 / Rabs l3).
    set (rb := Rabs l1 / sqrt (l2 * l3)).
    set (s := sqrt (l1 * l1 + l2 * l2 + l3 * l3)).
    replace (- ra * ra / (2 * 0.5 * 0.5)) with (- ra ^ 2 / (2 * 0.5 ^ 2))
      by (field; lra).
    replace (- rb * rb / (2 * 0.5 * 0.5)) with (- rb ^ 2 / (2 * 0.5 ^ 2))
      by (field; lra).
    replace (- s * s / (2 * 500 * 500)) with (- s ^ 2 / (2 * 500 ^ 2))
      by (field; lra).
    reflexivity.
  - intros [H | H].
    + rewrite (proj2 (Rltb_false l2 0)) by lra. reflexivity.
    + rewrite (proj2 (Rltb_false l3 0)) by lra. rewrite andb_false_r. reflexivity.
Qed.

(** ** Claims on the vesselness response *)

(** C1. At every voxel and for every scale, with (l1,l2,l3) the triple the
    Hessian stage stored at the voxel, the vesselness written by
    [GetVesselness] is
    (1 - exp(-Ra^2/(2 alpha^2))) * exp(-Rb^2/(2 beta^2)) * (1 - exp(-S^2/(2 c^2)))
    with Ra = |l2|/|l3|, Rb = |l1|/sqrt(l2*l3), S = sqrt(l1^2+l2^2+l3^2),
    alpha = beta = 0.5 and c = 500 when l2 < 0 and l3 < 0, and it is 0
    whenever l2 >= 0 or l3 >= 0. *)
Theorem C1_vesselness_response :
  forall (diag : Mat3 -> Triple) (smooth : R -> ImageData -> HessianField)
         (sigma : R) (Image : ImageData) (l1 l2 l3 : DataArray) (mito : MitoObject)
         (id : nat),
    length l1 = GetNumberOfPoints Image ->
    length l2 = GetNumberOfPoints Image ->
    length l3 = GetNumberOfPoints Image ->
    (id < GetNumberOfPoints Image)%nat ->
    let stored := HessianStage diag smooth sigma Image l1 l2 l3 mito in
    let e1 := GetTuple1 (L1 stored) id in
    let e2 := GetTuple1 (L2 stored) id in
    let e3 := GetTuple1 (L3 stored) id in
    let alpha := 0.5 in
    let beta := 0.5 in
    let c := 500 in
    let Ra := Rabs e2 / Rabs e3 in
    let Rb := Rabs e1 / sqrt (e2 * e3) in
    let S := sqrt (e1 ^ 2 + e2 ^ 2 + e3 ^ 2) in
    let v := GetTuple1 (L1 (GetVesselness diag smooth sigma Image l1 l2 l3 mito)) id in
    (e2 < 0 -> e3 < 0 ->
     v = (1 - exp (- Ra ^ 2 / (2 * alpha ^ 2)))
         * exp (- Rb ^ 2 / (2 * beta ^ 2))
         * (1 - exp (- S ^ 2 / (2 * c ^ 2)))) /\
    (e2 >= 0 \/ e3 >= 0 -> v = 0).
Proof.
  intros diag smooth sigma Image l1 l2 l3 mito id H1 H2 H3 Hid.
  cbv zeta.
  destruct (HessianStage_lengths diag smooth sigma Image l1 l2 l3 mito H1 H2 H3)
    as (Ha & _ & _).
  unfold GetVesselness.
  destruct (VesselnessLoop_spec (GetNumberOfPoints Image)
              (HessianStage diag smooth sigma Image l1 l2 l3 mito)) as (_ & _ & Hv);
    [lia|].
  rewrite (Hv id Hid).
  apply VesselnessResponse_formula.
Qed.

Example Sort_example : Sort (-3, -4, 0) = (0, -3, -4).
Proof.
  assert (H3 : Rabs (-3) = 3) by (rewrite Rabs_left; lra).
  assert (H4 : Rabs (-4) = 4) by (rewrite Rabs_left; lra).
  unfold Sort, Rgtb.
  rewrite H3, H4, (proj2 (Rltb_false 4 3)) by lra. cbv iota beta.
  rewrite H4, Rabs_R0, (proj2 (Rltb_true 0 4)) by lra. cbv iota beta.
  rewrite H3, Rabs_R0, (proj2 (Rltb_true 0 3)) by lra.
  reflexivity.
Qed.

Lemma TubeField_norm : FrobeniusNorm (HessianAt TubeField 0) = 5.
Proof.
  unfold FrobeniusNorm. simpl. unfold GetTuple1. simpl.
  apply sqrt_of_square; lra.
Qed.

(** The triple the global estimator stores for [TubeField]: the voxel is
    above the noise floor, the double sqrt 5 rounds to, and keeps
    (0, -3, -4). *)
Lemma TubeField_stored :
  EigenTripleAt (HessianStage DiagonalOf (fun _ _ => TubeField) 1
                              SampleImage [0] [0] [0] SampleMito) 0
  = (0, -3, -4).
Proof.
  unfold HessianStage. simpl _adaptive_threshold. cbv iota.
  unfold GetHessianEigenvaluesDiscrete, HessianEigenLoops.
  change (GetNumberOfPoints SampleImage) with 1%nat.
  set (st := EigenPass DiagonalOf 1 TubeField [0] [0] [0]).
  assert (Hfro : GetTuple1 (Fro st) 0 = 5).
  { unfold st. rewrite (proj2 (EigenPass_Fro DiagonalOf 1 TubeField [0] [0] [0]))
      by lia. rewrite TubeField_norm. apply ToFloat_5. }
  assert (Hfloor : NoiseFloor st = ToDouble (sqrt 5)).
  { unfold NoiseFloor, st. rewrite EigenPass_Fro_map. simpl map.
    rewrite TubeField_norm, ToFloat_5. reflexivity. }
  assert (Hsqrt : ToDouble (sqrt 5) <= 5).
  { assert (H1 : sqrt 5 * sqrt 5 = 5) by (apply sqrt_sqrt; lra).
    assert (H0 : 0 < sqrt 5) by (apply sqrt_lt_R0; lra).
    replace 5 with (IZR 5 * powerRZ 2 0) at 2 by (simpl; lra).
    apply RoundBinary_le; [lia | simpl; lia | lia |].
    simpl. split; [exact H0 | nra]. }
  simpl for_down. unfold FloorBody. rewrite Hfro, Hfloor.
  rewrite (proj2 (Rltb_false 5 (ToDouble (sqrt 5)))) by exact Hsqrt.
  unfold st.
  rewrite (proj2 (EigenPass_triples DiagonalOf 1 TubeField [0] [0] [0]
                    eq_refl eq_refl eq_refl)) by lia.
  unfold VoxelEigenvalues.
  change (HessianAt TubeField 0 0%nat 0%nat) with (-3).
  change (HessianAt TubeField 0 1%nat 1%nat) with (-4).
  change (HessianAt TubeField 0 2%nat 2%nat) with 0.
  rewrite (proj2 (Rltb_true (-3 + -4 + 0) 0)) by lra.
  change (DiagonalOf (HessianAt TubeField 0)) with ((-3, -4, 0) : Triple).
  apply Sort_example.
Qed.

(** C1, witness: the one-voxel image over [TubeField]; the stored triple
    is (0, -3, -4), so the response is given by the formula. *)
Lemma C1_vesselness_response_witness :
  (length [0] = GetNumberOfPoints SampleImage /\
   (0 < GetNumberOfPoints SampleImage)%nat) /\
  GetTuple1 (L1 (GetVesselness DiagonalOf (fun _ _ => TubeField) 1
                               SampleImage [0] [0] [0] SampleMito)) 0
  = (1 - exp (- (Rabs (-3) / Rabs (-4)) ^ 2 / (2 * 0.5 ^ 2)))
    * exp (- (Rabs 0 / sqrt (-3 * -4)) ^ 2 / (2 * 0.5 ^ 2))
    * (1 - exp (- (sqrt (0 ^ 2 + (-3) ^ 2 + (-4) ^ 2)) ^ 2 / (2 * 500 ^ 2))).
Proof.
  assert (HN : (0 < GetNumberOfPoints SampleImage)%nat)
    by (unfold GetNumberOfPoints; simpl; lia).
  split; [split; [reflexivity | exact HN]|].
  pose proof TubeField_stored as Hst. unfold EigenTripleAt in Hst.
  injection Hst as E1 E2 E3.
  pose proof (C1_vesselness_response DiagonalOf (fun _ _ => TubeField) 1
                SampleImage [0] [0] [0] SampleMito 0%nat
                eq_refl eq_refl eq_refl HN) as H.
  cbv zeta in H. rewrite E1, E2, E3 in H.
  apply (proj1 H); lra.
Defined.

(** ** Multiscale fusion *)

Lemma EigenState_ext (a b : EigenState) :
  L1 a = L1 b -> L2 a = L2 b -> L3 a = L3 b -> Fro a = Fro b -> a = b.
Proof. destruct a, b. simpl. intros -> -> -> ->. reflexivity. Qed.

(** The first loop overwrites every entry: its result does not depend on
    what the three arrays held before. *)
Lemma EigenPass_indep (diag : Mat3 -> Triple) (N : nat) (D : HessianField)
      (l1 l2 l3 l1' l2' l3' : DataArray) :
  length l1 = N -> length l2 = N -> length l3 = N ->
  length l1' = N -> length l2' = N -> length l3' = N ->
  EigenPass diag N D l1 l2 l3 = EigenPass diag N D l1' l2' l3'.
Proof.
  intros H1 H2 H3 H1' H2' H3'.
  destruct (EigenPass_triples diag N D l1 l2 l3 H1 H2 H3) as [(Ha & Hb & Hc) Hv].
  destruct (EigenPass_triples diag N D l1' l2' l3' H1' H2' H3') as [(Ha' & Hb' & Hc') Hv'].
  assert (Ht : forall id, (id < N)%nat ->
                 EigenTripleAt (EigenPass diag N D l1 l2 l3) id
                 = EigenTripleAt (EigenPass diag N D l1' l2' l3') id).
  { intros id Hid. rewrite Hv, Hv' by exact Hid. reflexivity. }
  unfold EigenTripleAt in Ht.
  apply EigenState_ext.
  - apply DataArray_ext; [congruence|]. intros id Hid.
    rewrite Ha in Hid. specialize (Ht id Hid). congruence.
  - apply DataArray_ext; [congruence|]. intros id Hid.
    rewrite Hb in Hid. specialize (Ht id Hid). congruence.
  - apply DataArray_ext; [congruence|]. intros id Hid.
    rewrite Hc in Hid. specialize (Ht id Hid). congruence.
  - rewrite !EigenPass_Fro_map. reflexivity.
Qed.

(** The block table of the adaptive variant is computed from the Hessian
    field alone. *)
Lemma AdaptiveEigenPass_FThresh (diag : Mat3 -> Triple) (nblks : nat)
      (dim : nat * nat * nat) (D : HessianField) :
  forall (N : nat) (st st' : AdaptiveState),
    FThresh st = FThresh st' ->
    FThresh (for_down N (AdaptiveEigenBody diag nblks dim D) st)
    = FThresh (for_down N (AdaptiveEigenBody diag nblks dim D) st').
Proof.
  induction N as [|N IH]; intros st st' HF; simpl; [exact HF|].
  apply IH. unfold AdaptiveEigenBody. simpl. rewrite HF. reflexivity.
Qed.

Lemma HessianStage_indep (diag : Mat3 -> Triple)
      (smooth : R -> ImageData -> HessianField)
      (sigma : R) (Image : ImageData) (mito : MitoObject)
      (l1 l2 l3 l1' l2' l3' : DataArray) :
  length l1 = GetNumberOfPoints Image ->
  length l2 = GetNumberOfPoints Image ->
  length l3 = GetNumberOfPoints Image ->
  length l1' = GetNumberOfPoints Image ->
  length l2' = GetNumberOfPoints Image ->
  length l3' = GetNumberOfPoints Image ->
  HessianStage diag smooth sigma Image l1 l2 l3 mito
  = HessianStage diag smooth sigma Image l1' l2' l3' mito.
Proof.
  intros H1 H2 H3 H1' H2' H3'.
  set (N := GetNumberOfPoints Image) in *.
  set (D := smooth sigma Image).
  pose proof (EigenPass_indep diag N D l1 l2 l3 l1' l2' l3' H1 H2 H3 H1' H2' H3') as E.
  unfold HessianStage. destruct (_adaptive_threshold mito).
  - unfold GetHessianEigenvaluesDiscreteZDependentThreshold, AdaptiveHessianEigenLoops.
    fold N D. rewrite !AdaptiveEigenPass_Eig. simpl Eig.
    fold (EigenPass diag N D l1 l2 l3). fold (EigenPass diag N D l1' l2' l3').
    rewrite E.
    rewrite (AdaptiveEigenPass_FThresh diag (_nblks mito) (Dim Image) D N
               (mkAdaptiveState (mkEigenState l1 l2 l3 (FillComponent N 0)) (fun _ _ _ => 0))
               (mkAdaptiveState (mkEigenState l1' l2' l3' (FillComponent N 0)) (fun _ _ _ => 0))
               eq_refl).
    reflexivity.
  - unfold GetHessianEigenvaluesDiscrete, HessianEigenLoops. fold N D.
    rewrite E. reflexivity.
Qed.

Lemma GetVesselness_indep (diag : Mat3 -> Triple)
      (smooth : R -> ImageData -> HessianField)
      (sigma : R) (Image : ImageData) (mito : MitoObject)
      (l1 l2 l3 l1' l2' l3' : DataArray) :
  length l1 = GetNumberOfPoints Image ->
  length l2 = GetNumberOfPoints Image ->
  length l3 = GetNumberOfPoints Image ->
  length l1' = GetNumberOfPoints Image ->
  length l2' = GetNumberOfPoints Image ->
  length l3' = GetNumberOfPoints Image ->
  GetVesselness diag smooth sigma Image l1 l2 l3 mito
  = GetVesselness diag smooth sigma Image l1' l2' l3' mito.
Proof.
  intros. unfold GetVesselness.
  rewrite (HessianStage_indep diag smooth sigma Image mito l1 l2 l3 l1' l2' l3');
    auto.
Qed.

Lemma VesselnessLoop_length (N : nat) (st : EigenState) :
  length (L1 (for_down N VesselnessBody st)) = length (L1 st).
Proof.
  apply (for_down_inv (fun (k : nat) (s : EigenState) =>
                         length (L1 s) = length (L1 st))); [reflexivity|].
  intros k s _ E. unfold VesselnessBody. simpl. rewrite SetTuple1_length. exact E.
Qed.

Lemma GetVesselness_lengths (diag : Mat3 -> Triple)
      (smooth : R -> ImageData -> HessianField)
      (sigma : R) (Image : ImageData) (l1 l2 l3 : DataArray) (mito : MitoObject) :
  length l1 = GetNumberOfPoints Image ->
  length l2 = GetNumberOfPoints Image ->
  length l3 = GetNumberOfPoints Image ->
  length (L1 (GetVesselness diag smooth sigma Image l1 l2 l3 mito)) = GetNumberOfPoints Image /\
  length (L2 (GetVesselness diag smooth sigma Image l1 l2 l3 mito)) = GetNumberOfPoints Image /\
  length (L3 (GetVesselness diag smooth sigma Image l1 l2 l3 mito)) = GetNumberOfPoints Image.
Proof.
  intros H1 H2 H3.
  destruct (HessianStage_lengths diag smooth sigma Image l1 l2 l3 mito H1 H2 H3)
    as (Ha & Hb & Hc).
  unfold GetVesselness.
  destruct (VesselnessLoop_spec (GetNumberOfPoints Image)
              (HessianStage diag smooth sigma Image l1 l2 l3 mito)) as (E2 & E3 & _);
    [lia|].
  rewrite VesselnessLoop_length, E2, E3. auto.
Qed.

(** The response is never negative. *)
Lemma exp_nonpos_le_1 (a : R) : a <= 0 -> exp a <= 1.
Proof.
  intros [Hlt | ->].
  - rewrite <- exp_0. left. apply exp_increasing. exact Hlt.
  - rewrite exp_0. lra.
Qed.

Lemma VesselnessResponse_nonneg (l1 l2 l3 : R) : 0 <= VesselnessResponse l1 l2 l3.
Proof.
  unfold VesselnessResponse.
  destruct (Rltb l2 0 && Rltb l3 0); [|lra].
  set (ra := Rabs l2 / Rabs l3).
  set (rb := Rabs l1 / sqrt (l2 * l3)).
  set (s := sqrt (l1 * l1 + l2 * l2 + l3 * l3)).
  assert (Ha : exp (- ra * ra / (2 * 0.5 * 0.5)) <= 1).
  { apply exp_nonpos_le_1. pose proof (Rle_0_sqr ra) as Hq. unfold Rsqr in Hq.
    replace (- ra * ra / (2 * 0.5 * 0.5)) with (- (2 * (ra * ra))) by lra. lra. }
  assert (Hs : exp (- s * s / (2 * 500 * 500)) <= 1).
  { apply exp_nonpos_le_1. pose proof (Rle_0_sqr s) as Hq. unfold Rsqr in Hq.
    replace (- s * s / (2 * 500 * 500)) with (- ((s * s) / 500000)) by lra. lra. }
  pose proof (exp_pos (- rb * rb / (2 * 0.5 * 0.5))) as Hb.
  apply Rmult_le_pos; [apply Rmult_le_pos|]; lra.
Qed.

(** The fusion loop is the pointwise maximum of the two arrays. *)
Lemma FuseLoop_spec (N : nat) (aux1 vsss : DataArray) :
  length vsss = N ->
  length (for_down N (FuseBody aux1) vsss) = N /\
  forall id, (id < N)%nat ->
    GetTuple1 (for_down N (FuseBody aux1) vsss) id
    = Rmax (GetTuple1 vsss id) (GetTuple1 aux1 id).
Proof.
  intros Hlen.
  set (out := for_down N (FuseBody aux1) vsss).
  assert (HP : length out = N /\
               (forall id, (0 <= id < N)%nat ->
                  GetTuple1 out id = Rmax (GetTuple1 vsss id) (GetTuple1 aux1 id)) /\
               (forall id, (id < 0)%nat -> GetTuple1 out id = GetTuple1 vsss id)).
  { apply (for_down_inv (fun (k : nat) (s : DataArray) =>
               length s = N /\
               (forall id, (k <= id < N)%nat ->
                  GetTuple1 s id = Rmax (GetTuple1 vsss id) (GetTuple1 aux1 id)) /\
               (forall id, (id < k)%nat -> GetTuple1 s id = GetTuple1 vsss id))).
    - split; [exact Hlen|]. split; [intros id Hid; lia | reflexivity].
    - intros k s Hk (HL & Hdone & Htodo). unfold FuseBody.
      destruct (Rgtb (GetTuple1 aux1 k) (GetTuple1 s k)) eqn:E.
      + apply Rltb_true in E. split; [rewrite SetTuple1_length; exact HL|]. split.
        * intros id Hid. destruct (Nat.eq_dec k id) as [<- | Hne].
          -- rewrite GetTuple1_SetTuple1_eq by lia.
             rewrite (Htodo k) in E by lia. rewrite Rmax_right by lra. reflexivity.
          -- rewrite GetTuple1_SetTuple1_neq by exact Hne. apply Hdone. lia.
        * intros id Hid. rewrite GetTuple1_SetTuple1_neq by lia. apply Htodo. lia.
      + apply Rltb_false in E. split; [exact HL|]. split.
        * intros id Hid. destruct (Nat.eq_dec k id) as [<- | Hne].
          -- rewrite (Htodo k) in * by lia. rewrite Rmax_left by lra. reflexivity.
          -- apply Hdone. lia.
        * intros id Hid. apply Htodo. lia. }
  destruct HP as (HL & Hdone & _). split; [exact HL|].
  intros id Hid. apply Hdone. lia.
Qed.

Lemma EvenlySpaced_S (start step : R) (n : nat) :
  EvenlySpaced start step (S n) = start :: EvenlySpaced (start + step) step n.
Proof.
  unfold EvenlySpaced. simpl. f_equal; [lra|].
  rewrite <- seq_shift, map_map. apply map_ext.
  intros k. rewrite S_INR. ring.
Qed.

Lemma GetVesselness_nonneg (diag : Mat3 -> Triple)
      (smooth : R -> ImageData -> HessianField)
      (sigma : R) (Image : ImageData) (l1 l2 l3 : DataArray) (mito : MitoObject) :
  length l1 = GetNumberOfPoints Image ->
  length l2 = GetNumberOfPoints Image ->
  length l3 = GetNumberOfPoints Image ->
  forall id, 0 <= GetTuple1 (L1 (GetVesselness diag smooth sigma Image l1 l2 l3 mito)) id.
Proof.
  intros H1 H2 H3 id.
  destruct (GetVesselness_lengths diag smooth sigma Image l1 l2 l3 mito H1 H2 H3)
    as (Ha & _ & _).
  destruct (Nat.lt_ge_cases id (GetNumberOfPoints Image)) as [Hin | Hout].
  - destruct (HessianStage_lengths diag smooth sigma Image l1 l2 l3 mito H1 H2 H3)
      as (Hs & _ & _).
    unfold GetVesselness.
    destruct (VesselnessLoop_spec (GetNumberOfPoints Image)
                (HessianStage diag smooth sigma Image l1 l2 l3 mito)) as (_ & _ & Hv);
      [lia|].
    rewrite (Hv id Hin). apply VesselnessResponse_nonneg.
  - rewrite GetTuple1_out_of_range by lia. lra.
Qed.

Section FusionFacts.

Variable diag : Mat3 -> Triple.
Variable smooth : R -> ImageData -> HessianField.
Variable Image : ImageData.
Variable mito : MitoObject.

Let N := GetNumberOfPoints Image.
Let r := ScaleResponse diag smooth Image mito.

(** What one pass of the scale loop does to the state. *)
Lemma ScaleBody_spec (sigma : R) (st : FusionState) :
  length (AUX1 st) = N -> length (AUX2 st) = N -> length (AUX3 st) = N ->
  length (VSSS st) = N ->
  (length (AUX1 (ScaleBody diag smooth Image mito sigma st)) = N /\
   length (AUX2 (ScaleBody diag smooth Image mito sigma st)) = N /\
   length (AUX3 (ScaleBody diag smooth Image mito sigma st)) = N /\
   length (VSSS (ScaleBody diag smooth Image mito sigma st)) = N) /\
  ScalesRun (ScaleBody diag smooth Image mito sigma st) = ScalesRun st ++ [sigma] /\
  forall id, (id < N)%nat ->
    GetTuple1 (VSSS (ScaleBody diag smooth Image mito sigma st)) id
    = Rmax (GetTuple1 (VSSS st) id) (GetTuple1 (r sigma) id).
Proof.
  intros H1 H2 H3 HV. unfold ScaleBody. simpl.
  destruct (GetVesselness_lengths diag smooth sigma Image
              (AUX1 st) (AUX2 st) (AUX3 st) mito H1 H2 H3) as (Ha & Hb & Hc).
  destruct (FuseLoop_spec N
              (L1 (GetVesselness diag smooth sigma Image
                                 (AUX1 st) (AUX2 st) (AUX3 st) mito))
              (VSSS st) HV) as (HL & Hmax).
  split; [auto|]. split; [reflexivity|].
  intros id Hid. fold N. rewrite (Hmax id Hid).
  unfold r, ScaleResponse. fold N.
  rewrite (GetVesselness_indep diag smooth sigma Image mito
             (AUX1 st) (AUX2 st) (AUX3 st)
             (FillComponent N 0) (FillComponent N 0) (FillComponent N 0));
    auto; apply FillComponent_length.
Qed.

(** Whenever the scale loop ends, the scales it ran are evenly spaced from
    the scale it started at, and the fused field is the pointwise maximum
    of what it held and of the responses at those scales. *)
Lemma ScaleLoop_spec :
  forall (fuel : nat) (sigma : R) (st st' : FusionState),
    length (AUX1 st) = N -> length (AUX2 st) = N -> length (AUX3 st) = N ->
    length (VSSS st) = N ->
    ScaleLoop diag smooth fuel Image mito sigma st = Some st' ->
    exists n,
      ScalesRun st' = ScalesRun st ++ EvenlySpaced sigma (_dsigma mito) n /\
      length (VSSS st') = N /\
      forall id, (id < N)%nat ->
        GetTuple1 (VSSS st) id <= GetTuple1 (VSSS st') id /\
        (forall s, In s (EvenlySpaced sigma (_dsigma mito) n) ->
                   GetTuple1 (r s) id <= GetTuple1 (VSSS st') id) /\
        (GetTuple1 (VSSS st') id = GetTuple1 (VSSS st) id \/
         exists s, In s (EvenlySpaced sigma (_dsigma mito) n) /\
                   GetTuple1 (VSSS st') id = GetTuple1 (r s) id).
Proof.
  induction fuel as [|fuel IH]; intros sigma st st' H1 H2 H3 HV Hrun; simpl in Hrun;
    [discriminate|].
  destruct (Rleb sigma (_sigmaf mito + 0.5 * _dsigma mito)).
  - destruct (ScaleBody_spec sigma st H1 H2 H3 HV) as ((Ha & Hb & Hc & Hd) & Hs & Hmax).
    destruct (IH _ _ _ Ha Hb Hc Hd Hrun) as (n & Hscales & Hlen & Hids).
    exists (S n). rewrite EvenlySpaced_S. split.
    { rewrite Hscales, Hs, <- app_assoc. reflexivity. }
    split; [exact Hlen|].
    intros id Hid. destruct (Hids id Hid) as (Hge & Hall & Hex).
    rewrite (Hmax id Hid) in Hge, Hex.
    pose proof (Rmax_l (GetTuple1 (VSSS st) id) (GetTuple1 (r sigma) id)) as Hl.
    pose proof (Rmax_r (GetTuple1 (VSSS st) id) (GetTuple1 (r sigma) id)) as Hr.
    split; [lra|]. split.
    + intros s [<- | Hin]; [lra | apply Hall; exact Hin].
    + destruct Hex as [Heq | (s & Hin & Heq)].
      * unfold Rmax in Heq.
        destruct (Rle_dec (GetTuple1 (VSSS st) id) (GetTuple1 (r sigma) id)).
        -- right. exists sigma. split; [left; reflexivity | exact Heq].
        -- left. exact Heq.
      * right. exists s. split; [right; exact Hin | exact Heq].
  - injection Hrun as <-. exists 0%nat. unfold EvenlySpaced. simpl.
    split; [rewrite app_nil_r; reflexivity|]. split; [exact HV|].
    intros id Hid. split; [lra|]. split; [intros s []|]. left. reflexivity.
Qed.



End FusionFacts.


Lemma EvenlySpaced_length (start step : R) (n : nat) :
  length (EvenlySpaced start step n) = n.
Proof. unfold EvenlySpaced. rewrite length_map, length_seq. reflexivity. Qed.


(** ** Claims on multiscale fusion *)




(** ** Fixed-threshold binarization *)

(** The thresholding loop writes every entry. *)
Lemma ThresholdLoop_spec (a : DataArray) (threshold : R) (N : nat) (out0 : DataArray) :
  length out0 = N ->
  length (for_down N (ThresholdBody a threshold) out0) = N /\
  forall id, (id < N)%nat ->
    GetTuple1 (for_down N (ThresholdBody a threshold) out0) id
    = if Rleb (GetTuple1 a id) threshold then 0 else 255.
Proof.
  intros Hlen.
  set (out := for_down N (ThresholdBody a threshold) out0).
  assert (HP : length out = N /\
               forall id, (0 <= id < N)%nat ->
                 GetTuple1 out id = if Rleb (GetTuple1 a id) threshold then 0 else 255).
  { apply (for_down_inv (fun (k : nat) (s : DataArray) =>
               length s = N /\
               forall id, (k <= id < N)%nat ->
                 GetTuple1 s id = if Rleb (GetTuple1 a id) threshold then 0 else 255)).
    - split; [exact Hlen | intros id Hid; lia].
    - intros k s Hk (HL & Hdone). unfold ThresholdBody.
      split; [destruct (Rleb (GetTuple1 a k) threshold);
              rewrite SetTuple1_length; exact HL|].
      intros id Hid. destruct (Nat.eq_dec k id) as [<- | Hne].
      + destruct (Rleb (GetTuple1 a k) threshold);
          apply GetTuple1_SetTuple1_eq; lia.
      + destruct (Rleb (GetTuple1 a k) threshold);
          rewrite GetTuple1_SetTuple1_neq by exact Hne; apply Hdone; lia. }
  destruct HP as (HL & Hdone). split; [exact HL|].
  intros id Hid. apply Hdone. lia.
Qed.

Lemma GetTuple1_In (a : DataArray) (id : nat) :
  (id < length a)%nat -> In (GetTuple1 a id) a.
Proof. intros H. unfold GetTuple1. apply nth_In. exact H. Qed.

(** ** Claims on fixed-threshold binarization *)

(** C7. Fixed-threshold binarization is idempotent on binary grids: for
    every grid whose values are all 0 or 255 and every threshold strictly
    between 0 and 1, the policy (value > threshold gives 255, otherwise 0)
    returns a grid of the same dimensions with exactly the same values. *)
Theorem C7_fixed_threshold_idempotent_on_binary :
  forall (Image : ImageData) (threshold : R),
    0 < threshold < 1 ->
    IsBinary (Scalars Image) ->
    exists out,
      BinarizeAndConvertDoubleToChar Image threshold = Ok out /\
      Dim out = Dim Image /\
      Scalars out = Scalars Image.
Proof.
  intros Image threshold [Hlo Hhi] Hbin.
  unfold BinarizeAndConvertDoubleToChar, Rgtb.
  rewrite (proj2 (Rltb_true 0 threshold) Hlo).
  eexists. split; [reflexivity|]. split; [reflexivity|]. simpl.
  destruct (ThresholdLoop_spec (Scalars Image) threshold (length (Scalars Image))
              (FillComponent (length (Scalars Image)) 0)
              (FillComponent_length _ 0)) as (HL & Hval).
  apply DataArray_ext; [exact HL|].
  intros id Hid. rewrite HL in Hid. rewrite (Hval id Hid).
  destruct (Hbin _ (GetTuple1_In (Scalars Image) id Hid)) as [-> | ->].
  - rewrite (proj2 (Rleb_true 0 threshold)) by lra. reflexivity.
  - rewrite (proj2 (Rleb_false 255 threshold)) by lra. reflexivity.
Qed.

(** C7, witness: a binary image of four voxels at threshold 0.5. *)
Lemma C7_fixed_threshold_witness :
  (0 < 0.5 < 1 /\ IsBinary (Scalars BinaryImage)) /\
  exists out,
    BinarizeAndConvertDoubleToChar BinaryImage 0.5 = Ok out /\
    Dim out = Dim BinaryImage /\
    Scalars out = Scalars BinaryImage.
Proof.
  assert (Ht : 0 < 0.5 < 1) by lra.
  assert (Hb : IsBinary (Scalars BinaryImage)).
  { intros v Hv. simpl in Hv. intuition. }
  split; [split; assumption|].
  exact (C7_fixed_threshold_idempotent_on_binary BinaryImage 0.5 Ht Hb).
Defined.

(** C4, the code at a failing input: on a field whose values are all equal
    (here all 0) and with a threshold that is not positive, the rescale
    branch of the fixed-threshold policy divides by range[1]-range[0] = 0. *)
Theorem C4_fixed_threshold_rescale_divides_by_zero :
  RangeMax (Scalars FlatImage) - RangeMin (Scalars FlatImage) = 0 /\
  BinarizeAndConvertDoubleToChar FlatImage 0 = DivisionByZero /\
  BinarizeAndConvertDoubleToChar FlatImage (-1) = DivisionByZero.
Proof.
  assert (Hmax : RangeMax (Scalars FlatImage) = 0).
  { simpl. unfold Rmax. destruct (Rle_dec 0 0); reflexivity. }
  assert (Hmin : RangeMin (Scalars FlatImage) = 0).
  { simpl. unfold Rmin. destruct (Rle_dec 0 0); reflexivity. }
  split; [rewrite Hmax, Hmin; lra|].
  assert (Hdiv : forall x, checked_div x (ToDouble (0 - 0)) = DivisionByZero).
  { intros x. unfold checked_div.
    destruct (Req_dec_T (ToDouble (0 - 0)) 0) as [_ | Hne]; [reflexivity|].
    exfalso. apply Hne. rewrite Rminus_diag. apply ToDouble_0. }
  split.
  - unfold BinarizeAndConvertDoubleToChar, Rgtb.
    rewrite (proj2 (Rltb_false 0 0)) by lra.
    rewrite Hmax, Hmin. unfold for_down_checked. simpl.
    unfold RescaleBody. rewrite Hdiv. reflexivity.
  - unfold BinarizeAndConvertDoubleToChar, Rgtb.
    rewrite (proj2 (Rltb_false 0 (-1))) by lra.
    rewrite Hmax, Hmin. unfold for_down_checked. simpl.
    unfold RescaleBody. rewrite Hdiv. reflexivity.
Qed.

(** ** Per-plane adaptive binarization *)

(** Two nested loops visit the pairs of the product in order. *)
Lemma fold_left_list_prod {St A B : Type} (f : A -> B -> St -> St) (lb : list B) :
  forall (la : list A) (s : St),
    fold_left (fun acc a => fold_left (fun acc' b => f a b acc') lb acc) la s
    = fold_left (fun acc p => f (fst p) (snd p) acc) (list_prod la lb) s.
Proof.
  induction la as [|a la IH]; intros s; simpl; [reflexivity|].
  rewrite fold_left_app, IH. f_equal.
  clear IH. revert s. induction lb as [|b lb IHb]; intros s; simpl; [reflexivity|].
  apply IHb.
Qed.

Lemma for_up_nested {St : Type} (f : nat -> nat -> St -> St) (n m : nat) (s : St) :
  for_up n (fun x acc => for_up m (fun y acc' => f x y acc') acc) s
  = fold_left (fun acc p => f (fst p) (snd p) acc)
              (list_prod (seq 0 n) (seq 0 m)) s.
Proof. unfold for_up. apply fold_left_list_prod. Qed.

Lemma fold_left_map {St A B : Type} (g : A -> B) (f : St -> B -> St) :
  forall (l : list A) (s : St),
    fold_left (fun acc a => f acc (g a)) l s = fold_left f (map g l) s.
Proof. induction l as [|a l IH]; intros s; simpl; [reflexivity | apply IH]. Qed.

(** [GetId] is one-to-one on the coordinates of a grid and stays below the
    number of points. *)
Lemma GetId_inj (dx dy : nat) (dz : nat) (x y z x' y' z' : nat) :
  (x < dx)%nat -> (y < dy)%nat -> (x' < dx)%nat -> (y' < dy)%nat ->
  GetId x y z (dx, dy, dz) = GetId x' y' z' (dx, dy, dz) ->
  x = x' /\ y = y' /\ z = z'.
Proof.
  unfold GetId. intros Hx Hy Hx' Hy' E.
  rewrite <- !Nat.mul_assoc in E.
  assert (Hb : (x + y * dx < dx * dy)%nat).
  { assert ((y + 1) * dx <= dy * dx)%nat by (apply Nat.mul_le_mono_r; lia). lia. }
  assert (Hb' : (x' + y' * dx < dx * dy)%nat).
  { assert ((y' + 1) * dx <= dy * dx)%nat by (apply Nat.mul_le_mono_r; lia). lia. }
  set (P := (dx * dy)%nat) in *.
  assert (Ez : z = z').
  { destruct (Nat.lt_trichotomy z z') as [Hlt | [Heq | Hgt]]; [|exact Heq|].
    - assert ((z + 1) * P <= z' * P)%nat by (apply Nat.mul_le_mono_r; lia). lia.
    - assert ((z' + 1) * P <= z * P)%nat by (apply Nat.mul_le_mono_r; lia). lia. }
  subst z'.
  assert (Ey : y = y').
  { destruct (Nat.lt_trichotomy y y') as [Hlt | [Heq | Hgt]]; [|exact Heq|].
    - assert ((y + 1) * dx <= y' * dx)%nat by (apply Nat.mul_le_mono_r; lia). lia.
    - assert ((y' + 1) * dx <= y * dx)%nat by (apply Nat.mul_le_mono_r; lia). lia. }
  subst y'. repeat split; lia.
Qed.

Lemma GetId_lt (dx dy dz x y z : nat) :
  (x < dx)%nat -> (y < dy)%nat -> (z < dz)%nat ->
  (GetId x y z (dx, dy, dz) < dx * dy * dz)%nat.
Proof.
  unfold GetId. intros Hx Hy Hz. rewrite <- !Nat.mul_assoc.
  assert ((y + 1) * dx <= dy * dx)%nat by (apply Nat.mul_le_mono_r; lia).
  assert ((z + 1) * (dx * dy) <= dz * (dx * dy))%nat by (apply Nat.mul_le_mono_r; lia).
  lia.
Qed.

(** Writing [g id] at the index of every key of a list. *)
Lemma fold_set_by_index {K : Type} (idx : K -> nat) (g : nat -> R) :
  forall (keys : list K) (out : DataArray),
    let out' := fold_left (fun o k => SetTuple1 o (idx k) (g (idx k))) keys out in
    length out' = length out /\
    (forall id, In id (map idx keys) -> (id < length out)%nat ->
                GetTuple1 out' id = g id) /\
    (forall id, ~ In id (map idx keys) -> GetTuple1 out' id = GetTuple1 out id).
Proof.
  induction keys as [|k keys IH]; intros out; simpl.
  - split; [reflexivity|]. split; [intros id []|reflexivity].
  - destruct (IH (SetTuple1 out (idx k) (g (idx k)))) as (HL & Hin & Hout).
    rewrite SetTuple1_length in HL, Hin.
    split; [exact HL|]. split.
    + intros id [Hhead | Htail] Hlt.
      * destruct (in_dec Nat.eq_dec id (map idx keys)) as [Hi | Hni].
        -- apply Hin; assumption.
        -- rewrite (Hout id Hni). subst id. apply GetTuple1_SetTuple1_eq. exact Hlt.
      * apply Hin; assumption.
    + intros id Hni. rewrite Hout by tauto.
      apply GetTuple1_SetTuple1_neq. tauto.
Qed.

Lemma fold_left_pointwise {St A : Type} (f g : St -> A -> St) :
  (forall s a, f s a = g s a) ->
  forall (l : list A) (s : St), fold_left f l s = fold_left g l s.
Proof.
  intros E. induction l as [|a l IH]; intros s; simpl; [reflexivity|].
  rewrite E. apply IH.
Qed.

(** The pairs (x, y) of a plane: exactly the coordinates within the grid. *)
Lemma in_plane_coordinates (dx dy : nat) (p : nat * nat) :
  In p (list_prod (seq 0 dx) (seq 0 dy)) <-> (fst p < dx)%nat /\ (snd p < dy)%nat.
Proof.
  destruct p as [x y]. rewrite in_prod_iff, !in_seq. simpl. lia.
Qed.

(** What the third pass writes: the voxels of plane z, and nothing else. *)
Lemma PlaneApply_spec (Image : ImageData) (z : nat) (thr : R) (out : DataArray) :
  let g := fun id => if Rleb (GetTuple1 (Scalars Image) id) thr then 0 else 255 in
  length (PlaneApply Image z thr out) = length out /\
  (forall x y, (x < DimX Image)%nat -> (y < DimY Image)%nat ->
     (GetId x y z (Dim Image) < length out)%nat ->
     GetTuple1 (PlaneApply Image z thr out) (GetId x y z (Dim Image))
     = g (GetId x y z (Dim Image))) /\
  (forall id,
     (forall x y, (x < DimX Image)%nat -> (y < DimY Image)%nat ->
                  GetId x y z (Dim Image) <> id) ->
     GetTuple1 (PlaneApply Image z thr out) id = GetTuple1 out id).
Proof.
  intros g.
  set (idx := fun p : nat * nat => GetId (fst p) (snd p) z (Dim Image)).
  set (keys := list_prod (seq 0 (DimX Image)) (seq 0 (DimY Image))).
  assert (E : PlaneApply Image z thr out
              = fold_left (fun o k => SetTuple1 o (idx k) (g (idx k))) keys out).
  { unfold PlaneApply. rewrite for_up_nested. fold keys.
    apply fold_left_pointwise. intros s p. unfold FindPoint, idx, g.
    destruct (Rleb _ thr); reflexivity. }
  rewrite E.
  destruct (fold_set_by_index idx g keys out) as (HL & Hin & Hout).
  split; [exact HL|]. split.
  - intros x y Hx Hy Hlt. apply Hin; [|exact Hlt].
    apply in_map_iff. exists (x, y). split; [reflexivity|].
    apply in_plane_coordinates. simpl. lia.
  - intros id Hno. apply Hout. intros Hi. apply in_map_iff in Hi.
    destruct Hi as ([x y] & Hid & Hp). apply in_plane_coordinates in Hp.
    simpl in Hp. apply (Hno x y); [lia | lia | exact Hid].
Qed.

(** The first pass computes the sum, and the running minimum and maximum
    from the values it starts with. *)
Lemma StatsBody_fold :
  forall (l : list R) (st : PlaneStats),
    stat_sum (fold_left (fun s v => StatsBody v s) l st) = stat_sum st + Sum l /\
    stat_min (fold_left (fun s v => StatsBody v s) l st) = fold_left Rmin l (stat_min st) /\
    stat_max (fold_left (fun s v => StatsBody v s) l st) = fold_left Rmax l (stat_max st).
Proof.
  induction l as [|v l IH]; intros st; simpl.
  - repeat split. lra.
  - destruct (IH (StatsBody v st)) as (Hs & Hm & HM).
    rewrite Hs, Hm, HM. unfold StatsBody. simpl. split; [lra|]. split; f_equal.
    + unfold Rltb, Rmin.
      destruct (Rlt_dec v (stat_min st)); destruct (Rle_dec (stat_min st) v); lra.
    + unfold Rgtb, Rltb, Rmax.
      destruct (Rlt_dec (stat_max st) v); destruct (Rle_dec (stat_max st) v); lra.
Qed.

Lemma fold_left_Rmin_from_above (l : list R) (a : R) :
  l <> [] -> (forall v, In v l -> v <= a) -> fold_left Rmin l a = RangeMin l.
Proof.
  destruct l as [|h t]; [congruence|]. intros _ Hle. simpl.
  rewrite Rmin_right by (apply Hle; left; reflexivity). reflexivity.
Qed.

Lemma fold_left_Rmax_assoc :
  forall (t : list R) (a h : R),
    fold_left Rmax t (Rmax a h) = Rmax a (fold_left Rmax t h).
Proof.
  induction t as [|y t IH]; intros a h; simpl; [reflexivity|].
  rewrite <- IH. f_equal. symmetry. apply Rmax_assoc.
Qed.

Lemma fold_left_Rmax_from_below (l : list R) (a : R) :
  l <> [] -> a <= RangeMax l -> fold_left Rmax l a = RangeMax l.
Proof.
  destruct l as [|h t]; [congruence|]. intros _ Hle. simpl in *.
  rewrite fold_left_Rmax_assoc. apply Rmax_right. exact Hle.
Qed.

Lemma fold_left_plus_Sum (l : list R) :
  forall a, fold_left (fun acc v => acc + v) l a = a + Sum l.
Proof.
  induction l as [|v l IH]; intros a; simpl; [lra|].
  rewrite IH. lra.
Qed.

Lemma PlaneValues_length (Image : ImageData) (z : nat) :
  length (PlaneValues Image z) = (DimX Image * DimY Image)%nat.
Proof.
  unfold PlaneValues. rewrite length_map, length_prod, !length_seq. reflexivity.
Qed.

Lemma PlaneFirstPass_fold (Image : ImageData) (z : nat) :
  PlaneFirstPass Image z
  = fold_left (fun s v => StatsBody v s) (PlaneValues Image z)
              (mkPlaneStats 0 DBL_MAX DBL_MIN).
Proof.
  unfold PlaneFirstPass, PlaneValues, FindPoint. rewrite for_up_nested.
  rewrite <- (fold_left_map
                (fun p => GetTuple1 (Scalars Image) (GetId (fst p) (snd p) z (Dim Image)))
                (fun s v => StatsBody v s)).
  reflexivity.
Qed.

Lemma PlaneVarSum_Sum (Image : ImageData) (z : nat) (mu : R) :
  PlaneVarSum Image z mu
  = Sum (map (fun v => (v - mu) ^ 2) (PlaneValues Image z)).
Proof.
  unfold PlaneVarSum, PlaneValues, FindPoint. rewrite for_up_nested.
  rewrite map_map.
  rewrite <- (Rplus_0_l (Sum _)), <- fold_left_plus_Sum.
  rewrite <- (fold_left_map
                (fun p => (GetTuple1 (Scalars Image)
                             (GetId (fst p) (snd p) z (Dim Image)) - mu) ^ 2)
                (fun acc v => acc + v)).
  apply fold_left_pointwise. intros s p. simpl. ring.
Qed.

(** The two limits of [<cfloat>], as far as they are needed. *)
Lemma DBL_MIN_pos : 0 < DBL_MIN.
Proof. unfold DBL_MIN. apply Rinv_0_lt_compat. apply pow_lt. lra. Qed.

Lemma DBL_MIN_le_1 : DBL_MIN <= 1.
Proof.
  unfold DBL_MIN. rewrite <- Rinv_1.
  apply Rinv_le_contravar; [lra|]. apply pow_R1_Rle. lra.
Qed.

Lemma DBL_MAX_ge_65536 : 65536 <= DBL_MAX.
Proof.
  unfold DBL_MAX.
  assert (H52 : 1 <= 2 ^ 52) by (apply pow_R1_Rle; lra).
  assert (Hinv : / 2 ^ 52 <= 1).
  { rewrite <- Rinv_1. apply Rinv_le_contravar; [lra | exact H52]. }
  assert (Hpow : 2 ^ 16 <= 2 ^ 1023) by (apply Rle_pow; [lra | lia]).
  assert (H16 : 2 ^ 16 = 65536) by (simpl; lra).
  assert (Hpos : 0 < 2 ^ 1023) by (apply pow_lt; lra).
  nra.
Qed.

Lemma checked_div_nonzero (x y : R) : y <> 0 -> checked_div x y = Ok (x / y).
Proof.
  intros H. unfold checked_div. destruct (Req_dec_T y 0); [contradiction | reflexivity].
Qed.

Lemma plane_pixels_nonzero (Image : ImageData) :
  (0 < DimX Image)%nat -> (0 < DimY Image)%nat ->
  INR (DimX Image * DimY Image) <> 0.
Proof. intros Hx Hy. apply not_0_INR. nia. Qed.

(** On a grid with at least one voxel per plane the threshold of a plane is
    computed without a failing division. *)
Lemma ZPlaneThreshold_ok (Image : ImageData) (base : R) (z : nat) :
  (0 < DimX Image)%nat -> (0 < DimY Image)%nat ->
  exists t, ZPlaneThreshold Image base z = Ok t.
Proof.
  intros Hx Hy. unfold ZPlaneThreshold.
  rewrite checked_div_nonzero by (apply plane_pixels_nonzero; assumption). simpl.
  rewrite checked_div_nonzero by (apply plane_pixels_nonzero; assumption). simpl.
  eexists. reflexivity.
Qed.

(** The threshold of a plane in terms of the statistics of the plane. *)
Lemma ZPlaneThreshold_spec (Image : ImageData) (base : R) (z : nat) :
  (0 < DimX Image)%nat -> (0 < DimY Image)%nat ->
  (forall v, In v (PlaneValues Image z) -> v <= DBL_MAX) ->
  DBL_MIN <= RangeMax (PlaneValues Image z) ->
  ZPlaneThreshold Image base z = Ok (AdjustedThreshold (PlaneValues Image z) base).
Proof.
  intros Hx Hy Hle Hmax. unfold ZPlaneThreshold.
  rewrite checked_div_nonzero by (apply plane_pixels_nonzero; assumption). simpl.
  rewrite checked_div_nonzero by (apply plane_pixels_nonzero; assumption). simpl.
  f_equal.
  set (vals := PlaneValues Image z) in *.
  assert (Hne : vals <> []).
  { intros E. apply (f_equal (@length R)) in E. unfold vals in E.
    rewrite PlaneValues_length in E. simpl in E. nia. }
  rewrite PlaneFirstPass_fold. fold vals.
  destruct (StatsBody_fold vals (mkPlaneStats 0 DBL_MAX DBL_MIN)) as (Hs & Hm & HM).
  simpl in Hs, Hm, HM. rewrite Hs, Hm, HM.
  rewrite (fold_left_Rmin_from_above vals DBL_MAX Hne Hle).
  rewrite (fold_left_Rmax_from_below vals DBL_MIN Hne Hmax).
  rewrite PlaneVarSum_Sum. fold vals.
  rewrite <- (PlaneValues_length Image z). fold vals.
  rewrite Rplus_0_l. fold (Mean vals). fold (StdDev vals).
  unfold PlaneThreshold, AdjustedThreshold, Rgtb, Rltb.
  replace (Mean vals + StdDev vals * base * 2)
    with (Mean vals + 2 * base * StdDev vals) by ring.
  destruct (Rlt_dec (RangeMax vals) (Mean vals + 2 * base * StdDev vals)).
  - replace (RangeMax vals * 0.8) with (0.8 * RangeMax vals) by ring.
    destruct (Rlt_dec (0.8 * RangeMax vals) (RangeMin vals)); [ring | reflexivity].
  - destruct (Rlt_dec (Mean vals + 2 * base * StdDev vals) (RangeMin vals));
      [ring | reflexivity].
Qed.

(** The loop over the planes: every plane is binarized with its own
    threshold, and no division fails. *)
Lemma ZPlaneLoop_spec (Image : ImageData) (base : R) (out0 : DataArray) :
  (0 < DimX Image)%nat -> (0 < DimY Image)%nat ->
  length out0 = GetNumberOfPoints Image ->
  exists out,
    for_up_checked (DimZ Image) (ZPlaneBody Image base) out0 = Ok out /\
    length out = GetNumberOfPoints Image /\
    forall z t, (z < DimZ Image)%nat ->
      ZPlaneThreshold Image base z = Ok t ->
      forall x y, (x < DimX Image)%nat -> (y < DimY Image)%nat ->
        GetTuple1 out (GetId x y z (Dim Image))
        = if Rleb (GetTuple1 (Scalars Image) (GetId x y z (Dim Image))) t
          then 0 else 255.
Proof.
  intros Hx Hy Hlen. unfold for_up_checked.
  apply (for_up_inv (fun (k : nat) (c : Checked DataArray) =>
           exists out,
             c = Ok out /\
             length out = GetNumberOfPoints Image /\
             forall z t, (z < k)%nat ->
               ZPlaneThreshold Image base z = Ok t ->
               forall x y, (x < DimX Image)%nat -> (y < DimY Image)%nat ->
                 GetTuple1 out (GetId x y z (Dim Image))
                 = if Rleb (GetTuple1 (Scalars Image) (GetId x y z (Dim Image))) t
                   then 0 else 255)).
  - exists out0. split; [reflexivity|]. split; [exact Hlen|]. intros z t Hz. lia.
  - intros k c Hk (out & -> & HL & Hdone). simpl. unfold ZPlaneBody.
    destruct (ZPlaneThreshold_ok Image base k Hx Hy) as (tk & Htk).
    rewrite Htk. simpl.
    destruct (PlaneApply_spec Image k tk out) as (HL' & Hin & Hout).
    exists (PlaneApply Image k tk out). split; [reflexivity|].
    split; [rewrite HL'; exact HL|].
    intros z t Hz Ht x y Hx' Hy'.
    destruct (Nat.eq_dec z k) as [-> | Hne].
    + rewrite Htk in Ht. injection Ht as <-.
      apply Hin; [exact Hx' | exact Hy' |].
      rewrite HL. unfold GetNumberOfPoints, DimX, DimY, DimZ in *.
      destruct (Dim Image) as [[dx dy] dz]. simpl in *.
      apply GetId_lt; assumption.
    + rewrite Hout; [apply (Hdone z t); [lia | exact Ht | exact Hx' | exact Hy']|].
      intros x' y' Hx'' Hy'' E.
      unfold DimX, DimY in *. destruct (Dim Image) as [[dx dy] dz]. simpl in *.
      apply GetId_inj in E; [|assumption..]. lia.
Qed.

Lemma PlaneValues_In (Image : ImageData) (z : nat) (v : R) :
  length (Scalars Image) = GetNumberOfPoints Image ->
  (z < DimZ Image)%nat ->
  In v (PlaneValues Image z) -> In v (Scalars Image).
Proof.
  intros Hlen Hz Hv. unfold PlaneValues in Hv. apply in_map_iff in Hv.
  destruct Hv as ([x y] & <- & Hp). apply in_plane_coordinates in Hp. simpl in Hp.
  apply GetTuple1_In. rewrite Hlen.
  unfold GetNumberOfPoints, DimX, DimY, DimZ in *.
  destruct (Dim Image) as [[dx dy] dz]. simpl in *.
  apply GetId_lt; lia.
Qed.

(** ** Claims on per-plane adaptive binarization *)

(** C5 (as the code has it).  Under the per-plane adaptive policy, on a
    grid of finite doubles with at least one voxel per plane, no division
    fails, and for every z-plane whose largest value is at least DBL_MIN
    the threshold used is mu + 2 base sigma (mu the plane mean, sigma the
    plane standard deviation), replaced by 0.8 max when it exceeds the plane
    maximum, then replaced by min + 0.1 range when it is below the plane
    minimum, and otherwise left as it is (it is not clamped into
    [min + 0.1 range, 0.8 max]); every voxel of the plane at or below this
    threshold becomes 0 and every voxel above it becomes 255. *)
Theorem C5_per_plane_threshold :
  forall (Image : ImageData) (base : R),
    (0 < DimX Image)%nat -> (0 < DimY Image)%nat ->
    length (Scalars Image) = GetNumberOfPoints Image ->
    (forall v, In v (Scalars Image) -> v <= DBL_MAX) ->
    exists out,
      BinarizeAndConvertDoubleToCharZAdaptive Image base = Ok out /\
      forall z, (z < DimZ Image)%nat ->
        DBL_MIN <= RangeMax (PlaneValues Image z) ->
        let threshold := AdjustedThreshold (PlaneValues Image z) base in
        ZPlaneThreshold Image base z = Ok threshold /\
        forall x y, (x < DimX Image)%nat -> (y < DimY Image)%nat ->
          let v := GetTuple1 (Scalars Image) (GetId x y z (Dim Image)) in
          let o := GetTuple1 (Scalars out) (GetId x y z (Dim Image)) in
          (v <= threshold -> o = 0) /\ (v > threshold -> o = 255).
Proof.
  intros Image base Hx Hy Hlen Hfin.
  unfold BinarizeAndConvertDoubleToCharZAdaptive.
  destruct (ZPlaneLoop_spec Image base (FillComponent (length (Scalars Image)) 0)
              Hx Hy) as (out & Hrun & HL & Hval).
  { rewrite FillComponent_length. exact Hlen. }
  rewrite Hrun. simpl. eexists. split; [reflexivity|]. simpl.
  intros z Hz Hmax.
  assert (Ht : ZPlaneThreshold Image base z
               = Ok (AdjustedThreshold (PlaneValues Image z) base)).
  { apply ZPlaneThreshold_spec; try assumption.
    intros v Hv. apply Hfin. apply (PlaneValues_In Image z v Hlen Hz Hv). }
  split; [exact Ht|].
  intros x y Hx' Hy'. rewrite (Hval z _ Hz Ht x y Hx' Hy'). split.
  - intros Hle. rewrite (proj2 (Rleb_true _ _) Hle). reflexivity.
  - intros Hgt. rewrite (proj2 (Rleb_false _ _)) by lra. reflexivity.
Qed.

(** Goals on the dimensions of a concrete image. *)
Ltac dims := unfold DimX, DimY, DimZ, GetNumberOfPoints; simpl; lia.

Lemma StripedImage_plane : PlaneValues StripedImage 0 = [1; 1; 9; 9].
Proof. reflexivity. Qed.

Lemma StripedImage_stats :
  Mean [1; 1; 9; 9] = 5 /\ StdDev [1; 1; 9; 9] = 4 /\
  RangeMin [1; 1; 9; 9] = 1 /\ RangeMax [1; 1; 9; 9] = 9.
Proof.
  assert (Hmean : Mean [1; 1; 9; 9] = 5) by (unfold Mean, Sum; simpl; lra).
  split; [exact Hmean|]. split.
  - unfold StdDev. rewrite Hmean. unfold Sum. simpl.
    apply sqrt_of_square; lra.
  - split.
    + simpl. unfold Rmin. repeat destruct (Rle_dec _ _); lra.
    + simpl. unfold Rmax. repeat destruct (Rle_dec _ _); lra.
Qed.

Lemma StripedImage_finite : forall v, In v (Scalars StripedImage) -> v <= DBL_MAX.
Proof.
  intros v Hv. pose proof DBL_MAX_ge_65536. simpl in Hv.
  destruct Hv as [<- | [<- | [<- | [<- | []]]]]; lra.
Qed.

Lemma StripedImage_threshold : AdjustedThreshold [1; 1; 9; 9] 0.5 = 9.
Proof.
  destruct StripedImage_stats as (Hmu & Hsd & Hmin & Hmax).
  unfold AdjustedThreshold. rewrite Hmu, Hsd, Hmin, Hmax.
  destruct (Rlt_dec 9 (5 + 2 * 0.5 * 4)); [lra|].
  destruct (Rlt_dec (5 + 2 * 0.5 * 4) 1); lra.
Qed.

(** C5, witness: the plane 1, 9, 1, 9 at base threshold 0.5. *)
Lemma C5_per_plane_threshold_witness :
  ((0 < DimX StripedImage)%nat /\ (0 < DimY StripedImage)%nat /\
   length (Scalars StripedImage) = GetNumberOfPoints StripedImage /\
   (forall v, In v (Scalars StripedImage) -> v <= DBL_MAX)) /\
  exists out,
    BinarizeAndConvertDoubleToCharZAdaptive StripedImage 0.5 = Ok out /\
    forall z, (z < DimZ StripedImage)%nat ->
      DBL_MIN <= RangeMax (PlaneValues StripedImage z) ->
      let threshold := AdjustedThreshold (PlaneValues StripedImage z) 0.5 in
      ZPlaneThreshold StripedImage 0.5 z = Ok threshold /\
      forall x y, (x < DimX StripedImage)%nat -> (y < DimY StripedImage)%nat ->
        let v := GetTuple1 (Scalars StripedImage) (GetId x y z (Dim StripedImage)) in
        let o := GetTuple1 (Scalars out) (GetId x y z (Dim StripedImage)) in
        (v <= threshold -> o = 0) /\ (v > threshold -> o = 255).
Proof.
  assert (Hx : (0 < DimX StripedImage)%nat) by dims.
  assert (Hy : (0 < DimY StripedImage)%nat) by dims.
  assert (Hl : length (Scalars StripedImage) = GetNumberOfPoints StripedImage)
    by reflexivity.
  split; [repeat split; try assumption; exact StripedImage_finite|].
  exact (C5_per_plane_threshold StripedImage 0.5 Hx Hy Hl StripedImage_finite).
Defined.

(** C5 as stated fails: on the plane 1, 9, 1, 9 with base threshold 0.5
    the threshold used is mu + 2 base sigma = 5 + 4 = 9, while the clamp
    into [min + 0.1 range, 0.8 max] = [1.8, 7.2] gives 7.2; the voxel of
    value 9 lies above 7.2 and still becomes 0. *)
Lemma C5_counterexample :
  ZPlaneThreshold StripedImage 0.5 0 = Ok 9 /\
  SpecClampedThreshold (PlaneValues StripedImage 0) 0.5 = 7.2 /\
  exists out,
    BinarizeAndConvertDoubleToCharZAdaptive StripedImage 0.5 = Ok out /\
    GetTuple1 (Scalars StripedImage) (GetId 1 0 0 (Dim StripedImage)) = 9 /\
    GetTuple1 (Scalars out) (GetId 1 0 0 (Dim StripedImage)) = 0.
Proof.
  assert (Hx : (0 < DimX StripedImage)%nat) by dims.
  assert (Hy : (0 < DimY StripedImage)%nat) by dims.
  destruct StripedImage_stats as (Hmu & Hsd & Hmin & Hmax).
  assert (Ht : ZPlaneThreshold StripedImage 0.5 0 = Ok 9).
  { rewrite <- StripedImage_threshold, <- StripedImage_plane.
    apply ZPlaneThreshold_spec; try assumption.
    - intros v Hv. apply StripedImage_finite.
      apply (PlaneValues_In StripedImage 0 v eq_refl); [dims | exact Hv].
    - rewrite StripedImage_plane, Hmax. pose proof DBL_MIN_le_1. lra. }
  split; [exact Ht|]. split.
  - rewrite StripedImage_plane. unfold SpecClampedThreshold.
    rewrite Hmu, Hsd, Hmin, Hmax.
    rewrite Rmin_left by lra. rewrite Rmax_right by lra. lra.
  - unfold BinarizeAndConvertDoubleToCharZAdaptive.
    destruct (ZPlaneLoop_spec StripedImage 0.5
                (FillComponent (length (Scalars StripedImage)) 0) Hx Hy eq_refl)
      as (out & Hrun & HL & Hval).
    rewrite Hrun. simpl bind. eexists. split; [reflexivity|].
    split; [reflexivity|].
    cbn [Scalars WithCharScalars].
    rewrite (Hval 0%nat 9 ltac:(dims) Ht 1%nat 0%nat ltac:(dims) ltac:(dims)).
    change (GetTuple1 (Scalars StripedImage) (GetId 1 0 0 (Dim StripedImage))) with 9.
    rewrite (proj2 (Rleb_true 9 9)) by lra. reflexivity.
Qed.

(** ** Length and volume of a skeleton *)

Lemma TwoPointSkeleton_EdgeLength (p q : Point3) (w : R) :
  EdgeLength (TwoPointSkeleton p q w) 0 = SegmentLength p q.
Proof.
  unfold EdgeLength, for_range, TwoPointSkeleton, GetCell, GetPoint, GetPointId.
  simpl. lra.
Qed.

(** The two accumulators on a two-point edge: the frustum sum, computed
    with the literal 3.141592, and the length. *)
Lemma TwoPointSkeleton_VolumeLoops (p q : Point3) (w : R) :
  VolumeLoops (TwoPointSkeleton p q w)
  = mkVolumeState (0 + 3.141592 / 3 * SegmentLength p q
                       * (0.5 * w * (0.5 * w) + 0.5 * w * (0.5 * w)
                          + 0.5 * w * (0.5 * w)))
                  (0 + SegmentLength p q).
Proof. reflexivity. Qed.

Lemma TwoPointSkeleton_frustum (p q : Point3) (w : R) :
  volume (VolumeLoops (TwoPointSkeleton p q w))
  = 3.141592 * SegmentLength p q * (w / 2) ^ 2.
Proof. rewrite TwoPointSkeleton_VolumeLoops. simpl volume. lra. Qed.

Lemma acos_minus_1 : acos (-1) = PI.
Proof.
  replace (-1) with (- (1)) by lra. rewrite acos_opp, acos_1. lra.
Qed.

(** ** Claims on attribute extraction *)

(** C6 (as the code has it).  On a single straight two-point skeleton edge
    of length L with constant width w, length estimation assigns Length = L
    to both points, and the volume routine emits exactly two attributes:
    "Total length (um)" = L and "Volume from length (um3)" = pi L rad^2,
    where rad is the configured tubule radius; the emitted volume does not
    depend on w. *)
Theorem C6_two_point_edge_attributes :
  forall (p q : Point3) (w rad : R) (attributes : list attribute),
    let Skeleton := TwoPointSkeleton p q w in
    let L := SegmentLength p q in
    GetArray (EstimateTubuleLength Skeleton) "Length" = [L; L] /\
    GetVolumeFromSkeletonLengthAndWidth Skeleton rad attributes
    = attributes ++ [("Total length (um)"%string, L);
                     ("Volume from length (um3)"%string, PI * L * rad ^ 2)].
Proof.
  intros p q w rad attributes. cbv zeta. split.
  - unfold EstimateTubuleLength, GetArray, AddArray. simpl.
    unfold LengthBody. rewrite TwoPointSkeleton_EdgeLength. reflexivity.
  - unfold GetVolumeFromSkeletonLengthAndWidth.
    rewrite TwoPointSkeleton_VolumeLoops. simpl total_length.
    rewrite acos_minus_1. rewrite <- app_assoc. simpl app.
    match goal with
    | |- _ ++ [(_, ?x1); (_, ?x2)] = _ ++ [(_, ?y1); (_, ?y2)] =>
        replace x2 with y2 by (simpl; ring);
        replace x1 with y1 by (simpl; ring)
    end.
    reflexivity.
Qed.

(** C6 as stated fails: on the edge from (0,0,0) to (1,0,0) with width 2
    and the default radius 0.15, L = 1 and pi L (w/2)^2 = pi, but neither
    emitted attribute has that value. *)
Lemma C6_counterexample :
  SegmentLength (0, 0, 0) (1, 0, 0) = 1 /\
  forall a : attribute,
    In a (GetVolumeFromSkeletonLengthAndWidth
            (TwoPointSkeleton (0, 0, 0) (1, 0, 0) 2) 0.15 []) ->
    snd a <> PI * 1 * (2 / 2) ^ 2.
Proof.
  assert (HL : SegmentLength (0, 0, 0) (1, 0, 0) = 1).
  { unfold SegmentLength. apply sqrt_of_square; lra. }
  split; [exact HL|].
  intros a Ha. unfold GetVolumeFromSkeletonLengthAndWidth in Ha.
  rewrite TwoPointSkeleton_VolumeLoops in Ha. cbn [total_length app In] in Ha.
  rewrite HL, acos_minus_1 in Ha.
  pose proof PI2_1 as Hpi.
  destruct Ha as [<- | [<- | []]]; cbn [snd]; lra.
Qed.

(** ** Fragment repair *)

(** The endpoints are points of degree 1. *)
Lemma FindEndpoints_degree (pd : PolyData) (p : nat) :
  In p (FindEndpoints pd) -> (p < length (Points pd))%nat /\ Degree pd p = 1%nat.
Proof.
  unfold FindEndpoints.
  assert (HP : Forall (fun p => (p < length (Points pd))%nat /\ Degree pd p = 1%nat)
                 (for_up (length (Points pd)) (fun pointId endpoints =>
                    if (Degree pd pointId =? 1)%nat
                    then endpoints ++ [pointId] else endpoints) [])).
  { apply (for_up_inv (fun (k : nat) (acc : list nat) =>
             Forall (fun p => (p < length (Points pd))%nat /\ Degree pd p = 1%nat) acc)).
    - constructor.
    - intros k acc Hk Hacc. destruct (Degree pd k =? 1)%nat eqn:E; [|exact Hacc].
      apply Forall_app. split; [exact Hacc|].
      constructor; [|constructor]. split; [exact Hk|].
      apply Nat.eqb_eq. exact E. }
  intros Hin. rewrite Forall_forall in HP. apply HP. exact Hin.
Qed.

Lemma ConnectionBody_keeps (pd : PolyData) (gap : R) (i j : nat)
      (acc : list (nat * nat)) :
  (i < length (FindEndpoints pd))%nat -> (j < length (FindEndpoints pd))%nat ->
  Forall (Connectable pd gap) acc ->
  Forall (Connectable pd gap) (ConnectionBody pd gap (FindEndpoints pd) i j acc).
Proof.
  intros Hi Hj Hacc. unfold ConnectionBody.
  destruct (Rleb _ gap) eqn:E1; [|exact Hacc].
  destruct (Rgtb _ 0.1) eqn:E2; [|exact Hacc]. simpl.
  apply Forall_app. split; [exact Hacc|]. constructor; [|constructor].
  unfold Connectable. simpl.
  split; [apply nth_In; exact Hi|]. split; [apply nth_In; exact Hj|].
  apply Rleb_true in E1. apply Rltb_true in E2. split; lra.
Qed.

Lemma ConnectionsToAdd_connectable (pd : PolyData) (gap : R) :
  Forall (Connectable pd gap) (ConnectionsToAdd pd gap).
Proof.
  unfold ConnectionsToAdd.
  apply (for_up_inv (fun (k : nat) (acc : list (nat * nat)) =>
           Forall (Connectable pd gap) acc)); [constructor|].
  intros i acc Hi Hacc. unfold for_range.
  set (n := length (FindEndpoints pd)) in *.
  assert (HP : (fun (k : nat) (a : list (nat * nat)) => Forall (Connectable pd gap) a)
                 ((i + 1) + (n - (i + 1)))%nat
                 (fold_left (fun a j => ConnectionBody pd gap (FindEndpoints pd) i j a)
                            (seq (i + 1) (n - (i + 1))) acc)).
  { apply (fold_seq_inv (fun (k : nat) (a : list (nat * nat)) =>
             Forall (Connectable pd gap) a)
             (ConnectionBody pd gap (FindEndpoints pd) i)); [exact Hacc|].
    intros j a Hj Ha. apply ConnectionBody_keeps; [exact Hi | unfold n in *; lia | exact Ha]. }
  exact HP.
Qed.

(** ** Claims on fragment repair *)

(** C10. In graph-level fragment repair, a connecting edge is added for a
    pair of points only if both are endpoints (points of degree 1) and
    their Euclidean distance is at most the gap distance and strictly
    greater than 0.1; the cells of the result are the old cells and one
    two-point line per such pair; in particular a pair of endpoints at
    distance 0.1 or less (coincident or nearly so) is never connected. *)
Theorem C10_connections_within_gap_and_above_lower_bound :
  forall (Skeleton : PolyData) (max_gap_distance : R),
    (forall p q, In (p, q) (ConnectionsToAdd Skeleton max_gap_distance) ->
       let d := EuclideanDistance (GetPoint Skeleton p) (GetPoint Skeleton q) in
       Degree Skeleton p = 1%nat /\ Degree Skeleton q = 1%nat /\
       d <= max_gap_distance /\ d > 0.1) /\
    (forall cell, In cell (Cells (ConnectSkeletonFragments Skeleton max_gap_distance)) ->
       In cell (Cells Skeleton) \/
       exists p q, cell = [p; q] /\
                   In (p, q) (ConnectionsToAdd Skeleton max_gap_distance)) /\
    (forall p q,
       EuclideanDistance (GetPoint Skeleton p) (GetPoint Skeleton q) <= 0.1 ->
       ~ In (p, q) (ConnectionsToAdd Skeleton max_gap_distance) /\
       (~ In [p; q] (Cells Skeleton) ->
        ~ In [p; q] (Cells (ConnectSkeletonFragments Skeleton max_gap_distance)))).
Proof.
  intros Skeleton gap.
  pose proof (ConnectionsToAdd_connectable Skeleton gap) as HF.
  rewrite Forall_forall in HF.
  assert (Hpair : forall p q, In (p, q) (ConnectionsToAdd Skeleton gap) ->
            Degree Skeleton p = 1%nat /\ Degree Skeleton q = 1%nat /\
            EuclideanDistance (GetPoint Skeleton p) (GetPoint Skeleton q) <= gap /\
            EuclideanDistance (GetPoint Skeleton p) (GetPoint Skeleton q) > 0.1).
  { intros p q Hin. destruct (HF _ Hin) as (Hp & Hq & Hle & Hgt). simpl in *.
    split; [apply FindEndpoints_degree; exact Hp|].
    split; [apply FindEndpoints_degree; exact Hq|]. split; assumption. }
  assert (Hcells : forall cell,
            In cell (Cells (ConnectSkeletonFragments Skeleton gap)) ->
            In cell (Cells Skeleton) \/
            exists p q, cell = [p; q] /\ In (p, q) (ConnectionsToAdd Skeleton gap)).
  { intros cell Hin. unfold ConnectSkeletonFragments in Hin. simpl in Hin.
    apply in_app_or in Hin. destruct Hin as [Hold | Hnew]; [left; exact Hold|].
    right. apply in_map_iff in Hnew. destruct Hnew as ([p q] & <- & Hc).
    exists p, q. split; [reflexivity | exact Hc]. }
  split; [exact Hpair|]. split; [exact Hcells|].
  intros p q Hnear.
  assert (Hno : ~ In (p, q) (ConnectionsToAdd Skeleton gap)).
  { intros Hin. destruct (Hpair p q Hin) as (_ & _ & _ & Hgt). lra. }
  split; [exact Hno|].
  intros Hold Hin. destruct (Hcells _ Hin) as [H | (p' & q' & E & Hc)];
    [contradiction|].
  injection E as -> ->. contradiction.
Qed.

Lemma UnitEdge_distance :
  EuclideanDistance (0, 0, 0) (1, 0, 0) = 1.
Proof. unfold EuclideanDistance. apply sqrt_of_square; lra. Qed.

Lemma UnitEdge_connections :
  ConnectionsToAdd (TwoPointSkeleton (0, 0, 0) (1, 0, 0) 2) 3 = [(0%nat, 1%nat)].
Proof.
  unfold ConnectionsToAdd.
  change (FindEndpoints (TwoPointSkeleton (0, 0, 0) (1, 0, 0) 2)) with [0%nat; 1%nat].
  unfold for_up, for_range. simpl. unfold ConnectionBody. simpl nth.
  change (GetPoint (TwoPointSkeleton (0, 0, 0) (1, 0, 0) 2) 0) with ((0, 0, 0) : Point3).
  change (GetPoint (TwoPointSkeleton (0, 0, 0) (1, 0, 0) 2) 1) with ((1, 0, 0) : Point3).
  rewrite UnitEdge_distance.
  rewrite (proj2 (Rleb_true 1 3)) by lra.
  unfold Rgtb. rewrite (proj2 (Rltb_true 0.1 1)) by lra.
  reflexivity.
Qed.

(** C10, witness: the two ends of a unit edge, gap distance 3; the pair is
    marked, and its distance 1 lies in (0.1, 3]. *)
Lemma C10_connections_witness :
  In (0%nat, 1%nat) (ConnectionsToAdd (TwoPointSkeleton (0, 0, 0) (1, 0, 0) 2) 3) /\
  (let d := EuclideanDistance
              (GetPoint (TwoPointSkeleton (0, 0, 0) (1, 0, 0) 2) 0)
              (GetPoint (TwoPointSkeleton (0, 0, 0) (1, 0, 0) 2) 1) in
   Degree (TwoPointSkeleton (0, 0, 0) (1, 0, 0) 2) 0 = 1%nat /\
   Degree (TwoPointSkeleton (0, 0, 0) (1, 0, 0) 2) 1 = 1%nat /\
   d <= 3 /\ d > 0.1).
Proof.
  assert (Hin : In (0%nat, 1%nat)
                   (ConnectionsToAdd (TwoPointSkeleton (0, 0, 0) (1, 0, 0) 2) 3)).
  { rewrite UnitEdge_connections. left. reflexivity. }
  split; [exact Hin|].
  exact (proj1 (C10_connections_within_gap_and_above_lower_bound
                  (TwoPointSkeleton (0, 0, 0) (1, 0, 0) 2) 3) 0%nat 1%nat Hin).
Defined.

(** ** Claims on unsupported bit depths *)

(** Whatever the volume, NULL is what normalization returns for a scalar
    type that is neither unsigned char nor unsigned short. *)
Lemma Convert16To8bit_unsupported (Image : ImageData) :
  GetScalarType Image <> VTK_UNSIGNED_CHAR ->
  GetScalarType Image <> VTK_UNSIGNED_SHORT ->
  Convert16To8bit Image = Ok None.
Proof.
  intros H8 H16. unfold Convert16To8bit.
  destruct (GetScalarType Image); congruence.
Qed.

(** C9, the code at a failing input.  For a volume whose scalar type is
    neither unsigned char nor unsigned short, run without z-adaptive
    normalization, [Convert16To8bit] returns NULL, and the first thing the
    orchestrator does with the result is to call [GetDimensions] through
    it (line 2226): the run ends in a dereference of the null pointer,
    before the test of line 2236 is reached.  That test would not stop the
    run either: executed on a NULL image from line 2236 on, the orchestrator
    prints the message and goes on to call [GetNumberOfPoints] through the
    pointer (line 2240).  On no image do these lines return a code, and on
    no image is the message printed in a run that starts at line 2226.
    [main] does not read what the orchestrator returns: a returned code is
    followed by [DumpResults] and [ExportConfigFile] all the same. *)
Theorem C9_unsupported_format_dereferences_null :
  forall (gentle : ImageData -> nat -> Checked (option ImageData))
         (mito : MitoObject) (Image : ImageData),
    _z_adaptive mito = false ->
    GetScalarType Image <> VTK_UNSIGNED_CHAR ->
    GetScalarType Image <> VTK_UNSIGNED_SHORT ->
    Convert16To8bit Image = Ok None /\
    MultiscaleVesselnessFlow gentle mito Image
    = Ok [NullDereference "GetDimensions"] /\
    Exec true (FromNullTest mito)
    = [Printf "Format not supported."; NullDereference "GetNumberOfPoints"] /\
    (forall null code,
        ~ In (Return code) (Exec null (OrchestratorTail mito)) /\
        ~ In (Return code) (Exec null (FromNullTest mito))) /\
    (forall null,
        ~ In (Printf "Format not supported.") (Exec null (OrchestratorTail mito))) /\
    MainPerFile [NullDereference "GetDimensions"] = [NullDereference "GetDimensions"] /\
    (forall code,
        MainPerFile [Return code]
        = [Return code; Stage "DumpResults"; Stage "ExportConfigFile"]).
Proof.
  intros gentle mito Image Hz H8 H16.
  pose proof (Convert16To8bit_unsupported Image H8 H16) as Hnull.
  split; [exact Hnull|]. split.
  { unfold MultiscaleVesselnessFlow, NormalizationStage. rewrite Hz, Hnull.
    reflexivity. }
  split; [reflexivity|]. split.
  - intros null code. destruct null; simpl; split; intros Hin;
      repeat (destruct Hin as [Hin | Hin]; [discriminate|]); exact Hin.
  - split; [|split; [reflexivity | intros code; reflexivity]].
    intros null. destruct null; simpl; intros Hin;
      repeat (destruct Hin as [Hin | Hin]; [discriminate|]); exact Hin.
Qed.

(** C9, witness: a one-voxel volume of 32-bit floats under the
    configuration [main] starts from. *)
Lemma C9_unsupported_format_witness :
  (_z_adaptive SampleMito = false /\
   GetScalarType FloatImage <> VTK_UNSIGNED_CHAR /\
   GetScalarType FloatImage <> VTK_UNSIGNED_SHORT) /\
  MultiscaleVesselnessFlow (fun _ _ => Ok None) SampleMito FloatImage
  = Ok [NullDereference "GetDimensions"].
Proof.
  assert (H8 : GetScalarType FloatImage <> VTK_UNSIGNED_CHAR) by discriminate.
  assert (H16 : GetScalarType FloatImage <> VTK_UNSIGNED_SHORT) by discriminate.
  split; [split; [reflexivity | split; assumption]|].
  exact (proj1 (proj2 (C9_unsupported_format_dereferences_null
                         (fun _ _ => Ok None) SampleMito FloatImage eq_refl H8 H16))).
Defined.

(** ** The guards of the per-block conservative policy *)

(** The threshold of a block never fails: the range is replaced by 1 when
    it is below 1e-6, and the coefficient of variation is only computed for
    a positive mean. *)
Lemma ConservativeThreshold_ok (g0 g1 base mu sd mn mx : R) :
  exists t, ConservativeThreshold g0 g1 base mu sd mn mx = Ok t.
Proof.
  unfold ConservativeThreshold.
  assert (Hrange : (if Rltb (mx - mn) 1e-6 then 1 else mx - mn) <> 0).
  { destruct (Rltb (mx - mn) 1e-6) eqn:E; [lra|]. apply Rltb_false in E. lra. }
  rewrite (checked_div_nonzero _ _ Hrange). cbn [bind].
  destruct (Rgtb mu 0) eqn:E.
  - apply Rltb_true in E. rewrite checked_div_nonzero by lra. cbn [bind].
    eexists. reflexivity.
  - cbn [bind]. eexists. reflexivity.
Qed.

Lemma BlockBody_ok (Image : ImageData) (base : R) (z_block_size z_start : nat)
      (out : DataArray) :
  (0 < DimX Image)%nat -> (0 < DimY Image)%nat -> (1 <= z_block_size)%nat ->
  (z_start < DimZ Image)%nat ->
  exists out', BlockBody Image base z_block_size z_start out = Ok out'.
Proof.
  intros Hx Hy Hb Hz. unfold BlockBody.
  set (z_end := if (z_start + z_block_size <? DimZ Image)%nat
                then (z_start + z_block_size)%nat else DimZ Image).
  assert (Hend : (z_start < z_end)%nat).
  { unfold z_end. destruct (z_start + z_block_size <? DimZ Image)%nat; lia. }
  assert (Hpix : INR (DimX Image * DimY Image * (z_end - z_start)) <> 0).
  { apply not_0_INR. nia. }
  rewrite (checked_div_nonzero _ _ Hpix). cbn [bind].
  rewrite (checked_div_nonzero _ _ Hpix). cbn [bind].
  match goal with
  | |- context [ConservativeThreshold ?a ?b ?c ?d ?e ?f ?g] =>
      destruct (ConservativeThreshold_ok a b c d e f g) as (t & ->)
  end.
  cbn [bind]. eexists. reflexivity.
Qed.

(** The per-block conservative policy ends and divides by no zero, on every
    grid with at least one voxel per plane and for every block size of at
    least 1. *)
Lemma BlockLoop_ok (Image : ImageData) (base : R) (z_block_size : nat) :
  (0 < DimX Image)%nat -> (0 < DimY Image)%nat -> (1 <= z_block_size)%nat ->
  forall (fuel z_start : nat) (out : DataArray),
    (DimZ Image <= z_start + fuel)%nat ->
    exists out', BlockLoop (S fuel) Image base z_block_size z_start out = Some (Ok out').
Proof.
  intros Hx Hy Hb. induction fuel as [|fuel IH]; intros z_start out Hfuel.
  - simpl. rewrite (proj2 (Nat.ltb_ge z_start (DimZ Image))) by lia.
    exists out. reflexivity.
  - change (BlockLoop (S (S fuel)) Image base z_block_size z_start out)
      with (if (z_start <? DimZ Image)%nat then
              match BlockBody Image base z_block_size z_start out with
              | Ok out1 => BlockLoop (S fuel) Image base z_block_size
                                     (z_start + z_block_size) out1
              | DivisionByZero => Some DivisionByZero
              end
            else Some (Ok out)).
    destruct (z_start <? DimZ Image)%nat eqn:E.
    + apply Nat.ltb_lt in E.
      destruct (BlockBody_ok Image base z_block_size z_start out Hx Hy Hb E)
        as (out1 & ->).
      apply IH. lia.
    + exists out. reflexivity.
Qed.

Lemma Conservative_never_divides_by_zero (Image : ImageData) (base : R)
      (z_block_size : nat) :
  (0 < DimX Image)%nat -> (0 < DimY Image)%nat -> (1 <= z_block_size)%nat ->
  exists out,
    BinarizeAndConvertDoubleToCharZAdaptiveConservative
      (S (DimZ Image)) Image base z_block_size = Some (Ok out).
Proof.
  intros Hx Hy Hb. unfold BinarizeAndConvertDoubleToCharZAdaptiveConservative.
  destruct (BlockLoop_ok Image base z_block_size Hx Hy Hb (DimZ Image) 0%nat
              (FillComponent (length (Scalars Image)) 0)) as (out & ->); [lia|].
  eexists. reflexivity.
Qed.

(** Neither does the per-plane policy. *)
Lemma ZAdaptive_never_divides_by_zero (Image : ImageData) (base : R) :
  (0 < DimX Image)%nat -> (0 < DimY Image)%nat ->
  length (Scalars Image) = GetNumberOfPoints Image ->
  exists out, BinarizeAndConvertDoubleToCharZAdaptive Image base = Ok out.
Proof.
  intros Hx Hy Hlen. unfold BinarizeAndConvertDoubleToCharZAdaptive.
  destruct (ZPlaneLoop_spec Image base (FillComponent (length (Scalars Image)) 0)
              Hx Hy) as (out & -> & _).
  { rewrite FillComponent_length. exact Hlen. }
  eexists. reflexivity.
Qed.

(** * Further properties of the code *)

(** ** Ids and coordinates *)

Lemma coordinates_of_GetId (dx dy dz x y z : nat) :
  (x < dx)%nat -> (y < dy)%nat ->
  GetX (GetId x y z (dx, dy, dz)) (dx, dy, dz) = x /\
  GetY (GetId x y z (dx, dy, dz)) (dx, dy, dz) = y /\
  GetZ (GetId x y z (dx, dy, dz)) (dx, dy, dz) = z.
Proof.
  intros Hx Hy. unfold GetX, GetY, GetZ, GetId.
  assert (Hb : (x + y * dx < dx * dy)%nat).
  { assert ((y + 1) * dx <= dy * dx)%nat by (apply Nat.mul_le_mono_r; lia). lia. }
  assert (Hdx : dx <> 0%nat) by lia.
  assert (Hp : (dx * dy)%nat <> 0%nat) by lia.
  rewrite <- !Nat.mul_assoc.
  split; [|split].
  - replace (x + y * dx + z * (dx * dy))%nat with (x + (y + z * dy) * dx)%nat by lia.
    rewrite Nat.Div0.mod_add. apply Nat.mod_small. exact Hx.
  - rewrite Nat.Div0.mod_add. rewrite (Nat.mod_small _ _ Hb).
    rewrite Nat.div_add by exact Hdx. rewrite (Nat.div_small _ _ Hx). reflexivity.
  - rewrite Nat.div_add by exact Hp. rewrite (Nat.div_small _ _ Hb). reflexivity.
Qed.

Lemma GetId_of_coordinates (dx dy dz id : nat) :
  (0 < dx)%nat -> (0 < dy)%nat ->
  GetId (GetX id (dx, dy, dz)) (GetY id (dx, dy, dz)) (GetZ id (dx, dy, dz))
        (dx, dy, dz) = id /\
  (GetX id (dx, dy, dz) < dx)%nat /\
  (GetY id (dx, dy, dz) < dy)%nat /\
  ((id < dx * dy * dz)%nat -> (GetZ id (dx, dy, dz) < dz)%nat).
Proof.
  intros Hx Hy. unfold GetX, GetY, GetZ, GetId.
  assert (Hdx : dx <> 0%nat) by lia.
  assert (Hp : (dx * dy)%nat <> 0%nat) by lia.
  pose proof (Nat.div_mod_eq id (dx * dy)) as E1.
  pose proof (Nat.div_mod_eq (id mod (dx * dy)) dx) as E2.
  assert (E3 : ((id mod (dx * dy)) mod dx = id mod dx)%nat).
  { rewrite (Nat.Div0.mod_mul_r id dx dy).
    rewrite (Nat.mul_comm dx ((id / dx) mod dy)).
    rewrite Nat.Div0.mod_add. apply Nat.Div0.mod_mod. }
  split; [|split; [|split]].
  - rewrite <- Nat.mul_assoc. rewrite E3 in E2. lia.
  - apply Nat.mod_upper_bound. exact Hdx.
  - apply Nat.Div0.div_lt_upper_bound.
    rewrite (Nat.mul_comm dx dy). rewrite Nat.mul_comm.
    apply Nat.mod_upper_bound. lia.
  - intros Hid. apply Nat.Div0.div_lt_upper_bound. lia.
Qed.

(** ** Ids and coordinates in 32-bit arithmetic *)

Open Scope Z_scope.

Lemma wrap_small (z : Z) : - 2 ^ 31 <= z < 2 ^ 31 -> Int32.wrap z = z.
Proof.
  intros Hz. unfold Int32.wrap. rewrite Z.mod_small; lia.
Qed.

Lemma Int32_GetId_exact (dx dy dz x y z : Z) :
  0 <= x < dx -> 0 <= y < dy -> 0 <= z < dz ->
  dx * dy * dz <= 2 ^ 31 ->
  Int32.GetId x y z (dx, dy, dz) = x + y * dx + z * dx * dy /\
  0 <= x + y * dx + z * dx * dy < dx * dy * dz.
Proof.
  intros Hx Hy Hz Hb.
  assert (H1 : 0 <= y * dx <= (dy - 1) * dx) by nia.
  assert (H2 : 0 <= z * dx <= (dz - 1) * dx) by nia.
  assert (H3 : 0 <= z * dx * dy <= (dz - 1) * dx * dy) by nia.
  assert (H4 : dx * dy <= dx * dy * dz) by nia.
  assert (H5 : dx <= dx * dy) by nia.
  assert (H6 : (dz - 1) * dx <= dx * dy * dz) by nia.
  split; [|nia].
  unfold Int32.GetId, Int32.add, Int32.mul.
  rewrite (wrap_small (y * dx)) by nia.
  rewrite (wrap_small (x + y * dx)) by nia.
  rewrite (wrap_small (z * dx)) by nia.
  rewrite (wrap_small (z * dx * dy)) by nia.
  apply wrap_small. nia.
Qed.

Lemma Int32_coordinates_exact (dx dy dz id : Z) :
  0 < dx -> 0 < dy -> 0 <= id < dx * dy * dz ->
  dx * dy * dz <= 2 ^ 31 -> dx * dy < 2 ^ 31 ->
  Int32.GetX id (dx, dy, dz) = id mod dx /\
  Int32.GetY id (dx, dy, dz) = (id mod (dx * dy)) / dx /\
  Int32.GetZ id (dx, dy, dz) = id / (dx * dy).
Proof.
  intros Hdx Hdy Hid Hb Hp.
  assert (Hpp : 0 < dx * dy) by nia.
  unfold Int32.GetX, Int32.GetY, Int32.GetZ, Int32.mul.
  rewrite (wrap_small (dx * dy)) by lia.
  rewrite !Z.rem_mod_nonneg by lia.
  pose proof (Z.mod_pos_bound id dx Hdx) as Bx.
  pose proof (Z.mod_pos_bound id (dx * dy) Hpp) as Bp.
  rewrite !Z.quot_div_nonneg by lia.
  assert (By : 0 <= (id mod (dx * dy)) / dx < dy).
  { split; [apply Z.div_pos; lia|]. apply Z.div_lt_upper_bound; lia. }
  assert (Bz : 0 <= id / (dx * dy) <= id).
  { split; [apply Z.div_pos; lia|]. apply Z.div_le_upper_bound; nia. }
  rewrite !wrap_small by nia. auto.
Qed.

Lemma Z_coordinates_of_id (dx dy x y z : Z) :
  0 <= x < dx -> 0 <= y < dy -> 0 <= z ->
  let id := x + y * dx + z * dx * dy in
  id mod dx = x /\ (id mod (dx * dy)) / dx = y /\ id / (dx * dy) = z.
Proof.
  intros Hx Hy Hz id. unfold id.
  assert (Hb : 0 <= x + y * dx < dx * dy) by nia.
  split; [|split].
  - replace (x + y * dx + z * dx * dy) with (x + (y + z * dy) * dx) by ring.
    rewrite Z.mod_add by lia. apply Z.mod_small. exact Hx.
  - replace (x + y * dx + z * dx * dy) with (x + y * dx + z * (dx * dy)) by ring.
    rewrite Z.mod_add by nia. rewrite Z.mod_small by exact Hb.
    rewrite Z.div_add by lia. rewrite Z.div_small by exact Hx. lia.
  - replace (x + y * dx + z * dx * dy) with (x + y * dx + z * (dx * dy)) by ring.
    rewrite Z.div_add by nia. rewrite Z.div_small by exact Hb. lia.
Qed.

Lemma Z_id_of_coordinates (dx dy id : Z) :
  0 < dx -> 0 < dy -> 0 <= id ->
  id mod dx + (id mod (dx * dy)) / dx * dx + id / (dx * dy) * dx * dy = id.
Proof.
  intros Hdx Hdy Hid.
  pose proof (Z.div_mod id (dx * dy) ltac:(nia)) as E1.
  pose proof (Z.div_mod (id mod (dx * dy)) dx ltac:(lia)) as E2.
  assert (E3 : (id mod (dx * dy)) mod dx = id mod dx).
  { rewrite (Z.mod_eq id (dx * dy)) by nia.
    replace (id - dx * dy * (id / (dx * dy)))
      with (id + (- (dy * (id / (dx * dy)))) * dx) by ring.
    apply Z.mod_add. lia. }
  rewrite E3 in E2. nia.
Qed.

Close Scope Z_scope.

(** X1. In the 32-bit arithmetic of the code: on a grid of at most 2^31
    points whose planes hold fewer than 2^31, the id of a voxel is
    x + y*Dim[0] + z*Dim[0]*Dim[1] without overflow, it is below the number
    of points, GetX, GetY and GetZ give back the coordinates, and the id is
    the index [GetId] that addresses the arrays.  Beyond that size the sum
    leaves the range of [int]: on a 2048 x 2048 x 513 grid the voxel
    (0, 0, 512) gets the id -2^31. *)
Theorem X1_coordinates_of_GetId :
  (forall (dx dy dz x y z : Z),
     (0 <= x < dx)%Z -> (0 <= y < dy)%Z -> (0 <= z < dz)%Z ->
     (dx * dy * dz <= 2 ^ 31)%Z -> (dx * dy < 2 ^ 31)%Z ->
     let dim := (dx, dy, dz) in
     let id := Int32.GetId x y z dim in
     id = (x + y * dx + z * dx * dy)%Z /\
     (0 <= id < dx * dy * dz)%Z /\
     Int32.GetX id dim = x /\
     Int32.GetY id dim = y /\
     Int32.GetZ id dim = z) /\
  (forall (dx dy dz x y z : nat),
     (x < dx)%nat -> (y < dy)%nat -> (z < dz)%nat ->
     (Z.of_nat (dx * dy * dz) <= 2 ^ 31)%Z ->
     Int32.GetId (Z.of_nat x) (Z.of_nat y) (Z.of_nat z)
                 (Z.of_nat dx, Z.of_nat dy, Z.of_nat dz)
     = Z.of_nat (GetId x y z (dx, dy, dz))) /\
  Int32.GetId 0 0 512 (2048, 2048, 513)%Z = (- 2 ^ 31)%Z.
Proof.
  split; [|split].
  - intros dx dy dz x y z Hx Hy Hz Hb Hp dim id.
    destruct (Int32_GetId_exact dx dy dz x y z Hx Hy Hz Hb) as [E B].
    unfold id, dim. rewrite E. split; [reflexivity|]. split; [exact B|].
    destruct (Int32_coordinates_exact dx dy dz (x + y * dx + z * dx * dy)
                ltac:(lia) ltac:(lia) B Hb Hp) as (EX & EY & EZ).
    rewrite EX, EY, EZ.
    apply Z_coordinates_of_id; lia.
  - intros dx dy dz x y z Hx Hy Hz Hb.
    destruct (Int32_GetId_exact (Z.of_nat dx) (Z.of_nat dy) (Z.of_nat dz)
                (Z.of_nat x) (Z.of_nat y) (Z.of_nat z)) as [E _]; try lia.
    rewrite E. unfold GetId. lia.
  - vm_compute. reflexivity.
Qed.

(** X1, witness: the voxel (1, 2, 3) of a 4 x 5 x 6 grid has the id 69. *)
Lemma X1_coordinates_witness :
  ((0 <= 1 < 4)%Z /\ (0 <= 2 < 5)%Z /\ (0 <= 3 < 6)%Z /\
   (4 * 5 * 6 <= 2 ^ 31)%Z /\ (4 * 5 < 2 ^ 31)%Z) /\
  (Int32.GetId 1 2 3 (4, 5, 6)%Z = 69%Z /\
   Int32.GetX 69 (4, 5, 6)%Z = 1%Z /\
   Int32.GetY 69 (4, 5, 6)%Z = 2%Z /\
   Int32.GetZ 69 (4, 5, 6)%Z = 3%Z).
Proof.
  split; [lia|].
  pose proof (proj1 X1_coordinates_of_GetId 4 5 6 1 2 3
                ltac:(lia) ltac:(lia) ltac:(lia) ltac:(lia) ltac:(lia))%Z as H.
  cbv zeta in H. destruct H as (E & _ & EX & EY & EZ).
  change (1 + 2 * 4 + 3 * 4 * 5)%Z with 69%Z in E. rewrite E in EX, EY, EZ.
  split; [exact E|]. split; [exact EX|]. split; [exact EY | exact EZ].
Defined.

(** X2. Conversely, in the 32-bit arithmetic of the code and on a grid of
    at most 2^31 points whose planes hold fewer than 2^31: the coordinates
    of an id of the grid lie within the grid, the id of these coordinates
    is the id again, and they are the coordinates [GetX], [GetY], [GetZ]
    that address the arrays. *)
Theorem X2_GetId_of_coordinates :
  (forall (dx dy dz id : Z),
     (0 < dx)%Z -> (0 < dy)%Z -> (0 <= id < dx * dy * dz)%Z ->
     (dx * dy * dz <= 2 ^ 31)%Z -> (dx * dy < 2 ^ 31)%Z ->
     let dim := (dx, dy, dz) in
     Int32.GetId (Int32.GetX id dim) (Int32.GetY id dim) (Int32.GetZ id dim) dim = id /\
     (0 <= Int32.GetX id dim < dx)%Z /\
     (0 <= Int32.GetY id dim < dy)%Z /\
     (0 <= Int32.GetZ id dim < dz)%Z) /\
  (forall (dx dy dz id : nat),
     (0 < dx)%nat -> (0 < dy)%nat -> (id < dx * dy * dz)%nat ->
     (Z.of_nat (dx * dy * dz) <= 2 ^ 31)%Z -> (Z.of_nat (dx * dy) < 2 ^ 31)%Z ->
     let dim := (Z.of_nat dx, Z.of_nat dy, Z.of_nat dz) in
     Int32.GetX (Z.of_nat id) dim = Z.of_nat (GetX id (dx, dy, dz)) /\
     Int32.GetY (Z.of_nat id) dim = Z.of_nat (GetY id (dx, dy, dz)) /\
     Int32.GetZ (Z.of_nat id) dim = Z.of_nat (GetZ id (dx, dy, dz))).
Proof.
  split.
  - intros dx dy dz id Hdx Hdy Hid Hb Hp dim. unfold dim.
    destruct (Int32_coordinates_exact dx dy dz id Hdx Hdy Hid Hb Hp) as (EX & EY & EZ).
    rewrite EX, EY, EZ.
    assert (Hpp : (0 < dx * dy)%Z) by nia.
    pose proof (Z.mod_pos_bound id dx Hdx) as Bx.
    pose proof (Z.mod_pos_bound id (dx * dy) Hpp) as Bp.
    assert (By : (0 <= (id mod (dx * dy)) / dx < dy)%Z).
    { split; [apply Z.div_pos; lia|]. apply Z.div_lt_upper_bound; lia. }
    assert (Bz : (0 <= id / (dx * dy) < dz)%Z).
    { split; [apply Z.div_pos; lia|]. apply Z.div_lt_upper_bound; lia. }
    split; [|auto].
    destruct (Int32_GetId_exact dx dy dz (id mod dx) ((id mod (dx * dy)) / dx)
                (id / (dx * dy)) Bx By Bz Hb) as [E _].
    rewrite E. apply Z_id_of_coordinates; lia.
  - intros dx dy dz id Hdx Hdy Hid Hb Hp dim. unfold dim.
    destruct (Int32_coordinates_exact (Z.of_nat dx) (Z.of_nat dy) (Z.of_nat dz)
                (Z.of_nat id)) as (EX & EY & EZ); try lia.
    rewrite EX, EY, EZ. unfold GetX, GetY, GetZ.
    split; [|split].
    + rewrite Nat2Z.inj_mod. reflexivity.
    + rewrite Nat2Z.inj_div, Nat2Z.inj_mod, Nat2Z.inj_mul. reflexivity.
    + rewrite Nat2Z.inj_div, Nat2Z.inj_mul. reflexivity.
Qed.

(** X2, witness: id 57 of a 4 x 5 x 6 grid is the voxel (1, 4, 2). *)
Lemma X2_GetId_witness :
  ((0 < 4)%Z /\ (0 < 5)%Z /\ (0 <= 57 < 4 * 5 * 6)%Z /\
   (4 * 5 * 6 <= 2 ^ 31)%Z /\ (4 * 5 < 2 ^ 31)%Z) /\
  Int32.GetId (Int32.GetX 57 (4, 5, 6)%Z) (Int32.GetY 57 (4, 5, 6)%Z)
              (Int32.GetZ 57 (4, 5, 6)%Z) (4, 5, 6)%Z = 57%Z.
Proof.
  split; [lia|].
  exact (proj1 (proj1 X2_GetId_of_coordinates 4 5 6 57
                  ltac:(lia) ltac:(lia) ltac:(lia) ltac:(lia) ltac:(lia))%Z).
Defined.

(** ** Swapped halves *)

Lemma Int32_HalfUp_even (k : Z) : Int32.HalfUp (2 * k) = k.
Proof.
  unfold Int32.HalfUp. replace (2 * k + 1)%Z with (1 + k * 2)%Z by ring.
  rewrite Z.div_add by lia. reflexivity.
Qed.

Lemma Int32_HalfUp_odd (k : Z) : Int32.HalfUp (2 * k + 1) = (k + 1)%Z.
Proof.
  unfold Int32.HalfUp. replace (2 * k + 1 + 1)%Z with ((k + 1) * 2)%Z by ring.
  apply Z.div_mul. lia.
Qed.

(** On an axis of even length the coordinate moves by half the length, up
    in the lower half and down in the upper one. *)
Lemma Int32_ReflectCoordinate_even (k x : Z) :
  (0 <= x < 2 * k)%Z -> (2 * k <= 2 ^ 31)%Z ->
  Int32.ReflectCoordinate x (2 * k) = (if (x <? k)%Z then x + k else x - k)%Z /\
  (0 <= Int32.ReflectCoordinate x (2 * k) < 2 * k)%Z /\
  Int32.ReflectCoordinate (Int32.ReflectCoordinate x (2 * k)) (2 * k) = x.
Proof.
  intros Hx Hk.
  assert (Hstep : forall x', (0 <= x' < 2 * k)%Z ->
            Int32.ReflectCoordinate x' (2 * k)
            = (if (x' <? k)%Z then x' + k else x' - k)%Z).
  { intros x' Hx'. unfold Int32.ReflectCoordinate, Int32.sub.
    rewrite Int32_HalfUp_even.
    destruct (x' <? k)%Z eqn:E.
    - apply Z.ltb_lt in E. rewrite (wrap_small (- k)) by lia.
      rewrite wrap_small by lia. lia.
    - apply Z.ltb_ge in E. rewrite (wrap_small (2 * k - k)) by lia.
      rewrite wrap_small by lia. lia. }
  rewrite (Hstep x Hx). split; [reflexivity|].
  destruct (x <? k)%Z eqn:E.
  - apply Z.ltb_lt in E. split; [lia|].
    rewrite Hstep by lia. rewrite (proj2 (Z.ltb_ge (x + k) k)) by lia. lia.
  - apply Z.ltb_ge in E. split; [lia|].
    rewrite Hstep by lia. rewrite (proj2 (Z.ltb_lt (x - k) k)) by lia. lia.
Qed.

(** X3. In the 32-bit arithmetic of the code, on a grid of at most 2^31
    points whose three dimensions are even, [GetReflectedId] swaps the two
    halves along every axis: the id it returns belongs to the grid, and
    reflecting the coordinates of that id gives back the id of the voxel.
    On an axis of odd length 2k+1 the coordinate k is sent to 2k+1, outside
    the grid.  Beyond 2^31 points the id leaves the range of [int]: on a
    2048 x 2048 x 514 grid the voxel (0, 0, 256) is sent to a negative
    id. *)
Theorem X3_GetReflectedId_swaps_halves :
  (forall (kx ky kz x y z : Z),
     let dim := (2 * kx, 2 * ky, 2 * kz)%Z in
     (0 <= x < 2 * kx)%Z -> (0 <= y < 2 * ky)%Z -> (0 <= z < 2 * kz)%Z ->
     ((2 * kx) * (2 * ky) * (2 * kz) <= 2 ^ 31)%Z ->
     ((2 * kx) * (2 * ky) < 2 ^ 31)%Z ->
     let id' := Int32.GetReflectedId x y z dim in
     (0 <= id' < (2 * kx) * (2 * ky) * (2 * kz))%Z /\
     Int32.GetReflectedId (Int32.GetX id' dim) (Int32.GetY id' dim)
                          (Int32.GetZ id' dim) dim
     = Int32.GetId x y z dim) /\
  (forall (k : Z),
     (0 <= k)%Z -> (2 * k + 1 < 2 ^ 31)%Z ->
     Int32.ReflectCoordinate k (2 * k + 1) = (2 * k + 1)%Z /\
     forall (dy dz y z : Z),
       Int32.GetReflectedId k y z (2 * k + 1, dy, dz)%Z
       = Int32.GetId (2 * k + 1) (Int32.ReflectCoordinate y dy)
                     (Int32.ReflectCoordinate z dz) (2 * k + 1, dy, dz)%Z) /\
  (Int32.GetReflectedId 0 0 256 (2048, 2048, 514)%Z < 0)%Z.
Proof.
  split; [|split].
  - intros kx ky kz x y z dim Hx Hy Hz Hb Hp id'.
    assert (Hxy : (2 * kx <= (2 * kx) * (2 * ky) /\ 2 * ky <= (2 * kx) * (2 * ky))%Z)
      by nia.
    assert (Hxyz : ((2 * kx) * (2 * ky) <= (2 * kx) * (2 * ky) * (2 * kz) /\
                    2 * kz <= (2 * kx) * (2 * ky) * (2 * kz))%Z) by nia.
    assert (Hkx : (2 * kx <= 2 ^ 31)%Z) by lia.
    assert (Hky : (2 * ky <= 2 ^ 31)%Z) by lia.
    assert (Hkz : (2 * kz <= 2 ^ 31)%Z) by lia.
    destruct (Int32_ReflectCoordinate_even kx x Hx Hkx) as (_ & Bx & Ix).
    destruct (Int32_ReflectCoordinate_even ky y Hy Hky) as (_ & By & Iy).
    destruct (Int32_ReflectCoordinate_even kz z Hz Hkz) as (_ & Bz & Iz).
    unfold id', dim, Int32.GetReflectedId.
    set (x' := Int32.ReflectCoordinate x (2 * kx)) in *.
    set (y' := Int32.ReflectCoordinate y (2 * ky)) in *.
    set (z' := Int32.ReflectCoordinate z (2 * kz)) in *.
    destruct (Int32_GetId_exact (2 * kx) (2 * ky) (2 * kz) x' y' z' Bx By Bz Hb)
      as [E B].
    split; [rewrite E; exact B|].
    rewrite E.
    destruct (Int32_coordinates_exact (2 * kx) (2 * ky) (2 * kz)
                (x' + y' * (2 * kx) + z' * (2 * kx) * (2 * ky))
                ltac:(lia) ltac:(lia) B Hb Hp) as (EX & EY & EZ).
    destruct (Z_coordinates_of_id (2 * kx) (2 * ky) x' y' z' Bx By ltac:(lia))
      as (CX & CY & CZ).
    rewrite EX, EY, EZ, CX, CY, CZ, Ix, Iy, Iz.
    reflexivity.
  - intros k Hk Hb.
    assert (E : Int32.ReflectCoordinate k (2 * k + 1) = (2 * k + 1)%Z).
    { unfold Int32.ReflectCoordinate, Int32.sub. rewrite Int32_HalfUp_odd.
      rewrite (proj2 (Z.ltb_lt k (k + 1))) by lia.
      rewrite (wrap_small (- (k + 1))) by lia. rewrite wrap_small by lia. lia. }
    split; [exact E|].
    intros dy dz y z. unfold Int32.GetReflectedId. rewrite E. reflexivity.
  - vm_compute. reflexivity.
Qed.

(** X3, witness: the voxel (0, 1, 3) of a 2 x 4 x 6 grid goes to (1, 3, 0),
    whose id is 7, and back. *)
Lemma X3_GetReflectedId_witness :
  ((0 <= 0 < 2 * 1)%Z /\ (0 <= 1 < 2 * 2)%Z /\ (0 <= 3 < 2 * 3)%Z /\
   ((2 * 1) * (2 * 2) * (2 * 3) <= 2 ^ 31)%Z /\ ((2 * 1) * (2 * 2) < 2 ^ 31)%Z) /\
  (let dim := (2 * 1, 2 * 2, 2 * 3)%Z in
   let id' := Int32.GetReflectedId 0 1 3 dim in
   (0 <= id' < (2 * 1) * (2 * 2) * (2 * 3))%Z /\
   Int32.GetReflectedId (Int32.GetX id' dim) (Int32.GetY id' dim)
                        (Int32.GetZ id' dim) dim
   = Int32.GetId 0 1 3 dim).
Proof.
  split; [lia|].
  apply (proj1 X3_GetReflectedId_swaps_halves 1 2 3 0 1 3)%Z; lia.
Defined.

(** ** The eigenvalue sort *)

(** X4. [Sort] only reorders: the three values it returns are the three
    values it was given; and sorting a sorted triple changes nothing. *)
Theorem X4_Sort_permutes_and_is_idempotent :
  forall t : Triple,
    Permutation (TripleList (Sort t)) (TripleList t) /\
    Sort (Sort t) = Sort t.
Proof.
  intros [[l1 l2] l3]. split.
  - unfold Sort, Rgtb, Rltb, TripleList.
    repeat match goal with
           | |- context [Rlt_dec ?a ?b] => destruct (Rlt_dec a b); simpl
           end;
      try apply Permutation_refl;
      try (apply perm_swap);
      try (apply perm_skip; apply perm_swap);
      try (eapply perm_trans; [apply perm_swap | apply perm_skip; apply perm_swap]);
      try (eapply perm_trans; [apply perm_skip; apply perm_swap | apply perm_swap]);
      try (eapply perm_trans;
           [apply perm_swap
           | eapply perm_trans; [apply perm_skip; apply perm_swap | apply perm_swap]]).
  - unfold Sort, Rgtb, Rltb.
    repeat match goal with
           | |- context [Rlt_dec ?a ?b] => destruct (Rlt_dec a b); simpl
           end;
      try reflexivity; exfalso; lra.
Qed.

(** ** The Frobenius norm *)

Lemma FrobeniusNorm_sum (M : Mat3) : FrobeniusNorm M = sqrt (SumOfSquares M).
Proof. unfold FrobeniusNorm, SumOfSquares. simpl. f_equal. ring. Qed.

Lemma SumOfSquares_bounds (M : Mat3) (i j : nat) :
  (i < 3)%nat -> (j < 3)%nat -> 0 <= M i j * M i j <= SumOfSquares M.
Proof.
  intros Hi Hj. unfold SumOfSquares.
  pose proof (Rle_0_sqr (M 0%nat 0%nat)) as H00.
  pose proof (Rle_0_sqr (M 0%nat 1%nat)) as H01.
  pose proof (Rle_0_sqr (M 0%nat 2%nat)) as H02.
  pose proof (Rle_0_sqr (M 1%nat 0%nat)) as H10.
  pose proof (Rle_0_sqr (M 1%nat 1%nat)) as H11.
  pose proof (Rle_0_sqr (M 1%nat 2%nat)) as H12.
  pose proof (Rle_0_sqr (M 2%nat 0%nat)) as H20.
  pose proof (Rle_0_sqr (M 2%nat 1%nat)) as H21.
  pose proof (Rle_0_sqr (M 2%nat 2%nat)) as H22.
  unfold Rsqr in *.
  destruct i as [|[|[|i]]]; [| | |lia];
    (destruct j as [|[|[|j]]]; [| | |lia]); lra.
Qed.

Lemma FrobeniusNorm_zero (M : Mat3) :
  FrobeniusNorm M = 0 ->
  forall i j, (i < 3)%nat -> (j < 3)%nat -> M i j = 0.
Proof.
  rewrite FrobeniusNorm_sum. intros H0 i j Hi Hj.
  destruct (SumOfSquares_bounds M 0 0) as [Ha0 Hb0]; [lia | lia |].
  apply sqrt_eq_0 in H0; [|lra].
  destruct (SumOfSquares_bounds M i j Hi Hj) as [Ha Hb].
  assert (Hsq : M i j * M i j = 0) by lra.
  apply Rmult_integral in Hsq. tauto.
Qed.

(** X5. The Frobenius norm is never negative, bounds the absolute value of
    each of the nine entries, and is 0 only for the zero matrix. *)
Theorem X5_FrobeniusNorm_bounds_entries :
  forall M : Mat3,
    0 <= FrobeniusNorm M /\
    (forall i j, (i < 3)%nat -> (j < 3)%nat -> Rabs (M i j) <= FrobeniusNorm M) /\
    (FrobeniusNorm M = 0 <->
     forall i j, (i < 3)%nat -> (j < 3)%nat -> M i j = 0).
Proof.
  intros M. rewrite FrobeniusNorm_sum.
  assert (HS : 0 <= SumOfSquares M).
  { destruct (SumOfSquares_bounds M 0 0) as [H0 H1]; [lia | lia | lra]. }
  split; [apply sqrt_pos|]. split.
  - intros i j Hi Hj. rewrite <- sqrt_Rsqr_abs. apply sqrt_le_1.
    + apply Rle_0_sqr.
    + exact HS.
    + unfold Rsqr. apply SumOfSquares_bounds; assumption.
  - split.
    + intros H0. apply FrobeniusNorm_zero. rewrite FrobeniusNorm_sum. exact H0.
    + intros Hz. unfold SumOfSquares. rewrite !Hz by lia.
      replace (0 * 0 + 0 * 0 + 0 * 0 + 0 * 0 + 0 * 0 + 0 * 0 + 0 * 0 + 0 * 0 + 0 * 0)
        with 0 by ring.
      apply sqrt_0.
Qed.

(** ** The global Hessian estimator, voxel by voxel *)

(** Where [Fro] is not below the floor, the zeroing loop leaves the triple. *)
Lemma FloorLoop_keeps (ftresh : R) (N : nat) (st : EigenState) (id : nat) :
  ~ GetTuple1 (Fro st) id < ftresh ->
  EigenTripleAt (for_down N (FloorBody ftresh) st) id = EigenTripleAt st id.
Proof.
  intros Hge.
  set (out := for_down N (FloorBody ftresh) st).
  assert (HP : Fro out = Fro st /\ EigenTripleAt out id = EigenTripleAt st id).
  { apply (for_down_inv (fun (k : nat) (s : EigenState) =>
             Fro s = Fro st /\ EigenTripleAt s id = EigenTripleAt st id));
      [split; reflexivity|].
    intros k s Hk (HF & HT). unfold FloorBody.
    destruct (Rltb (GetTuple1 (Fro s) k) ftresh) eqn:E; [|split; assumption].
    unfold ZeroTriple, EigenTripleAt in *. simpl. split; [exact HF|].
    destruct (Nat.eq_dec k id) as [-> | Hne].
    - rewrite HF in E. apply Rltb_true in E. contradiction.
    - rewrite !GetTuple1_SetTuple1_neq by exact Hne. exact HT. }
  apply HP.
Qed.

(** The triple the global estimator stores at a voxel. *)
Lemma HessianEigenLoops_at (diag : Mat3 -> Triple) (N : nat) (D : HessianField)
      (l1 l2 l3 : DataArray) (id : nat) :
  length l1 = N -> length l2 = N -> length l3 = N -> (id < N)%nat ->
  EigenTripleAt (HessianEigenLoops diag N D l1 l2 l3) id
  = if Rltb (StoredNorm diag N D l1 l2 l3 id) (HessianNoiseFloor diag N D l1 l2 l3)
    then (0, 0, 0)
    else VoxelEigenvalues diag (HessianAt D id).
Proof.
  intros H1 H2 H3 Hid. unfold HessianEigenLoops, HessianNoiseFloor, StoredNorm.
  destruct (EigenPass_triples diag N D l1 l2 l3 H1 H2 H3) as [_ Htri].
  destruct (Rltb _ _) eqn:E.
  - apply Rltb_true in E. apply FloorLoop_zeroes; [exact Hid | exact E].
  - apply Rltb_false in E. rewrite FloorLoop_keeps.
    + apply Htri. exact Hid.
    + lra.
Qed.

Lemma VoxelEigenvalues_zero_matrix (diag : Mat3 -> Triple) (H : Mat3) :
  FrobeniusNorm H = 0 -> VoxelEigenvalues diag H = (0, 0, 0).
Proof.
  intros H0. unfold VoxelEigenvalues.
  rewrite !(FrobeniusNorm_zero H H0) by lia.
  rewrite (proj2 (Rltb_false (0 + 0 + 0) 0)) by lra. reflexivity.
Qed.

(** The norm [Fro] holds for a voxel: the Frobenius norm in single
    precision, never negative. *)
Lemma StoredNorm_spec (diag : Mat3 -> Triple) (N : nat) (D : HessianField)
      (l1 l2 l3 : DataArray) (id : nat) :
  (id < N)%nat ->
  StoredNorm diag N D l1 l2 l3 id = ToFloat (FrobeniusNorm (HessianAt D id)) /\
  0 <= StoredNorm diag N D l1 l2 l3 id.
Proof.
  intros Hid. unfold StoredNorm.
  rewrite (proj2 (EigenPass_Fro diag N D l1 l2 l3) id Hid).
  split; [reflexivity|]. apply ToFloat_nonneg.
  rewrite FrobeniusNorm_sum. apply sqrt_pos.
Qed.

(** X6. In the global estimator the norm compared with the floor is the
    Frobenius norm of the Hessian as [Fro] holds it, in single precision.
    The triple stored at a voxel is (0, 0, 0) when that norm is below the
    noise floor, and otherwise the sorted eigenvalues of the Hessian when
    its trace is negative and (0, 0, 0) when it is not. *)
Theorem X6_global_estimator_voxelwise :
  forall (diag : Mat3 -> Triple) (N : nat) (D : HessianField)
         (l1 l2 l3 : DataArray) (id : nat),
    length l1 = N -> length l2 = N -> length l3 = N -> (id < N)%nat ->
    let H := HessianAt D id in
    let trace := H 0%nat 0%nat + H 1%nat 1%nat + H 2%nat 2%nat in
    let norm := StoredNorm diag N D l1 l2 l3 id in
    let floor := HessianNoiseFloor diag N D l1 l2 l3 in
    let stored := EigenTripleAt (HessianEigenLoops diag N D l1 l2 l3) id in
    norm = ToFloat (FrobeniusNorm H) /\
    (norm < floor -> stored = (0, 0, 0)) /\
    (0 <= trace -> stored = (0, 0, 0)) /\
    (floor <= norm -> trace < 0 -> stored = Sort (diag H)).
Proof.
  intros diag N D l1 l2 l3 id H1 H2 H3 Hid. cbv zeta.
  split; [apply StoredNorm_spec; exact Hid|].
  rewrite (HessianEigenLoops_at diag N D l1 l2 l3 id H1 H2 H3 Hid).
  unfold VoxelEigenvalues. split; [|split].
  - intros Hlt. rewrite (proj2 (Rltb_true _ _) Hlt). reflexivity.
  - intros Htr. rewrite (proj2 (Rltb_false _ 0) Htr).
    destruct (Rltb _ _); reflexivity.
  - intros Hge Htr. rewrite (proj2 (Rltb_false _ _) Hge).
    rewrite (proj2 (Rltb_true _ 0) Htr). reflexivity.
Qed.

(** X6, witness: on [TwoVoxelField] the stored norms are 4 and 1 and the
    floor is 2; the voxel of norm 1 ends with zeros, the voxel of norm 4,
    of trace -4, with the sorted diagonal. *)
Lemma X6_global_estimator_witness :
  (length [0; 0] = 2%nat /\ (0 < 2)%nat /\ (1 < 2)%nat) /\
  EigenTripleAt (HessianEigenLoops DiagonalOf 2 TwoVoxelField [0; 0] [0; 0] [0; 0]) 1
  = (0, 0, 0) /\
  EigenTripleAt (HessianEigenLoops DiagonalOf 2 TwoVoxelField [0; 0] [0; 0] [0; 0]) 0
  = Sort (DiagonalOf (HessianAt TwoVoxelField 0)).
Proof.
  destruct TwoVoxelField_floor as (E0 & E1 & Efloor).
  split; [split; [reflexivity | lia]|]. split.
  - apply (proj1 (proj2 (X6_global_estimator_voxelwise DiagonalOf 2 TwoVoxelField
                           [0; 0] [0; 0] [0; 0] 1%nat eq_refl eq_refl eq_refl
                           ltac:(lia)))).
    rewrite E1, Efloor. lra.
  - apply (proj2 (proj2 (proj2 (X6_global_estimator_voxelwise DiagonalOf 2
                                  TwoVoxelField [0; 0] [0; 0] [0; 0] 0%nat
                                  eq_refl eq_refl eq_refl ltac:(lia))))).
    + rewrite E0, Efloor. lra.
    + unfold HessianAt, TwoVoxelField, GetTuple1. simpl. lra.
Defined.

Lemma HessianNoiseFloor_max (diag : Mat3 -> Triple) (N : nat) (D : HessianField)
      (l1 l2 l3 : DataArray) :
  (0 < N)%nat ->
  exists id0, (id0 < N)%nat /\
    HessianNoiseFloor diag N D l1 l2 l3
    = ToDouble (sqrt (StoredNorm diag N D l1 l2 l3 id0)) /\
    forall id, (id < N)%nat ->
      StoredNorm diag N D l1 l2 l3 id <= StoredNorm diag N D l1 l2 l3 id0.
Proof.
  intros HN.
  destruct (EigenPass_Fro diag N D l1 l2 l3) as [Hlen _].
  unfold HessianNoiseFloor, NoiseFloor, StoredNorm.
  set (fro := Fro (EigenPass diag N D l1 l2 l3)) in *.
  assert (Hne : fro <> []).
  { intros E. rewrite E in Hlen. simpl in Hlen. lia. }
  pose proof (RangeMax_in fro Hne) as Hin.
  apply (In_nth fro (RangeMax fro) 0) in Hin.
  destruct Hin as (id0 & Hid0 & Hnth). rewrite Hlen in Hid0.
  exists id0. split; [exact Hid0|]. unfold GetTuple1. rewrite Hnth.
  split; [reflexivity|].
  intros id Hid. apply RangeMax_upper. apply nth_In. rewrite Hlen. exact Hid.
Qed.

(** A stored norm is a single-precision number: at most 24 bits of
    significand. *)
Lemma StoredNorm_format (diag : Mat3 -> Triple) (N : nat) (D : HessianField)
      (l1 l2 l3 : DataArray) (id : nat) :
  (id < N)%nat ->
  exists a k, StoredNorm diag N D l1 l2 l3 id = IZR a * powerRZ 2 k /\
              (0 <= a <= 2 ^ 24)%Z /\ (-149 <= k)%Z.
Proof.
  intros Hid. rewrite (proj1 (StoredNorm_spec diag N D l1 l2 l3 id Hid)).
  destruct (RoundBinary_format 24 (-126) (FrobeniusNorm (HessianAt D id)))
    as (a & k & E & Ha & Hk); [lia | rewrite FrobeniusNorm_sum; apply sqrt_pos|].
  exists a, k. split; [exact E|]. split; [exact Ha | lia].
Qed.

(** A single-precision number below 1 is at most 1 - 2^-24. *)
Lemma float_below_one (a k : Z) :
  (0 <= a <= 2 ^ 24)%Z ->
  IZR a * powerRZ 2 k < 1 -> IZR a * powerRZ 2 k <= 1 - / 16777216.
Proof.
  intros Ha Hlt.
  assert (Hp : 0 < powerRZ 2 k) by (apply powerRZ_lt; lra).
  assert (Hu : powerRZ 2 (-24) = / 16777216) by (rewrite (powerRZ_2_neg 24); reflexivity).
  destruct (Z.le_gt_cases (-24) k) as [Hk | Hk].
  - pose proof (on_grid a k (-24) Hk) as Hg. rewrite Hu in Hg.
    assert (Hint : IZR (a * 2 ^ (k - -24)) < IZR 16777216).
    { rewrite <- Hg. lra. }
    apply lt_IZR in Hint.
    assert (Hle : IZR (a * 2 ^ (k - -24)) <= IZR 16777215) by (apply IZR_le; lia).
    rewrite <- Hg in Hle. lra.
  - assert (Hk2 : powerRZ 2 k <= powerRZ 2 (-25)) by (apply powerRZ_2_le; lia).
    rewrite (powerRZ_2_neg 25) in Hk2.
    change (2 ^ 25)%Z with 33554432%Z in Hk2.
    assert (Ha2 : 0 <= IZR a <= 16777216) by (split; apply IZR_le; lia).
    nra.
Qed.

(** The double root of a single-precision number between 0 and 1 is above
    the number. *)
Lemma floor_above_small_norm (a k : Z) :
  (0 <= a <= 2 ^ 24)%Z -> (-149 <= k)%Z ->
  0 < IZR a * powerRZ 2 k < 1 ->
  IZR a * powerRZ 2 k < ToDouble (sqrt (IZR a * powerRZ 2 k)).
Proof.
  intros Ha Hk [Hpos Hlt].
  pose proof (float_below_one a k Ha Hlt) as Hle.
  set (M := IZR a * powerRZ 2 k) in *.
  set (y := IZR (a * (2 ^ 26 + 1)) * powerRZ 2 (k - 26)).
  assert (Ey : y = M * (1 + / 67108864)).
  { unfold y, M. rewrite mult_IZR, (powerRZ_2_split k (k - 26)).
    replace (k - (k - 26))%Z with 26%Z by lia.
    rewrite (powerRZ_2_IZR 26) by lia.
    change (2 ^ 26 + 1)%Z with 67108865%Z. change (2 ^ 26)%Z with 67108864%Z.
    field. }
  assert (Hsq : y * y <= M).
  { rewrite Ey.
    assert (Hc : (1 - / 16777216) * ((1 + / 67108864) * (1 + / 67108864)) <= 1) by lra.
    assert (Hm : M * ((1 + / 67108864) * (1 + / 67108864))
                 <= (1 - / 16777216) * ((1 + / 67108864) * (1 + / 67108864))).
    { apply Rmult_le_compat_r; [nra | exact Hle]. }
    nra. }
  assert (Hy0 : 0 < y) by (rewrite Ey; nra).
  assert (Hroot : y <= sqrt M).
  { rewrite <- (sqrt_square y) by lra. apply sqrt_le_1_alt. exact Hsq. }
  assert (Hge : y <= ToDouble (sqrt M)).
  { apply RoundBinary_ge; [lia | | lia | apply sqrt_lt_R0; exact Hpos | exact Hroot].
    change (2 ^ 26 + 1)%Z with 67108865%Z. lia. }
  assert (HMy : M < y) by (rewrite Ey; nra).
  lra.
Qed.

(** The double root of a single-precision number that is at least 1 is at
    most the number. *)
Lemma floor_below_large_norm (a k : Z) (x : R) :
  (0 <= a <= 2 ^ 24)%Z -> (-149 <= k)%Z ->
  1 <= IZR a * powerRZ 2 k -> 0 <= x <= IZR a * powerRZ 2 k ->
  ToDouble (sqrt x) <= IZR a * powerRZ 2 k.
Proof.
  intros Ha Hk Hbig [Hx0 Hx].
  set (m := IZR a * powerRZ 2 k) in *.
  assert (Hs : sqrt x <= sqrt m) by (apply sqrt_le_1_alt; exact Hx).
  assert (Hsm : sqrt m <= m).
  { assert (Hq : sqrt m * sqrt m = m) by (apply sqrt_sqrt; lra).
    assert (H1m : 1 <= sqrt m).
    { rewrite <- sqrt_1. apply sqrt_le_1_alt. exact Hbig. }
    nra. }
  destruct (Rle_lt_or_eq_dec 0 (sqrt x) (sqrt_pos x)) as [Hpos | Hzero].
  - apply RoundBinary_le; [lia | lia | lia | split; [exact Hpos | fold m; lra]].
  - rewrite <- Hzero, ToDouble_0. lra.
Qed.

(** X7. The noise floor is the square root of the largest stored norm,
    so it cuts differently on either side of 1.  If every stored norm of
    the volume is below 1 and one of them is not 0, every stored triple is
    (0, 0, 0); and a voxel whose stored norm is the largest of the volume
    and at least 1 is never zeroed by the floor.  When every stored norm
    is 0 the floor is 0 and no voxel is below it. *)
Theorem X7_noise_floor_below_and_above_one :
  forall (diag : Mat3 -> Triple) (N : nat) (D : HessianField) (l1 l2 l3 : DataArray),
    length l1 = N -> length l2 = N -> length l3 = N ->
    ((forall id, (id < N)%nat -> StoredNorm diag N D l1 l2 l3 id < 1) ->
     (exists id0, (id0 < N)%nat /\ 0 < StoredNorm diag N D l1 l2 l3 id0) ->
     forall id, (id < N)%nat ->
       EigenTripleAt (HessianEigenLoops diag N D l1 l2 l3) id = (0, 0, 0)) /\
    (forall id, (id < N)%nat ->
       1 <= StoredNorm diag N D l1 l2 l3 id ->
       (forall id', (id' < N)%nat ->
          StoredNorm diag N D l1 l2 l3 id' <= StoredNorm diag N D l1 l2 l3 id) ->
       EigenTripleAt (HessianEigenLoops diag N D l1 l2 l3) id
       = VoxelEigenvalues diag (HessianAt D id)) /\
    ((forall id, (id < N)%nat -> StoredNorm diag N D l1 l2 l3 id = 0) ->
     forall id, (id < N)%nat ->
       EigenTripleAt (HessianEigenLoops diag N D l1 l2 l3) id
       = VoxelEigenvalues diag (HessianAt D id)).
Proof.
  intros diag N D l1 l2 l3 H1 H2 H3. split; [|split].
  - intros Hsmall (id1 & Hid1 & Hpos1) id Hid.
    rewrite (HessianEigenLoops_at diag N D l1 l2 l3 id H1 H2 H3 Hid).
    destruct (Rltb _ _) eqn:E; [reflexivity|]. apply Rltb_false in E.
    exfalso.
    destruct (HessianNoiseFloor_max diag N D l1 l2 l3) as (id0 & Hid0 & Hfl & Hmax);
      [lia|].
    rewrite Hfl in E.
    destruct (StoredNorm_format diag N D l1 l2 l3 id0 Hid0) as (a & k & Em & Ha & Hk).
    assert (Hm1 : StoredNorm diag N D l1 l2 l3 id0 < 1) by (apply Hsmall; exact Hid0).
    assert (Hle : StoredNorm diag N D l1 l2 l3 id <= StoredNorm diag N D l1 l2 l3 id0)
      by (apply Hmax; exact Hid).
    assert (Hpos : 0 < StoredNorm diag N D l1 l2 l3 id0).
    { pose proof (Hmax id1 Hid1). lra. }
    rewrite Em in *.
    pose proof (floor_above_small_norm a k Ha Hk (conj Hpos Hm1)). lra.
  - intros id Hid Hbig Hmax.
    rewrite (HessianEigenLoops_at diag N D l1 l2 l3 id H1 H2 H3 Hid).
    destruct (Rltb _ _) eqn:E; [|reflexivity]. apply Rltb_true in E.
    exfalso.
    destruct (HessianNoiseFloor_max diag N D l1 l2 l3) as (id0 & Hid0 & Hfl & Hmax0);
      [lia|].
    rewrite Hfl in E.
    destruct (StoredNorm_format diag N D l1 l2 l3 id Hid) as (a & k & Em & Ha & Hk).
    pose proof (Hmax id0 Hid0) as Hm0.
    pose proof (proj2 (StoredNorm_spec diag N D l1 l2 l3 id0 Hid0)) as Hnn.
    rewrite Em in *.
    pose proof (floor_below_large_norm a k _ Ha Hk Hbig (conj Hnn Hm0)). lra.
  - intros Hzero id Hid.
    rewrite (HessianEigenLoops_at diag N D l1 l2 l3 id H1 H2 H3 Hid).
    destruct (Rltb _ _) eqn:E; [|reflexivity]. apply Rltb_true in E.
    exfalso.
    destruct (HessianNoiseFloor_max diag N D l1 l2 l3) as (id0 & Hid0 & Hfl & _);
      [lia|].
    rewrite Hfl, (Hzero id Hid), (Hzero id0 Hid0), sqrt_0, ToDouble_0 in E. lra.
Qed.

Lemma ToFloat_half : ToFloat (1 / 2) = 1 / 2.
Proof.
  replace (1 / 2) with (IZR 1 * powerRZ 2 (-1)) by (simpl; lra).
  apply ToFloat_exact; lia.
Qed.

Lemma ToFloat_quarter : ToFloat (1 / 4) = 1 / 4.
Proof.
  replace (1 / 4) with (IZR 1 * powerRZ 2 (-2)) by (simpl; lra).
  apply ToFloat_exact; lia.
Qed.

(** On [FaintField] the stored norms are 1/2 and 1/4. *)
Lemma FaintField_norms :
  StoredNorm DiagonalOf 2 FaintField [0; 0] [0; 0] [0; 0] 0 = 1 / 2 /\
  StoredNorm DiagonalOf 2 FaintField [0; 0] [0; 0] [0; 0] 1 = 1 / 4.
Proof.
  assert (E0 : FrobeniusNorm (HessianAt FaintField 0) = 1 / 2).
  { unfold FrobeniusNorm. simpl. unfold GetTuple1. simpl.
    apply sqrt_of_square; lra. }
  assert (E1 : FrobeniusNorm (HessianAt FaintField 1) = 1 / 4).
  { unfold FrobeniusNorm. simpl. unfold GetTuple1. simpl.
    apply sqrt_of_square; lra. }
  unfold StoredNorm. rewrite EigenPass_Fro_map. simpl map.
  rewrite E0, E1, ToFloat_half, ToFloat_quarter. split; reflexivity.
Qed.

(** X7, witness: on [FaintField], of stored norms 1/2 and 1/4, both
    voxels end with zeros; on [TwoVoxelField], of stored norms 4 and 1,
    the voxel of norm 4 keeps the eigenvalues computed for it. *)
Lemma X7_noise_floor_witness :
  (length [0; 0] = 2%nat) /\
  EigenTripleAt (HessianEigenLoops DiagonalOf 2 FaintField [0; 0] [0; 0] [0; 0]) 0
  = (0, 0, 0) /\
  EigenTripleAt (HessianEigenLoops DiagonalOf 2 FaintField [0; 0] [0; 0] [0; 0]) 1
  = (0, 0, 0) /\
  EigenTripleAt (HessianEigenLoops DiagonalOf 2 TwoVoxelField [0; 0] [0; 0] [0; 0]) 0
  = VoxelEigenvalues DiagonalOf (HessianAt TwoVoxelField 0).
Proof.
  destruct FaintField_norms as [F0 F1].
  destruct TwoVoxelField_floor as (E0 & E1 & _).
  assert (Hfaint : forall id, (id < 2)%nat ->
            EigenTripleAt (HessianEigenLoops DiagonalOf 2 FaintField
                             [0; 0] [0; 0] [0; 0]) id = (0, 0, 0)).
  { apply (proj1 (X7_noise_floor_below_and_above_one DiagonalOf 2 FaintField
                    [0; 0] [0; 0] [0; 0] eq_refl eq_refl eq_refl)).
    - intros id Hid. assert (Hc : id = 0%nat \/ id = 1%nat) by lia.
      destruct Hc as [-> | ->]; [rewrite F0 | rewrite F1]; lra.
    - exists 0%nat. split; [lia|]. rewrite F0. lra. }
  split; [reflexivity|].
  split; [apply Hfaint; lia|]. split; [apply Hfaint; lia|].
  apply (proj1 (proj2 (X7_noise_floor_below_and_above_one DiagonalOf 2 TwoVoxelField
                         [0; 0] [0; 0] [0; 0] eq_refl eq_refl eq_refl)) 0%nat).
  - lia.
  - rewrite E0. lra.
  - intros id Hid. assert (Hc : id = 0%nat \/ id = 1%nat) by lia.
    destruct Hc as [-> | ->]; [rewrite E0 | rewrite E1, E0]; lra.
Defined.

(** ** The range of the tubularity field *)

Lemma VesselnessResponse_lt_1 (l1 l2 l3 : R) : VesselnessResponse l1 l2 l3 < 1.
Proof.
  unfold VesselnessResponse.
  destruct (Rltb l2 0 && Rltb l3 0); [|lra].
  set (ra := Rabs l2 / Rabs l3).
  set (rb := Rabs l1 / sqrt (l2 * l3)).
  set (s := sqrt (l1 * l1 + l2 * l2 + l3 * l3)).
  assert (Ha : exp (- ra * ra / (2 * 0.5 * 0.5)) <= 1).
  { apply exp_nonpos_le_1. pose proof (Rle_0_sqr ra) as Hq. unfold Rsqr in Hq.
    replace (- ra * ra / (2 * 0.5 * 0.5)) with (- (2 * (ra * ra))) by lra. lra. }
  assert (Hb : exp (- rb * rb / (2 * 0.5 * 0.5)) <= 1).
  { apply exp_nonpos_le_1. pose proof (Rle_0_sqr rb) as Hq. unfold Rsqr in Hq.
    replace (- rb * rb / (2 * 0.5 * 0.5)) with (- (2 * (rb * rb))) by lra. lra. }
  assert (Hs : exp (- s * s / (2 * 500 * 500)) <= 1).
  { apply exp_nonpos_le_1. pose proof (Rle_0_sqr s) as Hq. unfold Rsqr in Hq.
    replace (- s * s / (2 * 500 * 500)) with (- ((s * s) / 500000)) by lra. lra. }
  pose proof (exp_pos (- ra * ra / (2 * 0.5 * 0.5))) as Pa.
  pose proof (exp_pos (- rb * rb / (2 * 0.5 * 0.5))) as Pb.
  pose proof (exp_pos (- s * s / (2 * 500 * 500))) as Ps.
  set (ea := exp (- ra * ra / (2 * 0.5 * 0.5))) in *.
  set (eb := exp (- rb * rb / (2 * 0.5 * 0.5))) in *.
  set (es := exp (- s * s / (2 * 500 * 500))) in *.
  assert (H1 : (1 - ea) * eb <= 1 - ea) by nra.
  assert (HX : 0 <= (1 - ea) * eb) by (apply Rmult_le_pos; lra).
  set (X := (1 - ea) * eb) in *.
  assert (H2 : X * (1 - es) <= X) by nra.
  lra.
Qed.

(** X8. Every value of the tubularity field lies in [0, 1): the response
    that [GetVesselness] writes at a voxel, for every scale, and the fused
    value of every voxel whenever the loop over the scales ends. *)
Theorem X8_tubularity_between_0_and_1 :
  forall (diag : Mat3 -> Triple) (smooth : R -> ImageData -> HessianField)
         (Image : ImageData) (mito : MitoObject),
    (forall sigma l1 l2 l3 id,
        length l1 = GetNumberOfPoints Image ->
        length l2 = GetNumberOfPoints Image ->
        length l3 = GetNumberOfPoints Image ->
        0 <= GetTuple1 (L1 (GetVesselness diag smooth sigma Image l1 l2 l3 mito)) id < 1) /\
    (forall fuel out id,
        MultiscaleFusion diag smooth fuel Image mito = Some out ->
        0 <= GetTuple1 (VSSS out) id < 1).
Proof.
  intros diag smooth Image mito.
  assert (Hone : forall sigma l1 l2 l3 id,
             length l1 = GetNumberOfPoints Image ->
             length l2 = GetNumberOfPoints Image ->
             length l3 = GetNumberOfPoints Image ->
             0 <= GetTuple1 (L1 (GetVesselness diag smooth sigma Image l1 l2 l3 mito)) id < 1).
  { intros sigma l1 l2 l3 id H1 H2 H3.
    split; [apply GetVesselness_nonneg; assumption|].
    destruct (GetVesselness_lengths diag smooth sigma Image l1 l2 l3 mito H1 H2 H3)
      as (Ha & _ & _).
    destruct (Nat.lt_ge_cases id (GetNumberOfPoints Image)) as [Hin | Hout].
    - destruct (HessianStage_lengths diag smooth sigma Image l1 l2 l3 mito H1 H2 H3)
        as (Hs & _ & _).
      unfold GetVesselness.
      destruct (VesselnessLoop_spec (GetNumberOfPoints Image)
                  (HessianStage diag smooth sigma Image l1 l2 l3 mito)) as (_ & _ & Hv);
        [lia|].
      rewrite (Hv id Hin). apply VesselnessResponse_lt_1.
    - rewrite GetTuple1_out_of_range by lia. lra. }
  split; [exact Hone|].
  intros fuel out id Hrun. unfold MultiscaleFusion in Hrun.
  destruct (ScaleLoop_spec diag smooth Image mito fuel (_sigmai mito)
              (mkFusionState (FillComponent (GetNumberOfPoints Image) 0)
                             (FillComponent (GetNumberOfPoints Image) 0)
                             (FillComponent (GetNumberOfPoints Image) 0)
                             (FillComponent (GetNumberOfPoints Image) 0) [])
              out
              (FillComponent_length _ 0) (FillComponent_length _ 0)
              (FillComponent_length _ 0) (FillComponent_length _ 0) Hrun)
    as (n & _ & Hlen & Hids).
  destruct (Nat.lt_ge_cases id (GetNumberOfPoints Image)) as [Hin | Hout].
  - destruct (Hids id Hin) as (_ & _ & [Heq | (s & _ & Heq)]).
    + rewrite Heq. cbn [VSSS]. rewrite GetTuple1_FillComponent by exact Hin. lra.
    + rewrite Heq. unfold ScaleResponse. apply Hone; apply FillComponent_length.
  - rewrite GetTuple1_out_of_range by lia. lra.
Qed.

(** X8, witness: the response of the one-voxel image at scale 1. *)
Lemma X8_tubularity_witness :
  (length [0] = GetNumberOfPoints SampleImage) /\
  0 <= GetTuple1 (L1 (GetVesselness DiagonalOf (fun _ _ => SampleField) 1 SampleImage
                                    [0] [0] [0] SampleMito)) 0 < 1.
Proof.
  assert (H : length [0] = GetNumberOfPoints SampleImage) by reflexivity.
  split; [exact H|].
  apply (proj1 (X8_tubularity_between_0_and_1 DiagonalOf (fun _ _ => SampleField)
                  SampleImage SampleMito) 1 [0] [0] [0] 0%nat H H H).
Defined.

(** ** Scales that never run, and a loop that never ends *)

Lemma ScaleLoop_zero_step (diag : Mat3 -> Triple)
      (smooth : R -> ImageData -> HessianField) (Image : ImageData)
      (mito : MitoObject) :
  _dsigma mito = 0 ->
  forall (fuel : nat) (sigma : R) (st : FusionState),
    sigma <= _sigmaf mito ->
    ScaleLoop diag smooth fuel Image mito sigma st = None.
Proof.
  intros Hd. induction fuel as [|fuel IH]; intros sigma st Hle; [reflexivity|].
  simpl. rewrite Hd.
  rewrite (proj2 (Rleb_true sigma (_sigmaf mito + 0.5 * 0))) by lra.
  replace (sigma + 0) with sigma by ring. apply IH. exact Hle.
Qed.

(** X9. Two configurations with more than one scale that the scale loop
    does not survive: with sigma_min = sigma_max the step is 0 and the loop
    never ends, whatever the number of passes allowed; with
    sigma_min > sigma_max the step is negative, no scale runs at all and
    the fused field is 0 everywhere. *)
Theorem X9_degenerate_scale_ranges :
  forall (diag : Mat3 -> Triple) (smooth : R -> ImageData -> HessianField)
         (Image : ImageData) (mito0 : MitoObject),
    (1 < _nsigma mito0)%Z ->
    (_sigmai mito0 = _sigmaf mito0 ->
     forall fuel,
       MultiscaleFusion diag smooth fuel Image (ConfigureScales mito0) = None) /\
    (_sigmaf mito0 < _sigmai mito0 ->
     forall fuel, exists out,
       MultiscaleFusion diag smooth (S fuel) Image (ConfigureScales mito0) = Some out /\
       ScalesRun out = [] /\
       VSSS out = FillComponent (GetNumberOfPoints Image) 0).
Proof.
  intros diag smooth Image mito0 Hc.
  assert (Hstep : _dsigma (ConfigureScales mito0)
                  = (_sigmaf mito0 - _sigmai mito0) / IZR (_nsigma mito0 - 1)).
  { unfold ConfigureScales, ScaleStep. simpl.
    rewrite (proj2 (Z.ltb_lt 1 (_nsigma mito0)) Hc). reflexivity. }
  assert (Hpos : 0 < IZR (_nsigma mito0 - 1)) by (apply IZR_lt; lia).
  split.
  - intros Heq fuel. unfold MultiscaleFusion.
    apply ScaleLoop_zero_step.
    + rewrite Hstep, Heq. unfold Rdiv. ring.
    + simpl. lra.
  - intros Hlt fuel. unfold MultiscaleFusion. eexists.
    simpl ScaleLoop.
    assert (Hneg : _dsigma (ConfigureScales mito0) < 0).
    { rewrite Hstep.
      set (zc := IZR (_nsigma mito0 - 1)) in *.
      set (a := _sigmaf mito0 - _sigmai mito0).
      assert (Ha : a < 0) by (unfold a; lra).
      assert (E : a / zc * zc = a) by (field; lra).
      nra. }
    rewrite (proj2 (Rleb_false _ _)).
    + split; [reflexivity|]. split; reflexivity.
    + simpl in Hneg. lra.
Qed.

(** X9, witness: six scales asked for between 1.5 and 1.5, and between 1.5
    and 1. *)
Lemma X9_degenerate_scale_ranges_witness :
  (1 < 6)%Z /\
  ((1.5 = 1.5 ->
    forall fuel,
      MultiscaleFusion DiagonalOf (fun _ _ => SampleField) fuel SampleImage
        (ConfigureScales (mkMitoObject false false false 8 3 1.5 1.5 6 0)) = None) /\
   (1 < 1.5 ->
    forall fuel, exists out,
      MultiscaleFusion DiagonalOf (fun _ _ => SampleField) (S fuel) SampleImage
        (ConfigureScales (mkMitoObject false false false 8 3 1.5 1 6 0)) = Some out /\
      ScalesRun out = [] /\
      VSSS out = FillComponent (GetNumberOfPoints SampleImage) 0)).
Proof.
  assert (Hc : (1 < 6)%Z) by lia.
  split; [exact Hc|]. split.
  - exact (proj1 (X9_degenerate_scale_ranges DiagonalOf (fun _ _ => SampleField)
                    SampleImage (mkMitoObject false false false 8 3 1.5 1.5 6 0) Hc)).
  - exact (proj2 (X9_degenerate_scale_ranges DiagonalOf (fun _ _ => SampleField)
                    SampleImage (mkMitoObject false false false 8 3 1.5 1 6 0) Hc)).
Defined.

(** ** Facts on ranges and on the cast to an integer *)

Lemma fold_left_Rmin_le (l : list R) :
  forall h, fold_left Rmin l h <= h /\ (forall x, In x l -> fold_left Rmin l h <= x).
Proof.
  induction l as [|y l IH]; intros h; simpl.
  - split; [lra | tauto].
  - destruct (IH (Rmin h y)) as [H1 H2]. split.
    + pose proof (Rmin_l h y). lra.
    + intros x [Hx | Hx].
      * subst. pose proof (Rmin_r h x). lra.
      * apply H2. exact Hx.
Qed.

Lemma fold_left_Rmin_in (l : list R) :
  forall h, fold_left Rmin l h = h \/ In (fold_left Rmin l h) l.
Proof.
  induction l as [|y l IH]; intros h; simpl; [left; reflexivity|].
  destruct (IH (Rmin h y)) as [H | H].
  - rewrite H. unfold Rmin. destruct (Rle_dec h y); auto.
  - right. right. exact H.
Qed.

Lemma RangeMin_lower (a : DataArray) (x : R) : In x a -> RangeMin a <= x.
Proof.
  destruct a as [|h t]; simpl; [tauto|].
  destruct (fold_left_Rmin_le t h) as [H1 H2].
  intros [Hx | Hx]; [subst; exact H1 | apply H2; exact Hx].
Qed.

Lemma RangeMin_in (a : DataArray) : a <> [] -> In (RangeMin a) a.
Proof.
  destruct a as [|h t]; [congruence|]. intros _. simpl.
  destruct (fold_left_Rmin_in t h) as [H | H]; [left; symmetry; exact H | right; exact H].
Qed.

Lemma RangeMin_le_RangeMax (a : DataArray) : RangeMin a <= RangeMax a.
Proof.
  destruct a as [|h t] eqn:E; [simpl; lra|]. rewrite <- E.
  assert (Hin : In h a) by (rewrite E; left; reflexivity).
  pose proof (RangeMin_lower a h Hin). pose proof (RangeMax_upper a h Hin). lra.
Qed.

(** The cast of a double in [0, 255]. *)
Lemma truncate_byte (q : R) :
  0 <= q <= 255 -> (0 <= truncate q <= 255)%Z /\ IZR (truncate q) <= q.
Proof.
  intros [H0 H255]. unfold truncate.
  destruct (Rle_dec 0 q) as [_ | Hn]; [|contradiction].
  destruct (base_Int_part q) as [Hle Hgt].
  split; [|exact Hle]. split.
  - apply le_IZR. 
    assert (Hlt : -1 < IZR (Int_part q)) by lra.
    apply lt_IZR in Hlt. apply IZR_le. lia.
  - apply le_IZR. lra.
Qed.

Lemma truncate_IZR (z : Z) : (0 <= z)%Z -> truncate (IZR z) = z.
Proof.
  intros Hz. unfold truncate.
  destruct (Rle_dec 0 (IZR z)) as [_ | Hn]; [|exfalso; apply Hn; apply IZR_le; exact Hz].
  destruct (base_Int_part (IZR z)) as [Hle Hgt].
  apply le_IZR in Hle.
  assert (Hlt : IZR (z - 1) < IZR (Int_part (IZR z))) by (rewrite minus_IZR; lra).
  apply lt_IZR in Hlt. lia.
Qed.

Lemma ToUnsignedChar_byte (z : Z) :
  (0 <= z <= 255)%Z -> ToUnsignedChar z = IZR z.
Proof. intros Hz. unfold ToUnsignedChar. rewrite Z.mod_small by lia. reflexivity. Qed.

(** ** Loops that can fail *)

(** The invariant rule of a descending loop whose body never fails on the
    states the invariant describes. *)
Lemma for_down_checked_inv {St : Type} (P : nat -> St -> Prop)
      (body : nat -> St -> Checked St) :
  forall (n : nat) (s : St),
    P n s ->
    (forall k s', (k < n)%nat -> P (S k) s' ->
                  exists s'', body k s' = Ok s'' /\ P k s'') ->
    exists out, for_down_checked n body s = Ok out /\ P 0%nat out.
Proof.
  intros n s Hn Hstep. unfold for_down_checked.
  apply (for_down_inv (fun (k : nat) (c : Checked St) =>
                         exists out, c = Ok out /\ P k out)).
  - exists s. split; [reflexivity | exact Hn].
  - intros k c Hk (s' & -> & HP). simpl. apply Hstep; assumption.
Qed.

(** Once a pass has failed the loop stays failed. *)
Lemma for_down_failed {St : Type} (body : nat -> St -> Checked St) :
  forall n, for_down n (fun id c => s' <- c ;; body id s') DivisionByZero
            = DivisionByZero.
Proof. induction n as [|n IH]; simpl; [reflexivity | exact IH]. Qed.

(** The rescaling loop of the global normalization. *)
Lemma Convert16Loop_spec (a : DataArray) (r0 r1 : R) (N : nat) (out0 : DataArray) :
  r1 - r0 <> 0 -> length out0 = N ->
  exists out,
    for_down_checked N (Convert16Body a r0 r1) out0 = Ok out /\
    length out = N /\
    forall id, (id < N)%nat ->
      GetTuple1 out id
      = ToUnsignedChar (truncate (255 * (GetTuple1 a id - r0) / (r1 - r0))).
Proof.
  intros Hne Hlen.
  destruct (for_down_checked_inv
              (fun (k : nat) (s : DataArray) =>
                 length s = N /\
                 forall id, (k <= id < N)%nat ->
                   GetTuple1 s id
                   = ToUnsignedChar (truncate (255 * (GetTuple1 a id - r0) / (r1 - r0))))
              (Convert16Body a r0 r1) N out0) as (out & Hrun & HL & Hval).
  - split; [exact Hlen | intros id Hid; lia].
  - intros k s Hk (HL & Hdone). unfold Convert16Body.
    rewrite checked_div_nonzero by exact Hne. cbn [bind].
    eexists. split; [reflexivity|]. split; [rewrite SetTuple1_length; exact HL|].
    intros id Hid. destruct (Nat.eq_dec k id) as [<- | Hn].
    + apply GetTuple1_SetTuple1_eq. lia.
    + rewrite GetTuple1_SetTuple1_neq by exact Hn. apply Hdone. lia.
  - exists out. split; [exact Hrun|]. split; [exact HL|].
    intros id Hid. apply Hval. lia.
Qed.

Lemma Convert16Loop_zero_range (a : DataArray) (r0 r1 : R) (N : nat) (out0 : DataArray) :
  r1 - r0 = 0 -> (0 < N)%nat ->
  for_down_checked N (Convert16Body a r0 r1) out0 = DivisionByZero.
Proof.
  intros Hz HN. destruct N as [|N]; [lia|].
  unfold for_down_checked. simpl. unfold Convert16Body at 2, checked_div.
  destruct (Req_dec_T (r1 - r0) 0) as [_ | Hne]; [|contradiction].
  cbn [bind]. apply for_down_failed.
Qed.

(** The rescaling loop of the fixed-threshold policy: every operation of
    the expression is rounded to a double. *)
Lemma RescaleLoop_spec (a : DataArray) (r0 r1 : R) (N : nat) (out0 : DataArray) :
  ToDouble (r1 - r0) <> 0 -> length out0 = N ->
  exists out,
    for_down_checked N (RescaleBody a r0 r1) out0 = Ok out /\
    length out = N /\
    forall id, (id < N)%nat ->
      GetTuple1 out id
      = ToUnsignedChar (truncate (RescaledDouble (GetTuple1 a id) r0 r1)).
Proof.
  intros Hne Hlen.
  destruct (for_down_checked_inv
              (fun (k : nat) (s : DataArray) =>
                 length s = N /\
                 forall id, (k <= id < N)%nat ->
                   GetTuple1 s id
                   = ToUnsignedChar (truncate (RescaledDouble (GetTuple1 a id) r0 r1)))
              (RescaleBody a r0 r1) N out0) as (out & Hrun & HL & Hval).
  - split; [exact Hlen | intros id Hid; lia].
  - intros k s Hk (HL & Hdone). unfold RescaleBody. cbv zeta.
    rewrite checked_div_nonzero by exact Hne. cbn [bind].
    eexists. split; [reflexivity|]. split; [rewrite SetTuple1_length; exact HL|].
    intros id Hid. destruct (Nat.eq_dec k id) as [<- | Hn].
    + apply GetTuple1_SetTuple1_eq. lia.
    + rewrite GetTuple1_SetTuple1_neq by exact Hn. apply Hdone. lia.
  - exists out. split; [exact Hrun|]. split; [exact HL|].
    intros id Hid. apply Hval. lia.
Qed.

Lemma RescaleLoop_zero_range (a : DataArray) (r0 r1 : R) (N : nat) (out0 : DataArray) :
  r1 - r0 = 0 -> (0 < N)%nat ->
  for_down_checked N (RescaleBody a r0 r1) out0 = DivisionByZero.
Proof.
  intros Hz HN. destruct N as [|N]; [lia|].
  unfold for_down_checked. simpl. unfold RescaleBody at 2, checked_div. cbv zeta.
  rewrite Hz, ToDouble_0.
  destruct (Req_dec_T 0 0) as [_ | Hne]; [|contradiction].
  cbn [bind]. apply for_down_failed.
Qed.

(** The value written for a voxel by the rescaling: an integer of [0, 255]
    that is 0 at the minimum and 255 at the maximum. *)
Lemma Rescaled_byte (x r0 r1 : R) :
  r0 <= x <= r1 -> r0 < r1 ->
  let q := 255 * (x - r0) / (r1 - r0) in
  (exists n, (0 <= n <= 255)%Z /\ ToUnsignedChar (truncate q) = IZR n) /\
  (x = r0 -> ToUnsignedChar (truncate q) = 0) /\
  (x = r1 -> ToUnsignedChar (truncate q) = 255).
Proof.
  intros [Hlo Hhi] Hlt. cbv zeta.
  assert (Hq : 0 <= 255 * (x - r0) / (r1 - r0) <= 255).
  { split.
    - apply Rmult_le_pos; [nra | left; apply Rinv_0_lt_compat; lra].
    - apply (Rmult_le_reg_r (r1 - r0)); [lra|].
      unfold Rdiv. rewrite Rmult_assoc, Rinv_l by lra. nra. }
  destruct (truncate_byte _ Hq) as [Hb _].
  split; [|split].
  - exists (truncate (255 * (x - r0) / (r1 - r0))). split; [exact Hb|].
    apply ToUnsignedChar_byte. exact Hb.
  - intros ->. replace (255 * (r0 - r0) / (r1 - r0)) with (IZR 0)
      by (unfold Rdiv; ring).
    rewrite truncate_IZR by lia. reflexivity.
  - intros ->. replace (255 * (r1 - r0) / (r1 - r0)) with (IZR 255)
      by (field; lra).
    rewrite truncate_IZR by lia. unfold ToUnsignedChar. reflexivity.
Qed.

Lemma In_GetTuple1 (a : DataArray) (v : R) :
  In v a -> exists id, (id < length a)%nat /\ GetTuple1 a id = v.
Proof.
  intros H. destruct (In_nth a v 0 H) as (id & Hid & Hv).
  exists id. split; [exact Hid | exact Hv].
Qed.

(** ** Fixed-threshold binarization *)

(** X10. With a positive threshold the fixed-threshold policy never fails
    and writes an unsigned-char grid of the same dimensions that holds 0
    where the value is at most the threshold and 255 where it is above;
    binarizing that output again, with any threshold strictly between 0 and
    255, gives the same image back. *)
Theorem X10_fixed_threshold_binarizes :
  forall (Image : ImageData) (threshold threshold' : R),
    0 < threshold -> 0 < threshold' < 255 ->
    exists out,
      BinarizeAndConvertDoubleToChar Image threshold = Ok out /\
      Dim out = Dim Image /\
      GetScalarType out = VTK_UNSIGNED_CHAR /\
      length (Scalars out) = length (Scalars Image) /\
      (forall id, (id < length (Scalars Image))%nat ->
         (GetTuple1 (Scalars Image) id <= threshold -> GetTuple1 (Scalars out) id = 0) /\
         (threshold < GetTuple1 (Scalars Image) id -> GetTuple1 (Scalars out) id = 255)) /\
      IsBinary (Scalars out) /\
      BinarizeAndConvertDoubleToChar out threshold' = Ok out.
Proof.
  intros Image t t' Ht [Ht0 Ht1].
  unfold BinarizeAndConvertDoubleToChar at 1. unfold Rgtb.
  rewrite (proj2 (Rltb_true 0 t) Ht).
  destruct (ThresholdLoop_spec (Scalars Image) t (length (Scalars Image))
              (FillComponent (length (Scalars Image)) 0)
              (FillComponent_length _ 0)) as (HL & Hval).
  set (res := for_down (length (Scalars Image)) (ThresholdBody (Scalars Image) t)
                       (FillComponent (length (Scalars Image)) 0)) in *.
  assert (Hbin : IsBinary res).
  { intros v Hv. destruct (In_GetTuple1 res v Hv) as (id & Hid & <-).
    rewrite HL in Hid. rewrite (Hval id Hid).
    destruct (Rleb (GetTuple1 (Scalars Image) id) t); [left | right]; reflexivity. }
  exists (WithCharScalars Image res).
  split; [reflexivity|]. split; [reflexivity|]. split; [reflexivity|].
  split; [exact HL|]. split; [|split; [exact Hbin|]].
  - intros id Hid. cbn [Scalars WithCharScalars]. rewrite (Hval id Hid). split; intros Hc.
    + rewrite (proj2 (Rleb_true _ _) Hc). reflexivity.
    + rewrite (proj2 (Rleb_false _ _) Hc). reflexivity.
  - unfold BinarizeAndConvertDoubleToChar, Rgtb.
    rewrite (proj2 (Rltb_true 0 t') Ht0).
    cbn [Scalars WithCharScalars]. unfold WithCharScalars. cbn [Dim].
    f_equal. f_equal.
    destruct (ThresholdLoop_spec res t' (length res) (FillComponent (length res) 0)
                (FillComponent_length _ 0)) as (HL' & Hval').
    apply DataArray_ext; [exact HL'|].
    intros id Hid. rewrite HL' in Hid. rewrite (Hval' id Hid).
    destruct (Hbin _ (GetTuple1_In res id Hid)) as [-> | ->].
    + rewrite (proj2 (Rleb_true 0 t')) by lra. reflexivity.
    + rewrite (proj2 (Rleb_false 255 t')) by lra. reflexivity.
Qed.

(** X10, witness: the four-voxel image at thresholds 0.5 and 100. *)
Lemma X10_fixed_threshold_witness :
  (0 < 0.5 /\ 0 < 100 < 255) /\
  exists out,
    BinarizeAndConvertDoubleToChar BinaryImage 0.5 = Ok out /\
    Dim out = Dim BinaryImage /\
    GetScalarType out = VTK_UNSIGNED_CHAR /\
    length (Scalars out) = length (Scalars BinaryImage) /\
    (forall id, (id < length (Scalars BinaryImage))%nat ->
       (GetTuple1 (Scalars BinaryImage) id <= 0.5 -> GetTuple1 (Scalars out) id = 0) /\
       (0.5 < GetTuple1 (Scalars BinaryImage) id -> GetTuple1 (Scalars out) id = 255)) /\
    IsBinary (Scalars out) /\
    BinarizeAndConvertDoubleToChar out 100 = Ok out.
Proof.
  assert (H1 : 0 < 0.5) by lra.
  assert (H2 : 0 < 100 < 255) by lra.
  split; [split; assumption|].
  exact (X10_fixed_threshold_binarizes BinaryImage 0.5 100 H1 H2).
Defined.

(** X11. Raising a positive threshold never turns a voxel on: for sorted
    thresholds 0 < t1 <= t2 the output at t2 is voxelwise at most the
    output at t1, and a brighter input never gives a darker output. *)
Theorem X11_fixed_threshold_monotone :
  forall (Image : ImageData) (t1 t2 : R),
    0 < t1 <= t2 ->
    exists out1 out2,
      BinarizeAndConvertDoubleToChar Image t1 = Ok out1 /\
      BinarizeAndConvertDoubleToChar Image t2 = Ok out2 /\
      (forall id, (id < length (Scalars Image))%nat ->
         GetTuple1 (Scalars out2) id <= GetTuple1 (Scalars out1) id) /\
      (forall id id', (id < length (Scalars Image))%nat ->
         (id' < length (Scalars Image))%nat ->
         GetTuple1 (Scalars Image) id <= GetTuple1 (Scalars Image) id' ->
         GetTuple1 (Scalars out1) id <= GetTuple1 (Scalars out1) id').
Proof.
  intros Image t1 t2 [H1 H12].
  unfold BinarizeAndConvertDoubleToChar, Rgtb.
  rewrite (proj2 (Rltb_true 0 t1) H1).
  rewrite (proj2 (Rltb_true 0 t2)) by lra.
  destruct (ThresholdLoop_spec (Scalars Image) t1 (length (Scalars Image))
              (FillComponent (length (Scalars Image)) 0)
              (FillComponent_length _ 0)) as (_ & Hv1).
  destruct (ThresholdLoop_spec (Scalars Image) t2 (length (Scalars Image))
              (FillComponent (length (Scalars Image)) 0)
              (FillComponent_length _ 0)) as (_ & Hv2).
  eexists. eexists. split; [reflexivity|]. split; [reflexivity|].
  cbn [Scalars WithCharScalars]. split.
  - intros id Hid. rewrite (Hv1 id Hid), (Hv2 id Hid).
    destruct (Rleb (GetTuple1 (Scalars Image) id) t1) eqn:E1;
      destruct (Rleb (GetTuple1 (Scalars Image) id) t2) eqn:E2; try lra.
    apply Rleb_true in E1. apply Rleb_false in E2. lra.
  - intros id id' Hid Hid' Hle. rewrite (Hv1 id Hid), (Hv1 id' Hid').
    destruct (Rleb (GetTuple1 (Scalars Image) id) t1) eqn:E1;
      destruct (Rleb (GetTuple1 (Scalars Image) id') t1) eqn:E2; try lra.
    apply Rleb_false in E1. apply Rleb_true in E2. lra.
Qed.

(** X11, witness: the striped image at thresholds 1 and 2. *)
Lemma X11_fixed_threshold_monotone_witness :
  0 < 1 <= 2 /\
  exists out1 out2,
    BinarizeAndConvertDoubleToChar StripedImage 1 = Ok out1 /\
    BinarizeAndConvertDoubleToChar StripedImage 2 = Ok out2 /\
    (forall id, (id < length (Scalars StripedImage))%nat ->
       GetTuple1 (Scalars out2) id <= GetTuple1 (Scalars out1) id) /\
    (forall id id', (id < length (Scalars StripedImage))%nat ->
       (id' < length (Scalars StripedImage))%nat ->
       GetTuple1 (Scalars StripedImage) id <= GetTuple1 (Scalars StripedImage) id' ->
       GetTuple1 (Scalars out1) id <= GetTuple1 (Scalars out1) id').
Proof.
  assert (H : 0 < 1 <= 2) by lra.
  split; [exact H|].
  exact (X11_fixed_threshold_monotone StripedImage 1 2 H).
Defined.

(** A double that is positive and in a binade of normal numbers: its
    rounding from the integer nearest to its significand. *)
Lemma ToDouble_eval (e n : Z) (x : R) :
  (-1022 <= e)%Z -> 0 < x -> powerRZ 2 e <= x < powerRZ 2 (e + 1) ->
  IZR n - 1 / 2 < x / powerRZ 2 (e - 52) < IZR n + 1 / 2 ->
  ToDouble x = IZR n * powerRZ 2 (e - 52).
Proof.
  intros He Hx Hb Hn. unfold ToDouble.
  replace (e - 52)%Z with (e - 53 + 1)%Z in * by lia.
  apply RoundBinary_eval; [exact He | rewrite Rabs_pos_eq by lra; exact Hb | exact Hn].
Qed.

(** [NearestTo055] is a double: 53 bits of significand at exponent -53. *)
Lemma NearestTo055_double : ToDouble NearestTo055 = NearestTo055.
Proof.
  assert (E : NearestTo055 = IZR 4953959590107546 * powerRZ 2 (-53)).
  { unfold NearestTo055. rewrite (powerRZ_2_neg 53).
    change (2 ^ 53)%Z with 9007199254740992%Z. reflexivity. }
  rewrite E. apply ToDouble_exact; lia.
Qed.

(** 255 * NearestTo055 is 140.25 - 77/2^53, and rounds to 140.25. *)
Lemma Product_055 : ToDouble (255 * NearestTo055) = 140.25.
Proof.
  rewrite (ToDouble_eval 7 4934608185458688).
  - change (7 - 52)%Z with (- 45)%Z. rewrite (powerRZ_2_neg 45).
    change (2 ^ 45)%Z with 35184372088832%Z. lra.
  - lia.
  - unfold NearestTo055. lra.
  - rewrite (powerRZ_2_IZR 7), (powerRZ_2_IZR (7 + 1)) by lia.
    change (2 ^ 7)%Z with 128%Z. change (2 ^ (7 + 1))%Z with 256%Z.
    unfold NearestTo055. lra.
  - change (7 - 52)%Z with (- 45)%Z. rewrite (powerRZ_2_neg 45).
    change (2 ^ 45)%Z with 35184372088832%Z.
    unfold NearestTo055. lra.
Qed.

(** 140.25 / NearestTo055 rounds to 255 - 2^-45, the double below 255. *)
Lemma Quotient_055 : ToDouble (140.25 / NearestTo055) = 255 - / 35184372088832.
Proof.
  assert (Hq : 140.25 / NearestTo055
               = 140.25 * 9007199254740992 / 4953959590107546).
  { unfold NearestTo055. field. }
  rewrite Hq.
  rewrite (ToDouble_eval 7 8972014882652159).
  - change (7 - 52)%Z with (- 45)%Z. rewrite (powerRZ_2_neg 45).
    change (2 ^ 45)%Z with 35184372088832%Z. lra.
  - lia.
  - lra.
  - rewrite (powerRZ_2_IZR 7), (powerRZ_2_IZR (7 + 1)) by lia.
    change (2 ^ 7)%Z with 128%Z. change (2 ^ (7 + 1))%Z with 256%Z. lra.
  - change (7 - 52)%Z with (- 45)%Z. rewrite (powerRZ_2_neg 45).
    change (2 ^ 45)%Z with 35184372088832%Z. lra.
Qed.

Lemma truncate_between (r : R) (n : Z) :
  (0 <= n)%Z -> IZR n <= r < IZR n + 1 -> truncate r = n.
Proof.
  intros Hn [Hlo Hhi]. unfold truncate.
  assert (H0 : 0 <= IZR n) by (apply IZR_le; exact Hn).
  destruct (Rle_dec 0 r) as [_ | Hneg]; [|exfalso; lra].
  symmetry. apply Int_part_spec. lra.
Qed.

(** The value the code writes for the voxel that holds the maximum of
    [FractionImage]: 254, not 255. *)
Lemma Rescaled_055 : truncate (RescaledDouble NearestTo055 0 NearestTo055) = 254%Z.
Proof.
  unfold RescaledDouble. rewrite Rminus_0_r, NearestTo055_double, Product_055.
  rewrite Quotient_055. apply truncate_between; [lia | lra].
Qed.

Lemma RescaledDouble_at_min (r0 r1 : R) : RescaledDouble r0 r0 r1 = 0.
Proof.
  unfold RescaledDouble. rewrite Rminus_diag, ToDouble_0, Rmult_0_r, ToDouble_0.
  unfold Rdiv. rewrite Rmult_0_l. apply ToDouble_0.
Qed.

Lemma FractionImage_range :
  RangeMin (Scalars FractionImage) = 0 /\
  RangeMax (Scalars FractionImage) = NearestTo055.
Proof.
  assert (H : 0 < NearestTo055) by (unfold NearestTo055; lra).
  simpl. unfold Rmin, Rmax.
  destruct (Rle_dec 0 NearestTo055) as [_ | Hn]; [split; reflexivity | lra].
Qed.

(** For integers below 2^16, such as the scalars of a 16-bit image, the
    rounding of the operations does not change what the cast gives: the
    differences and the product are exact, and the exact quotient stays at
    least 1/65535 below the next integer, which is more than a rounding. *)
Lemma Convert16_rounding_is_harmless (x r0 r1 : Z) :
  (0 <= r0 <= x)%Z -> (x <= r1)%Z -> (r0 < r1)%Z -> (r1 < 2 ^ 16)%Z ->
  truncate (RescaledDouble (IZR x) (IZR r0) (IZR r1))
  = truncate (255 * (IZR x - IZR r0) / (IZR r1 - IZR r0)).
Proof.
  intros Hx0 Hx1 Hr Hb.
  set (k := (x - r0)%Z). set (m := (r1 - r0)%Z).
  assert (Hk : (0 <= k <= m)%Z) by (unfold k, m; lia).
  assert (Hm : (0 < m < 2 ^ 16)%Z) by (unfold k, m; lia).
  assert (HmR : 0 < IZR m) by (apply IZR_lt; lia).
  unfold RescaledDouble.
  rewrite <- !minus_IZR. fold k m.
  rewrite (ToDouble_IZR k), (ToDouble_IZR m) by lia.
  replace (255 * IZR k) with (IZR (255 * k)) by (rewrite mult_IZR; reflexivity).
  rewrite (ToDouble_IZR (255 * k)) by lia.
  set (n := (255 * k / m)%Z).
  pose proof (Z.div_mod (255 * k) m ltac:(lia)) as Hdm. fold n in Hdm.
  pose proof (Z.mod_pos_bound (255 * k) m ltac:(lia)) as Hrem.
  set (r := ((255 * k) mod m)%Z) in *.
  assert (Hn : (0 <= n <= 255)%Z).
  { unfold n. split; [apply Z.div_pos; lia|].
    apply Z.div_le_upper_bound; [lia | nia]. }
  assert (Hq : IZR (255 * k) / IZR m = IZR n + IZR r / IZR m).
  { rewrite Hdm at 1. rewrite plus_IZR, mult_IZR. field. lra. }
  assert (Hr0 : 0 <= IZR r / IZR m).
  { apply Rmult_le_pos; [apply IZR_le; lia | left; apply Rinv_0_lt_compat; exact HmR]. }
  assert (Hr1 : IZR r / IZR m <= 1 - / 65536).
  { assert (Hrm : IZR r <= IZR m - 1).
    { rewrite <- minus_IZR. apply IZR_le. lia. }
    assert (Hm16 : IZR m <= 65535).
    { apply IZR_le. change (2 ^ 16)%Z with 65536%Z in Hm. lia. }
    apply (Rmult_le_reg_r (IZR m)); [exact HmR|].
    unfold Rdiv. rewrite Rmult_assoc, Rinv_l by lra. nra. }
  assert (Hexact : truncate (IZR (255 * k) / IZR m) = n).
  { apply truncate_between; [lia | rewrite Hq; lra]. }
  rewrite Hexact.
  apply truncate_between; [lia|].
  destruct (Z.eq_dec k 0) as [Hk0 | Hk0].
  { assert (En : n = 0%Z) by (unfold n; rewrite Hk0; reflexivity).
    rewrite Hk0, En. unfold Rdiv. rewrite Rmult_0_l, ToDouble_0. lra. }
  assert (Hpos : 0 < IZR (255 * k) / IZR m).
  { apply Rmult_lt_0_compat; [apply IZR_lt; lia | apply Rinv_0_lt_compat; exact HmR]. }
  split.
  - replace (IZR n) with (IZR n * powerRZ 2 0) by (simpl; lra).
    apply RoundBinary_ge; [lia | lia | lia | exact Hpos |].
    change (powerRZ 2 0) with 1. rewrite Hq. lra.
  - assert (Ey : IZR ((n + 1) * 65536 - 1) * powerRZ 2 (-16)
                 = IZR n + 1 - / 65536).
    { rewrite (powerRZ_2_neg 16). change (2 ^ 16)%Z with 65536%Z.
      rewrite minus_IZR, mult_IZR, plus_IZR. field. }
    assert (Hup : ToDouble (IZR (255 * k) / IZR m)
                  <= IZR ((n + 1) * 65536 - 1) * powerRZ 2 (-16)).
    { apply RoundBinary_le; [lia | lia | lia |].
      split; [exact Hpos | rewrite Ey, Hq; lra]. }
    rewrite Ey in Hup. lra.
Qed.

(** X12. With a threshold that is not positive the policy rescales, each
    operation of 255*(x-min)/(max-min) rounded to a double.  When the
    rounded range is not 0 it never fails, every output value is an integer
    of [0, 255], namely the truncation of the rounded quotient, and a voxel
    at the minimum becomes 0.  A voxel at the maximum need not become 255:
    on the grid that holds 0 and the double nearest to 0.55 the product
    rounds to 140.25, the quotient to the double below 255, and the voxel
    becomes 254.  On a non-empty grid whose values are all equal the policy
    divides by zero, and on an empty grid it returns an empty grid. *)
Theorem X12_rescale_branch :
  forall (Image : ImageData) (threshold : R),
    threshold <= 0 ->
    let a := Scalars Image in
    (ToDouble (RangeMax a - RangeMin a) <> 0 ->
     exists out,
       BinarizeAndConvertDoubleToChar Image threshold = Ok out /\
       Dim out = Dim Image /\
       length (Scalars out) = length a /\
       forall id, (id < length a)%nat ->
         GetTuple1 (Scalars out) id
         = ToUnsignedChar
             (truncate (RescaledDouble (GetTuple1 a id) (RangeMin a) (RangeMax a))) /\
         (exists n, (0 <= n <= 255)%Z /\ GetTuple1 (Scalars out) id = IZR n) /\
         (GetTuple1 a id = RangeMin a -> GetTuple1 (Scalars out) id = 0)) /\
    (a <> [] -> RangeMin a = RangeMax a ->
     BinarizeAndConvertDoubleToChar Image threshold = DivisionByZero) /\
    (a = [] ->
     BinarizeAndConvertDoubleToChar Image threshold = Ok (WithCharScalars Image [])) /\
    (exists out,
       BinarizeAndConvertDoubleToChar FractionImage threshold = Ok out /\
       GetTuple1 (Scalars FractionImage) 1 = RangeMax (Scalars FractionImage) /\
       GetTuple1 (Scalars out) 0 = 0 /\
       GetTuple1 (Scalars out) 1 = 254).
Proof.
  intros Image t Ht a.
  assert (Hbranch : Rgtb t 0 = false).
  { unfold Rgtb. apply Rltb_false. lra. }
  assert (Hok : forall im : ImageData,
            ToDouble (RangeMax (Scalars im) - RangeMin (Scalars im)) <> 0 ->
            exists out,
              BinarizeAndConvertDoubleToChar im t = Ok out /\
              Dim out = Dim im /\
              length (Scalars out) = length (Scalars im) /\
              forall id, (id < length (Scalars im))%nat ->
                GetTuple1 (Scalars out) id
                = ToUnsignedChar
                    (truncate (RescaledDouble (GetTuple1 (Scalars im) id)
                                 (RangeMin (Scalars im)) (RangeMax (Scalars im))))).
  { intros im Hne. unfold BinarizeAndConvertDoubleToChar. rewrite Hbranch.
    destruct (RescaleLoop_spec (Scalars im) (RangeMin (Scalars im))
                (RangeMax (Scalars im)) (length (Scalars im))
                (FillComponent (length (Scalars im)) 0)) as (out & Hrun & HL & Hval);
      [exact Hne | apply FillComponent_length|].
    rewrite Hrun. cbn [bind]. eexists. split; [reflexivity|].
    split; [reflexivity|]. cbn [Scalars WithCharScalars]. split; [exact HL|].
    exact Hval. }
  split; [|split; [|split]].
  - intros Hne. destruct (Hok Image Hne) as (out & Hrun & Hd & HL & Hval).
    exists out. split; [exact Hrun|]. split; [exact Hd|]. split; [exact HL|].
    intros id Hid. fold a in Hval. rewrite (Hval id Hid).
    split; [reflexivity|]. split.
    + unfold ToUnsignedChar. eexists. split; [|reflexivity].
      pose proof (Z.mod_pos_bound
                    (truncate (RescaledDouble (GetTuple1 a id) (RangeMin a) (RangeMax a)))
                    256 ltac:(lia)).
      lia.
    + intros ->. rewrite RescaledDouble_at_min.
      rewrite (truncate_IZR 0) by lia. reflexivity.
  - intros Hne Heq. unfold BinarizeAndConvertDoubleToChar. rewrite Hbranch. fold a.
    rewrite RescaleLoop_zero_range; [reflexivity | lra |].
    destruct a; [congruence | simpl; lia].
  - intros He. unfold BinarizeAndConvertDoubleToChar. rewrite Hbranch. fold a.
    rewrite He. reflexivity.
  - destruct FractionImage_range as [Emin Emax].
    destruct (Hok FractionImage) as (out & Hrun & _ & _ & Hval).
    { rewrite Emin, Emax, Rminus_0_r, NearestTo055_double.
      unfold NearestTo055. lra. }
    exists out. split; [exact Hrun|]. split; [rewrite Emax; reflexivity|].
    rewrite (Hval 0%nat), (Hval 1%nat) by (simpl; lia).
    rewrite Emin, Emax.
    change (GetTuple1 (Scalars FractionImage) 0) with 0.
    change (GetTuple1 (Scalars FractionImage) 1) with NearestTo055.
    rewrite RescaledDouble_at_min, Rescaled_055.
    rewrite (truncate_IZR 0) by lia. split; reflexivity.
Qed.

(** X12, witness: the striped image, of values 1 and 9, rescaled with the
    threshold 0; the range 8 is a double, and the voxels that hold 1
    become 0. *)
Lemma X12_rescale_branch_witness :
  (0 <= 0 /\
   ToDouble (RangeMax (Scalars StripedImage) - RangeMin (Scalars StripedImage)) <> 0) /\
  exists out, BinarizeAndConvertDoubleToChar StripedImage 0 = Ok out /\
              Dim out = Dim StripedImage /\
              GetTuple1 (Scalars out) 0 = 0 /\
              GetTuple1 (Scalars out) 2 = 0.
Proof.
  assert (H : 0 <= 0) by lra.
  assert (Hr : RangeMin (Scalars StripedImage) = 1 /\
               RangeMax (Scalars StripedImage) = 9).
  { simpl. unfold Rmin, Rmax.
    repeat (destruct (Rle_dec _ _); try lra). }
  destruct Hr as [Emin Emax].
  assert (Hne : ToDouble (RangeMax (Scalars StripedImage)
                          - RangeMin (Scalars StripedImage)) <> 0).
  { rewrite Emin, Emax. replace (9 - 1) with (IZR 8) by lra.
    rewrite ToDouble_IZR by (simpl; lia). lra. }
  split; [split; [exact H | exact Hne]|].
  destruct (proj1 (X12_rescale_branch StripedImage 0 H) Hne)
    as (out & Hrun & Hd & _ & Hval).
  exists out. split; [exact Hrun|]. split; [exact Hd|]. split.
  - apply (proj2 (proj2 (Hval 0%nat ltac:(simpl; lia)))).
    rewrite Emin. reflexivity.
  - apply (proj2 (proj2 (Hval 2%nat ltac:(simpl; lia)))).
    rewrite Emin. reflexivity.
Defined.

(** ** Per-plane binarization *)

Lemma PlaneThreshold_ge_min (mu sd mn mx base : R) :
  mn <= mx -> mn <= PlaneThreshold mu sd mn mx base.
Proof.
  intros Hle. unfold PlaneThreshold.
  set (t1 := if Rgtb (mu + sd * base * 2) mx then mx * 0.8 else mu + sd * base * 2).
  destruct (Rltb t1 mn) eqn:E.
  - lra.
  - apply Rltb_false in E. lra.
Qed.

Lemma In_PlaneValues (Image : ImageData) (z : nat) (v : R) :
  In v (PlaneValues Image z) <->
  exists x y, (x < DimX Image)%nat /\ (y < DimY Image)%nat /\
              v = GetTuple1 (Scalars Image) (GetId x y z (Dim Image)).
Proof.
  unfold PlaneValues. rewrite in_map_iff. split.
  - intros ([x y] & Hv & Hin). apply in_plane_coordinates in Hin.
    exists x, y. simpl in *. intuition.
  - intros (x & y & Hx & Hy & Hv). exists (x, y). split; [symmetry; exact Hv|].
    apply in_plane_coordinates. simpl. split; assumption.
Qed.

(** The threshold of a plane is never below the running minimum of its
    first pass, and a value below every value of the plane and below
    DBL_MAX is below that minimum. *)
Lemma ZPlaneThreshold_ge_min (Image : ImageData) (base : R) (z : nat) (t v : R) :
  (0 < DimX Image)%nat -> (0 < DimY Image)%nat ->
  ZPlaneThreshold Image base z = Ok t ->
  v <= DBL_MAX ->
  (forall w, In w (PlaneValues Image z) -> v <= w) ->
  v <= t.
Proof.
  intros Hx Hy Ht Hmax Hlow. unfold ZPlaneThreshold in Ht.
  rewrite checked_div_nonzero in Ht by (apply plane_pixels_nonzero; assumption).
  cbn [bind] in Ht.
  rewrite checked_div_nonzero in Ht by (apply plane_pixels_nonzero; assumption).
  cbn [bind] in Ht. injection Ht as <-.
  apply Rle_trans with (stat_min (PlaneFirstPass Image z)).
  - rewrite PlaneFirstPass_fold.
    destruct (StatsBody_fold (PlaneValues Image z) (mkPlaneStats 0 DBL_MAX DBL_MIN))
      as (_ & -> & _). cbn [stat_min].
    destruct (fold_left_Rmin_in (PlaneValues Image z) DBL_MAX) as [-> | Hin];
      [exact Hmax | apply Hlow; exact Hin].
  - apply PlaneThreshold_ge_min.
    rewrite PlaneFirstPass_fold.
    destruct (StatsBody_fold (PlaneValues Image z) (mkPlaneStats 0 DBL_MAX DBL_MIN))
      as (_ & -> & ->). cbn [stat_min stat_max].
    set (vals := PlaneValues Image z).
    assert (Hne : exists v0, In v0 vals).
    { pose proof (PlaneValues_length Image z) as HL. fold vals in HL.
      destruct vals as [|v0 r]; [simpl in HL; nia | exists v0; left; reflexivity]. }
    destruct Hne as (v0 & Hv0).
    pose proof (proj2 (fold_left_Rmin_le vals DBL_MAX) v0 Hv0).
    pose proof (proj2 (fold_left_Rmax_ge vals DBL_MIN) v0 Hv0). lra.
Qed.

(** X13. On a grid with at least one voxel per plane the per-plane policy
    never divides by zero; its output has the dimensions of the input and
    holds only 0 and 255, and in every plane a voxel whose value is the
    smallest of the plane (and at most DBL_MAX) becomes 0, whatever the base
    threshold. *)
Theorem X13_per_plane_binarizes :
  forall (Image : ImageData) (base : R),
    (0 < DimX Image)%nat -> (0 < DimY Image)%nat ->
    length (Scalars Image) = GetNumberOfPoints Image ->
    exists out,
      BinarizeAndConvertDoubleToCharZAdaptive Image base = Ok out /\
      Dim out = Dim Image /\
      length (Scalars out) = length (Scalars Image) /\
      IsBinary (Scalars out) /\
      forall x y z,
        (x < DimX Image)%nat -> (y < DimY Image)%nat -> (z < DimZ Image)%nat ->
        GetTuple1 (Scalars Image) (GetId x y z (Dim Image)) <= DBL_MAX ->
        (forall x' y', (x' < DimX Image)%nat -> (y' < DimY Image)%nat ->
           GetTuple1 (Scalars Image) (GetId x y z (Dim Image))
           <= GetTuple1 (Scalars Image) (GetId x' y' z (Dim Image))) ->
        GetTuple1 (Scalars out) (GetId x y z (Dim Image)) = 0.
Proof.
  intros Image base Hx Hy Hlen.
  unfold BinarizeAndConvertDoubleToCharZAdaptive.
  destruct (ZPlaneLoop_spec Image base (FillComponent (length (Scalars Image)) 0) Hx Hy)
    as (out & Hrun & HL & Hval).
  { rewrite FillComponent_length. exact Hlen. }
  rewrite Hrun. cbn [bind]. eexists. split; [reflexivity|].
  split; [reflexivity|]. cbn [Scalars WithCharScalars].
  split; [congruence|]. split.
  - intros v Hv. destruct (In_GetTuple1 out v Hv) as (id & Hid & <-).
    rewrite HL in Hid. unfold GetNumberOfPoints, DimX, DimY, DimZ in *.
    destruct (Dim Image) as [[dx dy] dz] eqn:ED. cbn [fst snd] in *.
    destruct (GetId_of_coordinates dx dy dz id Hx Hy) as (Eid & HX & HY & HZ).
    specialize (HZ Hid).
    destruct (ZPlaneThreshold_ok Image base (GetZ id (dx, dy, dz))) as (t & Ht).
    { unfold DimX. rewrite ED. exact Hx. }
    { unfold DimY. rewrite ED. exact Hy. }
    pose proof (Hval _ t HZ Ht _ _ HX HY) as E. rewrite Eid in E. rewrite E.
    destruct (Rleb (GetTuple1 (Scalars Image) id) t); [left | right]; reflexivity.
  - intros x y z Hx' Hy' Hz Hmax Hlow.
    destruct (ZPlaneThreshold_ok Image base z Hx Hy) as (t & Ht).
    rewrite (Hval z t Hz Ht x y Hx' Hy').
    rewrite (proj2 (Rleb_true _ _)); [reflexivity|].
    apply (ZPlaneThreshold_ge_min Image base z t _ Hx Hy Ht Hmax).
    intros w Hw. apply In_PlaneValues in Hw.
    destruct Hw as (x' & y' & Hx'' & Hy'' & ->). apply Hlow; assumption.
Qed.

(** X13, witness: the striped image. *)
Lemma X13_per_plane_witness :
  ((0 < DimX StripedImage)%nat /\ (0 < DimY StripedImage)%nat /\
   length (Scalars StripedImage) = GetNumberOfPoints StripedImage) /\
  exists out,
    BinarizeAndConvertDoubleToCharZAdaptive StripedImage 1 = Ok out /\
    IsBinary (Scalars out).
Proof.
  assert (Hx : (0 < DimX StripedImage)%nat) by (vm_compute; lia).
  assert (Hy : (0 < DimY StripedImage)%nat) by (vm_compute; lia).
  assert (HL : length (Scalars StripedImage) = GetNumberOfPoints StripedImage)
    by reflexivity.
  split; [repeat split; assumption|].
  destruct (X13_per_plane_binarizes StripedImage 1 Hx Hy HL)
    as (out & Hrun & _ & _ & Hb & _).
  exists out. split; assumption.
Defined.

(** ** Per-block conservative binarization *)

Lemma In_SetTuple1 (a : DataArray) :
  forall (id : nat) (x v : R), In v (SetTuple1 a id x) -> v = x \/ In v a.
Proof.
  induction a as [|h t IH]; intros id x v H; simpl in *; [tauto|].
  destruct id as [|k]; simpl in H.
  - destruct H as [<- | H]; auto.
  - destruct H as [<- | H]; [auto|].
    destruct (IH k x v H); auto.
Qed.

Lemma IsBinary_FillComponent (N : nat) : IsBinary (FillComponent N 0).
Proof. intros v Hv. apply repeat_spec in Hv. left. exact Hv. Qed.

(** The third pass over a block writes only 0 and 255 and keeps the length
    of the output array. *)
Lemma BlockApply_binary (Image : ImageData) (z_start z_end : nat) (t : R)
      (out : DataArray) :
  IsBinary out ->
  IsBinary (BlockApply Image z_start z_end t out) /\
  length (BlockApply Image z_start z_end t out) = length out.
Proof.
  intros Hb. unfold BlockApply, for_range.
  set (P := fun (_ : nat) (s : DataArray) => IsBinary s /\ length s = length out).
  apply (fold_seq_inv P _ (z_end - z_start) z_start out); [split; [exact Hb | reflexivity]|].
  intros z s _ Hs.
  apply (for_up_inv P); [exact Hs|].
  intros x s1 _ Hs1.
  apply (for_up_inv P); [exact Hs1|].
  intros y s2 _ [Hb2 HL2]. unfold P. cbv zeta.
  destruct (Rleb _ _); (split; [|rewrite SetTuple1_length; exact HL2]);
    intros v Hv; destruct (In_SetTuple1 _ _ _ _ Hv) as [-> | Hin]; auto.
Qed.

Lemma BlockBody_binary (Image : ImageData) (base : R) (z_block_size z_start : nat)
      (out out' : DataArray) :
  BlockBody Image base z_block_size z_start out = Ok out' ->
  IsBinary out -> IsBinary out' /\ length out' = length out.
Proof.
  unfold BlockBody. intros H Hb.
  destruct (checked_div _ _) as [mu|]; [cbn [bind] in H | discriminate].
  destruct (checked_div _ _) as [q|]; [cbn [bind] in H | discriminate].
  destruct (ConservativeThreshold _ _ _ _ _ _ _) as [t|]; [cbn [bind] in H | discriminate].
  injection H as <-. apply BlockApply_binary. exact Hb.
Qed.

Lemma BlockLoop_binary (Image : ImageData) (base : R) (z_block_size : nat) :
  forall (fuel z_start : nat) (out out' : DataArray),
    BlockLoop fuel Image base z_block_size z_start out = Some (Ok out') ->
    IsBinary out -> IsBinary out' /\ length out' = length out.
Proof.
  induction fuel as [|fuel IH]; intros z_start out out' H Hb; simpl in H; [discriminate|].
  destruct (z_start <? DimZ Image)%nat.
  - destruct (BlockBody Image base z_block_size z_start out) as [out1|] eqn:E;
      [|discriminate].
    destruct (BlockBody_binary _ _ _ _ _ _ E Hb) as [Hb1 HL1].
    destruct (IH _ _ _ H Hb1) as [Hb' HL']. split; [exact Hb' | congruence].
  - injection H as <-. split; [exact Hb | reflexivity].
Qed.

(** More fuel does not change the answer of a loop that has ended. *)
Lemma BlockLoop_more_fuel (Image : ImageData) (base : R) (z_block_size : nat) :
  forall (fuel fuel' z_start : nat) (out : DataArray) (r : Checked DataArray),
    BlockLoop fuel Image base z_block_size z_start out = Some r ->
    (fuel <= fuel')%nat ->
    BlockLoop fuel' Image base z_block_size z_start out = Some r.
Proof.
  induction fuel as [|fuel IH]; intros fuel' z_start out r H Hle; simpl in H;
    [discriminate|].
  destruct fuel' as [|fuel']; [lia|]. simpl.
  destruct (z_start <? DimZ Image)%nat; [|exact H].
  destruct (BlockBody Image base z_block_size z_start out) as [out1|]; [|exact H].
  apply (IH fuel' _ _ _ H). lia.
Qed.

(** A block without planes has no pixels: the mean is a division by 0. *)
Lemma BlockBody_empty_block (Image : ImageData) (base : R) (z_start : nat)
      (out : DataArray) :
  (z_start < DimZ Image)%nat ->
  BlockBody Image base 0 z_start out = DivisionByZero.
Proof.
  intros Hz. unfold BlockBody. rewrite Nat.add_0_r.
  rewrite (proj2 (Nat.ltb_lt _ _) Hz). rewrite Nat.sub_diag, Nat.mul_0_r.
  unfold checked_div at 1. simpl INR.
  destruct (Req_dec_T 0 0) as [_ | Hn]; [reflexivity | contradiction].
Qed.

(** X14. With a block size of at least 1, on a grid with at least one voxel
    per plane, the per-block policy ends within Dim[2]+1 tests of its loop
    condition and never divides by zero; its output has the dimensions and
    the number of values of the input and holds only 0 and 255.  With a
    block size of 0 and at least one plane the first block has no pixels and
    its mean is a division by zero. *)
Theorem X14_per_block_binarizes :
  forall (Image : ImageData) (base : R) (z_block_size : nat),
    (0 < DimX Image)%nat -> (0 < DimY Image)%nat ->
    ((1 <= z_block_size)%nat ->
     exists out,
       (forall fuel, (DimZ Image < fuel)%nat ->
          BinarizeAndConvertDoubleToCharZAdaptiveConservative
            fuel Image base z_block_size = Some (Ok out)) /\
       Dim out = Dim Image /\
       length (Scalars out) = length (Scalars Image) /\
       IsBinary (Scalars out)) /\
    (z_block_size = 0%nat -> (0 < DimZ Image)%nat ->
     forall fuel, (0 < fuel)%nat ->
       BinarizeAndConvertDoubleToCharZAdaptiveConservative
         fuel Image base z_block_size = Some DivisionByZero).
Proof.
  intros Image base bs Hx Hy. split.
  - intros Hb.
    destruct (BlockLoop_ok Image base bs Hx Hy Hb (DimZ Image) 0%nat
                (FillComponent (length (Scalars Image)) 0)) as (out & Hrun); [lia|].
    destruct (BlockLoop_binary _ _ _ _ _ _ _ Hrun (IsBinary_FillComponent _))
      as [Hbin HL].
    exists (WithCharScalars Image out). split; [|split; [reflexivity|split]].
    + intros fuel Hf. unfold BinarizeAndConvertDoubleToCharZAdaptiveConservative.
      rewrite (BlockLoop_more_fuel _ _ _ _ fuel _ _ _ Hrun) by lia. reflexivity.
    + cbn [Scalars WithCharScalars]. rewrite HL. apply FillComponent_length.
    + exact Hbin.
  - intros -> Hz fuel Hf. destruct fuel as [|fuel]; [lia|].
    unfold BinarizeAndConvertDoubleToCharZAdaptiveConservative. simpl BlockLoop.
    rewrite (proj2 (Nat.ltb_lt _ _) Hz).
    rewrite BlockBody_empty_block by exact Hz. reflexivity.
Qed.

(** X14, witness: the striped image in blocks of one plane. *)
Lemma X14_per_block_witness :
  ((0 < DimX StripedImage)%nat /\ (0 < DimY StripedImage)%nat /\ (1 <= 1)%nat) /\
  exists out,
    BinarizeAndConvertDoubleToCharZAdaptiveConservative 2 StripedImage 1 1
    = Some (Ok out) /\ IsBinary (Scalars out).
Proof.
  assert (Hx : (0 < DimX StripedImage)%nat) by (vm_compute; lia).
  assert (Hy : (0 < DimY StripedImage)%nat) by (vm_compute; lia).
  assert (Hb : (1 <= 1)%nat) by lia.
  split; [repeat split; assumption|].
  destruct (X14_per_block_binarizes StripedImage 1 1 Hx Hy) as (Hok & _).
  destruct (Hok Hb) as (out & Hrun & _ & _ & Hbin).
  exists out. split; [apply Hrun; vm_compute; lia | exact Hbin].
Defined.

Ltac split_comparisons :=
  repeat match goal with
         | |- context [Rltb ?a ?b] =>
             let E := fresh "E" in
             destruct (Rltb a b) eqn:E;
             [apply Rltb_true in E | apply Rltb_false in E]
         end.

(** X15. The threshold of a block is clamped.  Writing range for the
    block's max - min (replaced by 1 below 1e-6), a block counts as very
    dark when its mean is below a tenth of the global range or its
    brightness factor (mean - min) / range is below 0.2.  No division
    fails; in a very dark block the threshold is at most mean + 3 std, and
    at least min + 0.01 range when that is not above the cap; in any other
    block, for a base threshold that is not negative, it lies between
    min + 0.3 base range and min + 3 base range. *)
Theorem X15_conservative_threshold_clamped :
  forall (g0 g1 base mu sd mn mx : R),
    0 <= base ->
    let range := if Rltb (mx - mn) 1e-6 then 1 else mx - mn in
    let dark := Rltb mu ((g1 - g0) * 0.1) || Rltb ((mu - mn) / range) 0.2 in
    exists t,
      ConservativeThreshold g0 g1 base mu sd mn mx = Ok t /\
      (dark = true ->
       t <= mu + sd * 3 /\
       (mn + range * 0.01 <= mu + sd * 3 -> mn + range * 0.01 <= t)) /\
      (dark = false ->
       mn + range * (base * 0.3) <= t <= mn + range * (base * 3)).
Proof.
  intros g0 g1 base mu sd mn mx Hbase range dark.
  assert (Hr : 0 < range).
  { unfold range. destruct (Rltb (mx - mn) 1e-6) eqn:E; [lra|].
    apply Rltb_false in E. lra. }
  unfold ConservativeThreshold. fold range.
  rewrite (checked_div_nonzero (mu - mn) range) by lra. cbn [bind].
  assert (Hcv : exists cv, (if Rgtb mu 0 then checked_div sd mu else Ok 0) = Ok cv).
  { unfold Rgtb. destruct (Rltb 0 mu) eqn:E; [|eexists; reflexivity].
    apply Rltb_true in E. rewrite checked_div_nonzero by lra. eexists. reflexivity. }
  destruct Hcv as (cv & ->). cbn [bind]. fold dark.
  eexists. split; [reflexivity|].
  assert (Hrb : 0 <= range * base) by (apply Rmult_le_pos; lra).
  split; intros Hd; rewrite Hd.
  - unfold Rgtb. split; [|intros Hcap]; split_comparisons; lra.
  - unfold Rgtb. split; split_comparisons; lra.
Qed.

(** X15, witness: a bright block and base threshold 1. *)
Lemma X15_conservative_threshold_witness :
  0 <= 1 /\
  exists t, ConservativeThreshold 0 10 1 5 1 0 10 = Ok t.
Proof.
  assert (H : 0 <= 1) by lra.
  split; [exact H|].
  destruct (X15_conservative_threshold_clamped 0 10 1 5 1 0 10 H) as (t & Ht & _).
  exists t. exact Ht.
Defined.

(** ** Normalization to 8 bit *)

Lemma truncate_mono (p q : R) : 0 <= p <= q -> (truncate p <= truncate q)%Z.
Proof.
  intros [H0 Hpq]. unfold truncate.
  destruct (Rle_dec 0 p) as [_ | Hn]; [|contradiction].
  destruct (Rle_dec 0 q) as [_ | Hn]; [|exfalso; apply Hn; lra].
  destruct (base_Int_part p) as [Hp _]. destruct (base_Int_part q) as [_ Hq].
  assert (Hlt : IZR (Int_part p) < IZR (Int_part q + 1)) by (rewrite plus_IZR; lra).
  apply lt_IZR in Hlt. lia.
Qed.

(** The rescaling keeps the order of the values. *)
Lemma Rescaled_mono (x x' r0 r1 : R) :
  r0 <= x <= x' -> x' <= r1 -> r0 < r1 ->
  ToUnsignedChar (truncate (255 * (x - r0) / (r1 - r0)))
  <= ToUnsignedChar (truncate (255 * (x' - r0) / (r1 - r0))).
Proof.
  intros [H0 Hxx] H1 Hlt.
  assert (Hq : forall u, r0 <= u <= r1 -> 0 <= 255 * (u - r0) / (r1 - r0) <= 255).
  { intros u [Hu0 Hu1]. split.
    - apply Rmult_le_pos; [nra | left; apply Rinv_0_lt_compat; lra].
    - apply (Rmult_le_reg_r (r1 - r0)); [lra|].
      unfold Rdiv. rewrite Rmult_assoc, Rinv_l by lra. nra. }
  destruct (truncate_byte _ (Hq x ltac:(lra))) as [Hb _].
  destruct (truncate_byte _ (Hq x' ltac:(lra))) as [Hb' _].
  rewrite !ToUnsignedChar_byte by assumption.
  apply IZR_le. apply truncate_mono. split; [apply Hq; lra|].
  apply (Rmult_le_reg_r (r1 - r0)); [lra|].
  unfold Rdiv. rewrite !Rmult_assoc, Rinv_l by lra. nra.
Qed.

(** X16. The global normalization returns an 8-bit image as it is.  A
    16-bit image that holds two different values becomes an unsigned-char
    image of the same dimensions whose values are integers of [0, 255]: the
    minimum becomes 0, the maximum 255, the order of the values is kept,
    and normalizing the result again changes nothing.  A non-empty 16-bit
    image whose values are all equal makes the normalization divide by
    zero. *)
Theorem X16_Convert16To8bit :
  forall (Image : ImageData),
    let a := Scalars Image in
    (GetScalarType Image = VTK_UNSIGNED_CHAR -> Convert16To8bit Image = Ok (Some Image)) /\
    (GetScalarType Image = VTK_UNSIGNED_SHORT -> RangeMin a < RangeMax a ->
     exists out,
       Convert16To8bit Image = Ok (Some out) /\
       Dim out = Dim Image /\
       GetScalarType out = VTK_UNSIGNED_CHAR /\
       length (Scalars out) = length a /\
       (forall id, (id < length a)%nat ->
          (exists n, (0 <= n <= 255)%Z /\ GetTuple1 (Scalars out) id = IZR n) /\
          (GetTuple1 a id = RangeMin a -> GetTuple1 (Scalars out) id = 0) /\
          (GetTuple1 a id = RangeMax a -> GetTuple1 (Scalars out) id = 255)) /\
       (forall id id', (id < length a)%nat -> (id' < length a)%nat ->
          GetTuple1 a id <= GetTuple1 a id' ->
          GetTuple1 (Scalars out) id <= GetTuple1 (Scalars out) id') /\
       Convert16To8bit out = Ok (Some out)) /\
    (GetScalarType Image = VTK_UNSIGNED_SHORT -> a <> [] -> RangeMin a = RangeMax a ->
     Convert16To8bit Image = DivisionByZero).
Proof.
  intros Image a. split; [|split].
  - intros Ht. unfold Convert16To8bit. rewrite Ht. reflexivity.
  - intros Ht Hlt. unfold Convert16To8bit. rewrite Ht. fold a.
    destruct (Convert16Loop_spec a (RangeMin a) (RangeMax a) (length a)
                (FillComponent (length a) 0)) as (out & Hrun & HL & Hval);
      [lra | apply FillComponent_length|].
    rewrite Hrun. cbn [bind]. eexists. split; [reflexivity|].
    split; [reflexivity|]. split; [reflexivity|].
    cbn [Scalars WithCharScalars]. split; [exact HL|].
    assert (Hrange : forall id, (id < length a)%nat ->
                                RangeMin a <= GetTuple1 a id <= RangeMax a).
    { intros id Hid. pose proof (GetTuple1_In a id Hid) as Hin.
      split; [apply RangeMin_lower | apply RangeMax_upper]; exact Hin. }
    split; [|split; [|reflexivity]].
    + intros id Hid. rewrite (Hval id Hid).
      apply Rescaled_byte; [apply Hrange; exact Hid | exact Hlt].
    + intros id id' Hid Hid' Hle. rewrite (Hval id Hid), (Hval id' Hid').
      pose proof (Hrange id Hid). pose proof (Hrange id' Hid').
      apply Rescaled_mono; lra.
  - intros Ht Hne Heq. unfold Convert16To8bit. rewrite Ht. fold a.
    rewrite Convert16Loop_zero_range; [reflexivity | lra |].
    destruct a; [congruence | simpl; lia].
Qed.

(** X16, witness: a 16-bit image of two voxels. *)
Lemma X16_Convert16To8bit_witness :
  (GetScalarType ShortImage = VTK_UNSIGNED_SHORT /\
   RangeMin (Scalars ShortImage) < RangeMax (Scalars ShortImage)) /\
  exists out,
    Convert16To8bit ShortImage = Ok (Some out) /\
    GetTuple1 (Scalars out) 0 = 0 /\ GetTuple1 (Scalars out) 1 = 255.
Proof.
  assert (Ht : GetScalarType ShortImage = VTK_UNSIGNED_SHORT) by reflexivity.
  assert (Hr : RangeMin (Scalars ShortImage) = 100 /\ RangeMax (Scalars ShortImage) = 300).
  { simpl. unfold Rmin, Rmax. destruct (Rle_dec 100 300); [split; reflexivity | lra]. }
  destruct Hr as [Hmin Hmax].
  assert (Hlt : RangeMin (Scalars ShortImage) < RangeMax (Scalars ShortImage))
    by (rewrite Hmin, Hmax; lra).
  split; [split; assumption|].
  destruct (proj1 (proj2 (X16_Convert16To8bit ShortImage)) Ht Hlt)
    as (out & Hrun & _ & _ & _ & Hval & _).
  exists out. split; [exact Hrun|]. split.
  - apply (Hval 0%nat); [simpl; lia | rewrite Hmin; reflexivity].
  - apply (Hval 1%nat); [simpl; lia | rewrite Hmax; reflexivity].
Defined.

(** ** Loops that write a grid plane by plane *)

(** Writing [g id] at every voxel of plane z. *)
Lemma PlaneWrite_spec (Image : ImageData) (z : nat) (g : nat -> R) (out : DataArray) :
  let res := for_up (DimX Image) (fun x o =>
               for_up (DimY Image) (fun y o =>
                 SetTuple1 o (FindPoint Image x y z) (g (FindPoint Image x y z))) o) out in
  length res = length out /\
  (forall x y, (x < DimX Image)%nat -> (y < DimY Image)%nat ->
     (GetId x y z (Dim Image) < length out)%nat ->
     GetTuple1 res (GetId x y z (Dim Image)) = g (GetId x y z (Dim Image))) /\
  (forall id,
     (forall x y, (x < DimX Image)%nat -> (y < DimY Image)%nat ->
                  GetId x y z (Dim Image) <> id) ->
     GetTuple1 res id = GetTuple1 out id).
Proof.
  intros res.
  set (idx := fun p : nat * nat => GetId (fst p) (snd p) z (Dim Image)).
  set (keys := list_prod (seq 0 (DimX Image)) (seq 0 (DimY Image))).
  assert (E : res = fold_left (fun o k => SetTuple1 o (idx k) (g (idx k))) keys out).
  { unfold res. rewrite for_up_nested. reflexivity. }
  rewrite E.
  destruct (fold_set_by_index idx g keys out) as (HL & Hin & Hout).
  split; [exact HL|]. split.
  - intros x y Hx Hy Hlt. apply Hin; [|exact Hlt].
    apply in_map_iff. exists (x, y). split; [reflexivity|].
    apply in_plane_coordinates. simpl. lia.
  - intros id Hno. apply Hout. intros Hi. apply in_map_iff in Hi.
    destruct Hi as ([x y] & Hid & Hp). apply in_plane_coordinates in Hp.
    simpl in Hp. apply (Hno x y); [lia | lia | exact Hid].
Qed.

(** A loop over the planes whose pass over plane z writes [G z id] at every
    voxel of the plane. *)
Lemma VolumeWrite_spec (Image : ImageData) (G : nat -> nat -> R)
      (body : nat -> DataArray -> DataArray) (out0 : DataArray) :
  (forall z o, body z o
     = for_up (DimX Image) (fun x o' =>
         for_up (DimY Image) (fun y o' =>
           SetTuple1 o' (FindPoint Image x y z) (G z (FindPoint Image x y z))) o') o) ->
  length out0 = GetNumberOfPoints Image ->
  length (for_up (DimZ Image) body out0) = GetNumberOfPoints Image /\
  forall x y z, (x < DimX Image)%nat -> (y < DimY Image)%nat -> (z < DimZ Image)%nat ->
    GetTuple1 (for_up (DimZ Image) body out0) (GetId x y z (Dim Image))
    = G z (GetId x y z (Dim Image)).
Proof.
  intros Hbody Hlen.
  set (P := fun (k : nat) (out : DataArray) =>
              length out = GetNumberOfPoints Image /\
              forall x y z, (x < DimX Image)%nat -> (y < DimY Image)%nat -> (z < k)%nat ->
                GetTuple1 out (GetId x y z (Dim Image)) = G z (GetId x y z (Dim Image))).
  assert (HP : P (DimZ Image) (for_up (DimZ Image) body out0)).
  { apply (for_up_inv P).
    - split; [exact Hlen | intros x y z _ _ Hz; lia].
    - intros k out Hk [HL Hdone]. rewrite Hbody.
      destruct (PlaneWrite_spec Image k (G k) out) as (HL' & Hin & Hout).
      split; [rewrite HL'; exact HL|].
      intros x y z Hx Hy Hz.
      destruct (Nat.eq_dec z k) as [-> | Hne].
      + apply Hin; [exact Hx | exact Hy |].
        rewrite HL. unfold GetNumberOfPoints, DimX, DimY, DimZ in *.
        destruct (Dim Image) as [[dx dy] dz]. simpl in *.
        apply GetId_lt; assumption.
      + rewrite Hout; [apply Hdone; [exact Hx | exact Hy | lia]|].
        intros x' y' Hx' Hy' E.
        unfold DimX, DimY in *. destruct (Dim Image) as [[dx dy] dz]. simpl in *.
        apply GetId_inj in E; [|assumption..]. lia. }
  destruct HP as [HL Hv]. split; [exact HL|]. intros x y z Hx Hy Hz.
  apply Hv; assumption.
Qed.

(** ** Independent normalization of each plane *)

Lemma PlaneMinMax_fold (Image : ImageData) (z : nat) :
  PlaneMinMax Image z
  = (fold_left Rmin (PlaneValues Image z) DBL_MAX,
     fold_left Rmax (PlaneValues Image z) DBL_MIN).
Proof.
  unfold PlaneMinMax, PlaneValues. rewrite for_up_nested.
  rewrite <- !(fold_left_map
                (fun p => GetTuple1 (Scalars Image) (GetId (fst p) (snd p) z (Dim Image)))).
  generalize (list_prod (seq 0 (DimX Image)) (seq 0 (DimY Image))).
  generalize DBL_MAX, DBL_MIN.
  intros m M l. revert m M. induction l as [|p l IH]; intros m M; simpl; [reflexivity|].
  rewrite IH. f_equal; f_equal.
  - unfold Rltb, Rmin.
    destruct (Rlt_dec _ m); destruct (Rle_dec m _); lra.
  - unfold Rgtb, Rltb, Rmax.
    destruct (Rlt_dec M _); destruct (Rle_dec M _); lra.
Qed.

Lemma NormalizePlane_writes (Image : ImageData) (z : nat) (o : DataArray) :
  NormalizePlane Image z o
  = for_up (DimX Image) (fun x o' =>
      for_up (DimY Image) (fun y o' =>
        SetTuple1 o' (FindPoint Image x y z)
                  (NormalizedValue Image z (FindPoint Image x y z))) o') o.
Proof.
  unfold NormalizePlane, NormalizedValue.
  destruct (PlaneMinMax Image z) as [z_min z_max]. cbn [fst snd].
  destruct (Rgtb (z_max - z_min) 0); reflexivity.
Qed.

Lemma PlaneValues_nonempty (Image : ImageData) (z : nat) :
  (0 < DimX Image)%nat -> (0 < DimY Image)%nat -> PlaneValues Image z <> [].
Proof.
  intros Hx Hy E. apply (f_equal (@length R)) in E.
  rewrite PlaneValues_length in E. simpl in E. nia.
Qed.

(** The running minimum and maximum of a plane enclose its values. *)
Lemma PlaneMinMax_encloses (Image : ImageData) (z : nat) (v : R) :
  In v (PlaneValues Image z) ->
  fst (PlaneMinMax Image z) <= v <= snd (PlaneMinMax Image z).
Proof.
  intros Hv. rewrite PlaneMinMax_fold. cbn [fst snd]. split.
  - apply (proj2 (fold_left_Rmin_le _ DBL_MAX)). exact Hv.
  - apply (proj2 (fold_left_Rmax_ge _ DBL_MIN)). exact Hv.
Qed.

(** Every value a plane receives is a byte. *)
Lemma NormalizedValue_byte (Image : ImageData) (x y z : nat) :
  (x < DimX Image)%nat -> (y < DimY Image)%nat ->
  exists n, (0 <= n <= 255)%Z /\
            NormalizedValue Image z (GetId x y z (Dim Image)) = IZR n.
Proof.
  intros Hx Hy. unfold NormalizedValue.
  assert (Hin : In (GetTuple1 (Scalars Image) (GetId x y z (Dim Image)))
                   (PlaneValues Image z)).
  { apply In_PlaneValues. exists x, y. repeat split; assumption. }
  pose proof (PlaneMinMax_encloses Image z _ Hin) as Henc.
  unfold Rgtb. destruct (Rltb 0 _) eqn:E.
  - apply Rltb_true in E. apply Rescaled_byte; [exact Henc | lra].
  - exists 128%Z. split; [lia | reflexivity].
Qed.

(** The running minimum and maximum of a plane whose voxels all hold c. *)
Lemma PlaneMinMax_uniform (Image : ImageData) (z : nat) (c : R) :
  (0 < DimX Image)%nat -> (0 < DimY Image)%nat ->
  c <= DBL_MAX ->
  (forall v, In v (PlaneValues Image z) -> v = c) ->
  PlaneMinMax Image z = (c, Rmax DBL_MIN c).
Proof.
  intros Hx Hy Hc Hall. rewrite PlaneMinMax_fold.
  set (vals := PlaneValues Image z) in *.
  assert (Hne : exists v0, In v0 vals).
  { pose proof (PlaneValues_nonempty Image z Hx Hy) as Hn. fold vals in Hn.
    destruct vals as [|v0 r]; [congruence | exists v0; left; reflexivity]. }
  destruct Hne as (v0 & Hv0). pose proof (Hall v0 Hv0) as ->.
  f_equal.
  - pose proof (proj2 (fold_left_Rmin_le vals DBL_MAX) c Hv0) as Hle.
    destruct (fold_left_Rmin_in vals DBL_MAX) as [E | Hin].
    + rewrite E in *. lra.
    + apply Hall. exact Hin.
  - destruct (fold_left_Rmax_ge vals DBL_MIN) as [H1 H2]. specialize (H2 c Hv0).
    destruct (fold_left_Rmax_in vals DBL_MIN) as [E | Hin].
    + rewrite E in *. symmetry. apply Rmax_left. exact H2.
    + rewrite (Hall _ Hin) in *. symmetry. apply Rmax_right. exact H1.
Qed.

(** X17. The plane-by-plane normalization returns an 8-bit image as it is.
    Of a 16-bit image it makes an unsigned-char image of the same
    dimensions, which it would return as it is; every value is an integer
    of [0, 255].  A plane whose voxels all hold the same value c becomes
    middle gray (128) when c is at least DBL_MIN, but 0 when c is below
    DBL_MIN (so for c = 0), because the running maximum starts at DBL_MIN.
    In a plane with two different values, none above DBL_MAX and the
    largest at least DBL_MIN, the smallest value becomes 0 and the largest
    255. *)
Theorem X17_Convert16To8bitZAdaptive :
  forall (Image : ImageData),
    (GetScalarType Image = VTK_UNSIGNED_CHAR ->
     Convert16To8bitZAdaptive Image = Some Image) /\
    (GetScalarType Image = VTK_UNSIGNED_SHORT ->
     (0 < DimX Image)%nat -> (0 < DimY Image)%nat ->
     length (Scalars Image) = GetNumberOfPoints Image ->
     exists out,
       Convert16To8bitZAdaptive Image = Some out /\
       Convert16To8bitZAdaptive out = Some out /\
       Dim out = Dim Image /\
       length (Scalars out) = length (Scalars Image) /\
       forall z, (z < DimZ Image)%nat ->
         let vals := PlaneValues Image z in
         let value := fun x y => GetTuple1 (Scalars Image) (GetId x y z (Dim Image)) in
         let result := fun x y => GetTuple1 (Scalars out) (GetId x y z (Dim Image)) in
         (forall x y, (x < DimX Image)%nat -> (y < DimY Image)%nat ->
            exists n, (0 <= n <= 255)%Z /\ result x y = IZR n) /\
         (forall c, c <= DBL_MAX -> (forall v, In v vals -> v = c) ->
            forall x y, (x < DimX Image)%nat -> (y < DimY Image)%nat ->
              (DBL_MIN <= c -> result x y = 128) /\
              (c < DBL_MIN -> result x y = 0)) /\
         ((forall v, In v vals -> v <= DBL_MAX) ->
          DBL_MIN <= RangeMax vals -> RangeMin vals < RangeMax vals ->
          forall x y, (x < DimX Image)%nat -> (y < DimY Image)%nat ->
            (value x y = RangeMin vals -> result x y = 0) /\
            (value x y = RangeMax vals -> result x y = 255))).
Proof.
  intros Image. split.
  - intros Ht. unfold Convert16To8bitZAdaptive. rewrite Ht. reflexivity.
  - intros Ht Hx Hy Hlen. unfold Convert16To8bitZAdaptive at 1. rewrite Ht.
    destruct (VolumeWrite_spec Image (NormalizedValue Image) (NormalizePlane Image)
                (FillComponent (length (Scalars Image)) 0)
                (NormalizePlane_writes Image)) as (HL & Hval).
    { rewrite FillComponent_length. exact Hlen. }
    eexists. split; [reflexivity|]. split; [reflexivity|]. split; [reflexivity|].
    cbn [Scalars WithCharScalars]. split; [congruence|].
    intros z Hz. set (vals := PlaneValues Image z).
    split; [|split].
    + intros x y Hx' Hy'. rewrite (Hval x y z Hx' Hy' Hz).
      apply NormalizedValue_byte; assumption.
    + intros c Hc Hall x y Hx' Hy'. rewrite (Hval x y z Hx' Hy' Hz).
      unfold NormalizedValue.
      rewrite (PlaneMinMax_uniform Image z c Hx Hy Hc Hall). cbn [fst snd].
      assert (Hv : GetTuple1 (Scalars Image) (GetId x y z (Dim Image)) = c).
      { apply Hall. apply In_PlaneValues. exists x, y. repeat split; assumption. }
      rewrite Hv. split; intros Hcmp.
      * rewrite Rmax_right by exact Hcmp. unfold Rgtb.
        rewrite (proj2 (Rltb_false 0 (c - c))) by lra. reflexivity.
      * rewrite Rmax_left by lra. unfold Rgtb.
        rewrite (proj2 (Rltb_true 0 (DBL_MIN - c))) by lra.
        apply (Rescaled_byte c c DBL_MIN); [lra | lra | reflexivity].
    + intros Hle Hmax Hlt x y Hx' Hy'. rewrite (Hval x y z Hx' Hy' Hz).
      unfold NormalizedValue. rewrite PlaneMinMax_fold. cbn [fst snd]. fold vals.
      pose proof (PlaneValues_nonempty Image z Hx Hy) as Hne. fold vals in Hne.
      rewrite (fold_left_Rmin_from_above vals DBL_MAX Hne Hle).
      rewrite (fold_left_Rmax_from_below vals DBL_MIN Hne Hmax).
      unfold Rgtb. rewrite (proj2 (Rltb_true 0 _)) by lra.
      assert (Hin : In (GetTuple1 (Scalars Image) (GetId x y z (Dim Image))) vals).
      { apply In_PlaneValues. exists x, y. repeat split; assumption. }
      apply Rescaled_byte; [|exact Hlt].
      split; [apply RangeMin_lower | apply RangeMax_upper]; exact Hin.
Qed.

(** X17, witness: the 16-bit image of two voxels. *)
Lemma X17_Convert16To8bitZAdaptive_witness :
  (GetScalarType ShortImage = VTK_UNSIGNED_SHORT /\
   (0 < DimX ShortImage)%nat /\ (0 < DimY ShortImage)%nat /\
   length (Scalars ShortImage) = GetNumberOfPoints ShortImage) /\
  exists out, Convert16To8bitZAdaptive ShortImage = Some out /\
              Dim out = Dim ShortImage.
Proof.
  assert (Ht : GetScalarType ShortImage = VTK_UNSIGNED_SHORT) by reflexivity.
  assert (Hx : (0 < DimX ShortImage)%nat) by (vm_compute; lia).
  assert (Hy : (0 < DimY ShortImage)%nat) by (vm_compute; lia).
  assert (HL : length (Scalars ShortImage) = GetNumberOfPoints ShortImage) by reflexivity.
  split; [repeat split; assumption|].
  destruct (proj2 (X17_Convert16To8bitZAdaptive ShortImage) Ht Hx Hy HL)
    as (out & Hrun & _ & Hd & _).
  exists out. split; assumption.
Defined.

(** ** Fragment repair *)

Lemma fold_left_append_filter {A : Type} (t : A -> bool) :
  forall (l acc : list A),
    fold_left (fun acc p => if t p then acc ++ [p] else acc) l acc
    = acc ++ filter t l.
Proof.
  induction l as [|p l IH]; intros acc; simpl; [rewrite app_nil_r; reflexivity|].
  rewrite IH. destruct (t p); [rewrite <- app_assoc|]; reflexivity.
Qed.

(** The endpoints are the points of degree 1, in ascending order. *)
Lemma FindEndpoints_filter (pd : PolyData) :
  FindEndpoints pd
  = filter (fun p => (Degree pd p =? 1)%nat) (seq 0 (length (Points pd))).
Proof.
  unfold FindEndpoints, for_up.
  apply (fold_left_append_filter (fun p => (Degree pd p =? 1)%nat)).
Qed.

Lemma In_FindEndpoints (pd : PolyData) (p : nat) :
  In p (FindEndpoints pd) <-> (p < length (Points pd))%nat /\ Degree pd p = 1%nat.
Proof.
  rewrite FindEndpoints_filter, filter_In, in_seq, Nat.eqb_eq. intuition lia.
Qed.

Lemma filter_seq_increasing (t : nat -> bool) :
  forall (n lo i j : nat),
    (i < j)%nat -> (j < length (filter t (seq lo n)))%nat ->
    (nth i (filter t (seq lo n)) 0 < nth j (filter t (seq lo n)) 0)%nat.
Proof.
  induction n as [|n IH]; intros lo i j Hij Hj; simpl in *; [lia|].
  destruct (t lo); [|apply IH; assumption].
  simpl in Hj. destruct j as [|j]; [lia|]. simpl.
  assert (Hin : In (nth j (filter t (seq (S lo) n)) 0%nat) (filter t (seq (S lo) n)))
    by (apply nth_In; lia).
  apply filter_In in Hin. destruct Hin as [Hin _]. apply in_seq in Hin.
  destruct i as [|i]; [lia|]. apply IH; lia.
Qed.

Lemma fold_left_flat_map {St A B : Type} (f : St -> B -> St) (g : A -> list B) :
  forall (l : list A) (s : St),
    fold_left (fun acc a => fold_left f (g a) acc) l s = fold_left f (flat_map g l) s.
Proof.
  induction l as [|a l IH]; intros s; simpl; [reflexivity|].
  rewrite fold_left_app. apply IH.
Qed.

Lemma fold_left_append_if {A K : Type} (t : K -> bool) (v : K -> A) :
  forall (l : list K) (acc : list A),
    fold_left (fun acc k => if t k then acc ++ [v k] else acc) l acc
    = acc ++ map v (filter t l).
Proof.
  induction l as [|k l IH]; intros acc; simpl; [rewrite app_nil_r; reflexivity|].
  rewrite IH. destruct (t k); [rewrite <- app_assoc|]; reflexivity.
Qed.

(** The connections, pair of indices by pair of indices. *)
Lemma In_ConnectionsToAdd_indices (pd : PolyData) (gap : R) (c : nat * nat) :
  let endpoints := FindEndpoints pd in
  In c (ConnectionsToAdd pd gap) <->
  exists i j, (i < j)%nat /\ (j < length endpoints)%nat /\
              c = (nth i endpoints 0%nat, nth j endpoints 0%nat) /\
              EuclideanDistance (GetPoint pd (fst c)) (GetPoint pd (snd c)) <= gap /\
              0.1 < EuclideanDistance (GetPoint pd (fst c)) (GetPoint pd (snd c)).
Proof.
  intros endpoints. unfold ConnectionsToAdd. fold endpoints.
  set (n := length endpoints).
  set (v := fun k : nat * nat => (nth (fst k) endpoints 0%nat, nth (snd k) endpoints 0%nat)).
  set (t := fun k : nat * nat =>
              Rleb (EuclideanDistance (GetPoint pd (fst (v k))) (GetPoint pd (snd (v k)))) gap
              && Rgtb (EuclideanDistance (GetPoint pd (fst (v k))) (GetPoint pd (snd (v k)))) 0.1).
  set (keys := flat_map (fun i => map (pair i) (seq (i + 1) (n - (i + 1)))) (seq 0 n)).
  assert (E : for_up n (fun i acc =>
                for_range (i + 1) n (ConnectionBody pd gap endpoints i) acc) []
              = map v (filter t keys)).
  { unfold for_up, for_range.
    rewrite <- (app_nil_l (map v (filter t keys))).
    rewrite <- fold_left_append_if. unfold keys.
    rewrite <- fold_left_flat_map.
    apply fold_left_pointwise. intros s i.
    rewrite <- (fold_left_map (pair i)
                 (fun acc k => if t k then acc ++ [v k] else acc)).
    apply fold_left_pointwise. intros s' j.
    unfold ConnectionBody, t, v. cbn [fst snd negb].
    destruct (Rleb _ gap && Rgtb _ 0.1); reflexivity. }
  rewrite E. rewrite in_map_iff. split.
  - intros ([i j] & Hv & Hin). apply filter_In in Hin. destruct Hin as [Hk Ht].
    unfold keys in Hk. apply in_flat_map in Hk. destruct Hk as (i' & Hi' & Hj).
    apply in_map_iff in Hj. destruct Hj as (j' & Hp & Hj'). injection Hp as -> ->.
    apply in_seq in Hi'. apply in_seq in Hj'.
    exists i, j. split; [lia|]. split; [unfold n in *; lia|].
    split; [symmetry; exact Hv|]. subst c.
    unfold t in Ht. apply andb_true_iff in Ht. destruct Ht as [H1 H2].
    apply Rleb_true in H1. apply Rltb_true in H2. split; assumption.
  - intros (i & j & Hij & Hj & Hc & Hle & Hgt). exists (i, j).
    split; [symmetry; exact Hc|]. apply filter_In. split.
    + unfold keys. apply in_flat_map. exists i. split; [apply in_seq; unfold n; lia|].
      apply in_map. apply in_seq. unfold n. lia.
    + unfold t. subst c. apply andb_true_iff. split.
      * apply Rleb_true. exact Hle.
      * apply Rltb_true. exact Hgt.
Qed.

Lemma In_nth_index (l : list nat) (p : nat) :
  In p l -> exists i, (i < length l)%nat /\ nth i l 0%nat = p.
Proof. intros H. destruct (In_nth l p 0%nat H) as (i & Hi & E). exists i. auto. Qed.

(** The pairs marked for connection, as a set. *)
Lemma ConnectionsToAdd_pairs (pd : PolyData) (gap : R) (p q : nat) :
  In (p, q) (ConnectionsToAdd pd gap) <->
  (p < q)%nat /\ (q < length (Points pd))%nat /\
  Degree pd p = 1%nat /\ Degree pd q = 1%nat /\
  0.1 < EuclideanDistance (GetPoint pd p) (GetPoint pd q) <= gap.
Proof.
  rewrite (In_ConnectionsToAdd_indices pd gap (p, q)). cbn [fst snd]. split.
  - intros (i & j & Hij & Hj & Hc & Hle & Hgt). injection Hc as -> ->.
    assert (Hi : In (nth i (FindEndpoints pd) 0%nat) (FindEndpoints pd))
      by (apply nth_In; lia).
    assert (Hj' : In (nth j (FindEndpoints pd) 0%nat) (FindEndpoints pd))
      by (apply nth_In; lia).
    apply In_FindEndpoints in Hi. apply In_FindEndpoints in Hj'.
    split; [|intuition].
    revert Hj. rewrite FindEndpoints_filter. intros Hj.
    apply filter_seq_increasing; assumption.
  - intros (Hpq & Hq & Hdp & Hdq & Hgt & Hle).
    assert (Hp' : In p (FindEndpoints pd)) by (apply In_FindEndpoints; split; [lia | exact Hdp]).
    assert (Hq' : In q (FindEndpoints pd)) by (apply In_FindEndpoints; split; assumption).
    destruct (In_nth_index _ _ Hp') as (i & Hi & Ei).
    destruct (In_nth_index _ _ Hq') as (j & Hj & Ej).
    exists i, j.
    assert (Hij : (i < j)%nat).
    { destruct (Nat.lt_trichotomy i j) as [H | [H | H]]; [exact H | |].
      - subst j. lia.
      - exfalso. revert Hi Hj Ei Ej. rewrite FindEndpoints_filter. intros Hi Hj Ei Ej.
        pose proof (filter_seq_increasing _ _ _ j i H Hi) as Hlt.
        rewrite Ei, Ej in Hlt. lia. }
    split; [exact Hij|]. split; [exact Hj|]. split; [rewrite Ei, Ej; reflexivity|].
    split; assumption.
Qed.

(** X18. The pairs marked for connection are exactly the pairs (p, q) of
    points of the skeleton with p < q, both of degree 1, whose distance is
    above 0.1 and at most the largest gap; whether the two points are
    already joined plays no part. *)
Theorem X18_connections_characterized :
  forall (Skeleton : PolyData) (max_gap_distance : R) (p q : nat),
    In (p, q) (ConnectionsToAdd Skeleton max_gap_distance) <->
    (p < q)%nat /\ (q < length (Points Skeleton))%nat /\
    Degree Skeleton p = 1%nat /\ Degree Skeleton q = 1%nat /\
    0.1 < EuclideanDistance (GetPoint Skeleton p) (GetPoint Skeleton q)
        <= max_gap_distance.
Proof. intros Skeleton gap p q. apply ConnectionsToAdd_pairs. Qed.

(** The connections of a skeleton that is one edge between two points. *)
Lemma TwoPointSkeleton_connections (p q : Point3) (w gap : R) :
  ConnectionsToAdd (TwoPointSkeleton p q w) gap
  = if Rleb (EuclideanDistance p q) gap && Rgtb (EuclideanDistance p q) 0.1
    then [(0%nat, 1%nat)] else [].
Proof.
  unfold ConnectionsToAdd.
  change (FindEndpoints (TwoPointSkeleton p q w)) with [0%nat; 1%nat].
  unfold for_up, for_range. simpl. unfold ConnectionBody. simpl nth.
  change (GetPoint (TwoPointSkeleton p q w) 0) with p.
  change (GetPoint (TwoPointSkeleton p q w) 1) with q.
  destruct (Rleb _ gap && Rgtb _ 0.1); reflexivity.
Qed.

(** X18, witness: the two ends of the edge from (0,0,0) to (1,0,0), with a
    largest gap of 3. *)
Lemma X18_connections_witness :
  ((0 < 1)%nat /\
   (1 < length (Points (TwoPointSkeleton (0, 0, 0)%R (1, 0, 0)%R 2%R)))%nat /\
   0.1 < EuclideanDistance (0, 0, 0) (1, 0, 0) <= 3) /\
  In (0%nat, 1%nat) (ConnectionsToAdd (TwoPointSkeleton (0, 0, 0) (1, 0, 0) 2) 3).
Proof.
  assert (H1 : (0 < 1)%nat) by lia.
  assert (H2 : (1 < length (Points (TwoPointSkeleton (0, 0, 0)%R (1, 0, 0)%R 2%R)))%nat)
    by (simpl; lia).
  assert (H3 : 0.1 < EuclideanDistance (0, 0, 0) (1, 0, 0) <= 3)
    by (rewrite UnitEdge_distance; lra).
  split; [repeat split; try assumption; apply H3|].
  apply (proj2 (X18_connections_characterized
                  (TwoPointSkeleton (0, 0, 0) (1, 0, 0) 2) 3 0%nat 1%nat)).
  split; [exact H1|]. split; [exact H2|].
  split; [reflexivity|]. split; [reflexivity | exact H3].
Defined.

(** X19. Fragment repair keeps the points and the point data and appends
    its lines after the old cells, one two-point line per marked pair.
    With a largest gap of at most 0.1 it returns the skeleton as it is, a
    larger gap only adds cells, and, as no connectivity is checked, a
    skeleton that is a single two-point edge of a length above 0.1 and
    within the gap gets that edge a second time. *)
Theorem X19_ConnectSkeletonFragments_appends :
  forall (Skeleton : PolyData) (max_gap_distance : R),
    let Result := ConnectSkeletonFragments Skeleton max_gap_distance in
    Points Result = Points Skeleton /\
    PointData Result = PointData Skeleton /\
    Cells Result
    = Cells Skeleton ++ map LineOf (ConnectionsToAdd Skeleton max_gap_distance) /\
    (max_gap_distance <= 0.1 -> Result = Skeleton) /\
    (forall gap' cell, max_gap_distance <= gap' ->
       In cell (Cells Result) ->
       In cell (Cells (ConnectSkeletonFragments Skeleton gap'))) /\
    (forall (p q : Point3) (w : R),
       0.1 < EuclideanDistance p q <= max_gap_distance ->
       Cells (ConnectSkeletonFragments (TwoPointSkeleton p q w) max_gap_distance)
       = [[0%nat; 1%nat]; [0%nat; 1%nat]]).
Proof.
  intros pd gap Result. unfold Result, ConnectSkeletonFragments. cbn [Points Cells PointData].
  split; [reflexivity|]. split; [reflexivity|]. split; [reflexivity|].
  split; [|split].
  - intros Hgap.
    assert (E : ConnectionsToAdd pd gap = []).
    { destruct (ConnectionsToAdd pd gap) as [|[p q] l] eqn:El; [reflexivity|].
      assert (Hin : In (p, q) (ConnectionsToAdd pd gap)) by (rewrite El; left; reflexivity).
      apply ConnectionsToAdd_pairs in Hin. lra. }
    rewrite E. simpl. rewrite app_nil_r. destruct pd; reflexivity.
  - intros gap' cell Hle Hin. apply in_app_iff in Hin. apply in_app_iff.
    destruct Hin as [Hin | Hin]; [left; exact Hin | right].
    apply in_map_iff in Hin. destruct Hin as ([p q] & <- & Hc).
    apply in_map. apply ConnectionsToAdd_pairs in Hc. apply ConnectionsToAdd_pairs.
    intuition lra.
  - intros p q w [Hgt Hle]. rewrite TwoPointSkeleton_connections.
    rewrite (proj2 (Rleb_true _ _) Hle). unfold Rgtb.
    rewrite (proj2 (Rltb_true _ _) Hgt). reflexivity.
Qed.

(** X19, witness: the edge from (0,0,0) to (1,0,0) with a largest gap of 3. *)
Lemma X19_ConnectSkeletonFragments_witness :
  0.1 < EuclideanDistance (0, 0, 0) (1, 0, 0) <= 3 /\
  Cells (ConnectSkeletonFragments (TwoPointSkeleton (0, 0, 0) (1, 0, 0) 2) 3)
  = [[0%nat; 1%nat]; [0%nat; 1%nat]].
Proof.
  assert (H : 0.1 < EuclideanDistance (0, 0, 0) (1, 0, 0) <= 3)
    by (rewrite UnitEdge_distance; lra).
  split; [exact H|].
  destruct (X19_ConnectSkeletonFragments_appends
              (TwoPointSkeleton (0, 0, 0) (1, 0, 0) 2) 3) as (_ & _ & _ & _ & _ & Hdup).
  apply (Hdup (0, 0, 0) (1, 0, 0) 2 H).
Defined.

(** ** Tubule length *)

Lemma SegmentLength_nonneg (r1 r2 : Point3) : 0 <= SegmentLength r1 r2.
Proof.
  destruct r1 as [[x1 y1] z1], r2 as [[x2 y2] z2]. unfold SegmentLength.
  apply sqrt_pos.
Qed.

(** The length of an edge is the sum of the lengths of its segments. *)
Lemma EdgeLength_Sum (pd : PolyData) (edge : nat) :
  EdgeLength pd edge
  = Sum (map (fun n => SegmentLength
                         (GetPoint pd (GetPointId (GetCell pd edge) (n - 1)))
                         (GetPoint pd (GetPointId (GetCell pd edge) n)))
             (seq 1 (length (GetCell pd edge) - 1))).
Proof.
  unfold EdgeLength, for_range. cbv zeta.
  rewrite (fold_left_map
             (fun n => SegmentLength
                         (GetPoint pd (GetPointId (GetCell pd edge) (n - 1)))
                         (GetPoint pd (GetPointId (GetCell pd edge) n)))
             (fun acc v => acc + v)).
  rewrite fold_left_plus_Sum. ring.
Qed.

Lemma Sum_nonneg (l : list R) : (forall v, In v l -> 0 <= v) -> 0 <= Sum l.
Proof.
  induction l as [|v l IH]; intros H; simpl; [lra|].
  assert (0 <= v) by (apply H; left; reflexivity).
  assert (0 <= Sum l) by (apply IH; intros u Hu; apply H; right; exact Hu).
  unfold Sum in *. lra.
Qed.

Lemma EdgeLength_nonneg (pd : PolyData) (edge : nat) : 0 <= EdgeLength pd edge.
Proof.
  rewrite EdgeLength_Sum. apply Sum_nonneg. intros v Hv.
  apply in_map_iff in Hv. destruct Hv as (n & <- & _). apply SegmentLength_nonneg.
Qed.

Lemma FindArray_AddArray (arrays : list (string * DataArray)) (name : string)
      (a : DataArray) :
  FindArray (filter (fun na => negb (String.eqb (fst na) name)) arrays ++ [(name, a)]) name
  = a.
Proof.
  induction arrays as [|[n b] rest IH]; simpl.
  - rewrite String.eqb_refl. reflexivity.
  - destruct (String.eqb n name) eqn:E; simpl; [exact IH|].
    rewrite E. exact IH.
Qed.

(** One pass of the loop over the edges: the points of the edge receive its
    length, the others keep what they have. *)
Lemma LengthBody_spec (pd : PolyData) (edge : nat) (L : DataArray) :
  length (LengthBody pd edge L) = length L /\
  (forall p, In p (GetCell pd edge) -> (p < length L)%nat ->
             GetTuple1 (LengthBody pd edge L) p = EdgeLength pd edge) /\
  (forall p, ~ In p (GetCell pd edge) ->
             GetTuple1 (LengthBody pd edge L) p = GetTuple1 L p).
Proof.
  unfold LengthBody, for_up. cbv zeta.
  set (cell := GetCell pd edge).
  destruct (fold_set_by_index (fun n => GetPointId cell n)
              (fun _ => EdgeLength pd edge) (seq 0 (length cell)) L) as (HL & Hin & Hout).
  assert (Hmap : forall p, In p (map (fun n => GetPointId cell n) (seq 0 (length cell)))
                           <-> In p cell).
  { intros p. rewrite in_map_iff. split.
    - intros (n & <- & Hn). apply in_seq in Hn. apply nth_In. lia.
    - intros Hp. destruct (In_nth cell p 0%nat Hp) as (n & Hn & E).
      exists n. split; [exact E | apply in_seq; lia]. }
  split; [exact HL|]. split.
  - intros p Hp Hlt. apply Hin; [apply Hmap; exact Hp | exact Hlt].
  - intros p Hp. apply Hout. intros H. apply Hp. apply Hmap. exact H.
Qed.

(** X20. The length routine keeps the points and the cells and adds an
    array "Length" with one value per point; every edge length is a sum of
    distances and so not negative.  As the edges are visited from the last
    to the first, a point gets the length of the first edge of the cell
    list that passes through it. *)
Theorem X20_EstimateTubuleLength_first_edge_wins :
  forall (Skeleton : PolyData),
    let Result := EstimateTubuleLength Skeleton in
    Points Result = Points Skeleton /\
    Cells Result = Cells Skeleton /\
    length (GetArray Result "Length") = length (Points Skeleton) /\
    (forall edge, 0 <= EdgeLength Skeleton edge) /\
    forall p edge,
      (p < length (Points Skeleton))%nat ->
      (edge < length (Cells Skeleton))%nat ->
      In p (GetCell Skeleton edge) ->
      (forall edge', (edge' < edge)%nat -> ~ In p (GetCell Skeleton edge')) ->
      GetTuple1 (GetArray Result "Length") p = EdgeLength Skeleton edge.
Proof.
  intros pd Result. unfold Result, EstimateTubuleLength, GetArray, AddArray.
  cbn [Points Cells PointData]. rewrite FindArray_AddArray.
  split; [reflexivity|]. split; [reflexivity|].
  set (N := length (Points pd)). set (n := length (Cells pd)).
  set (P := fun (k : nat) (L : DataArray) =>
              length L = N /\
              forall p edge, (p < N)%nat -> (k <= edge < n)%nat ->
                In p (GetCell pd edge) ->
                (forall edge', (k <= edge' < edge)%nat -> ~ In p (GetCell pd edge')) ->
                GetTuple1 L p = EdgeLength pd edge).
  assert (HP : P 0%nat (for_down n (LengthBody pd) (FillComponent N 0))).
  { apply (for_down_inv P).
    - split; [apply FillComponent_length | intros p edge _ He; lia].
    - intros k L Hk [HL Hdone].
      destruct (LengthBody_spec pd k L) as (HL' & Hin & Hout).
      split; [congruence|].
      intros p edge Hp He Hcell Hfirst.
      destruct (in_dec Nat.eq_dec p (GetCell pd k)) as [Hpk | Hpk].
      + assert (edge = k).
        { destruct (Nat.eq_dec edge k) as [E | E]; [exact E|].
          exfalso. apply (Hfirst k); [lia | exact Hpk]. }
        subst edge. apply Hin; [exact Hpk | rewrite HL; exact Hp].
      + rewrite (Hout p Hpk).
        assert (edge <> k) by (intros ->; contradiction).
        apply Hdone; [exact Hp | lia | exact Hcell|].
        intros edge' He'. apply Hfirst. lia. }
  destruct HP as [HL Hval].
  split; [exact HL|]. split; [intros edge; apply EdgeLength_nonneg|].
  intros p edge Hp He Hcell Hfirst.
  apply (Hval p edge Hp); [lia | exact Hcell|].
  intros edge' He'. apply Hfirst. lia.
Qed.

(** X20, witness: the shared point of two edges gets the length of the
    first. *)
Lemma X20_EstimateTubuleLength_witness :
  ((0 < length (Points ForkSkeleton))%nat /\
   (0 < length (Cells ForkSkeleton))%nat /\
   In 0%nat (GetCell ForkSkeleton 0) /\
   (forall edge', (edge' < 0)%nat -> ~ In 0%nat (GetCell ForkSkeleton edge'))) /\
  GetTuple1 (GetArray (EstimateTubuleLength ForkSkeleton) "Length") 0
  = EdgeLength ForkSkeleton 0.
Proof.
  assert (H1 : (0 < length (Points ForkSkeleton))%nat) by (simpl; lia).
  assert (H2 : (0 < length (Cells ForkSkeleton))%nat) by (simpl; lia).
  assert (H3 : In 0%nat (GetCell ForkSkeleton 0)) by (left; reflexivity).
  assert (H4 : forall edge', (edge' < 0)%nat -> ~ In 0%nat (GetCell ForkSkeleton edge'))
    by (intros e He; lia).
  split; [repeat split; assumption|].
  destruct (X20_EstimateTubuleLength_first_edge_wins ForkSkeleton)
    as (_ & _ & _ & _ & Hval).
  apply (Hval 0%nat 0%nat H1 H2 H3 H4).
Defined.

(** ** Volume from length and width *)

(** The inner loop over one edge adds the length of the edge to the running
    length and never lowers the running volume. *)
Lemma VolumeEdge_spec (pd : PolyData) (edge : nat) (st : VolumeState) :
  let st' := for_range 1 (length (GetCell pd edge)) (VolumeBody pd edge) st in
  total_length st' = total_length st + EdgeLength pd edge /\
  volume st <= volume st'.
Proof.
  cbv zeta. rewrite EdgeLength_Sum. unfold for_range.
  generalize (seq 1 (length (GetCell pd edge) - 1)). intros l. revert st.
  induction l as [|n l IH]; intros st; simpl.
  - split; [unfold Sum; simpl; lra | lra].
  - destruct (IH (VolumeBody pd edge n st)) as [Hl Hv]. split.
    + rewrite Hl. unfold VolumeBody. cbn [total_length]. unfold Sum. simpl. lra.
    + eapply Rle_trans; [|exact Hv]. unfold VolumeBody. cbn [volume].
      set (h := SegmentLength _ _).
      set (R1 := 0.5 * _). set (R2 := 0.5 * _).
      assert (Hh : 0 <= h) by apply SegmentLength_nonneg.
      assert (Hq : 0 <= R1 * R1 + R2 * R2 + R1 * R2) by nra.
      assert (0 <= h * (R1 * R1 + R2 * R2 + R1 * R2)) by (apply Rmult_le_pos; assumption).
      lra.
Qed.

(** X21. The volume routine appends exactly two attributes and keeps the
    earlier ones.  The total length it reports is the sum of the lengths of
    the edges, whatever the widths, and is not negative; the second
    attribute is that length times pi times the squared radius, so it is
    not negative either; the volume accumulated from the widths is never
    negative and is not reported. *)
Theorem X21_volume_routine_reports_length :
  forall (pd : PolyData) (rad : R) (attributes : list attribute),
    let total := Sum (map (EdgeLength pd) (seq 0 (length (Cells pd)))) in
    GetVolumeFromSkeletonLengthAndWidth pd rad attributes
    = attributes ++ [("Total length (um)"%string, total);
                     ("Volume from length (um3)"%string, total * (PI * rad ^ 2))] /\
    0 <= total /\
    0 <= total * (PI * rad ^ 2) /\
    0 <= volume (VolumeLoops pd).
Proof.
  intros pd rad attributes total.
  set (n := length (Cells pd)).
  set (P := fun (k : nat) (st : VolumeState) =>
              total_length st = Sum (map (EdgeLength pd) (seq k (n - k))) /\
              0 <= volume st).
  assert (HP : P 0%nat (VolumeLoops pd)).
  { unfold VolumeLoops. fold n. apply (for_down_inv P).
    - unfold P. rewrite Nat.sub_diag. simpl. split; [reflexivity | lra].
    - intros k st Hk [Hl Hv].
      destruct (VolumeEdge_spec pd k st) as [Hl' Hv']. split; [|lra].
      rewrite Hl', Hl. replace (n - k)%nat with (S (n - S k)) by lia.
      simpl. unfold Sum. simpl. lra. }
  destruct HP as [Hl Hv]. rewrite Nat.sub_0_r in Hl. fold total in Hl.
  assert (Ht : 0 <= total).
  { unfold total. apply Sum_nonneg. intros v Hin. apply in_map_iff in Hin.
    destruct Hin as (e & <- & _). apply EdgeLength_nonneg. }
  split; [|split; [exact Ht|split; [|exact Hv]]].
  - unfold GetVolumeFromSkeletonLengthAndWidth. cbv zeta.
    rewrite Hl, acos_minus_1. rewrite <- app_assoc. reflexivity.
  - apply Rmult_le_pos; [exact Ht|].
    apply Rmult_le_pos; [left; exact PI_RGT_0 | apply pow2_ge_0].
Qed.

(** ** Discrete derivative *)

(** Three nested descending loops whose pass at (i, j, k) writes
    [V i j k] at the voxel (i, j, k) and nothing else. *)
Lemma DerivativeLoops_spec (dim : nat * nat * nat)
      (body : nat -> nat -> nat -> DerivativeState -> DerivativeState)
      (V : nat -> nat -> nat -> R) (st0 : DerivativeState) :
  let d0 := fst (fst dim) in
  let d1 := snd (fst dim) in
  let d2 := snd dim in
  (forall i j k st, (i < d0)%nat -> (j < d1)%nat -> (k < d2)%nat ->
     snd (body i j k st) = SetTuple1 (snd st) (GetId i j k dim) (V i j k)) ->
  length (snd st0) = (d0 * d1 * d2)%nat ->
  length (snd (DerivativeLoops dim body st0)) = (d0 * d1 * d2)%nat /\
  forall i j k, (i < d0)%nat -> (j < d1)%nat -> (k < d2)%nat ->
    GetTuple1 (snd (DerivativeLoops dim body st0)) (GetId i j k dim) = V i j k.
Proof.
  destruct dim as [[d0 d1] d2]. cbn [fst snd]. intros Hbody Hlen.
  set (dim := (d0, d1, d2)) in *.
  set (Q := fun (done : nat -> nat -> nat -> Prop) (st : DerivativeState) =>
              length (snd st) = (d0 * d1 * d2)%nat /\
              forall i j k, (i < d0)%nat -> (j < d1)%nat -> (k < d2)%nat ->
                done i j k -> GetTuple1 (snd st) (GetId i j k dim) = V i j k).
  assert (Hstep : forall done i0 j0 k0 st,
            (i0 < d0)%nat -> (j0 < d1)%nat -> (k0 < d2)%nat ->
            Q done st ->
            Q (fun i j k => done i j k \/ (i = i0 /\ j = j0 /\ k = k0))
              (body i0 j0 k0 st)).
  { intros done i0 j0 k0 st Hi Hj Hk [HL Hv].
    unfold Q. rewrite (Hbody i0 j0 k0 st Hi Hj Hk).
    split; [rewrite SetTuple1_length; exact HL|].
    intros i j k Hi' Hj' Hk' Hd.
    destruct (Nat.eq_dec (GetId i j k dim) (GetId i0 j0 k0 dim)) as [E | E].
    - unfold dim in E. apply GetId_inj in E; [|assumption..].
      destruct E as (-> & -> & ->).
      apply GetTuple1_SetTuple1_eq. rewrite HL. apply GetId_lt; assumption.
    - rewrite GetTuple1_SetTuple1_neq by (intros E'; apply E; symmetry; exact E').
      destruct Hd as [Hd | (-> & -> & ->)]; [|contradiction].
      apply Hv; assumption. }
  assert (Hweak : forall (done done' : nat -> nat -> nat -> Prop) st,
            (forall i j k, (i < d0)%nat -> (j < d1)%nat -> (k < d2)%nat ->
                           done' i j k -> done i j k) ->
            Q done st -> Q done' st).
  { intros done done' st Himp [HL Hv]. split; [exact HL|].
    intros i j k Hi Hj Hk Hd. apply Hv; auto. }
  assert (HQ : Q (fun i _ _ => (0 <= i)%nat) (DerivativeLoops dim body st0)).
  { unfold DerivativeLoops. unfold dim at 1 2 3. cbn [fst snd].
    apply (for_down_inv (fun (i0 : nat) st => Q (fun i _ _ => (i0 <= i)%nat) st)).
    - split; [exact Hlen | intros i j k Hi _ _ Hd; lia].
    - intros i0 st Hi0 HQ.
      apply (Hweak (fun i j _ => (S i0 <= i)%nat \/ (i = i0 /\ (0 <= j)%nat)));
        [intros i j k _ _ _ Hd; destruct (Nat.eq_dec i i0); [right | left]; lia|].
      apply (for_down_inv
               (fun (j0 : nat) st =>
                  Q (fun i j _ => (S i0 <= i)%nat \/ (i = i0 /\ (j0 <= j)%nat)) st)).
      + apply (Hweak (fun i _ _ => (S i0 <= i)%nat)); [|exact HQ].
        intros i j k _ Hj _ [Hd | [_ Hd]]; [exact Hd | lia].
      + intros j0 st' Hj0 HQ'.
        apply (Hweak (fun i j k => (S i0 <= i)%nat \/
                                   (i = i0 /\ ((S j0 <= j)%nat \/
                                               (j = j0 /\ (0 <= k)%nat)))));
          [intros i j k _ _ _ [Hd | [Hd1 Hd2]];
           [left; exact Hd
           | right; split; [exact Hd1|];
             destruct (Nat.eq_dec j j0); [right | left]; lia]|].
        apply (for_down_inv
                 (fun (k0 : nat) st =>
                    Q (fun i j k => (S i0 <= i)%nat \/
                                    (i = i0 /\ ((S j0 <= j)%nat \/
                                                (j = j0 /\ (k0 <= k)%nat)))) st)).
        * apply (Hweak (fun i j _ => (S i0 <= i)%nat \/ (i = i0 /\ (S j0 <= j)%nat)));
            [|exact HQ'].
          intros i j k _ _ Hk [Hd | [Hd1 [Hd2 | [_ Hd2]]]];
            [left; exact Hd | right; auto | lia].
        * intros k0 st'' Hk0 HQ''.
          apply (Hweak (fun i j k =>
                          ((S i0 <= i)%nat \/
                           (i = i0 /\ ((S j0 <= j)%nat \/
                                       (j = j0 /\ (S k0 <= k)%nat)))) \/
                          (i = i0 /\ j = j0 /\ k = k0))).
          { intros i j k _ _ _ [Hd | [Hd1 [Hd2 | [Hd2 Hd3]]]].
            - left. left. exact Hd.
            - left. right. auto.
            - destruct (Nat.eq_dec k k0); [right; auto|].
              left. right. split; [exact Hd1|]. right. split; [exact Hd2 | lia]. }
          apply Hstep; assumption. }
  destruct HQ as [HL Hv]. split; [exact HL|].
  intros i j k Hi Hj Hk. apply Hv; [assumption.. | lia].
Qed.

Lemma DerivativeBodyX_writes (Image : DataArray) (dim : nat * nat * nat)
      (i j k : nat) (st : DerivativeState) :
  (2 <= fst (fst dim))%nat -> (i < fst (fst dim))%nat ->
  snd (DerivativeBodyX Image dim i j k st)
  = SetTuple1 (snd st) (GetId i j k dim)
              (DifferenceAlong Image (fst (fst dim)) i (fun c => GetId c j k dim)).
Proof.
  intros Hd Hi. destruct st as [[a b] Der]. unfold DerivativeBodyX, DifferenceAlong.
  cbn [snd]. set (d := fst (fst dim)) in *.
  destruct (i =? 0)%nat eqn:E0.
  - apply Nat.eqb_eq in E0. subst i.
    rewrite (proj2 (Nat.eqb_neq 0 (d - 1))) by lia. simpl. reflexivity.
  - apply Nat.eqb_neq in E0. destruct (i =? d - 1)%nat eqn:E1.
    + apply Nat.eqb_eq in E1.
      rewrite (proj2 (Nat.ltb_ge i (d - 1))) by lia. rewrite andb_false_r. reflexivity.
    + apply Nat.eqb_neq in E1.
      rewrite (proj2 (Nat.ltb_lt 0 i)) by lia.
      rewrite (proj2 (Nat.ltb_lt i (d - 1))) by lia. reflexivity.
Qed.

Lemma DerivativeBodyY_writes (Image : DataArray) (dim : nat * nat * nat)
      (i j k : nat) (st : DerivativeState) :
  (2 <= snd (fst dim))%nat -> (j < snd (fst dim))%nat ->
  snd (DerivativeBodyY Image dim i j k st)
  = SetTuple1 (snd st) (GetId i j k dim)
              (DifferenceAlong Image (snd (fst dim)) j (fun c => GetId i c k dim)).
Proof.
  intros Hd Hj. destruct st as [[a b] Der]. unfold DerivativeBodyY, DifferenceAlong.
  cbn [snd]. set (d := snd (fst dim)) in *.
  destruct (j =? 0)%nat eqn:E0.
  - apply Nat.eqb_eq in E0. subst j.
    rewrite (proj2 (Nat.eqb_neq 0 (d - 1))) by lia. simpl. reflexivity.
  - apply Nat.eqb_neq in E0. destruct (j =? d - 1)%nat eqn:E1.
    + apply Nat.eqb_eq in E1.
      rewrite (proj2 (Nat.ltb_ge j (d - 1))) by lia. rewrite andb_false_r. reflexivity.
    + apply Nat.eqb_neq in E1.
      rewrite (proj2 (Nat.ltb_lt 0 j)) by lia.
      rewrite (proj2 (Nat.ltb_lt j (d - 1))) by lia. reflexivity.
Qed.

Lemma DerivativeBodyZ_writes (Image : DataArray) (dim : nat * nat * nat)
      (i j k : nat) (st : DerivativeState) :
  (2 <= snd dim)%nat -> (k < snd dim)%nat ->
  snd (DerivativeBodyZ Image dim i j k st)
  = SetTuple1 (snd st) (GetId i j k dim)
              (DifferenceAlong Image (snd dim) k (fun c => GetId i j c dim)).
Proof.
  intros Hd Hk. destruct st as [[a b] Der]. unfold DerivativeBodyZ, DifferenceAlong.
  cbn [snd]. set (d := snd dim) in *.
  destruct (k =? 0)%nat eqn:E0.
  - apply Nat.eqb_eq in E0. subst k.
    rewrite (proj2 (Nat.eqb_neq 0 (d - 1))) by lia. simpl. reflexivity.
  - apply Nat.eqb_neq in E0. destruct (k =? d - 1)%nat eqn:E1.
    + apply Nat.eqb_eq in E1.
      rewrite (proj2 (Nat.ltb_ge k (d - 1))) by lia. rewrite andb_false_r. reflexivity.
    + apply Nat.eqb_neq in E1.
      rewrite (proj2 (Nat.ltb_lt 0 k)) by lia.
      rewrite (proj2 (Nat.ltb_lt k (d - 1))) by lia. reflexivity.
Qed.

(** What the routine stores, direction by direction. *)
Lemma GetImageDerivativeDiscrete_x (Image : DataArray) (dx dy dz : nat)
      (Derivative : DataArray) :
  (2 <= dx)%nat -> length Derivative = (dx * dy * dz)%nat ->
  let out := GetImageDerivativeDiscrete Image (dx, dy, dz) "x" Derivative in
  length out = (dx * dy * dz)%nat /\
  forall i j k, (i < dx)%nat -> (j < dy)%nat -> (k < dz)%nat ->
    GetTuple1 out (GetId i j k (dx, dy, dz))
    = DifferenceAlong Image dx i (fun c => GetId c j k (dx, dy, dz)).
Proof.
  intros Hd Hlen out. unfold out, GetImageDerivativeDiscrete. cbn [Ascii.eqb Bool.eqb].
  apply (DerivativeLoops_spec (dx, dy, dz) (DerivativeBodyX Image (dx, dy, dz))
           (fun i j k => DifferenceAlong Image dx i (fun c => GetId c j k (dx, dy, dz)))
           (0, 0, Derivative)); [|exact Hlen].
  intros i j k st Hi _ _. apply (DerivativeBodyX_writes Image (dx, dy, dz)); assumption.
Qed.

Lemma GetImageDerivativeDiscrete_y (Image : DataArray) (dx dy dz : nat)
      (Derivative : DataArray) :
  (2 <= dy)%nat -> length Derivative = (dx * dy * dz)%nat ->
  let out := GetImageDerivativeDiscrete Image (dx, dy, dz) "y" Derivative in
  length out = (dx * dy * dz)%nat /\
  forall i j k, (i < dx)%nat -> (j < dy)%nat -> (k < dz)%nat ->
    GetTuple1 out (GetId i j k (dx, dy, dz))
    = DifferenceAlong Image dy j (fun c => GetId i c k (dx, dy, dz)).
Proof.
  intros Hd Hlen out. unfold out, GetImageDerivativeDiscrete. cbn [Ascii.eqb Bool.eqb].
  apply (DerivativeLoops_spec (dx, dy, dz) (DerivativeBodyY Image (dx, dy, dz))
           (fun i j k => DifferenceAlong Image dy j (fun c => GetId i c k (dx, dy, dz)))
           (0, 0, Derivative)); [|exact Hlen].
  intros i j k st _ Hj _. apply (DerivativeBodyY_writes Image (dx, dy, dz)); assumption.
Qed.

Lemma GetImageDerivativeDiscrete_z (Image : DataArray) (dx dy dz : nat)
      (Derivative : DataArray) :
  (2 <= dz)%nat -> length Derivative = (dx * dy * dz)%nat ->
  let out := GetImageDerivativeDiscrete Image (dx, dy, dz) "z" Derivative in
  length out = (dx * dy * dz)%nat /\
  forall i j k, (i < dx)%nat -> (j < dy)%nat -> (k < dz)%nat ->
    GetTuple1 out (GetId i j k (dx, dy, dz))
    = DifferenceAlong Image dz k (fun c => GetId i j c (dx, dy, dz)).
Proof.
  intros Hd Hlen out. unfold out, GetImageDerivativeDiscrete. cbn [Ascii.eqb Bool.eqb].
  apply (DerivativeLoops_spec (dx, dy, dz) (DerivativeBodyZ Image (dx, dy, dz))
           (fun i j k => DifferenceAlong Image dz k (fun c => GetId i j c (dx, dy, dz)))
           (0, 0, Derivative)); [|exact Hlen].
  intros i j k st _ _ Hk. apply (DerivativeBodyZ_writes Image (dx, dy, dz)); assumption.
Qed.

(** X22. The discrete derivative, direction by direction: along a line of
    at least two voxels the routine stores the one-sided difference of the
    first two voxels at the first voxel, that of the last two at the last,
    and in between half the difference of the two neighbours; the output
    keeps its length.  A direction other than x, y or z leaves the output
    array as it is. *)
Theorem X22_GetImageDerivativeDiscrete_differences :
  forall (Image : DataArray) (dx dy dz : nat) (Derivative : DataArray),
    length Derivative = (dx * dy * dz)%nat ->
    let dim := (dx, dy, dz) in
    let run := fun direction => GetImageDerivativeDiscrete Image dim direction Derivative in
    ((2 <= dx)%nat ->
     length (run "x"%char) = (dx * dy * dz)%nat /\
     forall i j k, (i < dx)%nat -> (j < dy)%nat -> (k < dz)%nat ->
       GetTuple1 (run "x"%char) (GetId i j k dim)
       = DifferenceAlong Image dx i (fun c => GetId c j k dim)) /\
    ((2 <= dy)%nat ->
     length (run "y"%char) = (dx * dy * dz)%nat /\
     forall i j k, (i < dx)%nat -> (j < dy)%nat -> (k < dz)%nat ->
       GetTuple1 (run "y"%char) (GetId i j k dim)
       = DifferenceAlong Image dy j (fun c => GetId i c k dim)) /\
    ((2 <= dz)%nat ->
     length (run "z"%char) = (dx * dy * dz)%nat /\
     forall i j k, (i < dx)%nat -> (j < dy)%nat -> (k < dz)%nat ->
       GetTuple1 (run "z"%char) (GetId i j k dim)
       = DifferenceAlong Image dz k (fun c => GetId i j c dim)) /\
    (forall direction,
       direction <> "x"%char -> direction <> "y"%char -> direction <> "z"%char ->
       run direction = Derivative).
Proof.
  intros Image dx dy dz Derivative Hlen dim run. unfold run, dim.
  split; [|split; [|split]].
  - intros Hd. apply GetImageDerivativeDiscrete_x; assumption.
  - intros Hd. apply GetImageDerivativeDiscrete_y; assumption.
  - intros Hd. apply GetImageDerivativeDiscrete_z; assumption.
  - intros direction Hx Hy Hz. unfold GetImageDerivativeDiscrete.
    rewrite (proj2 (Ascii.eqb_neq _ _) Hx), (proj2 (Ascii.eqb_neq _ _) Hy),
      (proj2 (Ascii.eqb_neq _ _) Hz). reflexivity.
Qed.

(** X22, witness: the x derivative on a grid of 2 x 2 x 2 voxels. *)
Lemma X22_GetImageDerivativeDiscrete_witness :
  length (FillComponent 8 0) = (2 * 2 * 2)%nat /\
  GetTuple1 (GetImageDerivativeDiscrete RampImage (2, 2, 2)%nat "x" (FillComponent 8 0))
            (GetId 0 1 1 (2, 2, 2)%nat)
  = DifferenceAlong RampImage 2 0 (fun c => GetId c 1 1 (2, 2, 2)%nat).
Proof.
  assert (H : length (FillComponent 8 0) = (2 * 2 * 2)%nat) by reflexivity.
  split; [exact H|].
  destruct (X22_GetImageDerivativeDiscrete_differences RampImage 2 2 2
              (FillComponent 8 0) H) as (Hx & _).
  destruct (Hx (le_n 2)) as (_ & Hval).
  apply (Hval 0%nat 1%nat 1%nat); lia.
Defined.

(** The difference along a line on which the image is affine is the
    slope, at the ends as well as in between. *)
Lemma DifferenceAlong_affine (Image : DataArray) (d c : nat) (at_ : nat -> nat)
      (a r : R) :
  (2 <= d)%nat -> (c < d)%nat ->
  (forall c', (c' < d)%nat -> GetTuple1 Image (at_ c') = a * INR c' + r) ->
  DifferenceAlong Image d c at_ = a.
Proof.
  intros Hd Hc Hline. unfold DifferenceAlong.
  destruct (c =? 0)%nat eqn:E0.
  - rewrite !Hline by lia. simpl. lra.
  - apply Nat.eqb_neq in E0. destruct (c =? d - 1)%nat eqn:E1.
    + rewrite !Hline by lia.
      replace (d - 1)%nat with (S (d - 2)) by lia. rewrite S_INR. lra.
    + apply Nat.eqb_neq in E1. rewrite !Hline by lia.
      replace (c + 1)%nat with (S (S (c - 1))) by lia. rewrite !S_INR. lra.
Qed.

(** The three first derivatives of a grid that is affine in the voxel
    coordinates. *)
Lemma affine_first_derivatives (ImageG : DataArray) (dx dy dz : nat) (a b c r : R)
      (Derivative : DataArray) :
  (2 <= dx)%nat -> (2 <= dy)%nat -> (2 <= dz)%nat ->
  length Derivative = (dx * dy * dz)%nat ->
  (forall i j k, (i < dx)%nat -> (j < dy)%nat -> (k < dz)%nat ->
     GetTuple1 ImageG (GetId i j k (dx, dy, dz)) = a * INR i + b * INR j + c * INR k + r) ->
  forall i j k, (i < dx)%nat -> (j < dy)%nat -> (k < dz)%nat ->
    GetTuple1 (GetImageDerivativeDiscrete ImageG (dx, dy, dz) "x" Derivative)
              (GetId i j k (dx, dy, dz)) = a /\
    GetTuple1 (GetImageDerivativeDiscrete ImageG (dx, dy, dz) "y" Derivative)
              (GetId i j k (dx, dy, dz)) = b /\
    GetTuple1 (GetImageDerivativeDiscrete ImageG (dx, dy, dz) "z" Derivative)
              (GetId i j k (dx, dy, dz)) = c.
Proof.
  intros Hdx Hdy Hdz Hlen Haff i j k Hi Hj Hk.
  destruct (GetImageDerivativeDiscrete_x ImageG dx dy dz Derivative Hdx Hlen) as [_ Hx].
  destruct (GetImageDerivativeDiscrete_y ImageG dx dy dz Derivative Hdy Hlen) as [_ Hy].
  destruct (GetImageDerivativeDiscrete_z ImageG dx dy dz Derivative Hdz Hlen) as [_ Hz].
  rewrite (Hx i j k Hi Hj Hk), (Hy i j k Hi Hj Hk), (Hz i j k Hi Hj Hk).
  split; [|split].
  - apply (DifferenceAlong_affine _ _ _ _ a (b * INR j + c * INR k + r)); [lia | lia|].
    intros c' Hc'. rewrite Haff by assumption. ring.
  - apply (DifferenceAlong_affine _ _ _ _ b (a * INR i + c * INR k + r)); [lia | lia|].
    intros c' Hc'. rewrite Haff by assumption. ring.
  - apply (DifferenceAlong_affine _ _ _ _ c (a * INR i + b * INR j + r)); [lia | lia|].
    intros c' Hc'. rewrite Haff by assumption. ring.
Qed.

(** X23. The discrete derivative is exact on affine grids: where the image
    is a x + b y + c z + r in the voxel coordinates, on a grid of at least
    two voxels in each direction, the three derivatives are a, b and c at
    every voxel, the border included; so a constant image has derivative 0
    everywhere. *)
Theorem X23_derivative_exact_on_affine_grids :
  forall (ImageG : DataArray) (dx dy dz : nat) (a b c r : R) (Derivative : DataArray),
    (2 <= dx)%nat -> (2 <= dy)%nat -> (2 <= dz)%nat ->
    length Derivative = (dx * dy * dz)%nat ->
    (forall i j k, (i < dx)%nat -> (j < dy)%nat -> (k < dz)%nat ->
       GetTuple1 ImageG (GetId i j k (dx, dy, dz))
       = a * INR i + b * INR j + c * INR k + r) ->
    forall i j k, (i < dx)%nat -> (j < dy)%nat -> (k < dz)%nat ->
      GetTuple1 (GetImageDerivativeDiscrete ImageG (dx, dy, dz) "x" Derivative)
                (GetId i j k (dx, dy, dz)) = a /\
      GetTuple1 (GetImageDerivativeDiscrete ImageG (dx, dy, dz) "y" Derivative)
                (GetId i j k (dx, dy, dz)) = b /\
      GetTuple1 (GetImageDerivativeDiscrete ImageG (dx, dy, dz) "z" Derivative)
                (GetId i j k (dx, dy, dz)) = c.
Proof.
  intros ImageG dx dy dz a b c r Derivative. apply affine_first_derivatives.
Qed.

Lemma RampImage_affine :
  forall i j k, (i < 2)%nat -> (j < 2)%nat -> (k < 2)%nat ->
    GetTuple1 RampImage (GetId i j k (2, 2, 2)%nat)
    = 3 * INR i + 5 * INR j + 7 * INR k + 1.
Proof.
  intros i j k Hi Hj Hk.
  assert (Ei : i = 0%nat \/ i = 1%nat) by lia.
  assert (Ej : j = 0%nat \/ j = 1%nat) by lia.
  assert (Ek : k = 0%nat \/ k = 1%nat) by lia.
  destruct Ei as [-> | ->]; destruct Ej as [-> | ->]; destruct Ek as [-> | ->];
    unfold GetTuple1, GetId, RampImage; cbn [Nat.add Nat.mul nth INR]; lra.
Qed.

(** X23, witness: the grid 3 x + 5 y + 7 z + 1 on 2 x 2 x 2 voxels. *)
Lemma X23_derivative_exact_witness :
  GetTuple1 (GetImageDerivativeDiscrete RampImage (2, 2, 2)%nat "x" (FillComponent 8 0))
            (GetId 1 0 1 (2, 2, 2)%nat) = 3 /\
  GetTuple1 (GetImageDerivativeDiscrete RampImage (2, 2, 2)%nat "y" (FillComponent 8 0))
            (GetId 1 0 1 (2, 2, 2)%nat) = 5 /\
  GetTuple1 (GetImageDerivativeDiscrete RampImage (2, 2, 2)%nat "z" (FillComponent 8 0))
            (GetId 1 0 1 (2, 2, 2)%nat) = 7.
Proof.
  apply (X23_derivative_exact_on_affine_grids RampImage 2 2 2 3 5 7 1 (FillComponent 8 0)
           (le_n 2) (le_n 2) (le_n 2) eq_refl RampImage_affine 1%nat 0%nat 1%nat);
    lia.
Defined.

(** ** The Hessian of the smoothed image *)

(** The second differences of a grid that is affine in the voxel
    coordinates vanish at every voxel. *)
Lemma affine_hessian_zero (ImageG : DataArray) (dx dy dz : nat) (a b c r : R) :
  (2 <= dx)%nat -> (2 <= dy)%nat -> (2 <= dz)%nat ->
  (forall i j k, (i < dx)%nat -> (j < dy)%nat -> (k < dz)%nat ->
     GetTuple1 ImageG (GetId i j k (dx, dy, dz)) = a * INR i + b * INR j + c * INR k + r) ->
  forall i j k u v, (i < dx)%nat -> (j < dy)%nat -> (k < dz)%nat ->
    HessianAt (DiscreteHessian ImageG (dx, dy, dz)) (GetId i j k (dx, dy, dz)) u v = 0.
Proof.
  intros Hdx Hdy Hdz Haff i j k u v Hi Hj Hk.
  unfold DiscreteHessian. cbn [fst snd].
  set (N := (dx * dy * dz)%nat).
  set (new := FillComponent N 0).
  assert (Hnew : length new = N) by apply FillComponent_length.
  pose proof (affine_first_derivatives ImageG dx dy dz a b c r new
                Hdx Hdy Hdz Hnew Haff) as Hfirst.
  set (Dx := GetImageDerivativeDiscrete ImageG (dx, dy, dz) "x" new) in *.
  set (Dy := GetImageDerivativeDiscrete ImageG (dx, dy, dz) "y" new) in *.
  set (Dz := GetImageDerivativeDiscrete ImageG (dx, dy, dz) "z" new) in *.
  assert (Hconst : forall (D : DataArray) (s : R),
            (forall i j k, (i < dx)%nat -> (j < dy)%nat -> (k < dz)%nat ->
                           GetTuple1 D (GetId i j k (dx, dy, dz)) = s) ->
            forall i j k, (i < dx)%nat -> (j < dy)%nat -> (k < dz)%nat ->
              GetTuple1 D (GetId i j k (dx, dy, dz))
              = 0 * INR i + 0 * INR j + 0 * INR k + s).
  { intros D s HD i' j' k' Hi' Hj' Hk'. rewrite HD by assumption. ring. }
  pose proof (affine_first_derivatives Dx dx dy dz 0 0 0 a new Hdx Hdy Hdz Hnew
                (Hconst Dx a (fun i j k Hi Hj Hk => proj1 (Hfirst i j k Hi Hj Hk)))
                i j k Hi Hj Hk) as (Hxx & _ & _).
  pose proof (affine_first_derivatives Dy dx dy dz 0 0 0 b new Hdx Hdy Hdz Hnew
                (Hconst Dy b (fun i j k Hi Hj Hk =>
                                proj1 (proj2 (Hfirst i j k Hi Hj Hk))))
                i j k Hi Hj Hk) as (Hxy & Hyy & _).
  pose proof (affine_first_derivatives Dz dx dy dz 0 0 0 c new Hdx Hdy Hdz Hnew
                (Hconst Dz c (fun i j k Hi Hj Hk =>
                                proj2 (proj2 (Hfirst i j k Hi Hj Hk))))
                i j k Hi Hj Hk) as (Hxz & Hyz & Hzz).
  unfold HessianAt. cbn [Dxx Dyy Dzz Dxy Dxz Dyz].
  destruct u as [|[|[|u]]]; destruct v as [|[|[|v]]]; auto.
Qed.

(** X24. A smoothed image that is affine in the voxel coordinates, on a
    grid of at least two voxels in each direction, has a vanishing discrete
    Hessian at every voxel; the eigenvalue loops then store the triple
    (0, 0, 0) at every voxel, whatever the diagonalization returns. *)
Theorem X24_affine_image_has_no_curvature :
  forall (diag : Mat3 -> Triple) (ImageG : DataArray) (dx dy dz : nat) (a b c r : R)
         (l1 l2 l3 : DataArray),
    (2 <= dx)%nat -> (2 <= dy)%nat -> (2 <= dz)%nat ->
    (forall i j k, (i < dx)%nat -> (j < dy)%nat -> (k < dz)%nat ->
       GetTuple1 ImageG (GetId i j k (dx, dy, dz))
       = a * INR i + b * INR j + c * INR k + r) ->
    let N := (dx * dy * dz)%nat in
    length l1 = N -> length l2 = N -> length l3 = N ->
    let D := DiscreteHessian ImageG (dx, dy, dz) in
    forall i j k, (i < dx)%nat -> (j < dy)%nat -> (k < dz)%nat ->
      let id := GetId i j k (dx, dy, dz) in
      (forall u v, HessianAt D id u v = 0) /\
      EigenTripleAt (HessianEigenLoops diag N D l1 l2 l3) id = (0, 0, 0).
Proof.
  intros diag ImageG dx dy dz a b c r l1 l2 l3 Hdx Hdy Hdz Haff N H1 H2 H3 D
         i j k Hi Hj Hk id.
  assert (Hzero : forall u v, HessianAt D id u v = 0).
  { intros u v. apply (affine_hessian_zero ImageG dx dy dz a b c r); assumption. }
  split; [exact Hzero|].
  assert (Hid : (id < N)%nat) by (apply GetId_lt; assumption).
  rewrite (HessianEigenLoops_at diag N D l1 l2 l3 id H1 H2 H3 Hid).
  destruct (Rltb _ _); [reflexivity|].
  unfold VoxelEigenvalues. rewrite !Hzero.
  rewrite (proj2 (Rltb_false (0 + 0 + 0) 0)) by lra. reflexivity.
Qed.

(** X24, witness: the grid 3 x + 5 y + 7 z + 1 on 2 x 2 x 2 voxels. *)
Lemma X24_affine_image_witness :
  EigenTripleAt
    (HessianEigenLoops DiagonalOf 8 (DiscreteHessian RampImage (2, 2, 2)%nat)
                       (FillComponent 8 0) (FillComponent 8 0) (FillComponent 8 0))
    (GetId 1 1 0 (2, 2, 2)%nat) = (0, 0, 0).
Proof.
  apply (X24_affine_image_has_no_curvature DiagonalOf RampImage 2 2 2 3 5 7 1
           (FillComponent 8 0) (FillComponent 8 0) (FillComponent 8 0)
           (le_n 2) (le_n 2) (le_n 2) RampImage_affine eq_refl eq_refl eq_refl
           1%nat 1%nat 0%nat); lia.
Defined.

(** ** Removal of small components *)

Lemma ComponentFilterLoop_spec (Volume : DataArray) (CSz : list Z) (m : Z)
      (Scalars : DataArray) :
  let out := for_down (length Scalars) (ComponentFilterBody Volume CSz m) Scalars in
  length out = length Scalars /\
  forall id, (id < length Scalars)%nat ->
    GetTuple1 out id
    = if InSmallComponent Volume CSz m id then 0 else GetTuple1 Scalars id.
Proof.
  cbv zeta. set (N := length Scalars).
  apply (for_down_inv
           (fun (k : nat) (s : DataArray) =>
              length s = N /\
              forall id, (id < N)%nat ->
                GetTuple1 s id
                = if (k <=? id)%nat && InSmallComponent Volume CSz m id
                  then 0 else GetTuple1 Scalars id)).
  - split; [reflexivity|]. intros id Hid.
    rewrite (proj2 (Nat.leb_gt N id)) by lia. reflexivity.
  - intros k s Hk [HL Hv]. unfold ComponentFilterBody. cbv zeta.
    assert (Hkeep : forall id, (id < N)%nat -> id <> k ->
              (if (k <=? id)%nat && InSmallComponent Volume CSz m id
               then 0 else GetTuple1 Scalars id)
              = (if (S k <=? id)%nat && InSmallComponent Volume CSz m id
                 then 0 else GetTuple1 Scalars id)).
    { intros id Hid Hne.
      destruct (Nat.leb_spec k id); destruct (Nat.leb_spec (S k) id);
        try reflexivity; lia. }
    destruct (InSmallComponent Volume CSz m k) eqn:E.
    + unfold InSmallComponent in E. cbv zeta in E. apply andb_true_iff in E.
      destruct E as [E1 E2]. rewrite E1, E2.
      split; [rewrite SetTuple1_length; exact HL|].
      intros id Hid. destruct (Nat.eq_dec k id) as [<- | Hne].
      * rewrite GetTuple1_SetTuple1_eq by lia.
        rewrite Nat.leb_refl. unfold InSmallComponent. cbv zeta.
        rewrite E1, E2. reflexivity.
      * rewrite GetTuple1_SetTuple1_neq by exact Hne.
        rewrite Hkeep by auto. apply Hv. exact Hid.
    + assert (Hsame : (if (truncate (GetTuple1 Volume k) <? 0)%Z
                       then if (nth (Z.to_nat (- truncate (GetTuple1 Volume k) - 1)) CSz 0%Z
                                <=? m)%Z
                            then SetTuple1 s k 0 else s
                       else s) = s).
      { unfold InSmallComponent in E. cbv zeta in E.
        destruct (truncate (GetTuple1 Volume k) <? 0)%Z; [|reflexivity].
        simpl in E. rewrite E. reflexivity. }
      rewrite Hsame. split; [exact HL|].
      intros id Hid. destruct (Nat.eq_dec k id) as [<- | Hne].
      * rewrite Nat.leb_refl, E. simpl.
        rewrite (Hv k Hid). rewrite (proj2 (Nat.leb_gt (S k) k)) by lia. reflexivity.
      * rewrite Hkeep by auto. apply Hv. exact Hid.
Qed.

(** X25. The removal of small components changes nothing unless there is
    more than one component and smart filtering is on.  When it runs it
    keeps the number of voxels, sets to 0 exactly the voxels with a negative
    label whose component has at most the minimum size and leaves every
    other voxel as it is; running it a second time with the same labels
    changes nothing more. *)
Theorem X25_small_components_removed :
  forall (ncc : Z) (smart : bool) (Volume : DataArray) (CSz : list Z)
         (min_component_size : Z) (Scalars : DataArray),
    let run := RemoveSmallComponents ncc smart Volume CSz min_component_size in
    ((ncc <= 1)%Z \/ smart = false -> run Scalars = Scalars) /\
    length (run Scalars) = length Scalars /\
    ((1 < ncc)%Z -> smart = true ->
     forall id, (id < length Scalars)%nat ->
       (InSmallComponent Volume CSz min_component_size id = true ->
        GetTuple1 (run Scalars) id = 0) /\
       (InSmallComponent Volume CSz min_component_size id = false ->
        GetTuple1 (run Scalars) id = GetTuple1 Scalars id)) /\
    run (run Scalars) = run Scalars.
Proof.
  intros ncc smart Volume CSz m Scalars run. unfold run, RemoveSmallComponents.
  destruct (ComponentFilterLoop_spec Volume CSz m Scalars) as [HL Hv].
  cbv zeta in HL, Hv.
  split; [|split; [|split]].
  - intros [Hn | ->]; [|rewrite andb_false_r; reflexivity].
    rewrite (proj2 (Z.ltb_ge 1 ncc) Hn). reflexivity.
  - destruct ((1 <? ncc)%Z && smart); [exact HL | reflexivity].
  - intros Hn ->. rewrite (proj2 (Z.ltb_lt 1 ncc) Hn). simpl.
    intros id Hid. rewrite (Hv id Hid). split; intros ->; reflexivity.
  - destruct ((1 <? ncc)%Z && smart); [|reflexivity].
    set (out := for_down (length Scalars) (ComponentFilterBody Volume CSz m) Scalars) in *.
    destruct (ComponentFilterLoop_spec Volume CSz m out) as [HL' Hv'].
    cbv zeta in HL', Hv'.
    apply DataArray_ext; [exact HL'|].
    intros id Hid. rewrite HL' in Hid. rewrite (Hv' id Hid).
    rewrite HL in Hid. rewrite (Hv id Hid).
    destruct (InSmallComponent Volume CSz m id); reflexivity.
Qed.

(** The cast of a double that holds an integer. *)
Lemma truncate_IZR_signed (z : Z) : truncate (IZR z) = z.
Proof.
  destruct (Z.le_gt_cases 0 z) as [Hz | Hz]; [apply truncate_IZR; exact Hz|].
  unfold truncate.
  destruct (Rle_dec 0 (IZR z)) as [Hp | _].
  - apply le_IZR in Hp. lia.
  - rewrite <- opp_IZR, Int_part_IZR. lia.
Qed.

(** X25, witness: two components, of sizes 1 and 2, and a minimum size
    of 1.  The voxel of the first component is set to 0, a voxel of the
    second one and the voxel without label are kept. *)
Lemma X25_small_components_witness :
  ((1 < 2)%Z /\ true = true) /\
  GetTuple1 (RemoveSmallComponents 2 true [IZR (-1); IZR (-2); IZR (-2); IZR 0]
               [1; 2]%Z 1 [0.5; 0.7; 0.9; 0.3]) 0 = 0 /\
  GetTuple1 (RemoveSmallComponents 2 true [IZR (-1); IZR (-2); IZR (-2); IZR 0]
               [1; 2]%Z 1 [0.5; 0.7; 0.9; 0.3]) 1 = 0.7 /\
  GetTuple1 (RemoveSmallComponents 2 true [IZR (-1); IZR (-2); IZR (-2); IZR 0]
               [1; 2]%Z 1 [0.5; 0.7; 0.9; 0.3]) 3 = 0.3.
Proof.
  assert (Hn : (1 < 2)%Z) by lia.
  split; [split; [exact Hn | reflexivity]|].
  pose proof (proj1 (proj2 (proj2
                (X25_small_components_removed 2 true
                   [IZR (-1); IZR (-2); IZR (-2); IZR 0] [1; 2]%Z 1
                   [0.5; 0.7; 0.9; 0.3]))) Hn eq_refl) as H.
  cbv zeta in H.
  assert (Hsmall : forall id,
            InSmallComponent [IZR (-1); IZR (-2); IZR (-2); IZR 0] [1; 2]%Z 1 id
            = match id with 0%nat => true | _ => false end).
  { intros id. unfold InSmallComponent, GetTuple1. cbv zeta.
    destruct id as [|[|[|[|id]]]]; simpl nth;
      [| | | |destruct id; simpl nth]; rewrite truncate_IZR_signed; reflexivity. }
  split; [|split].
  - apply (proj1 (H 0%nat ltac:(simpl; lia))). apply Hsmall.
  - apply (proj2 (H 1%nat ltac:(simpl; lia))). apply Hsmall.
  - apply (proj2 (H 3%nat ltac:(simpl; lia))). apply Hsmall.
Defined.

(** ** Loops that write a grid voxel by voxel *)

Lemma fold_left_pointwise_In {St A : Type} (f g : St -> A -> St) :
  forall (l : list A),
    (forall s a, In a l -> f s a = g s a) ->
    forall s, fold_left f l s = fold_left g l s.
Proof.
  induction l as [|a l IH]; intros E s; simpl; [reflexivity|].
  rewrite E by (left; reflexivity). apply IH. intros s' a' Ha. apply E. right. exact Ha.
Qed.

(** Three nested loops, z outermost and x innermost, over the coordinates
    of the lists [zs], [ys] and [xs], whose pass at (x, y, z) writes
    [W x y z] at the voxel (x, y, z). *)
Lemma GridWrite_spec (dx dy dz : nat) (zs ys xs : list nat)
      (W : nat -> nat -> nat -> R) (out0 : DataArray) :
  let dim := (dx, dy, dz) in
  let res := fold_left (fun o z =>
               fold_left (fun o y =>
                 fold_left (fun o x => SetTuple1 o (GetId x y z dim) (W x y z)) xs o)
                 ys o) zs out0 in
  (forall x, In x xs -> (x < dx)%nat) -> (forall y, In y ys -> (y < dy)%nat) ->
  length res = length out0 /\
  (forall x y z, In x xs -> In y ys -> In z zs ->
     (GetId x y z dim < length out0)%nat ->
     GetTuple1 res (GetId x y z dim) = W x y z) /\
  (forall id, (forall x y z, In x xs -> In y ys -> In z zs -> GetId x y z dim <> id) ->
     GetTuple1 res id = GetTuple1 out0 id).
Proof.
  intros dim res Hxs Hys.
  set (keys := flat_map (fun z => flat_map (fun y => map (fun x => (x, y, z)) xs) ys) zs).
  set (idx := fun k : nat * nat * nat => GetId (fst (fst k)) (snd (fst k)) (snd k) dim).
  set (g := fun id => W (GetX id dim) (GetY id dim) (GetZ id dim)).
  assert (Hkeys : forall x y z, In (x, y, z) keys <-> In x xs /\ In y ys /\ In z zs).
  { intros x y z. unfold keys. rewrite in_flat_map. split.
    - intros (z' & Hz' & Hin). apply in_flat_map in Hin.
      destruct Hin as (y' & Hy' & Hin). apply in_map_iff in Hin.
      destruct Hin as (x' & E & Hx'). injection E as -> -> ->. auto.
    - intros (Hx & Hy & Hz). exists z. split; [exact Hz|].
      apply in_flat_map. exists y. split; [exact Hy|].
      apply in_map_iff. exists x. split; [reflexivity | exact Hx]. }
  assert (E : res = fold_left (fun o k => SetTuple1 o (idx k) (g (idx k))) keys out0).
  { unfold res, keys.
    rewrite <- (fold_left_flat_map
                  (fun o k => SetTuple1 o (idx k) (g (idx k)))
                  (fun z => flat_map (fun y => map (fun x => (x, y, z)) xs) ys)).
    apply fold_left_pointwise. intros o z.
    rewrite <- (fold_left_flat_map
                  (fun o k => SetTuple1 o (idx k) (g (idx k)))
                  (fun y => map (fun x => (x, y, z)) xs)).
    apply fold_left_pointwise_In. intros o' y Hy.
    rewrite <- (fold_left_map (fun x => (x, y, z))
                  (fun o k => SetTuple1 o (idx k) (g (idx k)))).
    apply fold_left_pointwise_In. intros o'' x Hx.
    unfold idx, g, dim. cbn [fst snd].
    destruct (coordinates_of_GetId dx dy dz x y z (Hxs x Hx) (Hys y Hy))
      as (-> & -> & ->).
    reflexivity. }
  rewrite E.
  destruct (fold_set_by_index idx g keys out0) as (HL & Hin & Hout).
  split; [exact HL|]. split.
  - intros x y z Hx Hy Hz Hlt.
    rewrite Hin; [|apply in_map_iff; exists (x, y, z); split;
                    [reflexivity | apply Hkeys; auto] | exact Hlt].
    unfold g, dim.
    destruct (coordinates_of_GetId dx dy dz x y z (Hxs x Hx) (Hys y Hy))
      as (-> & -> & ->).
    reflexivity.
  - intros id Hno. apply Hout. intros Hi. apply in_map_iff in Hi.
    destruct Hi as ([[x y] z] & Hid & Hk). apply Hkeys in Hk.
    destruct Hk as (Hx & Hy & Hz). apply (Hno x y z Hx Hy Hz). exact Hid.
Qed.

(** ** Divergence filter *)

(** A vector divided by its norm, or left alone when the norm is 0, has
    components between -1 and 1. *)
Lemma normalized_bounds (a b c : R) :
  let n := sqrt (a ^ 2 + b ^ 2 + c ^ 2) in
  let V := if Req_dec_T n 0 then (a, b, c) else (a / n, b / n, c / n) in
  -1 <= fst (fst V) <= 1 /\ -1 <= snd (fst V) <= 1 /\ -1 <= snd V <= 1.
Proof.
  cbv zeta.
  assert (Hs : 0 <= a ^ 2 + b ^ 2 + c ^ 2) by nra.
  destruct (Req_dec_T (sqrt (a ^ 2 + b ^ 2 + c ^ 2)) 0) as [E | E]; cbn [fst snd].
  - apply sqrt_eq_0 in E; [|exact Hs].
    assert (a = 0) by nra. assert (b = 0) by nra. assert (c = 0) by nra. lra.
  - set (n := sqrt (a ^ 2 + b ^ 2 + c ^ 2)) in *.
    assert (Hn : 0 < n).
    { pose proof (sqrt_pos (a ^ 2 + b ^ 2 + c ^ 2)). fold n in H. lra. }
    assert (Hnn : n * n = a ^ 2 + b ^ 2 + c ^ 2) by (apply sqrt_sqrt; exact Hs).
    assert (Hb : forall u, u ^ 2 <= n * n -> -1 <= u / n <= 1).
    { intros u Hu. assert (- n <= u <= n) by nra.
      assert (Hi : 0 < / n) by (apply Rinv_0_lt_compat; exact Hn).
      assert (H1 : n * / n = 1) by (apply Rinv_r; lra).
      unfold Rdiv. split; nra. }
    repeat split; apply Hb; nra.
Qed.

Lemma DivergenceRow_bounds (Scalars : DataArray) (dim : nat * nat * nat)
      (x y z : nat) (s : Z) (i : nat) :
  let V := DivergenceRow Scalars dim x y z s i in
  -1 <= fst (fst V) <= 1 /\ -1 <= snd (fst V) <= 1 /\ -1 <= snd V <= 1.
Proof. unfold DivergenceRow. apply normalized_bounds. Qed.

(** The value of a voxel is between 0 and 1. *)
Lemma DivergenceAt_range (Scalars : DataArray) (dim : nat * nat * nat)
      (x y z : nat) (s : Z) :
  0 <= DivergenceAt Scalars dim x y z s <= 1.
Proof.
  unfold DivergenceAt.
  destruct (Req_dec_T _ 0); [lra|]. cbv zeta.
  pose proof (DivergenceRow_bounds Scalars dim x y z s 0) as (H0 & _ & _).
  pose proof (DivergenceRow_bounds Scalars dim x y z s 1) as (H1 & _ & _).
  pose proof (DivergenceRow_bounds Scalars dim x y z s 2) as (_ & H2 & _).
  pose proof (DivergenceRow_bounds Scalars dim x y z s 3) as (_ & H3 & _).
  pose proof (DivergenceRow_bounds Scalars dim x y z s 4) as (_ & _ & H4).
  pose proof (DivergenceRow_bounds Scalars dim x y z s 5) as (_ & _ & H5).
  cbv zeta in *.
  destruct (Rltb _ 0) eqn:E; [|lra].
  apply Rltb_true in E. lra.
Qed.

(** What the filter stores: the value of the voxel away from the faces, 0
    within three voxels of a face. *)
Lemma GetDivergenceFilter_spec (dx dy dz : nat) (Scalars : DataArray) :
  length Scalars = (dx * dy * dz)%nat ->
  let dim := (dx, dy, dz) in
  let out := GetDivergenceFilter dim Scalars in
  let inner := fun (c d : nat) => (3 <= c)%nat /\ (c + 3 < d)%nat in
  length out = length Scalars /\
  forall x y z, (x < dx)%nat -> (y < dy)%nat -> (z < dz)%nat ->
    (inner x dx /\ inner y dy /\ inner z dz ->
     GetTuple1 out (GetId x y z dim) = DivergenceAt Scalars dim x y z 2) /\
    (~ (inner x dx /\ inner y dy /\ inner z dz) ->
     GetTuple1 out (GetId x y z dim) = 0).
Proof.
  intros Hlen dim out inner. unfold out, GetDivergenceFilter, for_range, dim.
  cbn [fst snd].
  assert (Hseq : forall d c, In c (seq (2 + 1) (d - 2 - 1 - (2 + 1))) <-> inner c d).
  { intros d c. rewrite in_seq. unfold inner. lia. }
  destruct (GridWrite_spec dx dy dz
              (seq (2 + 1) (dz - 2 - 1 - (2 + 1)))
              (seq (2 + 1) (dy - 2 - 1 - (2 + 1)))
              (seq (2 + 1) (dx - 2 - 1 - (2 + 1)))
              (fun x y z => DivergenceAt Scalars (dx, dy, dz) x y z (Z.of_nat 2))
              (FillComponent (length Scalars) 0))
    as (HL & Hin & Hout).
  { intros x Hx. apply Hseq in Hx. unfold inner in Hx. lia. }
  { intros y Hy. apply Hseq in Hy. unfold inner in Hy. lia. }
  cbv zeta in HL, Hin, Hout.
  split; [rewrite HL; apply FillComponent_length|].
  intros x y z Hx Hy Hz. split.
  - intros (Ix & Iy & Iz). apply Hin; [apply Hseq; assumption.. |].
    rewrite FillComponent_length, Hlen. apply GetId_lt; assumption.
  - intros Hno. rewrite Hout.
    + apply GetTuple1_FillComponent. rewrite Hlen. apply GetId_lt; assumption.
    + intros x' y' z' Hx' Hy' Hz' E.
      apply Hseq in Hx'. apply Hseq in Hy'. apply Hseq in Hz'.
      apply GetId_inj in E; [|unfold inner in *; lia..].
      destruct E as (-> & -> & ->). apply Hno. auto.
Qed.

Lemma probe_table_bounds (i : nat) :
  (-1 <= nth i Dx 0 <= 1)%Z /\ (-1 <= nth i Dy 0 <= 1)%Z /\ (-1 <= nth i Dz 0 <= 1)%Z.
Proof.
  do 6 (destruct i as [|i]; [simpl; lia|]). destruct i; simpl; lia.
Qed.

Lemma MI_bounds (j c : nat) : (0 <= MI j c <= 1)%Z.
Proof.
  unfold MI.
  do 3 (destruct j as [|j]; [do 3 (destruct c as [|c]; [simpl; lia|]); destruct c; simpl; lia|]).
  destruct j; destruct c; simpl; lia.
Qed.

(** On a grid whose voxels all hold the same value the six probes of a
    voxel away from the faces see no difference. *)
Lemma DivergenceAt_uniform (dx dy dz : nat) (Scalars : DataArray) (c : R)
      (x y z : nat) :
  (forall id, (id < dx * dy * dz)%nat -> GetTuple1 Scalars id = c) ->
  (3 <= x)%nat -> (x + 3 < dx)%nat -> (3 <= y)%nat -> (y + 3 < dy)%nat ->
  (3 <= z)%nat -> (z + 3 < dz)%nat ->
  DivergenceAt Scalars (dx, dy, dz) x y z 2 = 0.
Proof.
  intros Hc Hx0 Hx1 Hy0 Hy1 Hz0 Hz1.
  assert (HV : forall i j, DivergenceV Scalars (dx, dy, dz) x y z 2 i j = 0).
  { intros i j. unfold DivergenceV.
    destruct (probe_table_bounds i) as (Bx & By & Bz).
    pose proof (MI_bounds j 0). pose proof (MI_bounds j 1). pose proof (MI_bounds j 2).
    rewrite !Hc; [lra | |]; apply GetId_lt; unfold Shift; lia. }
  unfold DivergenceAt. destruct (Req_dec_T _ 0); [reflexivity|]. cbv zeta.
  assert (HR : forall i, DivergenceRow Scalars (dx, dy, dz) x y z 2 i = (0, 0, 0)).
  { intros i. unfold DivergenceRow. rewrite !HV.
    replace (0 ^ 2 + 0 ^ 2 + 0 ^ 2) with 0 by ring. rewrite sqrt_0.
    destruct (Req_dec_T 0 0) as [_ | Hn]; [reflexivity | contradiction]. }
  rewrite !HR. cbn [fst snd].
  rewrite (proj2 (Rltb_false _ 0)) by lra. reflexivity.
Qed.

(** X26. The divergence filter keeps the number of voxels and stores
    values between 0 and 1 only.  At a voxel at least three voxels away from
    every face it stores the divergence computed from the six probes; it
    stores 0 at every voxel within three voxels of a face of the grid and
    at every voxel whose input is 0, and on a grid whose voxels all hold
    the same value it stores 0 everywhere. *)
Theorem X26_divergence_filter_bounded :
  forall (dx dy dz : nat) (Scalars : DataArray),
    length Scalars = (dx * dy * dz)%nat ->
    let dim := (dx, dy, dz) in
    let out := GetDivergenceFilter dim Scalars in
    length out = length Scalars /\
    (forall id, 0 <= GetTuple1 out id <= 1) /\
    (forall x y z,
       (3 <= x)%nat -> (x + 3 < dx)%nat -> (3 <= y)%nat -> (y + 3 < dy)%nat ->
       (3 <= z)%nat -> (z + 3 < dz)%nat ->
       GetTuple1 out (GetId x y z dim) = DivergenceAt Scalars dim x y z 2) /\
    (forall x y z, (x < dx)%nat -> (y < dy)%nat -> (z < dz)%nat ->
       (x < 3)%nat \/ (dx <= x + 3)%nat \/ (y < 3)%nat \/ (dy <= y + 3)%nat \/
       (z < 3)%nat \/ (dz <= z + 3)%nat \/ GetTuple1 Scalars (GetId x y z dim) = 0 ->
       GetTuple1 out (GetId x y z dim) = 0) /\
    (forall c, (forall id, (id < dx * dy * dz)%nat -> GetTuple1 Scalars id = c) ->
       forall id, GetTuple1 out id = 0).
Proof.
  intros dx dy dz Scalars Hlen dim out. subst out dim.
  destruct (GetDivergenceFilter_spec dx dy dz Scalars Hlen) as (HL & Hv).
  cbv zeta in HL, Hv.
  set (out := GetDivergenceFilter (dx, dy, dz) Scalars) in *.
  set (inner := fun (c d : nat) => (3 <= c)%nat /\ (c + 3 < d)%nat).
  assert (Hdec : forall x y z,
            {inner x dx /\ inner y dy /\ inner z dz}
            + {~ (inner x dx /\ inner y dy /\ inner z dz)}).
  { intros x y z. unfold inner.
    destruct (le_dec 3 x); [|right; lia]. destruct (lt_dec (x + 3) dx); [|right; lia].
    destruct (le_dec 3 y); [|right; lia]. destruct (lt_dec (y + 3) dy); [|right; lia].
    destruct (le_dec 3 z); [|right; lia]. destruct (lt_dec (z + 3) dz); [|right; lia].
    left. lia. }
  assert (Hall : forall (P : R -> Prop), P 0 ->
            (forall x y z, (x < dx)%nat -> (y < dy)%nat -> (z < dz)%nat ->
                           inner x dx /\ inner y dy /\ inner z dz ->
                           P (DivergenceAt Scalars (dx, dy, dz) x y z 2)) ->
            forall id, P (GetTuple1 out id)).
  { intros P P0 PD id.
    destruct (lt_dec id (length out)) as [Hid | Hid];
      [|rewrite GetTuple1_out_of_range by lia; exact P0].
    rewrite HL, Hlen in Hid.
    assert (Hx : (0 < dx)%nat) by nia. assert (Hy : (0 < dy)%nat) by nia.
    destruct (GetId_of_coordinates dx dy dz id Hx Hy) as (Eid & HX & HY & HZ).
    specialize (HZ Hid). rewrite <- Eid.
    destruct (Hv _ _ _ HX HY HZ) as [Hin Hout].
    destruct (Hdec (GetX id (dx, dy, dz)) (GetY id (dx, dy, dz)) (GetZ id (dx, dy, dz)))
      as [Hi | Hi].
    - rewrite (Hin Hi). apply PD; assumption.
    - rewrite (Hout Hi). exact P0. }
  split; [exact HL|]. split; [|split; [|split]].
  - apply (Hall (fun v => 0 <= v <= 1)); [lra|].
    intros x y z _ _ _ _. apply DivergenceAt_range.
  - intros x y z Hx0 Hx1 Hy0 Hy1 Hz0 Hz1.
    destruct (Hv x y z ltac:(lia) ltac:(lia) ltac:(lia)) as [Hin _].
    apply Hin. unfold inner. lia.
  - intros x y z Hx Hy Hz Hb. destruct (Hv x y z Hx Hy Hz) as [Hin Hout].
    destruct (Hdec x y z) as [Hi | Hi]; [|apply Hout; exact Hi].
    rewrite (Hin Hi).
    destruct Hb as [H | [H | [H | [H | [H | [H | H]]]]]];
      try (exfalso; unfold inner in Hi; lia).
    unfold DivergenceAt. destruct (Req_dec_T _ 0); [reflexivity | contradiction].
  - intros c Hc. apply (Hall (fun v => v = 0)); [reflexivity|].
    intros x y z _ _ _ (Ix & Iy & Iz). unfold inner in *.
    apply (DivergenceAt_uniform dx dy dz Scalars c); [exact Hc | lia..].
Qed.

(** The values of [PeakField]. *)
Lemma PeakField_at (x y z : nat) :
  (x < 7)%nat -> (y < 7)%nat -> (z < 7)%nat ->
  GetTuple1 PeakField (GetId x y z (7, 7, 7)%nat) = PeakValue x y z.
Proof.
  intros Hx Hy Hz. unfold PeakField.
  rewrite GetTuple1_map_seq
    by (change 343%nat with (7 * 7 * 7)%nat; apply GetId_lt; assumption).
  destruct (coordinates_of_GetId 7 7 7 x y z Hx Hy) as (EX & EY & EZ).
  rewrite EX, EY, EZ. reflexivity.
Qed.

(** A difference of two probes around the centre of [PeakField]. *)
Lemma PeakField_V (i j : nat) :
  DivergenceV PeakField (7, 7, 7)%nat 3 3 3 2 i j
  = PeakValue (Shift 3 (2 * nth i Dx 0 + MI j 0)%Z)
              (Shift 3 (2 * nth i Dy 0 + MI j 1)%Z)
              (Shift 3 (2 * nth i Dz 0 + MI j 2)%Z)
    - PeakValue (Shift 3 (2 * nth i Dx 0 - MI j 0)%Z)
                (Shift 3 (2 * nth i Dy 0 - MI j 1)%Z)
                (Shift 3 (2 * nth i Dz 0 - MI j 2)%Z).
Proof.
  unfold DivergenceV.
  destruct (probe_table_bounds i) as (Bx & By & Bz).
  pose proof (MI_bounds j 0). pose proof (MI_bounds j 1). pose proof (MI_bounds j 2).
  rewrite !PeakField_at by (unfold Shift; lia). reflexivity.
Qed.

(** A row of [V] whose three differences are known. *)
Lemma DivergenceRow_normalized (Scalars : DataArray) (dim : nat * nat * nat)
      (x y z : nat) (s : Z) (i : nat) (v0 v1 v2 n : R) :
  DivergenceV Scalars dim x y z s i 0 = v0 ->
  DivergenceV Scalars dim x y z s i 1 = v1 ->
  DivergenceV Scalars dim x y z s i 2 = v2 ->
  0 < n -> v0 ^ 2 + v1 ^ 2 + v2 ^ 2 = n * n ->
  DivergenceRow Scalars dim x y z s i = (v0 / n, v1 / n, v2 / n).
Proof.
  intros E0 E1 E2 Hn Hsq. unfold DivergenceRow. rewrite E0, E1, E2. cbv zeta.
  rewrite (sqrt_of_square _ n) by (lra || exact Hsq).
  destruct (Req_dec_T n 0) as [Hz | _]; [lra | reflexivity].
Qed.

(** The six rows around the centre of [PeakField]: the unit vectors that
    point to the centre. *)
Lemma PeakField_rows :
  DivergenceRow PeakField (7, 7, 7)%nat 3 3 3 2 0 = (-2 / 2, 0 / 2, 0 / 2) /\
  DivergenceRow PeakField (7, 7, 7)%nat 3 3 3 2 1 = (2 / 2, 0 / 2, 0 / 2) /\
  DivergenceRow PeakField (7, 7, 7)%nat 3 3 3 2 2 = (0 / 2, -2 / 2, 0 / 2) /\
  DivergenceRow PeakField (7, 7, 7)%nat 3 3 3 2 3 = (0 / 2, 2 / 2, 0 / 2) /\
  DivergenceRow PeakField (7, 7, 7)%nat 3 3 3 2 4 = (0 / 2, 0 / 2, -2 / 2) /\
  DivergenceRow PeakField (7, 7, 7)%nat 3 3 3 2 5 = (0 / 2, 0 / 2, 2 / 2).
Proof.
  repeat split;
    (apply DivergenceRow_normalized;
     [rewrite PeakField_V; unfold PeakValue, Shift; simpl; lra
     |rewrite PeakField_V; unfold PeakValue, Shift; simpl; lra
     |rewrite PeakField_V; unfold PeakValue, Shift; simpl; lra
     |lra | lra]).
Qed.

(** X26, witness: on [PeakField], a 7 x 7 x 7 grid, the loops visit the
    centre, where the six probes point inwards and the divergence is 1;
    the voxel next to it is within three voxels of a face and holds 0. *)
Lemma X26_divergence_filter_witness :
  length PeakField = (7 * 7 * 7)%nat /\
  GetTuple1 (GetDivergenceFilter (7, 7, 7)%nat PeakField) (GetId 3 3 3 (7, 7, 7)%nat)
  = 1 /\
  GetTuple1 (GetDivergenceFilter (7, 7, 7)%nat PeakField) (GetId 2 3 3 (7, 7, 7)%nat)
  = 0.
Proof.
  assert (H : length PeakField = (7 * 7 * 7)%nat) by reflexivity.
  split; [exact H|].
  destruct (X26_divergence_filter_bounded 7 7 7 PeakField H)
    as (_ & _ & Hinner & Houter & _).
  cbv zeta in Hinner, Houter. split.
  - rewrite (Hinner 3%nat 3%nat 3%nat) by lia.
    unfold DivergenceAt. rewrite (PeakField_at 3 3 3) by lia.
    destruct (Req_dec_T (PeakValue 3 3 3) 0) as [Hz | _].
    { exfalso. unfold PeakValue in Hz. simpl in Hz. lra. }
    cbv zeta. destruct PeakField_rows as (R0 & R1 & R2 & R3 & R4 & R5).
    rewrite R0, R1, R2, R3, R4, R5. cbn [fst snd].
    rewrite (proj2 (Rltb_true _ 0)) by lra. lra.
  - apply Houter; lia.
Defined.

(** ** Structural connectivity enhancement *)

Lemma fold_left_filter {St A : Type} (c : A -> bool) (f : St -> A -> St) :
  forall (l : list A) (s : St),
    fold_left (fun o k => if c k then f o k else o) l s = fold_left f (filter c l) s.
Proof.
  induction l as [|a l IH]; intros s; simpl; [reflexivity|].
  destruct (c a); simpl; apply IH.
Qed.

(** Three nested loops, z outermost and x innermost, whose pass at
    (x, y, z) writes [W x y z] at the voxel (x, y, z) when the test
    [c x y z] holds and does nothing otherwise. *)
Lemma GridWriteIf_spec (dx dy dz : nat) (zs ys xs : list nat)
      (c : nat -> nat -> nat -> bool) (W : nat -> nat -> nat -> R) (out0 : DataArray) :
  let dim := (dx, dy, dz) in
  let res := fold_left (fun o z =>
               fold_left (fun o y =>
                 fold_left (fun o x =>
                   if c x y z then SetTuple1 o (GetId x y z dim) (W x y z) else o) xs o)
                 ys o) zs out0 in
  (forall x, In x xs -> (x < dx)%nat) -> (forall y, In y ys -> (y < dy)%nat) ->
  length res = length out0 /\
  (forall x y z, In x xs -> In y ys -> In z zs -> c x y z = true ->
     (GetId x y z dim < length out0)%nat ->
     GetTuple1 res (GetId x y z dim) = W x y z) /\
  (forall id, (forall x y z, In x xs -> In y ys -> In z zs -> c x y z = true ->
                             GetId x y z dim <> id) ->
     GetTuple1 res id = GetTuple1 out0 id).
Proof.
  intros dim res Hxs Hys.
  set (keys := flat_map (fun z => flat_map (fun y => map (fun x => (x, y, z)) xs) ys) zs).
  set (idx := fun k : nat * nat * nat => GetId (fst (fst k)) (snd (fst k)) (snd k) dim).
  set (ck := fun k : nat * nat * nat => c (fst (fst k)) (snd (fst k)) (snd k)).
  set (g := fun id => W (GetX id dim) (GetY id dim) (GetZ id dim)).
  assert (Hkeys : forall x y z, In (x, y, z) keys <-> In x xs /\ In y ys /\ In z zs).
  { intros x y z. unfold keys. rewrite in_flat_map. split.
    - intros (z' & Hz' & Hin). apply in_flat_map in Hin.
      destruct Hin as (y' & Hy' & Hin). apply in_map_iff in Hin.
      destruct Hin as (x' & E & Hx'). injection E as -> -> ->. auto.
    - intros (Hx & Hy & Hz). exists z. split; [exact Hz|].
      apply in_flat_map. exists y. split; [exact Hy|].
      apply in_map_iff. exists x. split; [reflexivity | exact Hx]. }
  assert (E : res = fold_left (fun o k => SetTuple1 o (idx k) (g (idx k)))
                              (filter ck keys) out0).
  { rewrite <- fold_left_filter. unfold res, keys.
    rewrite <- (fold_left_flat_map
                  (fun o k => if ck k then SetTuple1 o (idx k) (g (idx k)) else o)
                  (fun z => flat_map (fun y => map (fun x => (x, y, z)) xs) ys)).
    apply fold_left_pointwise. intros o z.
    rewrite <- (fold_left_flat_map
                  (fun o k => if ck k then SetTuple1 o (idx k) (g (idx k)) else o)
                  (fun y => map (fun x => (x, y, z)) xs)).
    apply fold_left_pointwise_In. intros o' y Hy.
    rewrite <- (fold_left_map (fun x => (x, y, z))
                  (fun o k => if ck k then SetTuple1 o (idx k) (g (idx k)) else o)).
    apply fold_left_pointwise_In. intros o'' x Hx.
    unfold idx, ck, g, dim. cbn [fst snd].
    destruct (coordinates_of_GetId dx dy dz x y z (Hxs x Hx) (Hys y Hy))
      as (-> & -> & ->).
    reflexivity. }
  rewrite E.
  destruct (fold_set_by_index idx g (filter ck keys) out0) as (HL & Hin & Hout).
  split; [exact HL|]. split.
  - intros x y z Hx Hy Hz Hc Hlt.
    rewrite Hin; [|apply in_map_iff; exists (x, y, z); split;
                    [reflexivity | apply filter_In; split; [apply Hkeys; auto | exact Hc]]
                  | exact Hlt].
    unfold g, dim.
    destruct (coordinates_of_GetId dx dy dz x y z (Hxs x Hx) (Hys y Hy))
      as (-> & -> & ->).
    reflexivity.
  - intros id Hno. apply Hout. intros Hi. apply in_map_iff in Hi.
    destruct Hi as ([[x y] z] & Hid & Hk). apply filter_In in Hk.
    destruct Hk as [Hk Hc]. apply Hkeys in Hk.
    destruct Hk as (Hx & Hy & Hz). apply (Hno x y z Hx Hy Hz Hc). exact Hid.
Qed.

(** The sum over the 26 neighbours lies between 26 times a lower and 26
    times an upper bound of their values. *)
Lemma NeighbourScan_sum_bounds (OriginalScalars : DataArray) (dim : nat * nat * nat)
      (x y z : nat) (lo hi : R) :
  (forall a b c, (-1 <= a <= 1)%Z -> (-1 <= b <= 1)%Z -> (-1 <= c <= 1)%Z ->
     lo <= GetTuple1 OriginalScalars (GetId (Shift x a) (Shift y b) (Shift z c) dim) <= hi) ->
  26 * lo <= neighbor_sum (NeighbourScan OriginalScalars dim x y z) <= 26 * hi.
Proof.
  intros Hb.
  cbv [NeighbourScan fold_left NeighbourBody Z.eqb andb neighbor_sum].
    pose proof (Hb (-1)%Z (-1)%Z (-1)%Z ltac:(lia) ltac:(lia) ltac:(lia)).
    pose proof (Hb 0%Z (-1)%Z (-1)%Z ltac:(lia) ltac:(lia) ltac:(lia)).
    pose proof (Hb 1%Z (-1)%Z (-1)%Z ltac:(lia) ltac:(lia) ltac:(lia)).
    pose proof (Hb (-1)%Z 0%Z (-1)%Z ltac:(lia) ltac:(lia) ltac:(lia)).
    pose proof (Hb 0%Z 0%Z (-1)%Z ltac:(lia) ltac:(lia) ltac:(lia)).
    pose proof (Hb 1%Z 0%Z (-1)%Z ltac:(lia) ltac:(lia) ltac:(lia)).
    pose proof (Hb (-1)%Z 1%Z (-1)%Z ltac:(lia) ltac:(lia) ltac:(lia)).
    pose proof (Hb 0%Z 1%Z (-1)%Z ltac:(lia) ltac:(lia) ltac:(lia)).
    pose proof (Hb 1%Z 1%Z (-1)%Z ltac:(lia) ltac:(lia) ltac:(lia)).
    pose proof (Hb (-1)%Z (-1)%Z 0%Z ltac:(lia) ltac:(lia) ltac:(lia)).
    pose proof (Hb 0%Z (-1)%Z 0%Z ltac:(lia) ltac:(lia) ltac:(lia)).
    pose proof (Hb 1%Z (-1)%Z 0%Z ltac:(lia) ltac:(lia) ltac:(lia)).
    pose proof (Hb (-1)%Z 0%Z 0%Z ltac:(lia) ltac:(lia) ltac:(lia)).
    pose proof (Hb 1%Z 0%Z 0%Z ltac:(lia) ltac:(lia) ltac:(lia)).
    pose proof (Hb (-1)%Z 1%Z 0%Z ltac:(lia) ltac:(lia) ltac:(lia)).
    pose proof (Hb 0%Z 1%Z 0%Z ltac:(lia) ltac:(lia) ltac:(lia)).
    pose proof (Hb 1%Z 1%Z 0%Z ltac:(lia) ltac:(lia) ltac:(lia)).
    pose proof (Hb (-1)%Z (-1)%Z 1%Z ltac:(lia) ltac:(lia) ltac:(lia)).
    pose proof (Hb 0%Z (-1)%Z 1%Z ltac:(lia) ltac:(lia) ltac:(lia)).
    pose proof (Hb 1%Z (-1)%Z 1%Z ltac:(lia) ltac:(lia) ltac:(lia)).
    pose proof (Hb (-1)%Z 0%Z 1%Z ltac:(lia) ltac:(lia) ltac:(lia)).
    pose proof (Hb 0%Z 0%Z 1%Z ltac:(lia) ltac:(lia) ltac:(lia)).
    pose proof (Hb 1%Z 0%Z 1%Z ltac:(lia) ltac:(lia) ltac:(lia)).
    pose proof (Hb (-1)%Z 1%Z 1%Z ltac:(lia) ltac:(lia) ltac:(lia)).
    pose proof (Hb 0%Z 1%Z 1%Z ltac:(lia) ltac:(lia) ltac:(lia)).
    pose proof (Hb 1%Z 1%Z 1%Z ltac:(lia) ltac:(lia) ltac:(lia)).
  lra.
Qed.

(** The value of a voxel is a mean of the original value, the two smoothed
    values and the mean of the neighbours, with weights that add to 1. *)
Lemma EnhancedValue_range (o s1 s2 lo hi : R) (st : NeighbourState) :
  lo <= o <= hi -> lo <= s1 <= hi -> lo <= s2 <= hi ->
  26 * lo <= neighbor_sum st <= 26 * hi ->
  lo <= EnhancedValue o s1 s2 st <= hi.
Proof.
  intros Ho H1 H2 Hn. unfold EnhancedValue. cbv zeta.
  destruct (Rgtb o 0.2); [lra|].
  destruct (Rgtb s2 (o * 1.5) && Rgtb s2 0.08); [lra|].
  destruct (Rltb o 0.05 && (4 <=? strong_neighbors st)%nat && Rgtb (max_neighbor st) 0.15);
    lra.
Qed.

(** What the enhancement stores at every voxel of the grid. *)
Lemma EnhanceStructuralConnectivity_spec
      (GaussianSmooth : R -> R -> R -> ImageData -> DataArray)
      (Image : ImageData) (sigma : R) :
  length (Scalars Image) = GetNumberOfPoints Image ->
  let S1 := GaussianSmooth sigma sigma (sigma * 0.3) Image in
  let S2 := GaussianSmooth (sigma * 1.8) (sigma * 1.8) (sigma * 0.6) Image in
  let out := Scalars (EnhanceStructuralConnectivity GaussianSmooth Image sigma) in
  length out = length (Scalars Image) /\
  forall x y z, (x < DimX Image)%nat -> (y < DimY Image)%nat -> (z < DimZ Image)%nat ->
    let id := GetId x y z (Dim Image) in
    GetTuple1 out id
    = if ((x =? 0) || (x =? DimX Image - 1) || (y =? 0) || (y =? DimY Image - 1)
          || (z =? 0) || (z =? DimZ Image - 1))%nat
      then GetTuple1 (Scalars Image) id
      else EnhancedValue (GetTuple1 (Scalars Image) id) (GetTuple1 S1 id)
                         (GetTuple1 S2 id)
                         (NeighbourScan (Scalars Image) (Dim Image) x y z).
Proof.
  intros Hlen S1 S2 out. unfold out, EnhanceStructuralConnectivity. cbn [Scalars].
  fold S1 S2. clearbody S1 S2.
  destruct Image as [[[dx dy] dz] ty sc].
  unfold GetNumberOfPoints, DimX, DimY, DimZ in *. cbn [Dim Scalars fst snd] in *.
  set (dim := (dx, dy, dz)).
  set (img := mkImage dim ty sc).
  set (W := fun x y z =>
              EnhancedValue (GetTuple1 sc (GetId x y z dim)) (GetTuple1 S1 (GetId x y z dim))
                            (GetTuple1 S2 (GetId x y z dim))
                            (NeighbourScan sc dim x y z)).
  set (face := fun x y z =>
                 ((x =? 0) || (x =? dx - 1) || (y =? 0) || (y =? dy - 1)
                  || (z =? 0) || (z =? dz - 1))%nat).
  set (out0 := FillComponent (length sc) 0).
  assert (E1 : EnhanceInterior img S1 S2 out0
               = fold_left (fun o z =>
                   fold_left (fun o y =>
                     fold_left (fun o x => SetTuple1 o (GetId x y z dim) (W x y z))
                               (seq 1 (dx - 1 - 1)) o)
                     (seq 1 (dy - 1 - 1)) o) (seq 1 (dz - 1 - 1)) out0) by reflexivity.
  assert (E2 : forall o, EnhanceBoundary img o
               = fold_left (fun o z =>
                   fold_left (fun o y =>
                     fold_left (fun o x =>
                       if face x y z
                       then SetTuple1 o (GetId x y z dim) (GetTuple1 sc (GetId x y z dim))
                       else o) (seq 0 dx) o) (seq 0 dy) o) (seq 0 dz) o)
    by (intros o; reflexivity).
  rewrite E2, E1.
  destruct (GridWrite_spec dx dy dz (seq 1 (dz - 1 - 1)) (seq 1 (dy - 1 - 1))
              (seq 1 (dx - 1 - 1)) W out0) as (HL1 & Hin1 & Hout1).
  { intros x Hx. apply in_seq in Hx. lia. }
  { intros y Hy. apply in_seq in Hy. lia. }
  cbv zeta in HL1, Hin1, Hout1. fold dim in HL1, Hin1, Hout1.
  set (res1 := fold_left _ (seq 1 (dz - 1 - 1)) out0) in *.
  destruct (GridWriteIf_spec dx dy dz (seq 0 dz) (seq 0 dy) (seq 0 dx) face
              (fun x y z => GetTuple1 sc (GetId x y z dim)) res1) as (HL2 & Hin2 & Hout2).
  { intros x Hx. apply in_seq in Hx. lia. }
  { intros y Hy. apply in_seq in Hy. lia. }
  cbv zeta in HL2, Hin2, Hout2. fold dim in HL2, Hin2, Hout2.
  set (res2 := fold_left _ (seq 0 dz) res1) in *.
  assert (HL0 : length out0 = length sc) by apply FillComponent_length.
  split; [congruence|].
  intros x y z Hx Hy Hz. cbv zeta. fold (face x y z).
  assert (Hlt : (GetId x y z dim < length sc)%nat)
    by (rewrite Hlen; apply GetId_lt; assumption).
  destruct (face x y z) eqn:Ef.
  - apply Hin2; [apply in_seq; lia.. | exact Ef | congruence].
  - rewrite Hout2.
    + apply Hin1; [apply in_seq; unfold face in Ef.. | congruence].
      * apply orb_false_iff in Ef. destruct Ef as [Ef _].
        repeat (apply orb_false_iff in Ef; destruct Ef as [Ef ?]).
        repeat match goal with H : (_ =? _)%nat = false |- _ =>
                                 apply Nat.eqb_neq in H end. lia.
      * apply orb_false_iff in Ef. destruct Ef as [Ef _].
        repeat (apply orb_false_iff in Ef; destruct Ef as [Ef ?]).
        repeat match goal with H : (_ =? _)%nat = false |- _ =>
                                 apply Nat.eqb_neq in H end. lia.
      * repeat (apply orb_false_iff in Ef; destruct Ef as [Ef ?]).
        repeat match goal with H : (_ =? _)%nat = false |- _ =>
                                 apply Nat.eqb_neq in H end. lia.
    + intros x' y' z' Hx' Hy' Hz' Hf E.
      apply in_seq in Hx'. apply in_seq in Hy'.
      unfold dim in E. apply GetId_inj in E; [|lia..].
      destruct E as (-> & -> & ->). congruence.
Qed.

(** X27. The connectivity enhancement keeps the dimensions and the number
    of voxels.  A voxel on a face of the grid keeps its value, whatever the
    smoothing returns; a voxel away from the faces whose value is above 0.2
    becomes 0.9 times its value plus 0.1 times the finer smoothed value;
    and when the original and the two smoothed values of all voxels lie
    between two bounds, so does every value of the result. *)
Theorem X27_enhancement_keeps_faces_and_range :
  forall (GaussianSmooth : R -> R -> R -> ImageData -> DataArray)
         (Image : ImageData) (sigma : R),
    length (Scalars Image) = GetNumberOfPoints Image ->
    let S1 := GaussianSmooth sigma sigma (sigma * 0.3) Image in
    let S2 := GaussianSmooth (sigma * 1.8) (sigma * 1.8) (sigma * 0.6) Image in
    let Enhanced := EnhanceStructuralConnectivity GaussianSmooth Image sigma in
    Dim Enhanced = Dim Image /\
    length (Scalars Enhanced) = length (Scalars Image) /\
    (forall x y z, (x < DimX Image)%nat -> (y < DimY Image)%nat -> (z < DimZ Image)%nat ->
       let id := GetId x y z (Dim Image) in
       (x = 0%nat \/ x = (DimX Image - 1)%nat \/ y = 0%nat \/ y = (DimY Image - 1)%nat \/
        z = 0%nat \/ z = (DimZ Image - 1)%nat ->
        GetTuple1 (Scalars Enhanced) id = GetTuple1 (Scalars Image) id) /\
       ((0 < x < DimX Image - 1)%nat -> (0 < y < DimY Image - 1)%nat ->
        (0 < z < DimZ Image - 1)%nat ->
        0.2 < GetTuple1 (Scalars Image) id ->
        GetTuple1 (Scalars Enhanced) id
        = GetTuple1 (Scalars Image) id * 0.9 + GetTuple1 S1 id * 0.1)) /\
    (forall lo hi,
       (forall id, (id < GetNumberOfPoints Image)%nat ->
          lo <= GetTuple1 (Scalars Image) id <= hi /\
          lo <= GetTuple1 S1 id <= hi /\ lo <= GetTuple1 S2 id <= hi) ->
       forall id, (id < GetNumberOfPoints Image)%nat ->
         lo <= GetTuple1 (Scalars Enhanced) id <= hi).
Proof.
  intros GaussianSmooth Image sigma Hlen S1 S2 Enhanced.
  destruct (EnhanceStructuralConnectivity_spec GaussianSmooth Image sigma Hlen)
    as (HL & Hv). cbv zeta in HL, Hv. fold S1 S2 Enhanced in HL, Hv.
  split; [reflexivity|]. split; [exact HL|]. split.
  - intros x y z Hx Hy Hz id. unfold id. rewrite (Hv x y z Hx Hy Hz). split.
    + intros Hface.
      assert (E : ((x =? 0) || (x =? DimX Image - 1) || (y =? 0) || (y =? DimY Image - 1)
                   || (z =? 0) || (z =? DimZ Image - 1))%nat = true).
      { repeat rewrite orb_true_iff. repeat rewrite Nat.eqb_eq. tauto. }
      rewrite E. reflexivity.
    + intros Ix Iy Iz Hstrong.
      assert (E : ((x =? 0) || (x =? DimX Image - 1) || (y =? 0) || (y =? DimY Image - 1)
                   || (z =? 0) || (z =? DimZ Image - 1))%nat = false).
      { repeat rewrite orb_false_iff. repeat rewrite Nat.eqb_neq. lia. }
      rewrite E. unfold EnhancedValue. cbv zeta. unfold Rgtb.
      rewrite (proj2 (Rltb_true _ _) Hstrong). reflexivity.
  - intros lo hi Hb id Hid.
    assert (Hx : (0 < DimX Image)%nat) by (unfold GetNumberOfPoints in Hid; nia).
    assert (Hy : (0 < DimY Image)%nat) by (unfold GetNumberOfPoints in Hid; nia).
    unfold GetNumberOfPoints, DimX, DimY, DimZ in *.
    destruct (Dim Image) as [[dx dy] dz] eqn:ED. cbn [fst snd] in *.
    destruct (GetId_of_coordinates dx dy dz id Hx Hy) as (Eid & HX & HY & HZ).
    specialize (HZ Hid).
    pose proof (Hv _ _ _ HX HY HZ) as Hval. rewrite Eid in Hval. rewrite Hval.
    destruct (Hb id Hid) as (Ho & H1 & H2).
    destruct (_ || _)%bool eqn:Ef; [exact Ho|].
    apply EnhancedValue_range; [exact Ho | exact H1 | exact H2|].
    apply NeighbourScan_sum_bounds. intros a b c Ha Hb' Hc.
    repeat (apply orb_false_iff in Ef; destruct Ef as [Ef ?]).
    repeat match goal with H : (_ =? _)%nat = false |- _ =>
                             apply Nat.eqb_neq in H end.
    apply Hb. apply GetId_lt; unfold Shift; lia.
Qed.

(** X27, witness: a dot in a grid of 3 x 3 x 3 voxels, with a smoothing
    that changes nothing. *)
Lemma X27_enhancement_witness :
  length (Scalars DotImage) = GetNumberOfPoints DotImage /\
  GetTuple1 (Scalars (EnhanceStructuralConnectivity NoSmoothing DotImage 1))
            (GetId 0 1 1 (Dim DotImage))
  = GetTuple1 (Scalars DotImage) (GetId 0 1 1 (Dim DotImage)).
Proof.
  assert (H : length (Scalars DotImage) = GetNumberOfPoints DotImage) by reflexivity.
  split; [exact H|].
  destruct (X27_enhancement_keeps_faces_and_range NoSmoothing DotImage 1 H)
    as (_ & _ & Hv & _).
  apply (Hv 0%nat 1%nat 1%nat); [vm_compute; lia.. | left; reflexivity].
Defined.

(** ** Gentle z-adaptive normalization *)











(** ** Maximum projection *)

(** The largest value of a column: not negative, at least every value of
    the column, and either 0 or one of them. *)
Lemma ColumnMax_spec (Image : ImageData) (x y : nat) :
  let m := ColumnMax Image x y in
  0 <= m /\
  (forall z, (z < DimZ Image)%nat ->
     GetTuple1 (Scalars Image) (GetId x y z (Dim Image)) <= m) /\
  (m = 0 \/ exists z, (z < DimZ Image)%nat /\
                      m = GetTuple1 (Scalars Image) (GetId x y z (Dim Image))).
Proof.
  cbv zeta. unfold ColumnMax.
  set (val := fun z => GetTuple1 (Scalars Image) (GetId x y z (Dim Image))).
  set (body := fun (z : nat) (vproj : R) => if Rgtb (val z) vproj then val z else vproj).
  change (0 <= for_down (DimZ Image) body 0 /\
          (forall z, (z < DimZ Image)%nat -> val z <= for_down (DimZ Image) body 0) /\
          (for_down (DimZ Image) body 0 = 0 \/
           exists z, (z < DimZ Image)%nat /\ for_down (DimZ Image) body 0 = val z)).
  assert (HP : 0 <= for_down (DimZ Image) body 0 /\
               (forall z, (0 <= z < DimZ Image)%nat ->
                          val z <= for_down (DimZ Image) body 0) /\
               (for_down (DimZ Image) body 0 = 0 \/
                exists z, (z < DimZ Image)%nat /\ for_down (DimZ Image) body 0 = val z));
    [|destruct HP as (H0 & Hge & Hin); split; [exact H0|];
      split; [intros z Hz; apply Hge; lia | exact Hin]].
  apply (for_down_inv
           (fun (k : nat) (m : R) =>
              0 <= m /\
              (forall z, (k <= z < DimZ Image)%nat -> val z <= m) /\
              (m = 0 \/ exists z, (z < DimZ Image)%nat /\ m = val z))).
  - split; [lra|]. split; [intros z Hz; lia | left; reflexivity].
  - intros k m Hk (H0 & Hge & Hin). unfold body, Rgtb.
    destruct (Rltb m (val k)) eqn:E.
    + apply Rltb_true in E. split; [lra|]. split.
      * intros z Hz. destruct (Nat.eq_dec z k) as [-> | Hne]; [lra|].
        assert (val z <= m) by (apply Hge; lia). lra.
      * right. exists k. split; [exact Hk | reflexivity].
    + apply Rltb_false in E. split; [exact H0|]. split; [|exact Hin].
      intros z Hz. destruct (Nat.eq_dec z k) as [-> | Hne]; [exact E|].
      apply Hge. lia.
Qed.

(** Two nested descending loops whose pass at (x, y) writes [V x y] at the
    pixel (x, y) of a one-plane grid. *)
Lemma ProjectionLoops_spec (dx dy : nat) (V : nat -> nat -> R) (out0 : DataArray) :
  length out0 = (dx * dy)%nat ->
  let out := for_down dx (fun x o =>
               for_down dy (fun y o =>
                 SetTuple1 o (GetId x y 0 (dx, dy, 1%nat)) (V x y)) o) out0 in
  length out = (dx * dy)%nat /\
  forall x y, (x < dx)%nat -> (y < dy)%nat ->
    GetTuple1 out (GetId x y 0 (dx, dy, 1%nat)) = V x y.
Proof.
  intros Hlen out.
  set (Q := fun (done : nat -> nat -> Prop) (o : DataArray) =>
              length o = (dx * dy)%nat /\
              forall x y, (x < dx)%nat -> (y < dy)%nat -> done x y ->
                GetTuple1 o (GetId x y 0 (dx, dy, 1%nat)) = V x y).
  assert (HQ : Q (fun x _ => (0 <= x)%nat) out).
  { unfold out.
    apply (for_down_inv (fun (x0 : nat) o => Q (fun x _ => (x0 <= x)%nat) o)).
    - split; [exact Hlen | intros x y Hx _ Hd; lia].
    - intros x0 o Hx0 [HL Hv].
      assert (HQ' : Q (fun x y => (S x0 <= x)%nat \/ (x = x0 /\ (0 <= y)%nat))
                      (for_down dy (fun y o' =>
                         SetTuple1 o' (GetId x0 y 0 (dx, dy, 1%nat)) (V x0 y)) o)).
      { apply (for_down_inv
                 (fun (y0 : nat) o' =>
                    Q (fun x y => (S x0 <= x)%nat \/ (x = x0 /\ (y0 <= y)%nat)) o')).
        - split; [exact HL|]. intros x y Hx Hy [Hd | [_ Hd]]; [|lia].
          apply Hv; assumption.
        - intros y0 o' Hy0 [HL' Hv'].
          split; [rewrite SetTuple1_length; exact HL'|].
          intros x y Hx Hy Hd.
          destruct (Nat.eq_dec (GetId x y 0 (dx, dy, 1%nat))
                               (GetId x0 y0 0 (dx, dy, 1%nat))) as [E | E].
          + apply GetId_inj in E; [|assumption..]. destruct E as (-> & -> & _).
            apply GetTuple1_SetTuple1_eq. rewrite HL'.
            unfold GetId. nia.
          + rewrite GetTuple1_SetTuple1_neq by (intros E'; apply E; symmetry; exact E').
            apply Hv'; [exact Hx | exact Hy|].
            destruct Hd as [Hd | [-> Hd]]; [left; exact Hd | right].
            split; [reflexivity|].
            destruct (Nat.eq_dec y y0) as [-> | Hne]; [contradiction | lia]. }
      destruct HQ' as [HL' Hv']. split; [exact HL'|].
      intros x y Hx Hy Hd. apply Hv'; [exact Hx | exact Hy|].
      destruct (Nat.eq_dec x x0); [right | left]; lia. }
  destruct HQ as [HL Hv]. split; [exact HL|].
  intros x y Hx Hy. apply Hv; [exact Hx | exact Hy | lia].
Qed.

(** X29. The maximum projection of an 8-bit image: an unsigned-char image
    of one plane with the x and y dimensions of the input, whose pixel
    (x, y) is at least every value of the column (x, y) and is either 0 or
    one of these values; so the projection of a binary image is binary. *)
Theorem X29_max_projection_dominates_columns :
  forall (Image : ImageData),
    IsByteArray (Scalars Image) ->
    length (Scalars Image) = GetNumberOfPoints Image ->
    let MaxP := MaxProjection Image in
    Dim MaxP = (DimX Image, DimY Image, 1%nat) /\
    length (Scalars MaxP) = (DimX Image * DimY Image)%nat /\
    (forall x y, (x < DimX Image)%nat -> (y < DimY Image)%nat ->
       let m := GetTuple1 (Scalars MaxP) (GetId x y 0 (Dim MaxP)) in
       m = ColumnMax Image x y /\
       (forall z, (z < DimZ Image)%nat ->
          GetTuple1 (Scalars Image) (GetId x y z (Dim Image)) <= m) /\
       (m = 0 \/ exists z, (z < DimZ Image)%nat /\
                           m = GetTuple1 (Scalars Image) (GetId x y z (Dim Image)))) /\
    (IsBinary (Scalars Image) -> IsBinary (Scalars MaxP)).
Proof.
  intros Image Hbytes Hlen MaxP. unfold MaxP, MaxProjection. cbn [Dim Scalars].
  destruct (ProjectionLoops_spec (DimX Image) (DimY Image)
              (fun x y => ToUnsignedChar (truncate (ColumnMax Image x y)))
              (FillComponent (DimX Image * DimY Image) 0)
              (FillComponent_length _ 0)) as [HL Hv].
  cbv zeta in HL, Hv.
  set (arr := for_down (DimX Image) _ (FillComponent (DimX Image * DimY Image) 0)) in *.
  assert (Hcast : forall x y, (x < DimX Image)%nat -> (y < DimY Image)%nat ->
            ToUnsignedChar (truncate (ColumnMax Image x y)) = ColumnMax Image x y).
  { intros x y Hx Hy.
    destruct (ColumnMax_spec Image x y) as (_ & _ & [E | (z & Hz & E)]).
    - rewrite E. change 0 with (IZR 0). rewrite truncate_IZR by lia. reflexivity.
    - rewrite E.
      assert (Hin : In (GetTuple1 (Scalars Image) (GetId x y z (Dim Image)))
                       (Scalars Image)).
      { apply GetTuple1_In. rewrite Hlen.
        unfold GetNumberOfPoints, DimX, DimY, DimZ in *.
        destruct (Dim Image) as [[dx dy] dz]. cbn [fst snd] in *.
        apply GetId_lt; assumption. }
      destruct (Hbytes _ Hin) as (n & Hn & ->).
      rewrite truncate_IZR by lia. apply ToUnsignedChar_byte. exact Hn. }
  assert (Hpix : forall x y, (x < DimX Image)%nat -> (y < DimY Image)%nat ->
            GetTuple1 arr (GetId x y 0 (DimX Image, DimY Image, 1%nat))
            = ColumnMax Image x y).
  { intros x y Hx Hy. rewrite (Hv x y Hx Hy). apply Hcast; assumption. }
  split; [reflexivity|]. split; [exact HL|]. split.
  - intros x y Hx Hy. cbv zeta. rewrite (Hpix x y Hx Hy).
    split; [reflexivity|]. destruct (ColumnMax_spec Image x y) as (_ & Hge & Hin).
    split; assumption.
  - intros Hbin v Hv'. destruct (In_GetTuple1 arr v Hv') as (id & Hid & <-).
    rewrite HL in Hid.
    assert (Hx : (0 < DimX Image)%nat) by nia.
    assert (Hy : (0 < DimY Image)%nat) by nia.
    destruct (GetId_of_coordinates (DimX Image) (DimY Image) 1 id Hx Hy)
      as (Eid & HX & HY & HZ).
    assert (HZ0 : GetZ id (DimX Image, DimY Image, 1%nat) = 0%nat)
      by (assert (GetZ id (DimX Image, DimY Image, 1%nat) < 1)%nat by (apply HZ; lia); lia).
    rewrite HZ0 in Eid. rewrite <- Eid. rewrite (Hpix _ _ HX HY).
    destruct (ColumnMax_spec Image (GetX id (DimX Image, DimY Image, 1%nat))
                (GetY id (DimX Image, DimY Image, 1%nat)))
      as (_ & _ & [E | (z & Hz & E)]).
    + left. exact E.
    + rewrite E. apply Hbin. apply GetTuple1_In. rewrite Hlen.
      unfold GetNumberOfPoints, DimX, DimY, DimZ in *.
      destruct (Dim Image) as [[dx dy] dz]. cbn [fst snd] in *.
      apply GetId_lt; assumption.
Qed.

(** X29, witness: the one-voxel 8-bit image. *)
Lemma X29_max_projection_witness :
  (IsByteArray (Scalars SampleImage) /\
   length (Scalars SampleImage) = GetNumberOfPoints SampleImage) /\
  GetTuple1 (Scalars (MaxProjection SampleImage))
            (GetId 0 0 0 (Dim (MaxProjection SampleImage)))
  = ColumnMax SampleImage 0 0.
Proof.
  assert (Hb : IsByteArray (Scalars SampleImage)).
  { intros v [<- | []]. exists 10%Z. split; [lia | reflexivity]. }
  assert (HL : length (Scalars SampleImage) = GetNumberOfPoints SampleImage)
    by reflexivity.
  split; [split; assumption|].
  destruct (X29_max_projection_dominates_columns SampleImage Hb HL)
    as (_ & _ & Hv & _).
  apply (Hv 0%nat 0%nat); vm_compute; lia.
Defined.

(** ** Tubule width *)








Lemma SquaredDifference_nonneg (a b : R) : 0 <= SquaredDifference a b.
Proof.
  unfold SquaredDifference. cbv zeta. apply RoundBinary_nonneg.
  pose proof (Rle_0_sqr (ToDouble (a - b))) as H. unfold Rsqr in H. exact H.
Qed.




(** *** Three equal widths *)






